(** * IITR_DF_Finals: the scoring, verification and migration code, embedded

    Two prototypes live in the repository: PS1 (fact checking of LLM output
    with an NLI model) and PS2 (schema mapping and SQLite migration).  This
    development embeds the parts of both that carry the stated properties:

    - [HybridEngine]   PS2/src/hybrid_ai_engine.py   (ensemble score)
    - [SemanticMatch]  PS2/src/semantic_matcher.py   (column matching)
    - [Nli]            PS1 core/claim_verifier.py    (_run_nli)
    - [Verifier]       PS1 core/claim_verifier.py    (verify_document)
    - [Migration]      PS2/src/migration_executor.py (MigrationExecutor)
    - [FactApi]        PS1 core/api.py               (/verify, /upload-source)
    - [ForgeApi]       PS2 api.py                    (session endpoints)
    - [Corrections]    PS1 core/correction_engine.py (correction report)
    - [HybridSignals]  PS2/src/hybrid_ai_engine.py   (similarity signals)
    - [Unmapped]       PS2/src/hybrid_ai_engine.py   (get_unmapped_columns)
    - [Visualization]  PS2 api.py                    (/api/visualization)
    - [ForgeUpload]    PS2 api.py                    (/api/upload)
    - [ForgeMigrate]   PS2 api.py                    (/api/migrate)
    - [SplitMerge]     PS2/src/migration_executor.py (split and merge candidates)

    Conventions.  Python floats are read as exact numbers: rationals [Q]
    where the code only adds, multiplies, divides and compares, reals [R]
    where it takes a softmax.  Calls into pre-trained models, the Gemini
    service and the SQL engine are Section variables: the theorems hold for
    every behaviour of those calls.  Python exceptions are values of [exn]
    (instances of [Exception], the class every handler in the code names). *)

From Stdlib Require Import ZArith QArith Qminmax Reals Lqa Lra Lia List Ascii String.
From Stdlib Require Import Sorted Permutation.
From stdpp Require Import base option list gmap strings.
Import ListNotations.

Set Default Proof Using "Type".

(** ** Shared vocabulary *)

(** A Python exception object: [type(e).__name__] and [str(e)]. *)
Record exn : Type := Exn { exn_type : string; exn_msg : string }.

(** Strict comparison of rationals as a boolean, for Python's [a > b]. *)
Definition Qlt_bool (a b : Q) : bool := negb (Qle_bool b a).

Lemma Qlt_bool_iff (a b : Q) : Qlt_bool a b = true <-> (a < b)%Q.
Proof.
  unfold Qlt_bool. rewrite negb_true_iff. split.
  - intros H. apply Qnot_le_lt. intros Hle.
    apply Qle_bool_iff in Hle. congruence.
  - intros H. destruct (Qle_bool b a) eqn:E; [|reflexivity].
    apply Qle_bool_iff in E. exfalso. eapply Qlt_not_le; eassumption.
Qed.

Lemma Qlt_bool_false (a b : Q) : Qlt_bool a b = false <-> (b <= a)%Q.
Proof.
  unfold Qlt_bool. rewrite negb_false_iff. apply Qle_bool_iff.
Qed.

(** ** Insertion-ordered dictionaries

    A Python [dict] whose iteration order matters: the keys in the order of
    their first insertion. *)

Module PyDict.

Section Dict.

Context {K V : Type} `{EqDecision K}.

Definition dict : Type := list (K * V).

(** [d.get(k)]. *)
Fixpoint get (k : K) (d : dict) : option V :=
  match d with
  | [] => None
  | (k', v) :: d' => if decide (k = k') then Some v else get k d'
  end.

(** [d[k] = v]: an existing key keeps its place. *)
Fixpoint set (k : K) (v : V) (d : dict) : dict :=
  match d with
  | [] => [(k, v)]
  | (k', v') :: d' =>
      if decide (k = k') then (k', v) :: d' else (k', v') :: set k v d'
  end.

(** [if k not in d: d[k] = init] followed by an update of [d[k]]. *)
Definition setdefault_update (k : K) (init : V) (upd : V -> V) (d : dict) : dict :=
  match get k d with
  | None => set k (upd init) d
  | Some v => set k (upd v) d
  end.

Lemma get_set_eq k v d : get k (set k v d) = Some v.
Proof.
  induction d as [|[k' v'] d IH]; simpl.
  - destruct (decide (k = k)); congruence.
  - destruct (decide (k = k')) as [E|E]; simpl.
    + destruct (decide (k = k')); congruence.
    + destruct (decide (k = k')); [contradiction | exact IH].
Qed.

Lemma get_set_ne k k' v d : k' <> k -> get k' (set k v d) = get k' d.
Proof.
  intros Hne. induction d as [|[k0 v0] d IH]; simpl.
  - destruct (decide (k' = k)); [contradiction | reflexivity].
  - destruct (decide (k = k0)) as [E|E]; simpl.
    + subst k0. destruct (decide (k' = k)); [contradiction | reflexivity].
    + destruct (decide (k' = k0)); [reflexivity | exact IH].
Qed.

Lemma get_none_keys k d : get k d = None <-> k ∉ map fst d.
Proof.
  induction d as [|[k' v'] d IH]; simpl.
  - split; [intros _; apply not_elem_of_nil | reflexivity].
  - rewrite not_elem_of_cons. destruct (decide (k = k')) as [E|E].
    + split; [discriminate | intros [Hne _]; contradiction].
    + rewrite IH. split; [intros Hn; split; assumption | intros [_ Hn]; exact Hn].
Qed.

Lemma keys_set k v d :
  map fst (set k v d) = if get k d is Some _ then map fst d else map fst d ++ [k].
Proof.
  induction d as [|[k' v'] d IH]; simpl; [reflexivity|].
  destruct (decide (k = k')) as [E|E]; simpl; [reflexivity|].
  rewrite IH. destruct (get k d); reflexivity.
Qed.

Lemma keys_setdefault_update k init upd d :
  map fst (setdefault_update k init upd d)
  = if get k d is Some _ then map fst d else map fst d ++ [k].
Proof.
  unfold setdefault_update.
  destruct (get k d) eqn:E; rewrite keys_set, E; reflexivity.
Qed.

Lemma get_setdefault_update_eq k init upd d :
  get k (setdefault_update k init upd d)
  = Some (upd (default init (get k d))).
Proof.
  unfold setdefault_update. destruct (get k d); apply get_set_eq.
Qed.

Lemma get_setdefault_update_ne k k' init upd d :
  k' <> k -> get k' (setdefault_update k init upd d) = get k' d.
Proof.
  intros Hne. unfold setdefault_update.
  destruct (get k d); apply get_set_ne, Hne.
Qed.

Lemma get_elem_of k v d : get k d = Some v -> (k, v) ∈ d.
Proof.
  induction d as [|[k' v'] d IH]; simpl; [discriminate|].
  destruct (decide (k = k')) as [->|E].
  - intros [= ->]. apply list_elem_of_here.
  - intros Hg. apply list_elem_of_further, IH, Hg.
Qed.

Lemma elem_of_get k v d : NoDup (map fst d) -> (k, v) ∈ d -> get k d = Some v.
Proof.
  induction d as [|[k' v'] d IH]; simpl; intros Hnd Hin.
  - apply elem_of_nil in Hin. destruct Hin.
  - apply NoDup_cons in Hnd as [Hk Hnd].
    apply elem_of_cons in Hin as [[= -> ->] | Hin].
    + destruct (decide (k' = k')); congruence.
    + destruct (decide (k = k')) as [->|E]; [|apply IH; assumption].
      exfalso. apply Hk. apply list_elem_of_fmap. exists (k', v). auto.
Qed.

Lemma elem_of_set k v d k' v' :
  (k', v') ∈ set k v d -> (k' = k /\ v' = v) \/ (k', v') ∈ d.
Proof.
  induction d as [|[k0 v0] d IH]; simpl.
  - intros Hin. apply list_elem_of_singleton in Hin. injection Hin as -> ->.
    left. auto.
  - destruct (decide (k = k0)) as [->|Hne]; intros Hin;
      apply elem_of_cons in Hin as [Heq | Hin].
    + injection Heq as -> ->. left. auto.
    + right. apply list_elem_of_further, Hin.
    + right. rewrite Heq. apply list_elem_of_here.
    + destruct (IH Hin) as [Hl | Hr]; [left; exact Hl|].
      right. apply list_elem_of_further, Hr.
Qed.

Lemma set_keys_nodup k v d : NoDup (map fst d) -> NoDup (map fst (set k v d)).
Proof.
  intros Hnd. rewrite keys_set. destruct (get k d) eqn:E; [exact Hnd|].
  apply NoDup_app. split; [exact Hnd|]. split; [|apply NoDup_singleton].
  intros k' Hk Hk'. apply list_elem_of_singleton in Hk'. subst k'.
  apply get_none_keys in E. contradiction.
Qed.

Lemma set_keys_incl k v d k' :
  k' ∈ map fst (set k v d) <-> k' = k \/ k' ∈ map fst d.
Proof.
  rewrite keys_set. destruct (get k d) eqn:E.
  - split; [auto|]. intros [-> | Hin]; [|exact Hin].
    destruct (decide (k ∈ map fst d)) as [Hin|Hout]; [exact Hin|].
    apply get_none_keys in Hout. congruence.
  - rewrite elem_of_app, list_elem_of_singleton. split; intros [H0 | H0]; auto.
Qed.

(** The total size of the values: [set] on a present key replaces one
    summand, on an absent key adds one. *)
Lemma total_setdefault_update (size : V -> nat) k init upd d :
  size init = 0 -> (forall v, size (upd v) = S (size v)) ->
  sum_list (map (fun kv => size (snd kv)) (setdefault_update k init upd d))
  = S (sum_list (map (fun kv => size (snd kv)) d)).
Proof.
  intros Hinit Hupd. unfold setdefault_update.
  induction d as [|[k' v'] d IH]; simpl.
  - rewrite Hupd, Hinit. reflexivity.
  - destruct (decide (k = k')) as [E|E]; simpl.
    + destruct (decide (k = k')); [|contradiction]. simpl.
      rewrite Hupd. reflexivity.
    + destruct (get k d) eqn:Eg; simpl;
        destruct (decide (k = k')); try contradiction; simpl;
        rewrite IH; lia.
Qed.

End Dict.

Arguments dict : clear implicits.

(** *** Grouping a list by a key

    The loop [for m in ms: if key(m) not in d: d[key(m)] = init(m);
    d[key(m)] = upd(m, d[key(m)])]. *)
Section Group.

Context {K M V : Type} `{EqDecision K}.
Variable key : M -> K.
Variable init : M -> V.
Variable upd : M -> V -> V.

Definition group_step (d : dict K V) (m : M) : dict K V :=
  setdefault_update (key m) (init m) (upd m) d.

Definition group_all (ms : list M) : dict K V := foldl group_step [] ms.

(** The value one key ends with, from the items of that key. *)
Definition built (l : list M) : option V :=
  match l with
  | [] => None
  | m0 :: _ => Some (foldl (fun v m => upd m v) (init m0) l)
  end.

Lemma built_snoc (l : list M) (m : M) :
  built (l ++ [m]) = Some (upd m (default (init m) (built l))).
Proof.
  destruct l as [|m0 l]; simpl; [reflexivity|].
  rewrite foldl_snoc. reflexivity.
Qed.

Lemma group_all_snoc ms m : group_all (ms ++ [m]) = group_step (group_all ms) m.
Proof. unfold group_all. apply foldl_snoc. Qed.

Lemma group_all_get (ms : list M) (k : K) :
  get k (group_all ms) = built (filter (fun m => key m = k) ms).
Proof.
  induction ms as [|m ms IH] using rev_ind; [reflexivity|].
  rewrite group_all_snoc, filter_app, filter_cons, filter_nil.
  unfold group_step. destruct (decide (key m = k)) as [E|E].
  - subst k. rewrite get_setdefault_update_eq, IH, built_snoc. reflexivity.
  - rewrite get_setdefault_update_ne by congruence.
    rewrite app_nil_r. exact IH.
Qed.

Lemma group_all_keys_nodup (ms : list M) : NoDup (map fst (group_all ms)).
Proof.
  induction ms as [|m ms IH] using rev_ind; [constructor|].
  rewrite group_all_snoc. unfold group_step. rewrite keys_setdefault_update.
  destruct (get (key m) (group_all ms)) eqn:E; [exact IH|].
  apply NoDup_app. split; [exact IH|]. split; [|apply NoDup_singleton].
  intros k Hk Hk'. apply list_elem_of_singleton in Hk'. subst k.
  apply get_none_keys in E. contradiction.
Qed.

Lemma group_all_keys (ms : list M) (k : K) :
  k ∈ map fst (group_all ms) <-> exists m, m ∈ ms /\ key m = k.
Proof.
  induction ms as [|m ms IH] using rev_ind.
  - split; [intros H0; apply elem_of_nil in H0; destruct H0|].
    intros (m & Hm & _). apply elem_of_nil in Hm. destruct Hm.
  - rewrite group_all_snoc. unfold group_step. rewrite keys_setdefault_update.
    assert (Hsnoc : (k ∈ map fst (group_all ms) \/ k = key m)
                    <-> exists m', m' ∈ ms ++ [m] /\ key m' = k).
    { rewrite IH. split.
      - intros [(m' & Hm' & <-) | ->].
        + exists m'. split; [apply elem_of_app; left; exact Hm' | reflexivity].
        + exists m. split; [|reflexivity].
          apply elem_of_app. right. apply list_elem_of_here.
      - intros (m' & Hm' & <-). apply elem_of_app in Hm' as [Hm' | Hm'].
        + left. exists m'. auto.
        + apply list_elem_of_singleton in Hm'. subst m'. right. reflexivity. }
    rewrite <- Hsnoc. destruct (get (key m) (group_all ms)) eqn:E.
    + split; [intros Hk; left; exact Hk|].
      intros [Hk | ->]; [exact Hk|].
      destruct (decide (key m ∈ map fst (group_all ms))) as [Hin|Hout];
        [exact Hin|].
      apply get_none_keys in Hout. congruence.
    + rewrite elem_of_app, list_elem_of_singleton. reflexivity.
Qed.

(** Every entry holds what the items of its key built, and there are some. *)
Lemma group_all_entry (ms : list M) (k : K) (v : V) :
  (k, v) ∈ group_all ms ->
  exists m0 rest,
    filter (fun m => key m = k) ms = m0 :: rest /\
    v = foldl (fun v m => upd m v) (init m0) (m0 :: rest).
Proof.
  intros Hin. apply elem_of_get in Hin; [|apply group_all_keys_nodup].
  rewrite group_all_get in Hin. unfold built in Hin.
  destruct (filter _ ms) as [|m0 rest]; [discriminate|].
  injection Hin as <-. exists m0, rest. split; reflexivity.
Qed.

Lemma group_all_total (size : V -> nat) (ms : list M) :
  (forall m, size (init m) = 0) ->
  (forall m v, size (upd m v) = S (size v)) ->
  sum_list (map (fun kv => size (snd kv)) (group_all ms)) = length ms.
Proof.
  intros Hinit Hupd. induction ms as [|m ms IH] using rev_ind; [reflexivity|].
  rewrite group_all_snoc. unfold group_step.
  rewrite (total_setdefault_update size); [|apply Hinit | apply Hupd].
  rewrite IH, length_app. simpl. lia.
Qed.

End Group.

End PyDict.

(** ** PS2: the hybrid engine's ensemble score (hybrid_ai_engine.py) *)

Module HybridEngine.

Local Open Scope Q_scope.
Local Open Scope string_scope.

(** One entry of the ["mappings"] list in Gemini's JSON answer.  A key that
    is absent (or, for ["target"], null) is [None]. *)
Record gemini_mapping : Type := GeminiMapping {
  gm_source : string;
  gm_target : option string;
  gm_confidence : option Q;
  gm_why_mapped : option string;
  gm_transformation : option string;
  gm_why_not_others : option string;
  gm_mapping_type : option string
}.

Record MatchResult : Type := mkMatchResult {
  source_column : string;
  target_column : string;
  source_table : string;
  target_table : string;
  bert_score : Q;
  gemini_score : Q;
  tfidf_score : Q;
  domain_score : Q;
  ensemble_score : Q;
  confidence_level : string;
  mapping_type : string;
  transformation : string;
  explanation : string;
  why_mapped : string;
  why_not_others : string;
  data_type_source : string;
  data_type_target : string
}.

(** The [best_match] dictionary of the inner loop. *)
Record best_match_t : Type := BestMatch {
  bm_target : string;
  bm_target_table : string;
  bm_bert : Q;
  bm_gemini : Q;
  bm_tfidf : Q;
  bm_domain : Q;
  bm_gemini_info : option gemini_mapping;
  bm_target_type : string
}.

Record stats_t : Type := Stats {
  total_mappings : nat;
  high_confidence : nat;
  medium_confidence : nat;
  low_confidence : nat;
  average_score : Q;
  gemini_enabled : bool
}.

(** [self.weights], set in [__init__]. *)
Definition weight_bert : Q := 30 # 100.
Definition weight_gemini : Q := 40 # 100.
Definition weight_tfidf : Q := 10 # 100.
Definition weight_domain : Q := 20 # 100.

(** A schema: [{table_name: {column_name: data_type}}], in insertion order. *)
Definition schema : Type := list (string * list (string * string)).

Section Engine.

(** [self.gemini_model is not None]. *)
Variable gemini_model : bool.
(** The three local similarity measures. *)
Variable calculate_bert_similarity : string -> string -> Q.
Variable calculate_tfidf_similarity : string -> string -> Q.
Variable calculate_domain_similarity : string -> string -> Q.
(** [get_gemini_analysis(src_cols, tgt_cols, src_table, tgt_table)]: the
    ["mappings"] of the parsed answer ([[]] when the call fails). *)
Variable get_gemini_analysis :
  list string -> list string -> string -> string -> list gemini_mapping.

(** [base_ensemble] of the Gemini branch. *)
Definition base_ensemble (bert gemini tfidf domain : Q) : Q :=
  weight_bert * bert + weight_gemini * gemini
  + weight_tfidf * tfidf + weight_domain * domain.

(** The [if self.gemini_model: ... else: ...] block that computes
    [ensemble] for one column pair. *)
Definition ensemble (bert gemini tfidf domain : Q) : Q :=
  if gemini_model then
    let base := base_ensemble bert gemini tfidf domain in
    if Qle_bool (8 # 10) gemini then base * (3 # 10) + gemini * (7 # 10)
    else if Qle_bool (5 # 10) gemini then base * (5 # 10) + gemini * (5 # 10)
    else base
  else
    (50 # 100) * bert + (21 # 100) * tfidf + (29 # 100) * domain.

(** [f"{src_table}_{tgt_table}"]. *)
Definition gemini_key (src_table tgt_table : string) : string :=
  src_table ++ "_" ++ tgt_table.

(** The loop that fills [gemini_cache]. *)
Definition build_gemini_cache (source_schema target_schema : schema)
  : gmap string (list gemini_mapping) :=
  if gemini_model then
    foldl (fun cache s =>
      foldl (fun cache t =>
        <[ gemini_key (fst s) (fst t) :=
             get_gemini_analysis (map fst (snd s)) (map fst (snd t))
                                 (fst s) (fst t) ]> cache)
        cache target_schema)
      ∅ source_schema
  else ∅.

(** [{m['source']: m for m in gemini_data.get('mappings', [])}]. *)
Definition gemini_mappings_of (ms : list gemini_mapping)
  : gmap string gemini_mapping :=
  foldl (fun d m => <[ gm_source m := m ]> d) ∅ ms.

(** The Gemini score of one pair: the confidence when Gemini's target for
    the source column is this target column, else 0.0. *)
Definition gemini_score_of (info : option gemini_mapping) (tgt_col : string) : Q :=
  match info with
  | Some m =>
      if decide (gm_target m = Some tgt_col)
      then default 0 (gm_confidence m) else 0
  | None => 0
  end.

(** The four signals and the ensemble of one (source, target) pair. *)
Definition pair_scores (info : option gemini_mapping) (src_col tgt_col : string)
  : Q * Q * Q * Q :=
  (calculate_bert_similarity src_col tgt_col,
   gemini_score_of info tgt_col,
   calculate_tfidf_similarity src_col tgt_col,
   calculate_domain_similarity src_col tgt_col).

Definition pair_ensemble (info : option gemini_mapping) (src_col tgt_col : string) : Q :=
  let '(b, g, t, d) := pair_scores info src_col tgt_col in ensemble b g t d.

(** One iteration of [for tgt_col, tgt_type in tgt_columns.items()]. *)
Definition scan_column (info : option gemini_mapping) (src_col tgt_table : string)
    (acc : option best_match_t * Q) (tc : string * string)
  : option best_match_t * Q :=
  let '(b, g, t, d) := pair_scores info src_col (fst tc) in
  let e := ensemble b g t d in
  if Qlt_bool (snd acc) e
  then (Some (BestMatch (fst tc) tgt_table b g t d info (snd tc)), e)
  else acc.

(** One iteration of [for tgt_table, tgt_columns in target_schema.items()]. *)
Definition scan_table (cache : gmap string (list gemini_mapping))
    (src_table src_col : string)
    (acc : option best_match_t * Q) (t : string * list (string * string))
  : option best_match_t * Q :=
  let gemini_data := default [] (cache !! gemini_key src_table (fst t)) in
  let info := gemini_mappings_of gemini_data !! src_col in
  foldl (scan_column info src_col (fst t)) acc (snd t).

(** [best_match, best_score] after all target tables were scanned. *)
Definition best_for (cache : gmap string (list gemini_mapping))
    (target_schema : schema) (src_table src_col : string)
  : option best_match_t * Q :=
  foldl (scan_table cache src_table src_col) (None, 0) target_schema.

Definition _generate_explanation (source target : string) (bm : best_match_t)
  : string :=
  if Qlt_bool (8 # 10) (bm_domain bm) then
    "'" ++ source ++ "' is a common abbreviation for '" ++ target
        ++ "' in database systems"
  else if Qlt_bool (8 # 10) (bm_bert bm) then
    "'" ++ source ++ "' and '" ++ target
        ++ "' have very similar semantic meanings"
  else if Qlt_bool (7 # 10) (bm_tfidf bm) then
    "'" ++ source ++ "' and '" ++ target ++ "' share similar naming patterns"
  else
    "Multiple factors suggest '" ++ source ++ "' corresponds to '" ++ target
        ++ "'".

Definition confidence_of (best_score : Q) : string :=
  if Qle_bool (85 # 100) best_score then "high"
  else if Qle_bool (65 # 100) best_score then "medium" else "low".

(** [gemini_info.get(key, dflt)] on the optional Gemini entry. *)
Definition info_get (info : option gemini_mapping)
    (field : gemini_mapping -> option string) (dflt : string) : string :=
  default dflt (info ≫= field).

(** The [MatchResult] appended for a source column whose best score passed
    the threshold. *)
Definition make_result (src_table src_col src_type : string)
    (bm : best_match_t) (best_score : Q) : MatchResult :=
  let info := bm_gemini_info bm in
  let why := info_get info gm_why_mapped
               (_generate_explanation src_col (bm_target bm) bm) in
  {| source_column := src_col;
     target_column := bm_target bm;
     source_table := src_table;
     target_table := bm_target_table bm;
     bert_score := bm_bert bm;
     gemini_score := bm_gemini bm;
     tfidf_score := bm_tfidf bm;
     domain_score := bm_domain bm;
     ensemble_score := best_score;
     confidence_level := confidence_of best_score;
     mapping_type := info_get info gm_mapping_type "1:1";
     transformation := info_get info gm_transformation "none";
     explanation := why;
     why_mapped := why;
     why_not_others := info_get info gm_why_not_others "";
     data_type_source := src_type;
     data_type_target := bm_target_type bm |}.

(** The body of [for src_col, src_type in src_columns.items()]: the results
    this source column contributes (none or one). *)
Definition match_source_column (cache : gmap string (list gemini_mapping))
    (target_schema : schema) (threshold : Q)
    (src_table : string) (sc : string * string) : list MatchResult :=
  match best_for cache target_schema src_table (fst sc) with
  | (Some bm, best_score) =>
      if Qle_bool threshold best_score
      then [make_result src_table (fst sc) (snd sc) bm best_score]
      else []
  | (None, _) => []
  end.

Definition count_level (lvl : string) (rs : list MatchResult) : nat :=
  length (filter (fun r => confidence_level r = lvl) rs).

Definition mean (xs : list Q) : Q :=
  match xs with
  | [] => 0
  | _ => fold_right Qplus 0 xs / inject_Z (Z.of_nat (length xs))
  end.

(** [HybridAIEngine.match_columns]. *)
Definition match_columns (source_schema target_schema : schema) (threshold : Q)
  : list MatchResult * stats_t :=
  let cache := build_gemini_cache source_schema target_schema in
  let results :=
    concat (map (fun s =>
      concat (map (match_source_column cache target_schema threshold (fst s))
                  (snd s)))
      source_schema) in
  (results,
   {| total_mappings := length results;
      high_confidence := count_level "high" results;
      medium_confidence := count_level "medium" results;
      low_confidence := count_level "low" results;
      average_score := mean (map ensemble_score results);
      gemini_enabled := gemini_model |}).

(** *** Facts about the scan for the best target column *)

(** The best-match record always carries the four signals its score was
    computed from. *)
Definition scored (acc : option best_match_t * Q) : Prop :=
  match fst acc with
  | Some bm =>
      snd acc = ensemble (bm_bert bm) (bm_gemini bm) (bm_tfidf bm) (bm_domain bm)
  | None => True
  end.

Lemma scan_column_scored info src tt acc tc :
  scored acc -> scored (scan_column info src tt acc tc).
Proof.
  unfold scan_column, pair_scores. intros Hacc.
  destruct (Qlt_bool _ _); [reflexivity | exact Hacc].
Qed.

Lemma scan_column_mono info src tt acc tc :
  snd acc <= snd (scan_column info src tt acc tc).
Proof.
  unfold scan_column, pair_scores.
  destruct (Qlt_bool _ _) eqn:E; [|apply Qle_refl].
  apply Qlt_bool_iff in E. simpl. apply Qlt_le_weak, E.
Qed.

Lemma scan_column_ge info src tt acc tc :
  pair_ensemble info src (fst tc) <= snd (scan_column info src tt acc tc).
Proof.
  unfold scan_column, pair_ensemble, pair_scores.
  destruct (Qlt_bool _ _) eqn:E; [apply Qle_refl|].
  apply Qlt_bool_false in E. exact E.
Qed.

Lemma scan_columns_scored info src tt cols acc :
  scored acc -> scored (foldl (scan_column info src tt) acc cols).
Proof.
  revert acc. induction cols as [|tc cols IH]; intros acc Hacc; simpl.
  - exact Hacc.
  - apply IH, scan_column_scored, Hacc.
Qed.

Lemma scan_columns_mono info src tt cols acc :
  snd acc <= snd (foldl (scan_column info src tt) acc cols).
Proof.
  revert acc. induction cols as [|tc cols IH]; intros acc; simpl.
  - apply Qle_refl.
  - eapply Qle_trans; [apply scan_column_mono | apply IH].
Qed.

Lemma scan_columns_ge info src tt cols acc tc :
  In tc cols ->
  pair_ensemble info src (fst tc)
  <= snd (foldl (scan_column info src tt) acc cols).
Proof.
  revert acc. induction cols as [|c cols IH]; intros acc Hin; simpl.
  - destruct Hin.
  - destruct Hin as [-> | Hin].
    + eapply Qle_trans; [apply scan_column_ge | apply scan_columns_mono].
    + apply IH, Hin.
Qed.

(** The Gemini entry consulted for a source column against one target
    table. *)
Definition info_for (cache : gmap string (list gemini_mapping))
    (src_table tgt_table src_col : string) : option gemini_mapping :=
  gemini_mappings_of (default [] (cache !! gemini_key src_table tgt_table))
    !! src_col.

Lemma scan_tables_scored cache st sc tables acc :
  scored acc -> scored (foldl (scan_table cache st sc) acc tables).
Proof.
  revert acc. induction tables as [|t tables IH]; intros acc Hacc; simpl.
  - exact Hacc.
  - apply IH. unfold scan_table. apply scan_columns_scored, Hacc.
Qed.

Lemma scan_tables_mono cache st sc tables acc :
  snd acc <= snd (foldl (scan_table cache st sc) acc tables).
Proof.
  revert acc. induction tables as [|t tables IH]; intros acc; simpl.
  - apply Qle_refl.
  - eapply Qle_trans; [|apply IH]. unfold scan_table. apply scan_columns_mono.
Qed.

Lemma scan_tables_ge cache st sc tables acc t tc :
  In t tables -> In tc (snd t) ->
  pair_ensemble (info_for cache st (fst t) sc) sc (fst tc)
  <= snd (foldl (scan_table cache st sc) acc tables).
Proof.
  revert acc. induction tables as [|t0 tables IH]; intros acc Ht Htc; simpl.
  - destruct Ht.
  - destruct Ht as [-> | Ht].
    + eapply Qle_trans; [|apply scan_tables_mono].
      unfold scan_table, info_for. apply scan_columns_ge, Htc.
    + apply IH; assumption.
Qed.

(** What a result of [match_columns] is: the record built from the best
    match of one source column. *)
Lemma match_columns_inv source_schema target_schema threshold r :
  In r (fst (match_columns source_schema target_schema threshold)) ->
  exists s sc bm,
    In s source_schema /\ In sc (snd s) /\
    let cache := build_gemini_cache source_schema target_schema in
    best_for cache target_schema (fst s) (fst sc) = (Some bm, ensemble_score r) /\
    Qle_bool threshold (ensemble_score r) = true /\
    r = make_result (fst s) (fst sc) (snd sc) bm (ensemble_score r).
Proof.
  unfold match_columns; simpl. intros Hr.
  apply in_concat in Hr as (rs & Hrs & Hr).
  apply in_map_iff in Hrs as (s & <- & Hs).
  apply in_concat in Hr as (rs' & Hrs' & Hr).
  apply in_map_iff in Hrs' as (sc & <- & Hsc).
  unfold match_source_column in Hr.
  destruct (best_for _ _ _ _) as [[bm|] best] eqn:Eb; [|destruct Hr].
  destruct (Qle_bool threshold best) eqn:Et; [|destruct Hr].
  destruct Hr as [<- | []].
  exists s, sc, bm. simpl. auto.
Qed.

(** *** What the results are made of *)

(** While target columns are scanned for one source column, the best match
    so far is a column of the target schema, recorded with its table, its
    type, the Gemini entry consulted and the signals of the pair; its score
    is positive. *)
Definition tracked (cache : gmap string (list gemini_mapping))
    (target_schema : schema) (src_table src_col : string)
    (acc : option best_match_t * Q) : Prop :=
  0 <= snd acc /\
  match fst acc with
  | Some bm =>
      0 < snd acc /\
      exists t tc, In t target_schema /\ In tc (snd t) /\
        bm_target bm = fst tc /\ bm_target_table bm = fst t /\
        bm_target_type bm = snd tc /\
        bm_gemini_info bm = info_for cache src_table (fst t) src_col /\
        (bm_bert bm, bm_gemini bm, bm_tfidf bm, bm_domain bm)
        = pair_scores (bm_gemini_info bm) src_col (fst tc)
  | None => True
  end.

Lemma scan_column_tracked cache target_schema src_table src_col t tc acc :
  In t target_schema -> In tc (snd t) ->
  tracked cache target_schema src_table src_col acc ->
  tracked cache target_schema src_table src_col
    (scan_column (info_for cache src_table (fst t) src_col) src_col (fst t) acc tc).
Proof.
  intros Ht Htc [Hnn Hacc]. unfold scan_column.
  destruct (pair_scores _ _ _) as [[[b g] f] d] eqn:Ep.
  destruct (Qlt_bool _ _) eqn:E; [|split; assumption].
  apply Qlt_bool_iff in E.
  assert (Hpos : 0 < ensemble b g f d) by (eapply Qle_lt_trans; eassumption).
  split; simpl; [apply Qlt_le_weak, Hpos|].
  split; [exact Hpos|]. exists t, tc. simpl. rewrite Ep. auto 10.
Qed.

Lemma scan_columns_tracked cache target_schema src_table src_col t cols : forall acc,
  In t target_schema -> (forall tc, In tc cols -> In tc (snd t)) ->
  tracked cache target_schema src_table src_col acc ->
  tracked cache target_schema src_table src_col
    (foldl (scan_column (info_for cache src_table (fst t) src_col) src_col (fst t))
           acc cols).
Proof.
  induction cols as [|tc cols IH]; intros acc Ht Hsub Hacc; simpl; [exact Hacc|].
  apply IH; [exact Ht | intros x Hx; apply Hsub; right; exact Hx |].
  apply scan_column_tracked; [exact Ht | apply Hsub; left; reflexivity | exact Hacc].
Qed.

Lemma scan_tables_tracked cache target_schema src_table src_col tables : forall acc,
  (forall t, In t tables -> In t target_schema) ->
  tracked cache target_schema src_table src_col acc ->
  tracked cache target_schema src_table src_col
    (foldl (scan_table cache src_table src_col) acc tables).
Proof.
  induction tables as [|t tables IH]; intros acc Hsub Hacc; simpl; [exact Hacc|].
  apply IH; [intros x Hx; apply Hsub; right; exact Hx|].
  unfold scan_table. fold (info_for cache src_table (fst t) src_col).
  apply scan_columns_tracked; [apply Hsub; left; reflexivity | auto | exact Hacc].
Qed.

Lemma best_for_tracked cache target_schema src_table src_col :
  tracked cache target_schema src_table src_col
    (best_for cache target_schema src_table src_col).
Proof.
  unfold best_for. apply scan_tables_tracked; [auto|].
  split; simpl; [apply Qle_refl | exact I].
Qed.

Lemma confidence_of_cases (e : Q) :
  (85 # 100 <= e -> confidence_of e = "high") /\
  (65 # 100 <= e -> e < 85 # 100 -> confidence_of e = "medium") /\
  (e < 65 # 100 -> confidence_of e = "low").
Proof.
  unfold confidence_of.
  destruct (Qle_bool (85 # 100) e) eqn:E1; [apply Qle_bool_iff in E1 |];
  destruct (Qle_bool (65 # 100) e) eqn:E2; try apply Qle_bool_iff in E2;
    repeat split; intros; try reflexivity; exfalso.
  - eapply Qlt_not_le; eassumption.
  - apply (Qlt_not_le _ _ H). eapply Qle_trans; [|exact E1]. discriminate.
  - eapply Qlt_not_le; eassumption.
  - apply (Qlt_not_le _ _ H). eapply Qle_trans; [|exact E1]. discriminate.
  - assert (Hc : Qle_bool (85 # 100) e = true) by (apply Qle_bool_iff; assumption).
    congruence.
  - eapply Qlt_not_le; eassumption.
  - assert (Hc : Qle_bool (85 # 100) e = true) by (apply Qle_bool_iff; assumption).
    congruence.
  - assert (Hc : Qle_bool (65 # 100) e = true) by (apply Qle_bool_iff; assumption).
    congruence.
Qed.

Lemma confidence_of_known (e : Q) :
  confidence_of e = "high" \/ confidence_of e = "medium" \/ confidence_of e = "low".
Proof.
  unfold confidence_of. destruct (Qle_bool (85 # 100) e); [auto|].
  destruct (Qle_bool (65 # 100) e); auto.
Qed.

(** X5.  Every result of [match_columns] maps a column of the source schema
    to a column of the target schema and records the declared types of both;
    its BERT, TF-IDF and domain scores are the signals of that very pair;
    its ensemble score is positive and at least the threshold; and its
    confidence level is "high" from 0.85, "medium" from 0.65 and "low"
    below. *)
Theorem match_columns_results_are_schema_pairs
    (source_schema target_schema : schema) (threshold : Q) (r : MatchResult) :
  In r (fst (match_columns source_schema target_schema threshold)) ->
  (exists s sc t tc,
     In s source_schema /\ In sc (snd s) /\ In t target_schema /\ In tc (snd t) /\
     source_table r = fst s /\ source_column r = fst sc /\
     data_type_source r = snd sc /\
     target_table r = fst t /\ target_column r = fst tc /\
     data_type_target r = snd tc /\
     bert_score r = calculate_bert_similarity (fst sc) (fst tc) /\
     tfidf_score r = calculate_tfidf_similarity (fst sc) (fst tc) /\
     domain_score r = calculate_domain_similarity (fst sc) (fst tc)) /\
  threshold <= ensemble_score r /\ 0 < ensemble_score r /\
  (85 # 100 <= ensemble_score r -> confidence_level r = "high") /\
  (65 # 100 <= ensemble_score r -> ensemble_score r < 85 # 100 ->
   confidence_level r = "medium") /\
  (ensemble_score r < 65 # 100 -> confidence_level r = "low").
Proof.
  intros Hr.
  apply match_columns_inv in Hr as (s & sc & bm & Hs & Hsc & Hbest & Hthr & Hmk).
  cbv zeta in Hbest.
  pose proof (best_for_tracked (build_gemini_cache source_schema target_schema)
                target_schema (fst s) (fst sc)) as [_ Htr].
  rewrite Hbest in Htr. simpl in Htr.
  destruct Htr as (Hpos & t & tc & Ht & Htc & E1 & E2 & E3 & _ & Esc).
  unfold pair_scores in Esc. injection Esc as Eb _ Ef Ed.
  assert (Hlvl : confidence_level r = confidence_of (ensemble_score r))
    by (rewrite Hmk at 1; reflexivity).
  split; [|split; [|split]].
  - exists s, sc, t, tc. rewrite Hmk. simpl. auto 15.
  - apply Qle_bool_iff, Hthr.
  - exact Hpos.
  - rewrite Hlvl. apply confidence_of_cases.
Qed.

Lemma count_level_partition (rs : list MatchResult) :
  Forall (fun r => confidence_level r = "high" \/ confidence_level r = "medium"
                   \/ confidence_level r = "low") rs ->
  (count_level "high" rs + count_level "medium" rs + count_level "low" rs
   = length rs)%nat.
Proof.
  unfold count_level. induction 1 as [|r rs Hr _ IH]; [reflexivity|].
  rewrite !filter_cons. simpl length.
  destruct Hr as [-> | [-> | ->]];
    repeat (destruct (decide _) as [E|E]; try discriminate E;
            try (exfalso; apply E; reflexivity); []);
    simpl; lia.
Qed.

Lemma sum_ge (thr : Q) (xs : list Q) :
  Forall (fun x => thr <= x) xs ->
  inject_Z (Z.of_nat (length xs)) * thr <= fold_right Qplus 0 xs.
Proof.
  induction 1 as [|x xs Hx _ IH]; simpl fold_right.
  - change (inject_Z (Z.of_nat (length (@nil Q)))) with 0. Lqa.lra.
  - replace (length (x :: xs)) with (S (length xs)) by reflexivity.
    rewrite Nat2Z.inj_succ. unfold Z.succ. rewrite inject_Z_plus.
    change (inject_Z 1) with 1. Lqa.lra.
Qed.

Lemma mean_ge (thr : Q) (xs : list Q) :
  xs <> [] -> Forall (fun x => thr <= x) xs -> thr <= mean xs.
Proof.
  intros Hne Hall. unfold mean. destruct xs as [|x xs]; [congruence|].
  apply Qle_shift_div_l.
  - unfold Qlt. simpl. lia.
  - rewrite Qmult_comm. apply sum_ge, Hall.
Qed.


(** X7.  Without a Gemini model the engine falls back on three signals:
    every result has Gemini score 0 and ensemble score
    0.50 * BERT + 0.21 * TF-IDF + 0.29 * domain, its mapping type is "1:1",
    its transformation "none", its [why_not_others] empty, and its
    explanation is the generated one. *)
Theorem match_columns_without_gemini
    (source_schema target_schema : schema) (threshold : Q) (r : MatchResult) :
  gemini_model = false ->
  In r (fst (match_columns source_schema target_schema threshold)) ->
  gemini_score r = 0 /\
  ensemble_score r
  = (50 # 100) * bert_score r + (21 # 100) * tfidf_score r
    + (29 # 100) * domain_score r /\
  mapping_type r = "1:1" /\ transformation r = "none" /\
  why_not_others r = "" /\
  explanation r = why_mapped r /\
  exists bm, why_mapped r = _generate_explanation (source_column r) (target_column r) bm
             /\ bm_domain bm = domain_score r /\ bm_bert bm = bert_score r
             /\ bm_tfidf bm = tfidf_score r.
Proof.
  intros Hg Hr.
  apply match_columns_inv in Hr as (s & sc & bm & Hs & Hsc & Hbest & Hthr & Hmk).
  cbv zeta in Hbest.
  pose proof (best_for_tracked (build_gemini_cache source_schema target_schema)
                target_schema (fst s) (fst sc)) as [_ Htr].
  pose proof (scan_tables_scored (build_gemini_cache source_schema target_schema)
                (fst s) (fst sc) target_schema (None, 0) I) as Hsc'.
  unfold best_for in Hbest, Htr. rewrite Hbest in Htr, Hsc'.
  unfold scored in Hsc'. simpl in Htr, Hsc'.
  destruct Htr as (_ & t & tc & _ & _ & _ & _ & _ & Einfo & Esc).
  assert (Hnone : bm_gemini_info bm = None).
  { rewrite Einfo. unfold info_for, build_gemini_cache. rewrite Hg.
    rewrite lookup_empty. reflexivity. }
  rewrite Hnone in Esc. unfold pair_scores in Esc. simpl in Esc.
  injection Esc as _ Eg _ _.
  unfold ensemble in Hsc'. rewrite Hg in Hsc'.
  rewrite Hmk. unfold make_result, info_get. rewrite Hnone. simpl.
  repeat split; auto. exists bm. auto.
Qed.

(** *** Where the Gemini entries come from, and the range of the ensemble *)

Lemma gemini_mappings_of_in (ms : list gemini_mapping) :
  forall (d : gmap string gemini_mapping) (k : string) (m : gemini_mapping),
  foldl (fun d m => <[ gm_source m := m ]> d) d ms !! k = Some m ->
  d !! k = Some m \/ In m ms.
Proof.
  induction ms as [|m0 ms IH]; intros d k m; simpl; [auto|].
  intros H. apply IH in H as [H | H]; [|auto].
  destruct (decide (gm_source m0 = k)) as [<- | Hne].
  - rewrite lookup_insert_eq in H. injection H as ->. auto.
  - rewrite lookup_insert_ne in H by exact Hne. auto.
Qed.

Lemma build_gemini_cache_in source_schema target_schema key ms :
  build_gemini_cache source_schema target_schema !! key = Some ms ->
  exists a b c d, ms = get_gemini_analysis a b c d.
Proof.
  unfold build_gemini_cache. destruct gemini_model; [|rewrite lookup_empty; discriminate].
  assert (Hin : forall (s : string * list (string * string)) (ts : schema)
                       (cache : gmap string (list gemini_mapping)),
    foldl (fun cache t =>
             <[ gemini_key (fst s) (fst t) :=
                  get_gemini_analysis (map fst (snd s)) (map fst (snd t))
                                      (fst s) (fst t) ]> cache) cache ts !! key
    = Some ms ->
    cache !! key = Some ms \/ exists a b c d, ms = get_gemini_analysis a b c d).
  { intros s ts. induction ts as [|t ts IH]; intros cache; simpl; [auto|].
    intros H. apply IH in H as [H | H]; [|auto].
    destruct (decide (gemini_key (fst s) (fst t) = key)) as [<- | Hne].
    - rewrite lookup_insert_eq in H. injection H as <-. right. eauto.
    - rewrite lookup_insert_ne in H by exact Hne. auto. }
  assert (Hout : forall (ss : schema) (cache : gmap string (list gemini_mapping)),
    foldl (fun cache s =>
             foldl (fun cache t =>
                      <[ gemini_key (fst s) (fst t) :=
                           get_gemini_analysis (map fst (snd s)) (map fst (snd t))
                                               (fst s) (fst t) ]> cache)
                   cache target_schema) cache ss !! key = Some ms ->
    cache !! key = Some ms \/ exists a b c d, ms = get_gemini_analysis a b c d).
  { induction ss as [|s ss IH]; intros cache; simpl; [auto|].
    intros H. apply IH in H as [H | H]; [|auto]. apply Hin in H. exact H. }
  intros H. apply Hout in H as [H | H]; [|exact H].
  rewrite lookup_empty in H. discriminate.
Qed.

(** The Gemini entry consulted for a pair is one of the entries of some
    answer of the model. *)
Lemma info_for_in source_schema target_schema src_table tgt_table src_col m :
  info_for (build_gemini_cache source_schema target_schema)
           src_table tgt_table src_col = Some m ->
  exists a b c d, In m (get_gemini_analysis a b c d).
Proof.
  unfold info_for, gemini_mappings_of. intros H.
  apply gemini_mappings_of_in in H as [H | H];
    [rewrite lookup_empty in H; discriminate|].
  destruct (build_gemini_cache _ _ !! _) as [ms|] eqn:E; [|destruct H].
  apply build_gemini_cache_in in E as (a & b & c & d & ->). simpl in H. eauto.
Qed.

Lemma ensemble_range (b g t d : Q) :
  0 <= b <= 1 -> 0 <= g <= 1 -> 0 <= t <= 1 -> 0 <= d <= 1 ->
  0 <= ensemble b g t d <= 1.
Proof.
  intros Hb Hgm Ht Hd. unfold ensemble, base_ensemble,
    weight_bert, weight_gemini, weight_tfidf, weight_domain.
  destruct gemini_model; [|Lqa.lra].
  destruct (Qle_bool (8 # 10) g); [Lqa.lra|].
  destruct (Qle_bool (5 # 10) g); Lqa.lra.
Qed.

(** *** One source column, at most one result *)

Lemma match_source_column_key cache target_schema threshold src_table sc r :
  In r (match_source_column cache target_schema threshold src_table sc) ->
  match_source_column cache target_schema threshold src_table sc = [r] /\
  source_table r = src_table /\ source_column r = fst sc.
Proof.
  unfold match_source_column.
  destruct (best_for _ _ _ _) as [[bm|] best]; [|intros []].
  destruct (Qle_bool threshold best); [|intros []].
  intros [<- | []]. auto.
Qed.

Lemma match_columns_results source_schema target_schema threshold :
  fst (match_columns source_schema target_schema threshold)
  = flat_map (fun s =>
      flat_map (match_source_column
                  (build_gemini_cache source_schema target_schema)
                  target_schema threshold (fst s)) (snd s))
      source_schema.
Proof.
  unfold match_columns. cbn [fst]. rewrite flat_map_concat_map.
  f_equal. apply map_ext. intros s. rewrite flat_map_concat_map. reflexivity.
Qed.

End Engine.

(** The weighted sum of the four signals, written with the weights the
    claim gives. *)
Definition weighted_sum (r : MatchResult) : Q :=
  (30 # 100) * bert_score r + (40 # 100) * gemini_score r
  + (10 # 100) * tfidf_score r + (20 # 100) * domain_score r.

(** C1.  With the Gemini model available, every result of
    [match_columns] carries an ensemble score that is the weighted sum of
    its BERT, Gemini, TF-IDF and domain scores with weights 0.30, 0.40,
    0.10, 0.20, boosted by the Gemini score: 0.3 of the sum plus 0.7 of the
    Gemini score when that score is at least 0.8, half and half when it is
    at least 0.5, and the sum itself below 0.5.  The same formula scores
    every (source, target) pair that is evaluated, and the result kept for
    a source column has the largest such score over all target columns. *)
Theorem match_columns_ensemble_formula
    (bert tfidf domain : string -> string -> Q)
    (gemini : list string -> list string -> string -> string -> list gemini_mapping)
    (source_schema target_schema : schema) (threshold : Q) (r : MatchResult) :
  In r (fst (match_columns true bert tfidf domain gemini
               source_schema target_schema threshold)) ->
  ((8 # 10 <= gemini_score r ->
      ensemble_score r = weighted_sum r * (3 # 10) + gemini_score r * (7 # 10)) /\
   (5 # 10 <= gemini_score r -> gemini_score r < 8 # 10 ->
      ensemble_score r = weighted_sum r * (5 # 10) + gemini_score r * (5 # 10)) /\
   (gemini_score r < 5 # 10 -> ensemble_score r = weighted_sum r)) /\
  (forall info s t,
      pair_ensemble true bert tfidf domain info s t
      = ensemble true (bert s t) (gemini_score_of info t) (tfidf s t) (domain s t)) /\
  (forall t tc, In t target_schema -> In tc (snd t) ->
      pair_ensemble true bert tfidf domain
        (info_for (build_gemini_cache true gemini source_schema target_schema)
                  (source_table r) (fst t) (source_column r))
        (source_column r) (fst tc)
      <= ensemble_score r).
Proof.
  intros Hr.
  apply match_columns_inv in Hr as (s & sc & bm & Hs & Hsc & Hbest & Hthr & Hmk).
  cbv zeta in Hbest.
  assert (Hsc' : ensemble_score r
                 = ensemble true (bert_score r) (gemini_score r)
                                 (tfidf_score r) (domain_score r)).
  { pose proof (scan_tables_scored true bert tfidf domain
                  (build_gemini_cache true gemini source_schema target_schema)
                  (fst s) (fst sc) target_schema (None, 0) I) as Hinv.
    unfold best_for in Hbest. rewrite Hbest in Hinv. unfold scored in Hinv.
    simpl in Hinv. rewrite Hmk at 2 3 4 5. simpl. exact Hinv. }
  split; [|split].
  - unfold weighted_sum. rewrite Hsc'. unfold ensemble, base_ensemble.
    unfold weight_bert, weight_gemini, weight_tfidf, weight_domain.
    repeat split.
    + intros H8. apply Qle_bool_iff in H8. rewrite H8. reflexivity.
    + intros H5 H8.
      destruct (Qle_bool (8 # 10) (gemini_score r)) eqn:E8.
      * apply Qle_bool_iff in E8. exfalso. eapply Qlt_not_le; eassumption.
      * apply Qle_bool_iff in H5. rewrite H5. reflexivity.
    + intros H5.
      destruct (Qle_bool (8 # 10) (gemini_score r)) eqn:E8.
      * apply Qle_bool_iff in E8. exfalso.
        apply (Qlt_not_le _ _ H5). eapply Qle_trans; [|exact E8]. discriminate.
      * destruct (Qle_bool (5 # 10) (gemini_score r)) eqn:E5; [|reflexivity].
        apply Qle_bool_iff in E5. exfalso. eapply Qlt_not_le; eassumption.
  - intros info s0 t0. reflexivity.
  - intros t tc Ht Htc.
    assert (Hst : source_table r = fst s) by (rewrite Hmk; reflexivity).
    assert (Hcol : source_column r = fst sc) by (rewrite Hmk; reflexivity).
    rewrite Hst, Hcol.
    pose proof (scan_tables_ge true bert tfidf domain
                  (build_gemini_cache true gemini source_schema target_schema)
                  (fst s) (fst sc) target_schema (None, 0) t tc Ht Htc) as Hge.
    unfold best_for in Hbest. rewrite Hbest in Hge. exact Hge.
Qed.

(** A small run: one source column, two candidate targets, Gemini sure of
    the first. *)
Definition demo_source : schema := [("cust", [("cust_id", "INTEGER")])].
Definition demo_target : schema :=
  [("customers", [("customer_id", "INTEGER"); ("name", "TEXT")])].
Definition demo_half (_ _ : string) : Q := 1 # 2.
Definition demo_domain (_ t : string) : Q :=
  if decide (t = "customer_id") then 1 else 0.
Definition demo_gemini (_ _ : list string) (_ _ : string) : list gemini_mapping :=
  [GeminiMapping "cust_id" (Some "customer_id") (Some (9 # 10))
                 None None None None].
Definition demo_result : MatchResult :=
  Eval vm_compute in
    make_result "cust" "cust_id" "INTEGER"
      (BestMatch "customer_id" "customers" (1 # 2) (9 # 10) (1 # 2) 1
         (Some (GeminiMapping "cust_id" (Some "customer_id") (Some (9 # 10))
                  None None None None)) "INTEGER")
      (ensemble true (1 # 2) (9 # 10) (1 # 2) 1).

Lemma match_columns_ensemble_formula_witness :
  In demo_result
     (fst (match_columns true demo_half demo_half demo_domain demo_gemini
             demo_source demo_target (6 # 10)))
  /\ ensemble_score demo_result
     = weighted_sum demo_result * (3 # 10) + gemini_score demo_result * (7 # 10).
Proof.
  assert (H : In demo_result
                (fst (match_columns true demo_half demo_half demo_domain
                        demo_gemini demo_source demo_target (6 # 10)))).
  { vm_compute. left. reflexivity. }
  split; [exact H|].
  apply (proj1 (proj1 (match_columns_ensemble_formula _ _ _ _ _ _ _ _ H))).
  vm_compute. discriminate.
Defined.

(** The same run without Gemini: "customer_id" still wins, on the three
    local signals alone. *)
Definition demo_local_result : MatchResult :=
  Eval vm_compute in
    make_result "cust" "cust_id" "INTEGER"
      (BestMatch "customer_id" "customers" (1 # 2) 0 (1 # 2) 1 None "INTEGER")
      (ensemble false (1 # 2) 0 (1 # 2) 1).

Lemma match_columns_results_are_schema_pairs_witness :
  In demo_result
     (fst (match_columns true demo_half demo_half demo_domain demo_gemini
             demo_source demo_target (6 # 10)))
  /\ 6 # 10 <= ensemble_score demo_result
  /\ confidence_level demo_result = "high".
Proof.
  assert (H : In demo_result
                (fst (match_columns true demo_half demo_half demo_domain
                        demo_gemini demo_source demo_target (6 # 10)))).
  { vm_compute. left. reflexivity. }
  pose proof (match_columns_results_are_schema_pairs _ _ _ _ _ _ _ _ _ H)
    as (_ & Hthr & _ & Hhigh & _).
  split; [exact H|]. split; [exact Hthr|].
  apply Hhigh. vm_compute. discriminate.
Defined.

Lemma match_columns_without_gemini_witness :
  In demo_local_result
     (fst (match_columns false demo_half demo_half demo_domain demo_gemini
             demo_source demo_target (6 # 10)))
  /\ gemini_score demo_local_result = 0
  /\ ensemble_score demo_local_result
     = (50 # 100) * bert_score demo_local_result
       + (21 # 100) * tfidf_score demo_local_result
       + (29 # 100) * domain_score demo_local_result.
Proof.
  assert (H : In demo_local_result
                (fst (match_columns false demo_half demo_half demo_domain
                        demo_gemini demo_source demo_target (6 # 10)))).
  { vm_compute. left. reflexivity. }
  pose proof (match_columns_without_gemini false demo_half demo_half demo_domain
                demo_gemini demo_source demo_target (6 # 10) demo_local_result
                eq_refl H) as (Hg & He & _).
  split; [exact H|]. split; [exact Hg | exact He].
Defined.

End HybridEngine.

(** ** PS2: the semantic matcher (semantic_matcher.py) *)

Module SemanticMatch.

Local Open Scope Q_scope.
Local Open Scope string_scope.

Inductive MatchConfidence : Type := HIGH | MEDIUM | LOW | NONE.

(** [ColumnInfo] and [TableInfo] of schema_extractor.py, with the fields the
    matcher reads. *)
Record ColumnInfo : Type := mkColumnInfo {
  name : string;
  data_type : string;
  is_nullable : bool;
  is_primary_key : bool
}.

Record TableInfo : Type := mkTableInfo {
  table_name : string;
  columns : list ColumnInfo
}.

Record ColumnMatch : Type := mkColumnMatch {
  source_column : string;
  source_table : string;
  target_column : string;
  target_table : string;
  overall_score : Q;
  confidence : MatchConfidence;
  semantic_score : Q;
  syntactic_score : Q;
  type_score : Q;
  explanation : string;
  warnings : list string
}.

(** [self.weights]. *)
Definition weight_semantic : Q := 50 # 100.
Definition weight_syntactic : Q := 30 # 100.
Definition weight_type : Q := 20 # 100.

Definition _determine_confidence (score : Q) : MatchConfidence :=
  if Qle_bool (85 # 100) score then HIGH
  else if Qle_bool (60 # 100) score then MEDIUM
  else if Qle_bool (40 # 100) score then LOW
  else NONE.

(** [matches.sort(key=lambda x: x.overall_score, reverse=True)]: a stable
    sort into non-increasing order of the key. *)
Fixpoint insert_desc (m : ColumnMatch) (l : list ColumnMatch) : list ColumnMatch :=
  match l with
  | [] => [m]
  | y :: l' =>
      if Qlt_bool (overall_score m) (overall_score y)
      then y :: insert_desc m l'
      else m :: y :: l'
  end.

Definition sort_desc (l : list ColumnMatch) : list ColumnMatch :=
  fold_right insert_desc [] l.

(** ["; ".join(parts)]. *)
Fixpoint join (sep : string) (parts : list string) : string :=
  match parts with
  | [] => ""
  | [p] => p
  | p :: rest => p ++ sep ++ join sep rest
  end.

Section Matcher.

(** The embedding model and rapidfuzz, and the type compatibility score. *)
Variable _compute_semantic_score : string -> string -> Q.
Variable _compute_syntactic_score : string -> string -> Q.
Variable _compute_type_score : string -> string -> Q.
(** The [:.0%] rendering of a score. *)
Variable percent : Q -> string.

(** [_generate_explanation]: the text, and the match with the warnings it
    appends. *)
Definition _generate_explanation (m : ColumnMatch) (source_col target_col : ColumnInfo)
  : string * list string :=
  let parts1 :=
    if Qlt_bool (8 # 10) (semantic_score m) then
      ["Strong semantic similarity (" ++ percent (semantic_score m) ++ ")"]
    else if Qlt_bool (6 # 10) (semantic_score m) then
      ["Moderate semantic similarity (" ++ percent (semantic_score m) ++ ")"]
    else [] in
  let parts2 :=
    if Qlt_bool (8 # 10) (syntactic_score m) then
      ["Names are very similar (" ++ percent (syntactic_score m) ++ ")"]
    else if Qlt_bool (6 # 10) (syntactic_score m) then
      ["Names are somewhat similar (" ++ percent (syntactic_score m) ++ ")"]
    else [] in
  let '(parts3, warn1) :=
    if Qeq_bool (type_score m) 1 then
      (["Exact type match (" ++ data_type source_col ++ ")"], [])
    else if Qle_bool (8 # 10) (type_score m) then
      (["Compatible types (" ++ data_type source_col ++ " → "
          ++ data_type target_col ++ ")"], [])
    else if Qlt_bool (type_score m) (6 # 10) then
      ([], ["Type mismatch: " ++ data_type source_col ++ " → "
              ++ data_type target_col])
    else ([], []) in
  let warn2 :=
    if is_primary_key source_col && negb (is_primary_key target_col)
    then ["Source is PK but target is not"] else [] in
  let warn3 :=
    if negb (is_nullable source_col) && is_nullable target_col
    then ["Source is NOT NULL but target allows NULL"] else [] in
  let parts := (parts1 ++ parts2 ++ parts3)%list in
  (match parts with
   | [] => "Matched based on overall similarity"
   | _ => join "; " parts
   end,
   (warnings m ++ warn1 ++ warn2 ++ warn3)%list).

(** One iteration of [for tgt_col in target_table.columns]. *)
Definition scan_target (source_tbl target_tbl : string) (threshold : Q)
    (src_col : ColumnInfo) (acc : option ColumnMatch * Q) (tgt_col : ColumnInfo)
  : option ColumnMatch * Q :=
  let semantic := _compute_semantic_score (name src_col) (name tgt_col) in
  let syntactic := _compute_syntactic_score (name src_col) (name tgt_col) in
  let tscore := _compute_type_score (data_type src_col) (data_type tgt_col) in
  let overall :=
    weight_semantic * semantic + weight_syntactic * syntactic
    + weight_type * tscore in
  if Qlt_bool (snd acc) overall && Qle_bool threshold overall
  then (Some {| source_column := name src_col;
                source_table := source_tbl;
                target_column := name tgt_col;
                target_table := target_tbl;
                overall_score := overall;
                confidence := _determine_confidence overall;
                semantic_score := semantic;
                syntactic_score := syntactic;
                type_score := tscore;
                explanation := "";
                warnings := [] |}, overall)
  else acc.

(** The body of [for src_col in source_table.columns]: the match this source
    column contributes, if any.  [next(c for c in target_table.columns if
    c.name == best_match.target_column)] is the first target column of that
    name; [None] stands for its [StopIteration]. *)
Definition match_source_column (source_tbl target_tbl : TableInfo)
    (threshold : Q) (src_col : ColumnInfo) : option (list ColumnMatch) :=
  match foldl (scan_target (table_name source_tbl) (table_name target_tbl)
                 threshold src_col) (None, 0) (columns target_tbl) with
  | (Some best_match, _) =>
      match find (fun c => bool_decide (name c = target_column best_match))
                 (columns target_tbl) with
      | Some tgt_col =>
          let '(text, warns) := _generate_explanation best_match src_col tgt_col in
          Some [ {| source_column := source_column best_match;
                    source_table := source_table best_match;
                    target_column := target_column best_match;
                    target_table := target_table best_match;
                    overall_score := overall_score best_match;
                    confidence := confidence best_match;
                    semantic_score := semantic_score best_match;
                    syntactic_score := syntactic_score best_match;
                    type_score := type_score best_match;
                    explanation := text;
                    warnings := warns |} ]
      | None => None
      end
  | (None, _) => Some []
  end.

(** The loop over the source columns, before the sort. *)
Fixpoint collect_matches (source_tbl target_tbl : TableInfo) (threshold : Q)
    (cols : list ColumnInfo) : option (list ColumnMatch) :=
  match cols with
  | [] => Some []
  | c :: rest =>
      match match_source_column source_tbl target_tbl threshold c with
      | Some ms =>
          match collect_matches source_tbl target_tbl threshold rest with
          | Some ms' => Some (ms ++ ms')%list
          | None => None
          end
      | None => None
      end
  end.

(** [SemanticMatcher.match_columns]; [None] only if the [next(...)] lookup
    raised, which [match_columns_returns] rules out. *)
Definition match_columns (source_tbl target_tbl : TableInfo) (threshold : Q)
  : option (list ColumnMatch) :=
  match collect_matches source_tbl target_tbl threshold (columns source_tbl) with
  | Some ms => Some (sort_desc ms)
  | None => None
  end.

(** *** The scan keeps a match that passed the threshold *)

(** What is known of the pair [(best_match, best_score)] while the target
    columns [seen] have been scanned for [src_col]. *)
Definition scan_inv (threshold : Q) (src_col : ColumnInfo) (seen : list ColumnInfo)
    (acc : option ColumnMatch * Q) : Prop :=
  match fst acc with
  | Some m =>
      overall_score m = snd acc /\
      threshold <= overall_score m /\
      confidence m = _determine_confidence (overall_score m) /\
      source_column m = name src_col /\
      exists c, In c seen /\ name c = target_column m
  | None => True
  end.

Lemma scan_target_inv st tt threshold src_col seen acc tgt_col :
  scan_inv threshold src_col seen acc ->
  scan_inv threshold src_col (seen ++ [tgt_col])
           (scan_target st tt threshold src_col acc tgt_col).
Proof.
  unfold scan_target. intros Hacc.
  destruct (Qlt_bool _ _ && Qle_bool _ _) eqn:E.
  - apply andb_true_iff in E as [_ Hthr]. apply Qle_bool_iff in Hthr.
    unfold scan_inv; simpl. repeat split; try assumption.
    exists tgt_col. split; [apply in_or_app; right; left|]; reflexivity.
  - unfold scan_inv in *. destruct (fst acc) as [m|]; [|exact I].
    destruct Hacc as (H1 & H2 & H3 & H4 & c & Hc & Hn).
    repeat split; try assumption.
    exists c. split; [apply in_or_app; left|]; assumption.
Qed.

Lemma scan_targets_inv st tt threshold src_col cols seen acc :
  scan_inv threshold src_col seen acc ->
  scan_inv threshold src_col (seen ++ cols)
           (foldl (scan_target st tt threshold src_col) acc cols).
Proof.
  revert seen acc. induction cols as [|c cols IH]; intros seen acc Hacc; simpl.
  - rewrite app_nil_r. exact Hacc.
  - replace (seen ++ c :: cols)%list with ((seen ++ [c]) ++ cols)%list
      by (rewrite <- app_assoc; reflexivity).
    apply IH, scan_target_inv, Hacc.
Qed.

Lemma find_name_some (cols : list ColumnInfo) (n : string) :
  (exists c, In c cols /\ name c = n) ->
  exists c, find (fun c => bool_decide (name c = n)) cols = Some c.
Proof.
  intros (c & Hc & Hn). induction cols as [|c0 cols IH]; [destruct Hc|].
  simpl. destruct (bool_decide (name c0 = n)) eqn:E; [eauto|].
  destruct Hc as [-> | Hc]; [|auto].
  apply bool_decide_eq_false in E. contradiction.
Qed.

(** The properties every match of one source column has. *)
Definition match_ok (threshold : Q) (src_col : ColumnInfo) (m : ColumnMatch) : Prop :=
  threshold <= overall_score m /\
  confidence m = _determine_confidence (overall_score m) /\
  source_column m = name src_col.

Lemma match_source_column_spec source_tbl target_tbl threshold src_col :
  exists ms,
    match_source_column source_tbl target_tbl threshold src_col = Some ms /\
    (length ms <= 1)%nat /\ Forall (match_ok threshold src_col) ms.
Proof.
  unfold match_source_column.
  pose proof (scan_targets_inv (table_name source_tbl) (table_name target_tbl)
                threshold src_col (columns target_tbl) [] (None, 0) I) as Hinv.
  destruct (foldl _ _ _) as [[m|] s]; simpl in Hinv.
  - unfold scan_inv in Hinv; simpl in Hinv.
    destruct Hinv as (H1 & H2 & H3 & H4 & Hfind).
    apply find_name_some in Hfind as [c ->].
    destruct (_generate_explanation m src_col c) as [text warns].
    eexists. split; [reflexivity|]. split; [simpl; lia|].
    constructor; [|constructor]. unfold match_ok; simpl. auto.
  - exists []. split; [reflexivity|]. split; [simpl; lia | constructor].
Qed.

Lemma filter_source_le threshold col c (ms : list ColumnMatch) :
  (length ms <= 1)%nat -> Forall (match_ok threshold col) ms ->
  (length (filter (fun m => source_column m = c) ms)
   <= length (filter (fun x => name x = c) [col]))%nat.
Proof.
  intros Hlen Hok. destruct ms as [|m [|m' ms]]; simpl in Hlen; try lia.
  - simpl. lia.
  - inversion Hok as [|? ? (_ & _ & Hsrc) _]; subst.
    rewrite !filter_cons, !filter_nil. rewrite Hsrc.
    destruct (decide (name col = c)); simpl; lia.
Qed.

Lemma collect_matches_spec source_tbl target_tbl threshold cols :
  exists ms,
    collect_matches source_tbl target_tbl threshold cols = Some ms /\
    (forall c, (length (filter (fun m => source_column m = c) ms)
                <= length (filter (fun col => name col = c) cols))%nat) /\
    (length ms <= length cols)%nat /\
    Forall (fun m => threshold <= overall_score m) ms /\
    Forall (fun m => confidence m = _determine_confidence (overall_score m)) ms.
Proof.
  induction cols as [|col cols (ms' & Hms' & Hcnt & Hlen' & Hthr & Hconf)]; simpl.
  - exists []. repeat split; auto.
  - destruct (match_source_column_spec source_tbl target_tbl threshold col)
      as (ms & -> & Hlen & Hok).
    rewrite Hms'. eexists. split; [reflexivity|]. repeat split.
    + intros c. rewrite filter_app, length_app.
      change (col :: cols) with ([col] ++ cols)%list.
      rewrite filter_app, length_app.
      pose proof (filter_source_le threshold col c ms Hlen Hok).
      specialize (Hcnt c). lia.
    + rewrite length_app. lia.
    + apply Forall_app; split; [|exact Hthr].
      eapply Forall_impl; [exact Hok|]. intros m (H & _). exact H.
    + apply Forall_app; split; [|exact Hconf].
      eapply Forall_impl; [exact Hok|]. intros m (_ & H & _). exact H.
Qed.

(** *** The sort *)

Definition ge_score (a b : ColumnMatch) : Prop :=
  overall_score b <= overall_score a.

Lemma insert_desc_perm m l : Permutation (m :: l) (insert_desc m l).
Proof.
  induction l as [|y l IH]; simpl; [reflexivity|].
  destruct (Qlt_bool _ _); [|reflexivity].
  rewrite perm_swap. apply perm_skip, IH.
Qed.

Lemma sort_desc_perm l : Permutation l (sort_desc l).
Proof.
  induction l as [|m l IH]; simpl; [reflexivity|].
  rewrite <- insert_desc_perm. apply perm_skip, IH.
Qed.

Lemma insert_desc_sorted m l :
  StronglySorted ge_score l -> StronglySorted ge_score (insert_desc m l).
Proof.
  induction l as [|y l IH]; intros Hs; simpl.
  - repeat constructor.
  - inversion Hs as [|? ? Hl Hy]; subst.
    destruct (Qlt_bool (overall_score m) (overall_score y)) eqn:E.
    + constructor; [apply IH, Hl|].
      apply Forall_forall. intros z Hz.
      rewrite <- (insert_desc_perm m l) in Hz.
      apply elem_of_cons in Hz as [-> | Hz].
      * apply Qlt_bool_iff in E. apply Qlt_le_weak, E.
      * rewrite Forall_forall in Hy. apply Hy, Hz.
    + apply Qlt_bool_false in E. constructor; [exact Hs|].
      constructor; [exact E|].
      eapply Forall_impl; [exact Hy|].
      intros z Hz. unfold ge_score in *. eapply Qle_trans; eassumption.
Qed.

Lemma sort_desc_sorted l : StronglySorted ge_score (sort_desc l).
Proof.
  induction l as [|m l IH]; simpl; [constructor|].
  apply insert_desc_sorted, IH.
Qed.

Lemma filter_length_perm (P : ColumnMatch -> Prop) `{!forall m, Decision (P m)}
    (l l' : list ColumnMatch) :
  Permutation l l' -> length (filter P l) = length (filter P l').
Proof.
  intros Hp. apply Permutation_length. rewrite Hp. reflexivity.
Qed.

(** *** The match kept is the best one *)

(** The weighted score of a pair of columns. *)
Definition overall (src_col tgt_col : ColumnInfo) : Q :=
  weight_semantic * _compute_semantic_score (name src_col) (name tgt_col)
  + weight_syntactic * _compute_syntactic_score (name src_col) (name tgt_col)
  + weight_type * _compute_type_score (data_type src_col) (data_type tgt_col).

(** A match that records the scores of the pair [(src_col, tgt_col)]. *)
Definition match_of (st tt : string) (src_col tgt_col : ColumnInfo)
    (m : ColumnMatch) : Prop :=
  source_column m = name src_col /\ target_column m = name tgt_col /\
  source_table m = st /\ target_table m = tt /\
  overall_score m = overall src_col tgt_col /\
  semantic_score m = _compute_semantic_score (name src_col) (name tgt_col) /\
  syntactic_score m = _compute_syntactic_score (name src_col) (name tgt_col) /\
  type_score m = _compute_type_score (data_type src_col) (data_type tgt_col).

(** No target column qualifies for [src_col]. *)
Definition none_qualifies (threshold : Q) (src_col : ColumnInfo)
    (targets : list ColumnInfo) : Prop :=
  forall t, In t targets -> overall src_col t <= 0 \/ overall src_col t < threshold.

(** [m] is the match of [src_col] with a best-scoring target column. *)
Definition best_target (st tt : string) (src_col : ColumnInfo)
    (targets : list ColumnInfo) (m : ColumnMatch) : Prop :=
  (exists t, In t targets /\ match_of st tt src_col t m) /\
  0 < overall_score m /\
  forall t, In t targets -> overall src_col t <= overall_score m.

Definition best_inv (st tt : string) (threshold : Q) (src_col : ColumnInfo)
    (seen : list ColumnInfo) (acc : option ColumnMatch * Q) : Prop :=
  match fst acc with
  | Some m =>
      overall_score m = snd acc /\ threshold <= snd acc /\
      best_target st tt src_col seen m
  | None => snd acc = 0 /\ none_qualifies threshold src_col seen
  end.

Lemma scan_target_best st tt threshold src_col seen acc tgt_col :
  best_inv st tt threshold src_col seen acc ->
  best_inv st tt threshold src_col (seen ++ [tgt_col])
           (scan_target st tt threshold src_col acc tgt_col).
Proof.
  unfold scan_target. fold (overall src_col tgt_col). intros Hacc.
  destruct (Qlt_bool _ _ && Qle_bool _ _) eqn:E.
  - apply andb_true_iff in E as [Hlt Hthr].
    apply Qlt_bool_iff in Hlt. apply Qle_bool_iff in Hthr.
    unfold best_inv; cbn [fst snd overall_score].
    split; [reflexivity|]. split; [exact Hthr|].
    assert (Hold : forall t, In t seen -> overall src_col t <= overall src_col tgt_col
                                       /\ 0 <= snd acc).
    { intros t Ht. unfold best_inv in Hacc.
      destruct (fst acc) as [m|].
      - destruct Hacc as (Hs & _ & _ & Hpos & Hmax). rewrite Hs in *.
        specialize (Hmax t Ht). split; Lqa.lra.
      - destruct Hacc as (Hz & Hnone). rewrite Hz in *.
        destruct (Hnone t Ht); split; Lqa.lra. }
    assert (Hpos : 0 < overall src_col tgt_col).
    { unfold best_inv in Hacc. destruct (fst acc) as [m|].
      - destruct Hacc as (Hs & _ & _ & Hp & _). rewrite Hs in Hp. Lqa.lra.
      - destruct Hacc as (Hz & _). rewrite Hz in Hlt. exact Hlt. }
    split; [|split; [exact Hpos|]].
    + exists tgt_col. split; [apply in_or_app; right; left; reflexivity|].
      unfold match_of; cbn. repeat split.
    + cbn [overall_score]. intros t Ht. apply in_app_or in Ht as [Ht | [<- | []]].
      * apply Hold, Ht.
      * Lqa.lra.
  - apply andb_false_iff in E.
    unfold best_inv in *. destruct (fst acc) as [m|].
    + destruct Hacc as (Hs & Hthr & (t0 & Ht0 & Hm) & Hpos & Hmax).
      split; [exact Hs|]. split; [exact Hthr|].
      split; [exists t0; split; [apply in_or_app; left; exact Ht0 | exact Hm]|].
      split; [exact Hpos|].
      intros t Ht. apply in_app_or in Ht as [Ht | [<- | []]]; [apply Hmax, Ht|].
      rewrite Hs. destruct E as [E | E].
      * apply Qlt_bool_false in E. exact E.
      * assert (Hb : ~ threshold <= overall src_col tgt_col).
        { intros Hle. apply Qle_bool_iff in Hle. congruence. }
        Lqa.lra.
    + destruct Hacc as (Hz & Hnone). split; [exact Hz|].
      intros t Ht. apply in_app_or in Ht as [Ht | [<- | []]]; [apply Hnone, Ht|].
      destruct E as [E | E].
      * apply Qlt_bool_false in E. rewrite Hz in E. left. exact E.
      * right. apply Qnot_le_lt. intros Hle.
        apply Qle_bool_iff in Hle. congruence.
Qed.

Lemma scan_targets_best st tt threshold src_col cols seen acc :
  best_inv st tt threshold src_col seen acc ->
  best_inv st tt threshold src_col (seen ++ cols)
           (foldl (scan_target st tt threshold src_col) acc cols).
Proof.
  revert seen acc. induction cols as [|c cols IH]; intros seen acc Hacc; simpl.
  - rewrite app_nil_r. exact Hacc.
  - replace (seen ++ c :: cols)%list with ((seen ++ [c]) ++ cols)%list
      by (rewrite <- app_assoc; reflexivity).
    apply IH, scan_target_best, Hacc.
Qed.

Lemma match_source_column_best source_tbl target_tbl threshold src_col :
  exists ms,
    match_source_column source_tbl target_tbl threshold src_col = Some ms /\
    match ms with
    | [] => none_qualifies threshold src_col (columns target_tbl)
    | m :: rest =>
        rest = [] /\
        best_target (table_name source_tbl) (table_name target_tbl) src_col
                    (columns target_tbl) m
    end.
Proof.
  unfold match_source_column.
  assert (Hinit : best_inv (table_name source_tbl) (table_name target_tbl)
                    threshold src_col [] (None, 0)).
  { split; [reflexivity|]. intros t []. }
  pose proof (scan_targets_best _ _ threshold src_col (columns target_tbl)
                [] (None, 0) Hinit) as Hinv.
  pose proof (scan_targets_inv (table_name source_tbl) (table_name target_tbl)
                threshold src_col (columns target_tbl) [] (None, 0) I) as Hold.
  destruct (foldl _ _ _) as [[m|] s]; simpl in Hinv, Hold.
  - unfold best_inv in Hinv; simpl in Hinv.
    destruct Hinv as (_ & _ & (t & Ht & Hm) & Hpos & Hmax).
    unfold scan_inv in Hold; simpl in Hold.
    destruct Hold as (_ & _ & _ & _ & Hfind).
    apply find_name_some in Hfind as [c ->].
    destruct (_generate_explanation m src_col c) as [text warns].
    eexists. split; [reflexivity|]. split; [reflexivity|].
    split; [|split; [exact Hpos | exact Hmax]].
    exists t. split; [exact Ht|]. exact Hm.
  - exists []. split; [reflexivity|]. apply Hinv.
Qed.

Lemma collect_matches_best source_tbl target_tbl threshold cols :
  exists ms,
    collect_matches source_tbl target_tbl threshold cols = Some ms /\
    (forall m, In m ms ->
       exists src, In src cols /\
         best_target (table_name source_tbl) (table_name target_tbl) src
                     (columns target_tbl) m) /\
    (forall src, In src cols ->
       (exists m, In m ms /\
          best_target (table_name source_tbl) (table_name target_tbl) src
                      (columns target_tbl) m) \/
       none_qualifies threshold src (columns target_tbl)).
Proof.
  induction cols as [|col cols (ms' & Hms' & Hsound & Hcomplete)]; simpl.
  - exists []. split; [reflexivity|]. split; [intros m [] | intros src []].
  - destruct (match_source_column_best source_tbl target_tbl threshold col)
      as (ms & -> & Hms).
    rewrite Hms'. eexists. split; [reflexivity|]. split.
    + intros m Hin. apply in_app_or in Hin as [Hin | Hin].
      * destruct ms as [|m0 rest]; [destruct Hin|].
        destruct Hms as (-> & Hbest). destruct Hin as [<- | []].
        exists col. split; [left; reflexivity | exact Hbest].
      * destruct (Hsound m Hin) as (src & Hsrc & Hbest).
        exists src. split; [right; exact Hsrc | exact Hbest].
    + intros src [<- | Hsrc].
      * destruct ms as [|m0 rest]; [right; exact Hms|].
        destruct Hms as (-> & Hbest). left. exists m0.
        split; [left; reflexivity | exact Hbest].
      * destruct (Hcomplete src Hsrc) as [(m & Hm & Hbest) | Hnone];
          [left | right; exact Hnone].
        exists m. split; [apply in_or_app; right; exact Hm | exact Hbest].
Qed.

(** X28.  [match_columns] keeps, for a source column, its best target.
    Every match it returns pairs a column of the source table with a column
    of the target table, records the three scores of that pair and their
    weighted sum 0.5 semantic + 0.3 syntactic + 0.2 type as the overall
    score, and that score is positive and at least the score of the source
    column with any other column of the target table.  A source column is
    left without such a match only when each target column scores below the
    threshold or not above zero. *)
Theorem match_columns_keeps_the_best_target
    (source_tbl target_tbl : TableInfo) (threshold : Q) :
  exists matches,
    match_columns source_tbl target_tbl threshold = Some matches /\
    (forall m, In m matches ->
       exists src tgt,
         In src (columns source_tbl) /\ In tgt (columns target_tbl) /\
         source_column m = name src /\ target_column m = name tgt /\
         source_table m = table_name source_tbl /\
         target_table m = table_name target_tbl /\
         semantic_score m = _compute_semantic_score (name src) (name tgt) /\
         syntactic_score m = _compute_syntactic_score (name src) (name tgt) /\
         type_score m = _compute_type_score (data_type src) (data_type tgt) /\
         overall_score m
           = weight_semantic * semantic_score m
             + weight_syntactic * syntactic_score m
             + weight_type * type_score m /\
         0 < overall_score m /\
         forall t, In t (columns target_tbl) -> overall src t <= overall_score m) /\
    (forall src, In src (columns source_tbl) ->
       (exists m tgt,
          In m matches /\ In tgt (columns target_tbl) /\
          source_column m = name src /\ target_column m = name tgt /\
          overall_score m = overall src tgt /\
          forall t, In t (columns target_tbl) -> overall src t <= overall_score m) \/
       (forall t, In t (columns target_tbl) ->
          overall src t <= 0 \/ overall src t < threshold)).
Proof.
  unfold match_columns.
  destruct (collect_matches_best source_tbl target_tbl threshold (columns source_tbl))
    as (ms & -> & Hsound & Hcomplete).
  pose proof (sort_desc_perm ms) as Hperm.
  exists (sort_desc ms). split; [reflexivity|]. split.
  - intros m Hin.
    apply (Permutation_in _ (Permutation_sym Hperm)) in Hin.
    destruct (Hsound m Hin) as (src & Hsrc & (tgt & Htgt & Hm) & Hpos & Hmax).
    destruct Hm as (H1 & H2 & H3 & H4 & H5 & H6 & H7 & H8).
    exists src, tgt. repeat (split; [assumption|]).
    split; [|split; [exact Hpos | exact Hmax]].
    rewrite H5, H6, H7, H8. reflexivity.
  - intros src Hsrc.
    destruct (Hcomplete src Hsrc) as [(m & Hm & (tgt & Htgt & Hof) & _ & Hmax) | Hnone];
      [left | right; exact Hnone].
    destruct Hof as (H1 & H2 & _ & _ & H5 & _).
    exists m, tgt. split; [apply (Permutation_in _ Hperm), Hm|].
    repeat (split; [assumption|]). exact Hmax.
Qed.

(** *** The warnings of a match *)

(** The warning [_generate_explanation] derives from the type score, and
    those it derives from the key and NULL constraints. *)
Definition type_warnings (score : Q) (source_col target_col : ColumnInfo)
  : list string :=
  if Qeq_bool score 1 then []
  else if Qle_bool (8 # 10) score then []
  else if Qlt_bool score (6 # 10)
       then ["Type mismatch: " ++ data_type source_col ++ " → "
               ++ data_type target_col]
       else [].

Definition constraint_warnings (source_col target_col : ColumnInfo) : list string :=
  ((if is_primary_key source_col && negb (is_primary_key target_col)
    then ["Source is PK but target is not"] else [])
   ++ (if negb (is_nullable source_col) && is_nullable target_col
       then ["Source is NOT NULL but target allows NULL"] else []))%list.

Lemma _generate_explanation_warnings (m : ColumnMatch) (source_col target_col : ColumnInfo) :
  snd (_generate_explanation m source_col target_col)
  = (warnings m ++ type_warnings (type_score m) source_col target_col
       ++ constraint_warnings source_col target_col)%list.
Proof.
  unfold _generate_explanation, type_warnings, constraint_warnings.
  destruct (Qeq_bool (type_score m) 1); [reflexivity|].
  destruct (Qle_bool (8 # 10) (type_score m)); [reflexivity|].
  destruct (Qlt_bool (type_score m) (6 # 10)); reflexivity.
Qed.

Lemma find_unique_name (cols : list ColumnInfo) (t : ColumnInfo) :
  List.NoDup (map name cols) -> In t cols ->
  find (fun c => bool_decide (name c = name t)) cols = Some t.
Proof.
  induction cols as [|c cols IH]; intros Hnd Hin; [destruct Hin|].
  inversion Hnd as [|? ? Hc Hnd']; subst. simpl.
  destruct Hin as [-> | Hin].
  - rewrite bool_decide_eq_true_2 by reflexivity. reflexivity.
  - destruct (bool_decide (name c = name t)) eqn:E; [|apply IH; assumption].
    apply bool_decide_eq_true in E. exfalso. apply Hc. rewrite E.
    apply in_map, Hin.
Qed.

Lemma match_source_column_warnings source_tbl target_tbl threshold src_col ms :
  List.NoDup (map name (columns target_tbl)) ->
  match_source_column source_tbl target_tbl threshold src_col = Some ms ->
  Forall (fun m =>
    exists t, In t (columns target_tbl) /\
      match_of (table_name source_tbl) (table_name target_tbl) src_col t m /\
      warnings m = (type_warnings (type_score m) src_col t
                    ++ constraint_warnings src_col t)%list) ms.
Proof.
  intros Hnd. unfold match_source_column.
  assert (Hinit : best_inv (table_name source_tbl) (table_name target_tbl)
                    threshold src_col [] (None, 0)).
  { split; [reflexivity|]. intros t []. }
  pose proof (scan_targets_best _ _ threshold src_col (columns target_tbl)
                [] (None, 0) Hinit) as Hinv.
  assert (Hfresh : forall m,
    fst (foldl (scan_target (table_name source_tbl) (table_name target_tbl)
                  threshold src_col) (None, 0) (columns target_tbl)) = Some m ->
    warnings m = []).
  { generalize (columns target_tbl).
    assert (Hgen : forall cols acc,
      (forall m, fst acc = Some m -> warnings m = []) ->
      forall m, fst (foldl (scan_target (table_name source_tbl)
                              (table_name target_tbl) threshold src_col)
                           acc cols) = Some m -> warnings m = []).
    { induction cols as [|c cols IH]; intros acc Hacc; simpl; [exact Hacc|].
      apply IH. unfold scan_target.
      destruct (Qlt_bool _ _ && Qle_bool _ _); [|exact Hacc].
      intros m [= <-]. reflexivity. }
    intros cols. apply Hgen. intros m H0. discriminate H0. }
  destruct (foldl _ _ _) as [[m|] s]; simpl in Hinv, Hfresh.
  - unfold best_inv in Hinv; simpl in Hinv.
    destruct Hinv as (_ & _ & (t & Ht & Hm) & _ & _).
    assert (Htc : target_column m = name t) by apply Hm.
    rewrite Htc, (find_unique_name _ t Hnd Ht).
    pose proof (_generate_explanation_warnings m src_col t) as Hw.
    destruct (_generate_explanation m src_col t) as [text warns].
    simpl in Hw. rewrite (Hfresh m eq_refl) in Hw. simpl in Hw.
    intros [= <-]. constructor; [|constructor].
    exists t. split; [exact Ht|]. split; [|exact Hw].
    destruct Hm as (H1 & H2 & H3 & H4 & H5 & H6 & H7 & H8).
    unfold match_of; cbn. auto 10.
  - intros [= <-]. constructor.
Qed.

Lemma match_columns_warnings source_tbl target_tbl threshold matches :
  List.NoDup (map name (columns target_tbl)) ->
  match_columns source_tbl target_tbl threshold = Some matches ->
  forall m, In m matches ->
    exists src t,
      In src (columns source_tbl) /\ In t (columns target_tbl) /\
      match_of (table_name source_tbl) (table_name target_tbl) src t m /\
      warnings m = (type_warnings (type_score m) src t
                    ++ constraint_warnings src t)%list.
Proof.
  intros Hnd. unfold match_columns.
  assert (Hgen : forall cols ms,
    collect_matches source_tbl target_tbl threshold cols = Some ms ->
    forall m, In m ms ->
      exists src t,
        In src cols /\ In t (columns target_tbl) /\
        match_of (table_name source_tbl) (table_name target_tbl) src t m /\
        warnings m = (type_warnings (type_score m) src t
                      ++ constraint_warnings src t)%list).
  { induction cols as [|col cols IH]; simpl; intros ms Hms m Hin.
    - injection Hms as <-. destruct Hin.
    - destruct (match_source_column source_tbl target_tbl threshold col)
        as [ms1|] eqn:E1; [|discriminate].
      destruct (collect_matches source_tbl target_tbl threshold cols)
        as [ms2|] eqn:E2; [|discriminate].
      injection Hms as <-. apply in_app_or in Hin as [Hin | Hin].
      + pose proof (match_source_column_warnings _ _ _ _ _ Hnd E1) as Hall.
        rewrite Forall_forall in Hall.
        destruct (Hall m (proj2 (list_elem_of_In _ _) Hin)) as (t & Ht & Hm & Hw).
        exists col, t. split; [left; reflexivity|]. auto.
      + destruct (IH ms2 eq_refl m Hin) as (src & t & Hsrc & Ht & Hm & Hw).
        exists src, t. split; [right; exact Hsrc|]. auto. }
  destruct (collect_matches _ _ _ _) as [ms|] eqn:E; [|discriminate].
  intros [= <-] m Hin.
  apply (Permutation_in _ (Permutation_sym (sort_desc_perm ms))) in Hin.
  exact (Hgen _ _ E m Hin).
Qed.

(** *** Matching whole schemas *)

(** The body of the inner loop of [match_schemas]; [None] once a call of
    [match_columns] has raised. *)
Definition match_pair (threshold : Q)
    (acc : option (PyDict.dict string (list ColumnMatch)))
    (src_table tgt_table : TableInfo)
  : option (PyDict.dict string (list ColumnMatch)) :=
  match acc with
  | None => None
  | Some all_matches =>
      if Qlt_bool (3 # 10) (_compute_syntactic_score (table_name src_table)
                                                     (table_name tgt_table))
      then match match_columns src_table tgt_table threshold with
           | None => None
           | Some [] => Some all_matches
           | Some matches =>
               Some (PyDict.set (table_name src_table ++ " → "
                                   ++ table_name tgt_table)
                                matches all_matches)
           end
      else Some all_matches
  end.

(** [SemanticMatcher.match_schemas], on the [tables] of both schemas. *)
Definition match_schemas (source target : list TableInfo) (threshold : Q)
  : option (PyDict.dict string (list ColumnMatch)) :=
  foldl (fun acc src_table =>
           foldl (fun acc tgt_table => match_pair threshold acc src_table tgt_table)
                 acc target)
        (Some []) source.

(** A pair of tables whose columns [match_schemas] matches, with a
    result. *)
Definition related (threshold : Q) (src_table tgt_table : TableInfo)
    (matches : list ColumnMatch) : Prop :=
  3 # 10 < _compute_syntactic_score (table_name src_table) (table_name tgt_table) /\
  match_columns src_table tgt_table threshold = Some matches /\
  matches <> [].

Definition pair_key (src_table tgt_table : TableInfo) : string :=
  table_name src_table ++ " → " ++ table_name tgt_table.

(** What holds of [all_matches] while the pairs [done] have been visited. *)
Definition schemas_inv (threshold : Q) (done : list (TableInfo * TableInfo))
    (acc : option (PyDict.dict string (list ColumnMatch))) : Prop :=
  exists d,
    acc = Some d /\ NoDup (map fst d) /\
    (forall k ms, (k, ms) ∈ d ->
       exists s t, In (s, t) done /\ k = pair_key s t /\ related threshold s t ms) /\
    (forall s t ms, In (s, t) done -> related threshold s t ms ->
       pair_key s t ∈ map fst d).

Lemma match_columns_some source_tbl target_tbl threshold :
  exists ms, match_columns source_tbl target_tbl threshold = Some ms.
Proof.
  unfold match_columns.
  destruct (collect_matches_spec source_tbl target_tbl threshold
              (columns source_tbl)) as (ms & -> & _).
  eexists. reflexivity.
Qed.

Lemma match_pair_inv threshold done acc s t :
  schemas_inv threshold done acc ->
  schemas_inv threshold (done ++ [(s, t)]) (match_pair threshold acc s t).
Proof.
  intros (d & -> & Hnd & Hsound & Hcomplete). unfold match_pair.
  assert (Hkeep : forall d',
    NoDup (map fst d') ->
    (forall k ms, (k, ms) ∈ d' ->
       (k, ms) ∈ d \/ (k = pair_key s t /\ related threshold s t ms)) ->
    (forall k, k ∈ map fst d -> k ∈ map fst d') ->
    (forall ms, related threshold s t ms -> pair_key s t ∈ map fst d') ->
    schemas_inv threshold (done ++ [(s, t)]) (Some d')).
  { intros d' Hnd' Hs' Hmono Hnew. exists d'. split; [reflexivity|].
    split; [exact Hnd'|]. split.
    - intros k ms Hin. destruct (Hs' k ms Hin) as [Hold | [-> Hrel]].
      + destruct (Hsound k ms Hold) as (s0 & t0 & Hd & Hk & Hr).
        exists s0, t0. split; [apply in_or_app; left; exact Hd | auto].
      + exists s, t. split; [apply in_or_app; right; left; reflexivity | auto].
    - intros s0 t0 ms Hin Hrel. apply in_app_or in Hin as [Hin | [[= <- <-] | []]].
      + apply Hmono. eapply Hcomplete; eassumption.
      + eapply Hnew, Hrel. }
  destruct (Qlt_bool _ _) eqn:Esim.
  - apply Qlt_bool_iff in Esim.
    destruct (match_columns_some s t threshold) as (ms & Ems). rewrite Ems.
    destruct ms as [|m ms].
    + apply Hkeep; [exact Hnd | auto | auto |].
      intros ms' (_ & Hms' & Hne). rewrite Ems in Hms'. injection Hms' as <-.
      contradiction.
    + apply Hkeep.
      * apply PyDict.set_keys_nodup, Hnd.
      * intros k ms' Hin. apply PyDict.elem_of_set in Hin as [[-> ->] | Hin];
          [right | left; exact Hin].
        split; [reflexivity|]. split; [exact Esim|].
        split; [exact Ems | discriminate].
      * intros k Hk. apply PyDict.set_keys_incl. right. exact Hk.
      * intros _ _. apply PyDict.set_keys_incl. left. reflexivity.
  - apply Hkeep; [exact Hnd | auto | auto |].
    intros ms' (Hsim & _). apply Qlt_bool_iff in Hsim. congruence.
Qed.

Lemma match_schemas_inv threshold (target : list TableInfo) :
  forall source done acc,
    schemas_inv threshold done acc ->
    schemas_inv threshold
      (done ++ flat_map (fun s => map (pair s) target) source)
      (foldl (fun acc src_table =>
                foldl (fun acc tgt_table =>
                         match_pair threshold acc src_table tgt_table)
                      acc target)
             acc source).
Proof.
  assert (Hinner : forall s tgts done acc,
    schemas_inv threshold done acc ->
    schemas_inv threshold (done ++ map (pair s) tgts)
      (foldl (fun acc tgt_table => match_pair threshold acc s tgt_table) acc tgts)).
  { intros s. induction tgts as [|t tgts IH]; intros done acc Hacc; simpl.
    - rewrite app_nil_r. exact Hacc.
    - replace (done ++ (s, t) :: map (pair s) tgts)%list
        with ((done ++ [(s, t)]) ++ map (pair s) tgts)%list
        by (rewrite <- app_assoc; reflexivity).
      apply IH, match_pair_inv, Hacc. }
  induction source as [|s source IH]; intros done acc Hacc; simpl.
  - rewrite app_nil_r. exact Hacc.
  - rewrite app_assoc. apply IH, Hinner, Hacc.
Qed.

(** X30.  [match_schemas] returns a dictionary with one entry per key
    "source → target".  Every entry belongs to a pair of a source and a
    target table whose names have a syntactic similarity above 0.3: its key
    names that pair, and its value is the non-empty list [match_columns]
    returns for the pair, every match of which names the two tables.  And
    every such pair with a non-empty list of matches has its key in the
    dictionary. *)
Theorem match_schemas_entries (source target : list TableInfo) (threshold : Q) :
  exists all_matches,
    match_schemas source target threshold = Some all_matches /\
    NoDup (map fst all_matches) /\
    (forall k ms, (k, ms) ∈ all_matches ->
       ms <> [] /\
       exists s t,
         In s source /\ In t target /\
         k = (table_name s ++ " → " ++ table_name t)%string /\
         3 # 10 < _compute_syntactic_score (table_name s) (table_name t) /\
         match_columns s t threshold = Some ms /\
         forall m, In m ms ->
           source_table m = table_name s /\ target_table m = table_name t) /\
    (forall s t ms,
       In s source -> In t target ->
       3 # 10 < _compute_syntactic_score (table_name s) (table_name t) ->
       match_columns s t threshold = Some ms -> ms <> [] ->
       (table_name s ++ " → " ++ table_name t)%string ∈ map fst all_matches).
Proof.
  assert (Hinit : schemas_inv threshold [] (Some [])).
  { exists []. split; [reflexivity|]. split; [constructor|]. split.
    - intros k ms Hin. apply elem_of_nil in Hin. destruct Hin.
    - intros s t ms []. }
  destruct (match_schemas_inv threshold target source [] (Some []) Hinit)
    as (d & Hd & Hnd & Hsound & Hcomplete).
  simpl in Hsound, Hcomplete.
  exists d. split; [exact Hd|]. split; [exact Hnd|]. split.
  - intros k ms Hin.
    destruct (Hsound k ms Hin) as (s & t & Hst & Hk & Hsim & Hms & Hne).
    split; [exact Hne|]. exists s, t.
    apply in_flat_map in Hst as (s' & Hs' & Hst).
    apply in_map_iff in Hst as (t' & [= <- <-] & Ht').
    split; [exact Hs'|]. split; [exact Ht'|]. split; [exact Hk|].
    split; [exact Hsim|]. split; [exact Hms|].
    intros m Hm. unfold match_columns in Hms.
    destruct (collect_matches_best s' t' threshold (columns s'))
      as (ms0 & Hms0 & Hbest & _).
    rewrite Hms0 in Hms. injection Hms as <-.
    apply (Permutation_in _ (Permutation_sym (sort_desc_perm ms0))) in Hm.
    destruct (Hbest m Hm) as (src & _ & (tgt & _ & Hof) & _).
    destruct Hof as (_ & _ & H3 & H4 & _). auto.
  - intros s t ms Hs Ht Hsim Hms Hne.
    apply (Hcomplete s t ms).
    + apply in_flat_map. exists s. split; [exact Hs|]. apply in_map, Ht.
    + split; [exact Hsim|]. split; [exact Hms | exact Hne].
Qed.

End Matcher.

(** C9.  [match_columns] returns, for every pair of tables and every
    threshold, a list with at most one match per source column (for each
    name, no more matches than source columns of that name, so no more
    matches than source columns); every match has a score of at least the
    threshold; its confidence is HIGH from 0.85, MEDIUM from 0.60, LOW from
    0.40 and NONE below; and the list is in non-increasing order of score. *)
Theorem match_columns_sound
    (semantic syntactic typ : string -> string -> Q) (percent : Q -> string)
    (source_tbl target_tbl : TableInfo) (threshold : Q) :
  exists matches,
    match_columns semantic syntactic typ percent source_tbl target_tbl threshold
      = Some matches /\
    (forall c, (length (filter (fun m => source_column m = c) matches)
                <= length (filter (fun col => name col = c) (columns source_tbl)))%nat) /\
    (length matches <= length (columns source_tbl))%nat /\
    Forall (fun m => threshold <= overall_score m) matches /\
    Forall (fun m =>
      confidence m =
        if Qle_bool (85 # 100) (overall_score m) then HIGH
        else if Qle_bool (60 # 100) (overall_score m) then MEDIUM
        else if Qle_bool (40 # 100) (overall_score m) then LOW
        else NONE) matches /\
    StronglySorted (fun a b => overall_score b <= overall_score a) matches.
Proof.
  unfold match_columns.
  destruct (collect_matches_spec semantic syntactic typ percent
              source_tbl target_tbl threshold (columns source_tbl))
    as (ms & -> & Hcnt & Hlen & Hthr & Hconf).
  pose proof (sort_desc_perm ms) as Hperm.
  exists (sort_desc ms). split; [reflexivity|]. repeat split.
  - intros c. rewrite <- (filter_length_perm _ _ _ Hperm). apply Hcnt.
  - rewrite <- (Permutation_length Hperm). exact Hlen.
  - rewrite <- Hperm. exact Hthr.
  - rewrite <- Hperm. exact Hconf.
  - apply sort_desc_sorted.
Qed.

(** *** The type score *)

(** [TYPE_COMPATIBILITY]: for a source type, the target types it converts
    to. *)
Definition TYPE_COMPATIBILITY : gmap string (list string) :=
  list_to_map
    [ ("INTEGER", ["INTEGER"; "BIGINT"; "INT"; "SMALLINT"; "NUMERIC"; "DECIMAL";
                   "FLOAT"; "DOUBLE"; "REAL"]);
      ("INT", ["INTEGER"; "BIGINT"; "INT"; "SMALLINT"; "NUMERIC"; "DECIMAL";
               "FLOAT"; "DOUBLE"; "REAL"]);
      ("BIGINT", ["BIGINT"; "INTEGER"; "NUMERIC"; "DECIMAL"]);
      ("FLOAT", ["FLOAT"; "DOUBLE"; "REAL"; "NUMERIC"; "DECIMAL"]);
      ("DOUBLE", ["DOUBLE"; "FLOAT"; "REAL"; "NUMERIC"; "DECIMAL"]);
      ("REAL", ["REAL"; "FLOAT"; "DOUBLE"; "NUMERIC"; "DECIMAL"]);
      ("TEXT", ["TEXT"; "VARCHAR"; "CHAR"; "NVARCHAR"; "NCHAR"; "STRING"; "CLOB"]);
      ("VARCHAR", ["VARCHAR"; "TEXT"; "CHAR"; "NVARCHAR"; "NCHAR"; "STRING"]);
      ("CHAR", ["CHAR"; "VARCHAR"; "TEXT"; "NCHAR"]);
      ("BLOB", ["BLOB"; "BINARY"; "VARBINARY"; "BYTEA"]);
      ("DATE", ["DATE"; "DATETIME"; "TIMESTAMP"]);
      ("DATETIME", ["DATETIME"; "TIMESTAMP"; "DATE"]);
      ("TIMESTAMP", ["TIMESTAMP"; "DATETIME"; "DATE"]);
      ("BOOLEAN", ["BOOLEAN"; "BIT"; "TINYINT"; "INTEGER"]);
      ("BOOL", ["BOOLEAN"; "BIT"; "TINYINT"; "INTEGER"]) ].

(** [s.split('(')[0]]. *)
Fixpoint before_paren (s : string) : string :=
  match s with
  | EmptyString => EmptyString
  | String c rest =>
      if Ascii.eqb c "(" then EmptyString else String c (before_paren rest)
  end.

(** [source_type in TYPE_COMPATIBILITY and
     target_type in TYPE_COMPATIBILITY[source_type]]. *)
Definition compatible (source_type target_type : string) : bool :=
  match TYPE_COMPATIBILITY !! source_type with
  | Some targets => bool_decide (target_type ∈ targets)
  | None => false
  end.

Section TypeScore.

(** [str.upper] and [str.strip]. *)
Variable upper : string -> string.
Variable strip : string -> string.

(** [t.upper().split('(')[0].strip()]. *)
Definition base_type (t : string) : string := strip (before_paren (upper t)).

(** [SemanticMatcher._compute_type_score]. *)
Definition _compute_type_score (source_type target_type : string) : Q :=
  let source_type := base_type source_type in
  let target_type := base_type target_type in
  if decide (source_type = target_type) then 1
  else if compatible source_type target_type then 8 # 10
  else if compatible target_type source_type then 6 # 10
  else 2 # 10.

(** The four values of the score, by cases. *)
Lemma _compute_type_score_cases (source_type target_type : string) :
  let s := base_type source_type in
  let t := base_type target_type in
  (s = t /\ _compute_type_score source_type target_type = 1) \/
  (s <> t /\ compatible s t = true /\
   _compute_type_score source_type target_type = 8 # 10) \/
  (s <> t /\ compatible s t = false /\ compatible t s = true /\
   _compute_type_score source_type target_type = 6 # 10) \/
  (s <> t /\ compatible s t = false /\ compatible t s = false /\
   _compute_type_score source_type target_type = 2 # 10).
Proof.
  unfold _compute_type_score. cbv zeta.
  destruct (decide (base_type source_type = base_type target_type)) as [E|E];
    [left; auto|].
  destruct (compatible (base_type source_type) (base_type target_type));
    [right; left; auto|].
  destruct (compatible (base_type target_type) (base_type source_type));
    [right; right; left; auto | right; right; right; auto].
Qed.

Variable _compute_semantic_score : string -> string -> Q.
Variable _compute_syntactic_score : string -> string -> Q.
Variable percent : Q -> string.

(** X29.  Type scores and the type warning of [match_columns], for a
    target table whose column names are distinct.  Each match pairs a
    source column with a target column whose declared types, in upper case
    and without a size, give its type score: 1 when they are equal, else
    0.8 when the target type is listed for the source type, else 0.6 when
    only the source type is listed for the target type, else 0.2.  The match
    carries the warning "Type mismatch: S → T" exactly in the last case,
    that is when the types differ and neither is listed for the other, so
    the warning does not depend on the direction of the migration. *)
Theorem type_mismatch_is_warned (source_tbl target_tbl : TableInfo)
    (threshold : Q) :
  List.NoDup (map name (columns target_tbl)) ->
  exists matches,
    match_columns _compute_semantic_score _compute_syntactic_score
      _compute_type_score percent source_tbl target_tbl threshold
      = Some matches /\
    forall m, In m matches ->
      exists src tgt,
        In src (columns source_tbl) /\ In tgt (columns target_tbl) /\
        source_column m = name src /\ target_column m = name tgt /\
        let s := base_type (data_type src) in
        let t := base_type (data_type tgt) in
        let warned :=
          In ("Type mismatch: " ++ data_type src ++ " → " ++ data_type tgt)
             (warnings m) in
        type_score m =
          (if decide (s = t) then 1
           else if compatible s t then 8 # 10
           else if compatible t s then 6 # 10 else 2 # 10) /\
        (warned <-> s <> t /\ compatible s t = false /\ compatible t s = false) /\
        (warned <->
         _compute_type_score (data_type tgt) (data_type src) == 2 # 10).
Proof.
  intros Hnd.
  destruct (collect_matches_spec _compute_semantic_score _compute_syntactic_score
              _compute_type_score percent source_tbl target_tbl threshold
              (columns source_tbl)) as (ms & Hms & _).
  exists (sort_desc ms). split; [unfold match_columns; rewrite Hms; reflexivity|].
  intros m Hin.
  destruct (match_columns_warnings _compute_semantic_score
              _compute_syntactic_score _compute_type_score percent
              source_tbl target_tbl threshold (sort_desc ms) Hnd) with (m := m)
    as (src & tgt & Hsrc & Htgt & Hm & Hw);
    [unfold match_columns; rewrite Hms; reflexivity | exact Hin |].
  destruct Hm as (H1 & H2 & _ & _ & _ & _ & _ & H8).
  exists src, tgt.
  split; [exact Hsrc|]. split; [exact Htgt|].
  split; [exact H1|]. split; [exact H2|]. cbv zeta.
  split; [exact H8|].
  assert (Hwarned :
    In ("Type mismatch: " ++ data_type src ++ " → " ++ data_type tgt)
       (warnings m)
    <-> base_type (data_type src) <> base_type (data_type tgt) /\
        compatible (base_type (data_type src)) (base_type (data_type tgt)) = false /\
        compatible (base_type (data_type tgt)) (base_type (data_type src)) = false).
  { rewrite Hw, H8. unfold type_warnings.
    assert (Hcw : ~ In ("Type mismatch: " ++ data_type src ++ " → "
                          ++ data_type tgt) (constraint_warnings src tgt)).
    { unfold constraint_warnings. intros Hc. apply in_app_or in Hc.
      destruct Hc as [Hc | Hc];
        [destruct (is_primary_key src && negb (is_primary_key tgt))
        |destruct (negb (is_nullable src) && is_nullable tgt)];
        simpl in Hc;
        try (destruct Hc as [Hc | []]; discriminate Hc); destruct Hc. }
    destruct (_compute_type_score_cases (data_type src) (data_type tgt))
      as [(E & ->) | [(E & Ec & ->) | [(E & Ec & Ec' & ->) | (E & Ec & Ec' & ->)]]];
      cbv zeta in E; cbn [Qeq_bool Qle_bool Qlt_bool negb app].
    - split; [intros Hc; contradiction | intros (Hne & _); contradiction].
    - split; [intros Hc; contradiction | intros (_ & Hf & _); congruence].
    - split; [intros Hc; contradiction | intros (_ & _ & Hf); congruence].
    - split; [auto | intros _; left; reflexivity]. }
  split; [exact Hwarned|].
  rewrite Hwarned.
  destruct (_compute_type_score_cases (data_type tgt) (data_type src))
    as [(E & ->) | [(E & Ec & ->) | [(E & Ec & Ec' & ->) | (E & Ec & Ec' & ->)]]];
    cbv zeta in E.
  - split; [intros (Hne & _); congruence | intros Hq; discriminate Hq].
  - split; [intros (_ & _ & Hf); congruence | intros Hq; discriminate Hq].
  - split; [intros (_ & Hf & _); congruence | intros Hq; discriminate Hq].
  - split; [reflexivity | intros _; auto].
Qed.

End TypeScore.

(** A run on two small tables. *)
Definition demo_score (s t : string) : Q :=
  if decide (s = "cust_id" /\ t = "customer_id") then 9 # 10
  else if decide (s = "nm" /\ t = "name") then 5 # 10
  else 1 # 10.
Definition demo_type_score (s t : string) : Q :=
  if decide (s = t) then 1 else 2 # 10.
Definition demo_source : TableInfo :=
  mkTableInfo "cust" [mkColumnInfo "nm" "TEXT" true false;
                      mkColumnInfo "cust_id" "INTEGER" false true;
                      mkColumnInfo "legacy_flag" "BLOB" true false].
Definition demo_target : TableInfo :=
  mkTableInfo "customers" [mkColumnInfo "customer_id" "INTEGER" false true;
                           mkColumnInfo "name" "TEXT" true false].

Example demo_match_columns :
  option_map (map (fun m => (source_column m, target_column m,
                             Qred (overall_score m), confidence m)))
             (match_columns demo_score demo_score demo_type_score
                (fun _ => "") demo_source demo_target (4 # 10))
  = Some [("cust_id", "customer_id", 23 # 25, HIGH);
          ("nm", "name", 3 # 5, MEDIUM)].
Proof. vm_compute. reflexivity. Qed.

Lemma type_mismatch_is_warned_witness :
  exists matches,
    match_columns demo_score demo_score
      (_compute_type_score (fun s => s) (fun s => s)) (fun _ => "")
      {| table_name := "cust";
         columns := [mkColumnInfo "nm" "BLOB" true false] |}
      demo_target (1 # 10) = Some matches /\
    map (fun m => (target_column m, Qred (type_score m), warnings m)) matches
    = [("name", 1 # 5, ["Type mismatch: BLOB → TEXT"])] /\
    forall m, In m matches -> exists src tgt,
      In src [mkColumnInfo "nm" "BLOB" true false] /\
      In tgt (columns demo_target) /\
      source_column m = name src /\ target_column m = name tgt.
Proof.
  destruct (type_mismatch_is_warned (fun s => s) (fun s => s)
              demo_score demo_score (fun _ => "")
              {| table_name := "cust";
                 columns := [mkColumnInfo "nm" "BLOB" true false] |}
              demo_target (1 # 10)) as (matches & Hrun & Hall).
  - repeat constructor; simpl; intuition discriminate.
  - exists matches. split; [exact Hrun|]. split.
    + vm_compute in Hrun. injection Hrun as <-. vm_compute. reflexivity.
    + intros m Hm. destruct (Hall m Hm) as (src & tgt & H1 & H2 & H3 & H4 & _).
      exists src, tgt. auto.
Defined.

(** Two source tables against one target table: only the pair with similar
    names is matched. *)
Example demo_match_schemas :
  option_map (map (fun kv => (fst kv, map target_column (snd kv))))
    (match_schemas
       (fun s t => if decide (s = "orders") then 0 else demo_score s t)
       (fun s t => if decide (s = "orders") then 0
                   else if decide (s = "cust" /\ t = "customers") then 1
                   else demo_score s t)
       demo_type_score (fun _ => "")
       [demo_source; {| table_name := "orders"; columns := columns demo_source |}]
       [demo_target] (4 # 10))
  = Some [("cust → customers", ["customer_id"; "name"])].
Proof. vm_compute. reflexivity. Qed.

End SemanticMatch.

(** ** PS1: the NLI classifier call (claim_verifier.py, _run_nli) *)

Module Nli.

Local Open Scope R_scope.
Local Open Scope string_scope.

(** [ClaimVerifier.LABEL_MAP]. *)
Definition LABEL_MAP : gmap nat string :=
  <[ 0%nat := "contradiction" ]>
    (<[ 1%nat := "neutral" ]> (<[ 2%nat := "entailment" ]> ∅)).

Definition sum_R (l : list R) : R := fold_right Rplus 0 l.

(** [torch.softmax(logits, dim=1)[0]] on the one row of logits. *)
Definition softmax (logits : list R) : list R :=
  map (fun x => exp x / sum_R (map exp logits)) logits.

(** [torch.argmax]: the position of the largest entry (the first one among
    equals); undefined on an empty tensor. *)
Fixpoint argmax_from (best_i : nat) (best : R) (i : nat) (l : list R) : nat :=
  match l with
  | [] => best_i
  | x :: l' =>
      if Rlt_dec best x then argmax_from i x (S i) l'
      else argmax_from best_i best (S i) l'
  end.

Definition argmax (l : list R) : option nat :=
  match l with
  | [] => None
  | x :: l' => Some (argmax_from 0 x 1 l')
  end.

Section Model.

(** The tokenizer and the NLI model: the row of class logits for one
    (premise, hypothesis) pair. *)
Variable model_logits : string -> string -> list R.

(** [ClaimVerifier._run_nli]; [None] when [torch.argmax] has nothing to
    choose from. *)
Definition _run_nli (premise hypothesis : string) : option (string * R) :=
  let logits := model_logits premise hypothesis in
  let probs := softmax logits in
  predicted_label ← argmax probs;
  confidence ← probs !! predicted_label;
  let label := default "unknown" (LABEL_MAP !! predicted_label) in
  Some (label, confidence).

End Model.

(** *** Facts about argmax and softmax *)

Lemma argmax_from_spec l : forall bi b i,
  (bi < i)%nat ->
  let r := argmax_from bi b i l in
  (r < i + length l)%nat /\
  ((r = bi /\ Forall (fun x => x <= b) l) \/
   (exists k x, r = (i + k)%nat /\ l !! k = Some x /\ b <= x /\
                Forall (fun y => y <= x) l)).
Proof.
  induction l as [|x l IH]; intros bi b i Hlt; simpl.
  - split; [lia|]. left. split; [reflexivity | constructor].
  - destruct (Rlt_dec b x) as [Hbx | Hbx].
    + destruct (IH i x (S i) ltac:(lia)) as [Hr Hcase]. split; [lia|].
      right. destruct Hcase as [[-> Hall] | (k & y & -> & Hk & Hxy & Hall)].
      * exists 0%nat, x. repeat split; [f_equal; lia | lra |].
        constructor; [lra | exact Hall].
      * exists (S k), y. repeat split; [lia | exact Hk | lra |].
        constructor; [exact Hxy | exact Hall].
    + destruct (IH bi b (S i) ltac:(lia)) as [Hr Hcase]. split; [lia|].
      destruct Hcase as [[-> Hall] | (k & y & -> & Hk & Hby & Hall)].
      * left. split; [reflexivity|]. constructor; [lra | exact Hall].
      * right. exists (S k), y. repeat split; [lia | exact Hk | exact Hby |].
        constructor; [lra | exact Hall].
Qed.

Lemma argmax_spec l :
  l <> [] ->
  exists k x, argmax l = Some k /\ l !! k = Some x /\ Forall (fun y => y <= x) l.
Proof.
  destruct l as [|x l]; [congruence|]. intros _. simpl.
  destruct (argmax_from_spec l 0 x 1 ltac:(lia)) as [_ Hcase].
  destruct Hcase as [[-> Hall] | (k & y & -> & Hk & Hxy & Hall)].
  - exists 0%nat, x. repeat split. constructor; [lra | exact Hall].
  - exists (S k), y. repeat split; [exact Hk|]. constructor; assumption.
Qed.

Lemma sum_exp_pos l : l <> [] -> 0 < sum_R (map exp l).
Proof.
  induction l as [|x l IH]; [congruence|]. intros _. simpl.
  pose proof (exp_pos x). destruct l as [|y l].
  - simpl. lra.
  - specialize (IH ltac:(discriminate)). simpl in *. lra.
Qed.

Lemma sum_exp_nonneg l : 0 <= sum_R (map exp l).
Proof.
  induction l as [|x l IH]; simpl; [lra|]. pose proof (exp_pos x). lra.
Qed.

Lemma exp_le_sum l k x : l !! k = Some x -> exp x <= sum_R (map exp l).
Proof.
  revert k. induction l as [|y l IH]; intros [|k] Hk; simpl in *; try discriminate.
  - injection Hk as ->. pose proof (sum_exp_nonneg l). lra.
  - specialize (IH _ Hk). pose proof (exp_pos y). lra.
Qed.

Lemma softmax_lookup l k p :
  softmax l !! k = Some p ->
  exists x, l !! k = Some x /\ p = exp x / sum_R (map exp l).
Proof.
  unfold softmax. rewrite list_lookup_fmap.
  destruct (l !! k) as [x|]; simpl; [|discriminate].
  intros [= <-]. eauto.
Qed.

(** C7.  When the model yields exactly three class logits, [_run_nli]
    returns one of the labels "contradiction", "neutral", "entailment": the
    predicted index is a key of LABEL_MAP, so the label is never "unknown";
    the confidence is the softmax probability of that class, the largest of
    the three, and lies in (0, 1]. *)
Theorem run_nli_three_classes
    (model_logits : string -> string -> list R) (premise hypothesis : string) :
  length (model_logits premise hypothesis) = 3%nat ->
  exists (k : nat) (label : string) (confidence logit : R),
    _run_nli model_logits premise hypothesis = Some (label, confidence) /\
    LABEL_MAP !! k = Some label /\
    (label = "contradiction" \/ label = "neutral" \/ label = "entailment") /\
    label <> "unknown" /\
    model_logits premise hypothesis !! k = Some logit /\
    confidence = exp logit / sum_R (map exp (model_logits premise hypothesis)) /\
    Forall (fun p => p <= confidence) (softmax (model_logits premise hypothesis)) /\
    0 < confidence <= 1.
Proof.
  intros Hlen. unfold _run_nli.
  set (logits := model_logits premise hypothesis) in *.
  assert (Hne : logits <> []) by (intros E; rewrite E in Hlen; discriminate).
  assert (Hne' : softmax logits <> []).
  { unfold softmax. destruct logits; [congruence | discriminate]. }
  destruct (argmax_spec _ Hne') as (k & p & -> & Hk & Hmax).
  simpl. rewrite Hk. simpl.
  destruct (softmax_lookup _ _ _ Hk) as (x & Hx & Hp).
  assert (Hk3 : (k < 3)%nat).
  { rewrite <- Hlen. eapply lookup_lt_Some, Hx. }
  pose proof (sum_exp_pos _ Hne) as Hpos.
  pose proof (exp_pos x) as Hex.
  pose proof (exp_le_sum _ _ _ Hx) as Hle.
  assert (Hrange : 0 < p <= 1).
  { subst p. split.
    - apply Rdiv_lt_0_compat; assumption.
    - unfold Rdiv. apply (Rmult_le_reg_r (sum_R (map exp logits))); [assumption|].
      rewrite Rmult_assoc, Rinv_l by lra. lra. }
  exists k, (default "unknown" (LABEL_MAP !! k)), p, x.
  destruct k as [|[|[|k]]]; [| | | lia];
    (split; [reflexivity|]); (split; [reflexivity|]);
    repeat split; auto; try discriminate; tauto.
Qed.

Definition demo_logits (_ _ : string) : list R := [0; 1; 2].

Lemma run_nli_three_classes_witness :
  exists (k : nat) (label : string) (confidence logit : R),
    _run_nli demo_logits "p" "h" = Some (label, confidence) /\
    LABEL_MAP !! k = Some label /\
    (label = "contradiction" \/ label = "neutral" \/ label = "entailment") /\
    label <> "unknown" /\
    demo_logits "p" "h" !! k = Some logit /\
    confidence = exp logit / sum_R (map exp (demo_logits "p" "h")) /\
    Forall (fun p => p <= confidence) (softmax (demo_logits "p" "h")) /\
    0 < confidence <= 1.
Proof.
  apply (run_nli_three_classes demo_logits "p" "h"). reflexivity.
Defined.

End Nli.

(** ** PS1: claim verification and the trust score (claim_verifier.py) *)

Module Verifier.

Local Open Scope Q_scope.
Local Open Scope string_scope.

(** One hit of [embedding_engine.search_similar]. *)
Record chunk : Type := Chunk {
  chunk_text : string;
  chunk_source : string;
  chunk_page : Z;
  chunk_score : Q
}.

(** One entry of [nli_results]. *)
Record nli_result : Type := NliResult {
  text : string;
  source : string;
  page : Z;
  nli_label : string;
  confidence : Q;
  retrieval_score : Q;
  implicit_contradiction : bool
}.

(** The dictionary [verify_claim] returns. *)
Record claim_result : Type := ClaimResult {
  claim : string;
  status : string;
  result_confidence : Q;
  evidence : option nli_result;
  all_evidence : list nli_result;
  explanation : string
}.

Record statistics : Type := Statistics {
  total : nat;
  supported : nat;
  contradicted : nat;
  unverifiable : nat
}.

(** The dictionary [verify_document] returns. *)
Record document_result : Type := DocumentResult {
  claims : list claim_result;
  stats : statistics;
  trust_score : Q
}.

(** Python's two-argument [max] and [min]: the first argument wins ties. *)
Definition py_max (a b : Q) : Q := if Qlt_bool a b then b else a.
Definition py_min (a b : Q) : Q := if Qlt_bool b a then b else a.

(** [max(items, key=lambda x: x['confidence'])]: the first item of largest
    confidence. *)
Fixpoint max_by_confidence (best : nli_result) (l : list nli_result) : nli_result :=
  match l with
  | [] => best
  | r :: l' =>
      max_by_confidence
        (if Qlt_bool (confidence best) (confidence r) then r else best) l'
  end.

(** [needle in haystack] on strings. *)
Definition contains (haystack needle : string) : bool :=
  match String.index 0 needle haystack with
  | Some _ => true
  | None => false
  end.

Definition ENTAILMENT_THRESHOLD : Q := 7 # 10.
Definition CONTRADICTION_THRESHOLD : Q := 5 # 10.
Definition IMPLICIT_CONTRADICTION_RETRIEVAL_THRESHOLD : Q := - (1 # 10).

Section Verify.

(** The retrieval step and the NLI model. *)
Variable search_similar : string -> nat -> list chunk.
Variable _run_nli : string -> string -> string * Q.
(** [str.lower], the [:.2%] rendering of a confidence, and [str] of a page. *)
Variable lower : string -> string.
Variable percent2 : Q -> string.
Variable show_page : Z -> string.

(** [result['implicit_contradiction'] = True]. *)
Definition mark_implicit (result : nli_result) : nli_result :=
  {| text := text result; source := source result; page := page result;
     nli_label := nli_label result; confidence := confidence result;
     retrieval_score := retrieval_score result;
     implicit_contradiction := true |}.

(** The implicit-contradiction scan: [for result in neutrals], where
    [neutrals] are the entries of [nli_results] labelled "neutral".  The
    entry found is marked in place, so the scan also yields [nli_results]
    with that entry marked. *)
Fixpoint first_implicit (nli_results : list nli_result)
  : option (nli_result * list nli_result) :=
  match nli_results with
  | [] => None
  | result :: rest =>
      let evidence_lower := lower (text result) in
      let is_contraindication_evidence :=
        existsb (contains evidence_lower)
          ["contraindication"; "avoid"; "should not"; "must not"] in
      if bool_decide (nli_label result = "neutral")
         && (is_contraindication_evidence
             && Qle_bool IMPLICIT_CONTRADICTION_RETRIEVAL_THRESHOLD
                         (retrieval_score result))
      then Some (mark_implicit result, mark_implicit result :: rest)
      else match first_implicit rest with
           | Some (found, rest') => Some (found, result :: rest')
           | None => None
           end
  end.

Definition with_label (lbl : string) (nli_results : list nli_result)
  : list nli_result :=
  filter (fun r => nli_label r = lbl) nli_results.

(** What [_aggregate_nli_results] yields: status, explanation, best
    evidence, and [nli_results] as the call leaves it. *)
Definition aggregate_t : Type :=
  string * string * option nli_result * list nli_result.

(** The default branch of [_aggregate_nli_results]. *)
Definition aggregate_default (nli_results : list nli_result) : aggregate_t :=
  ("unverifiable",
   "Claim cannot be verified with high confidence. "
     ++ "Evidence is either insufficient or neutral.",
   match nli_results with
   | [] => None
   | r :: rest => Some (max_by_confidence r rest)
   end,
   nli_results).

(** The implicit-contradiction branch and what follows it. *)
Definition aggregate_implicit (claim_text : string) (nli_results : list nli_result)
  : aggregate_t :=
  let claim_lower := lower claim_text in
  let is_contraindication_claim :=
    existsb (contains claim_lower)
      ["avoid"; "contraindication"; "should not"; "must not"; "do not"; "don't"] in
  match
    (if is_contraindication_claim then first_implicit nli_results else None)
  with
  | Some (result, nli_results') =>
      ("contradicted",
       "Claim appears to CONTRADICT evidence on page " ++ show_page (page result)
         ++ ". " ++ "The source mentions different contraindications than the claim.",
       Some result, nli_results')
  | None => aggregate_default nli_results
  end.

(** The contradiction branch and what follows it. *)
Definition aggregate_contradiction (claim_text : string) (nli_results : list nli_result)
  : aggregate_t :=
  match with_label "contradiction" nli_results with
  | r :: rest =>
      let best_contradiction := max_by_confidence r rest in
      if Qle_bool CONTRADICTION_THRESHOLD (confidence best_contradiction) then
        ("contradicted",
         "Claim CONTRADICTS evidence on page " ++ show_page (page best_contradiction)
           ++ ". " ++ "Confidence: " ++ percent2 (confidence best_contradiction),
         Some best_contradiction, nli_results)
      else aggregate_implicit claim_text nli_results
  | [] => aggregate_implicit claim_text nli_results
  end.

(** [_aggregate_nli_results]. *)
Definition _aggregate_nli_results (claim_text : string) (nli_results : list nli_result)
  : aggregate_t :=
  match with_label "entailment" nli_results with
  | r :: rest =>
      let best_entailment := max_by_confidence r rest in
      if Qle_bool ENTAILMENT_THRESHOLD (confidence best_entailment) then
        ("supported",
         "Claim is SUPPORTED by evidence on page " ++ show_page (page best_entailment)
           ++ ". " ++ "Confidence: " ++ percent2 (confidence best_entailment),
         Some best_entailment, nli_results)
      else aggregate_contradiction claim_text nli_results
  | [] => aggregate_contradiction claim_text nli_results
  end.

(** [verify_claim]. *)
Definition verify_claim (claim_text : string) (top_k : nat) : claim_result :=
  let evidence_chunks := search_similar claim_text top_k in
  match evidence_chunks with
  | [] =>
      {| claim := claim_text; status := "unverifiable"; result_confidence := 0;
         evidence := None; all_evidence := [];
         explanation := "No relevant evidence found in source documents." |}
  | _ =>
      let nli_results :=
        map (fun c =>
               let '(label, conf) := _run_nli (chunk_text c) claim_text in
               {| text := chunk_text c; source := chunk_source c;
                  page := chunk_page c; nli_label := label; confidence := conf;
                  retrieval_score := chunk_score c;
                  implicit_contradiction := false |})
            evidence_chunks in
      let '(final_status, expl, best_evidence, nli_results') :=
        _aggregate_nli_results claim_text nli_results in
      {| claim := claim_text; status := final_status;
         result_confidence :=
           match best_evidence with Some e => confidence e | None => 0 end;
         evidence := best_evidence;
         all_evidence := take 3 nli_results';
         explanation := expl |}
  end.

Definition count_status (s : string) (results : list claim_result) : nat :=
  length (filter (fun r => status r = s) results).

(** [verify_document]. *)
Definition verify_document (claim_texts : list string) : document_result :=
  let results := map (fun c => verify_claim c 5) claim_texts in
  let n_supported := count_status "supported" results in
  let n_contradicted := count_status "contradicted" results in
  let n_unverifiable := count_status "unverifiable" results in
  let n_total := length results in
  let q (n : nat) : Q := inject_Z (Z.of_nat n) in
  let trust0 := if (0 <? n_total)%nat then q n_supported / q n_total else 0 in
  let trust1 :=
    trust0 - (if (0 <? n_total)%nat
              then (q n_contradicted / q n_total) * (5 # 10) else 0) in
  {| claims := results;
     stats := {| total := n_total; supported := n_supported;
                 contradicted := n_contradicted;
                 unverifiable := n_unverifiable |};
     trust_score := py_max 0 (py_min 1 trust1) |}.

(** *** Every claim gets one of three statuses *)

Definition known_status (s : string) : Prop :=
  s = "supported" \/ s = "contradicted" \/ s = "unverifiable".

Lemma aggregate_default_status rs : known_status (aggregate_default rs).1.1.1.
Proof. right; right; reflexivity. Qed.

Lemma aggregate_implicit_status c rs :
  known_status (aggregate_implicit c rs).1.1.1.
Proof.
  unfold aggregate_implicit.
  destruct (if existsb _ _ then first_implicit rs else None) as [[r rs']|].
  - right; left; reflexivity.
  - apply aggregate_default_status.
Qed.

Lemma aggregate_contradiction_status c rs :
  known_status (aggregate_contradiction c rs).1.1.1.
Proof.
  unfold aggregate_contradiction.
  destruct (with_label "contradiction" rs) as [|r rest];
    [apply aggregate_implicit_status|].
  destruct (Qle_bool _ _); [right; left; reflexivity|].
  apply aggregate_implicit_status.
Qed.

Lemma aggregate_status c rs : known_status (_aggregate_nli_results c rs).1.1.1.
Proof.
  unfold _aggregate_nli_results.
  destruct (with_label "entailment" rs) as [|r rest];
    [apply aggregate_contradiction_status|].
  destruct (Qle_bool _ _); [left; reflexivity|].
  apply aggregate_contradiction_status.
Qed.

Lemma verify_claim_status c k : known_status (status (verify_claim c k)).
Proof.
  unfold verify_claim. destruct (search_similar c k) as [|ch chs].
  - right; right; reflexivity.
  - pose proof (aggregate_status c
      (map (fun c0 =>
              let '(label, conf) := _run_nli (chunk_text c0) c in
              {| text := chunk_text c0; source := chunk_source c0;
                 page := chunk_page c0; nli_label := label; confidence := conf;
                 retrieval_score := chunk_score c0;
                 implicit_contradiction := false |}) (ch :: chs))) as H.
    destruct (_aggregate_nli_results _ _) as [[[st ex] ev] rs']. exact H.
Qed.

Lemma count_status_partition (results : list claim_result) :
  Forall (fun r => known_status (status r)) results ->
  (count_status "supported" results + count_status "contradicted" results
   + count_status "unverifiable" results = length results)%nat.
Proof.
  unfold count_status. induction 1 as [|r rs Hr _ IH]; [reflexivity|].
  rewrite !filter_cons. simpl length.
  destruct Hr as [-> | [-> | ->]];
    repeat (destruct (decide _) as [E|E]; try discriminate E;
            try (exfalso; apply E; reflexivity); []);
    simpl; lia.
Qed.

End Verify.

(** *** The clamp *)

Ltac qbool :=
  repeat match goal with
  | H : Qlt_bool _ _ = true |- _ => apply Qlt_bool_iff in H
  | H : Qlt_bool _ _ = false |- _ => apply Qlt_bool_false in H
  end.

Lemma py_clamp_eq (x y : Q) :
  x == y -> py_max 0 (py_min 1 x) == Qmax 0 (Qmin 1 y).
Proof.
  intros Hxy. unfold py_max, py_min.
  destruct (Q.min_spec 1 y) as [[H1 E1] | [H1 E1]];
  destruct (Q.max_spec 0 (Qmin 1 y)) as [[H2 E2] | [H2 E2]];
    rewrite E2; rewrite ?E1; rewrite E1 in H2;
    destruct (Qlt_bool x 1) eqn:Ea;
    destruct (Qlt_bool 0 _) eqn:Eb; qbool; Lqa.lra.
Qed.

Lemma clamp_range (y : Q) : 0 <= Qmax 0 (Qmin 1 y) <= 1.
Proof.
  destruct (Q.min_spec 1 y) as [[H1 E1] | [H1 E1]];
  destruct (Q.max_spec 0 (Qmin 1 y)) as [[H2 E2] | [H2 E2]];
    rewrite E2; rewrite ?E1; rewrite E1 in H2; Lqa.lra.
Qed.

(** C8.  [verify_document] verifies each claim once; its three counters
    count the claims with status "supported", "contradicted" and
    "unverifiable" and add up to the number of claims; the trust score is
    0.0 for an empty list and max(0, min(1, supported/total - 0.5 *
    contradicted/total)) otherwise, so it always lies in [0, 1]. *)
Theorem verify_document_trust_score
    (search_similar : string -> nat -> list chunk)
    (run_nli : string -> string -> string * Q)
    (lower : string -> string) (percent2 : Q -> string) (show_page : Z -> string)
    (claim_texts : list string) :
  let r := verify_document search_similar run_nli lower percent2 show_page
             claim_texts in
  let q (n : nat) : Q := inject_Z (Z.of_nat n) in
  claims r = map (fun c => verify_claim search_similar run_nli lower percent2
                             show_page c 5) claim_texts /\
  total (stats r) = length claim_texts /\
  supported (stats r) = length (filter (fun c => status c = "supported") (claims r)) /\
  contradicted (stats r)
    = length (filter (fun c => status c = "contradicted") (claims r)) /\
  unverifiable (stats r)
    = length (filter (fun c => status c = "unverifiable") (claims r)) /\
  (supported (stats r) + contradicted (stats r) + unverifiable (stats r)
   = total (stats r))%nat /\
  trust_score r ==
    match claim_texts with
    | [] => 0
    | _ => Qmax 0 (Qmin 1 (q (supported (stats r)) / q (total (stats r))
                           - (5 # 10) * q (contradicted (stats r))
                             / q (total (stats r))))
    end /\
  0 <= trust_score r <= 1.
Proof.
  intros r q.
  assert (Hstat : Forall (fun c => known_status (status c)) (claims r)).
  { subst r. simpl. apply Forall_map, Forall_forall. intros c _.
    apply verify_claim_status. }
  assert (Hlen : total (stats r) = length claim_texts).
  { subst r. simpl. apply length_map. }
  assert (Htrust : trust_score r ==
    match claim_texts with
    | [] => 0
    | _ => Qmax 0 (Qmin 1 (q (supported (stats r)) / q (total (stats r))
                           - (5 # 10) * q (contradicted (stats r))
                             / q (total (stats r))))
    end).
  { destruct claim_texts as [|c0 cs]; [reflexivity|].
    subst r. cbn [trust_score verify_document stats supported contradicted total].
    set (results := map _ (c0 :: cs)).
    assert (Hpos : (0 < length results)%nat).
    { subst results. rewrite length_map. simpl. lia. }
    destruct (Nat.ltb_spec 0 (length results)) as [_|]; [|lia].
    apply py_clamp_eq. subst q. cbv beta.
    assert (Hne : ~ inject_Z (Z.of_nat (length results)) == 0).
    { intros E. unfold Qeq in E. simpl in E. lia. }
    field. exact Hne. }
  repeat split; try reflexivity; try exact Hlen.
  - apply (count_status_partition _ Hstat).
  - exact Htrust.
  - rewrite Htrust. destruct claim_texts; [Lqa.lra | apply clamp_range].
  - rewrite Htrust. destruct claim_texts; [Lqa.lra | apply clamp_range].
Qed.

(** A run on four claims: two supported, one contradicted, one without
    evidence. *)
Definition demo_search (c : string) (_ : nat) : list chunk :=
  if decide (c = "unknown") then []
  else [Chunk "Metformin is first-line therapy." "guide.pdf" 3 (7 # 10)].
Definition demo_nli (_ hypothesis : string) : string * Q :=
  if decide (hypothesis = "wrong") then ("contradiction", 8 # 10)
  else ("entailment", 9 # 10).

Example demo_verify_document :
  let r := verify_document demo_search demo_nli (fun s => s) (fun _ => "")
             (fun _ => "") ["right"; "wrong"; "unknown"; "also right"] in
  map status (claims r)
    = ["supported"; "contradicted"; "unverifiable"; "supported"] /\
  stats r = Statistics 4 2 1 1 /\
  trust_score r == 3 # 8.
Proof. vm_compute. repeat split. Qed.

(** *** How the status of a claim is decided *)

Section Decision.

Variable search_similar : string -> nat -> list chunk.
Variable _run_nli : string -> string -> string * Q.
Variable lower : string -> string.
Variable percent2 : Q -> string.
Variable show_page : Z -> string.

(** The list [nli_results] that [verify_claim] builds from the retrieved
    chunks. *)
Definition run_all (claim_text : string) (chunks : list chunk) : list nli_result :=
  map (fun c =>
         let '(label, conf) := _run_nli (chunk_text c) claim_text in
         {| text := chunk_text c; source := chunk_source c;
            page := chunk_page c; nli_label := label; confidence := conf;
            retrieval_score := chunk_score c;
            implicit_contradiction := false |})
      chunks.

(** Some passage entails the claim with confidence at least 0.7. *)
Definition strong_entailment (rs : list nli_result) : Prop :=
  exists r, In r rs /\ nli_label r = "entailment"
            /\ ENTAILMENT_THRESHOLD <= confidence r.

(** Some passage contradicts the claim with confidence at least 0.5. *)
Definition strong_contradiction (rs : list nli_result) : Prop :=
  exists r, In r rs /\ nli_label r = "contradiction"
            /\ CONTRADICTION_THRESHOLD <= confidence r.

(** The claim speaks of a contraindication, and so does a passage that the
    model finds neutral and that was retrieved with score at least -0.1. *)
Definition implicit_hit (r : nli_result) : bool :=
  bool_decide (nli_label r = "neutral")
  && (existsb (contains (lower (text r)))
        ["contraindication"; "avoid"; "should not"; "must not"]
      && Qle_bool IMPLICIT_CONTRADICTION_RETRIEVAL_THRESHOLD (retrieval_score r)).

Definition contraindication_claim (claim_text : string) : bool :=
  existsb (contains (lower claim_text))
    ["avoid"; "contraindication"; "should not"; "must not"; "do not"; "don't"].

Definition implicitly_contradicted (claim_text : string) (rs : list nli_result)
  : Prop :=
  contraindication_claim claim_text = true /\
  exists r, In r rs /\ implicit_hit r = true.

Lemma max_by_confidence_in l : forall b,
  In (max_by_confidence b l) (b :: l).
Proof.
  induction l as [|x l IH]; intros b; simpl; [left; reflexivity|].
  destruct (IH (if Qlt_bool (confidence b) (confidence x) then x else b))
    as [E | Hin].
  - destruct (Qlt_bool _ _); rewrite <- E; auto.
  - right. right. exact Hin.
Qed.

Lemma max_by_confidence_ge l : forall b x,
  In x (b :: l) -> confidence x <= confidence (max_by_confidence b l).
Proof.
  induction l as [|y l IH]; intros b x Hx; simpl.
  - destruct Hx as [<- | []]. apply Qle_refl.
  - destruct (Qlt_bool (confidence b) (confidence y)) eqn:E; qbool.
    + destruct Hx as [<- | [<- | Hx]].
      * eapply Qle_trans; [apply Qlt_le_weak, E|]. apply IH. left. reflexivity.
      * apply IH. left. reflexivity.
      * apply IH. right. exact Hx.
    + destruct Hx as [<- | [<- | Hx]].
      * apply IH. left. reflexivity.
      * eapply Qle_trans; [exact E|]. apply IH. left. reflexivity.
      * apply IH. right. exact Hx.
Qed.

Lemma with_label_in lbl rs r :
  In r (with_label lbl rs) <-> In r rs /\ nli_label r = lbl.
Proof.
  unfold with_label. rewrite <- !list_elem_of_In, list_elem_of_filter. split; intros [? ?]; split; assumption.
Qed.

(** The best result of a label passes a threshold exactly when some result
    of that label does. *)
Lemma best_passes lbl thr rs r rest :
  with_label lbl rs = r :: rest ->
  (Qle_bool thr (confidence (max_by_confidence r rest)) = true <->
   exists x, In x rs /\ nli_label x = lbl /\ thr <= confidence x).
Proof.
  intros E. rewrite Qle_bool_iff. split.
  - intros Hthr. exists (max_by_confidence r rest).
    pose proof (max_by_confidence_in rest r) as Hin. rewrite <- E in Hin.
    apply with_label_in in Hin as [Hin Hl]. auto.
  - intros (x & Hx & Hl & Hthr).
    eapply Qle_trans; [exact Hthr|]. apply max_by_confidence_ge.
    rewrite <- E. apply with_label_in. auto.
Qed.

Lemma none_of_label lbl thr rs :
  with_label lbl rs = [] ->
  ~ exists x, In x rs /\ nli_label x = lbl /\ thr <= confidence x.
Proof.
  intros E (x & Hx & Hl & _).
  assert (H : In x (with_label lbl rs)) by (apply with_label_in; auto).
  rewrite E in H. destruct H.
Qed.

Lemma first_implicit_cons r rs :
  first_implicit lower (r :: rs)
  = if implicit_hit r then Some (mark_implicit r, mark_implicit r :: rs)
    else match first_implicit lower rs with
         | Some (found, rest') => Some (found, r :: rest')
         | None => None
         end.
Proof. reflexivity. Qed.

Lemma first_implicit_some rs : forall found rs',
  first_implicit lower rs = Some (found, rs') ->
  exists r, In r rs /\ implicit_hit r = true /\ found = mark_implicit r.
Proof.
  induction rs as [|r rs IH]; intros found rs'; [discriminate|].
  rewrite first_implicit_cons.
  destruct (implicit_hit r) eqn:Eh.
  - intros [= <- <-]. exists r. simpl. auto.
  - destruct (first_implicit lower rs) as [[f l]|]; [|discriminate].
    intros [= <- <-]. destruct (IH f l eq_refl) as (x & Hx & Hh & Hf).
    exists x. simpl. auto.
Qed.

Lemma first_implicit_none rs :
  first_implicit lower rs = None ->
  forall r, In r rs -> implicit_hit r = false.
Proof.
  induction rs as [|x rs IH]; [intros _ r []|].
  rewrite first_implicit_cons.
  destruct (implicit_hit x) eqn:Eh; [discriminate|].
  destruct (first_implicit lower rs) as [[f l]|]; [discriminate|].
  intros _ r [<- | Hr]; [exact Eh | apply IH; auto].
Qed.

(** What the evidence of a "supported" or "contradicted" verdict is: the
    most confident result of the label, past its threshold. *)
Definition best_of (lbl : string) (thr : Q) (rs : list nli_result)
    (e : nli_result) : Prop :=
  In e rs /\ nli_label e = lbl /\ thr <= confidence e /\
  forall r, In r rs -> nli_label r = lbl -> confidence r <= confidence e.

Lemma best_of_max lbl thr rs r rest :
  with_label lbl rs = r :: rest ->
  Qle_bool thr (confidence (max_by_confidence r rest)) = true ->
  best_of lbl thr rs (max_by_confidence r rest).
Proof.
  intros E Hthr. apply Qle_bool_iff in Hthr.
  pose proof (max_by_confidence_in rest r) as Hin. rewrite <- E in Hin.
  apply with_label_in in Hin as [Hin Hl].
  repeat split; auto. intros x Hx Hlx. apply max_by_confidence_ge.
  rewrite <- E. apply with_label_in. auto.
Qed.

(** The three stages of [_aggregate_nli_results], each either deciding or
    handing on to the next. *)
Lemma aggregate_entailment_cases c rs :
  let a := _aggregate_nli_results lower percent2 show_page c rs in
  (strong_entailment rs /\ a.1.1.1 = "supported" /\
   exists e, a.1.2 = Some e /\ best_of "entailment" ENTAILMENT_THRESHOLD rs e) \/
  (~ strong_entailment rs /\
   a = aggregate_contradiction lower percent2 show_page c rs).
Proof.
  unfold _aggregate_nli_results, strong_entailment.
  destruct (with_label "entailment" rs) as [|r rest] eqn:E.
  - right. split; [apply none_of_label, E | reflexivity].
  - pose proof (best_passes _ ENTAILMENT_THRESHOLD _ _ _ E) as Hiff.
    destruct (Qle_bool _ _) eqn:Eq.
    + left. split; [apply Hiff; reflexivity|]. split; [reflexivity|].
      eexists. split; [reflexivity|]. apply best_of_max; assumption.
    + right. split; [|reflexivity]. intros H. apply Hiff in H. discriminate.
Qed.

Lemma aggregate_contradiction_cases c rs :
  let a := aggregate_contradiction lower percent2 show_page c rs in
  (strong_contradiction rs /\ a.1.1.1 = "contradicted" /\
   exists e, a.1.2 = Some e /\ best_of "contradiction" CONTRADICTION_THRESHOLD rs e) \/
  (~ strong_contradiction rs /\ a = aggregate_implicit lower show_page c rs).
Proof.
  unfold aggregate_contradiction, strong_contradiction.
  destruct (with_label "contradiction" rs) as [|r rest] eqn:E.
  - right. split; [apply none_of_label, E | reflexivity].
  - pose proof (best_passes _ CONTRADICTION_THRESHOLD _ _ _ E) as Hiff.
    destruct (Qle_bool _ _) eqn:Eq.
    + left. split; [apply Hiff; reflexivity|]. split; [reflexivity|].
      eexists. split; [reflexivity|]. apply best_of_max; assumption.
    + right. split; [|reflexivity]. intros H. apply Hiff in H. discriminate.
Qed.

Lemma aggregate_implicit_cases c rs :
  let a := aggregate_implicit lower show_page c rs in
  (implicitly_contradicted c rs /\ a.1.1.1 = "contradicted" /\
   exists r, In r rs /\ implicit_hit r = true /\ a.1.2 = Some (mark_implicit r)) \/
  (~ implicitly_contradicted c rs /\ a = aggregate_default rs).
Proof.
  unfold aggregate_implicit, implicitly_contradicted.
  fold (contraindication_claim c).
  destruct (contraindication_claim c) eqn:Ec.
  - destruct (first_implicit lower rs) as [[found rs']|] eqn:Ef.
    + destruct (first_implicit_some _ _ _ Ef) as (r & Hr & Hh & ->).
      left. split; [split; [reflexivity | exists r; auto]|].
      split; [reflexivity|]. exists r. auto.
    + pose proof (first_implicit_none _ Ef) as Hnone. right.
      split; [|reflexivity].
      intros (_ & r & Hr & Hh). rewrite (Hnone r Hr) in Hh. discriminate.
  - right. split; [|reflexivity]. intros [H _]. discriminate.
Qed.

Lemma aggregate_nil c :
  _aggregate_nli_results lower percent2 show_page c [] = aggregate_default [].
Proof.
  destruct (aggregate_entailment_cases c []) as [((r & [] & _) & _) | (_ & ->)].
  destruct (aggregate_contradiction_cases c []) as [((r & [] & _) & _) | (_ & ->)].
  destruct (aggregate_implicit_cases c []) as [((_ & r & [] & _) & _) | (_ & ->)].
  reflexivity.
Qed.

(** The fields of [verify_claim]'s answer, read off the aggregation of the
    NLI results (which is "unverifiable" without evidence when nothing was
    retrieved). *)
Lemma verify_claim_fields c k :
  let a := _aggregate_nli_results lower percent2 show_page c
             (run_all c (search_similar c k)) in
  let v := verify_claim search_similar _run_nli lower percent2 show_page c k in
  status v = a.1.1.1 /\ evidence v = a.1.2 /\
  all_evidence v = take 3 a.2 /\
  result_confidence v = match a.1.2 with Some e => confidence e | None => 0 end.
Proof.
  unfold verify_claim, run_all.
  destruct (search_similar c k) as [|ch chs].
  - cbn [map]. rewrite aggregate_nil. simpl. auto.
  - destruct (_aggregate_nli_results _ _ _ _ _) as [[[st ex] ev] rs'].
    simpl. auto.
Qed.

(** X1.  [verify_claim] decides by priority.  The status is "supported"
    exactly when some retrieved passage entails the claim with confidence
    at least 0.7, whatever else was retrieved; it is "contradicted" exactly
    when no passage does and either some passage contradicts the claim with
    confidence at least 0.5 or an implicit contradiction is found (a
    contraindication claim and a neutral passage on contraindications
    retrieved with score at least -0.1); it is "unverifiable" in every
    other case, among them when nothing was retrieved. *)
Theorem verify_claim_decides_by_priority (c : string) (k : nat) :
  let rs := run_all c (search_similar c k) in
  let st := status (verify_claim search_similar _run_nli lower percent2
                      show_page c k) in
  (st = "supported" <-> strong_entailment rs) /\
  (st = "contradicted" <->
     ~ strong_entailment rs /\
     (strong_contradiction rs \/ implicitly_contradicted c rs)) /\
  (st = "unverifiable" <->
     ~ strong_entailment rs /\ ~ strong_contradiction rs /\
     ~ implicitly_contradicted c rs).
Proof.
  intros rs st. subst st.
  destruct (verify_claim_fields c k) as (-> & _). fold rs.
  destruct (aggregate_entailment_cases c rs) as [(HE & -> & _) | (HE & ->)].
  { split; [|split]; (split; [intros H | intros H]); auto;
      try discriminate H; destruct H as [Hn _]; contradiction. }
  destruct (aggregate_contradiction_cases c rs) as [(HC & -> & _) | (HC & ->)].
  { split; [|split]; (split; [intros H | intros H]); auto;
      try discriminate H; try contradiction.
    destruct H as (_ & Hn & _). contradiction. }
  destruct (aggregate_implicit_cases c rs) as [(HI & -> & _) | (HI & ->)].
  { split; [|split]; (split; [intros H | intros H]); auto;
      try discriminate H; try contradiction.
    destruct H as (_ & _ & Hn). contradiction. }
  simpl. split; [|split]; (split; [intros H | intros H]); auto;
    try discriminate H; try contradiction.
  destruct H as (_ & [H | H]); contradiction.
Qed.

(** X2.  The evidence [verify_claim] reports.  It is absent exactly when
    nothing was retrieved, and the reported confidence is that of the
    evidence (0 without one).  For a "supported" claim it is the most
    confident entailing passage, with confidence at least 0.7; for a
    "contradicted" claim it is the most confident contradicting passage,
    with confidence at least 0.5, or else the neutral passage of the implicit
    contradiction, flagged as such.  At most three results are kept for
    review. *)
Theorem verify_claim_evidence (c : string) (k : nat) :
  let rs := run_all c (search_similar c k) in
  let v := verify_claim search_similar _run_nli lower percent2 show_page c k in
  (evidence v = None <-> search_similar c k = []) /\
  result_confidence v
    = match evidence v with Some e => confidence e | None => 0 end /\
  (status v = "supported" ->
   exists e, evidence v = Some e /\
             best_of "entailment" ENTAILMENT_THRESHOLD rs e) /\
  (status v = "contradicted" ->
   exists e, evidence v = Some e /\
     (best_of "contradiction" CONTRADICTION_THRESHOLD rs e \/
      exists r, In r rs /\ implicit_hit r = true /\ e = mark_implicit r /\
                implicit_contradiction e = true)) /\
  (length (all_evidence v) <= 3)%nat.
Proof.
  intros rs v. subst v.
  destruct (verify_claim_fields c k) as (Hst & Hev & Hall & Hconf).
  fold rs in Hst, Hev, Hall, Hconf.
  rewrite Hst, Hev, Hall, Hconf. clear Hst Hev Hall Hconf.
  assert (Hnil : search_similar c k = [] <-> rs = []).
  { subst rs. unfold run_all. destruct (search_similar c k); simpl;
      split; intros H; try reflexivity; discriminate H. }
  split; [|split; [reflexivity|]].
  2: split; [|split].
  4: { rewrite length_take. lia. }
  - rewrite Hnil.
    destruct (aggregate_entailment_cases c rs)
      as [(_ & _ & e & He & Hb) | (_ & ->)].
    { rewrite He. split; [discriminate|]. intros ->. destruct Hb as [[] _]. }
    destruct (aggregate_contradiction_cases c rs)
      as [(_ & _ & e & He & Hb) | (_ & ->)].
    { rewrite He. split; [discriminate|]. intros ->. destruct Hb as [[] _]. }
    destruct (aggregate_implicit_cases c rs)
      as [(_ & _ & r & Hr & _ & He) | (_ & ->)].
    { rewrite He. split; [discriminate|]. intros ->. destruct Hr. }
    unfold aggregate_default. simpl.
    destruct rs; split; intros H; try reflexivity; discriminate H.
  - destruct (aggregate_entailment_cases c rs)
      as [(_ & _ & e & He & Hb) | (_ & ->)].
    { intros _. exists e. auto. }
    destruct (aggregate_contradiction_cases c rs) as [(_ & -> & _) | (_ & ->)];
      [discriminate|].
    destruct (aggregate_implicit_cases c rs) as [(_ & -> & _) | (_ & ->)];
      discriminate.
  - destruct (aggregate_entailment_cases c rs) as [(_ & -> & _) | (_ & ->)];
      [discriminate|].
    destruct (aggregate_contradiction_cases c rs)
      as [(_ & _ & e & He & Hb) | (_ & ->)].
    { intros _. exists e. auto. }
    destruct (aggregate_implicit_cases c rs)
      as [(_ & _ & r & Hr & Hh & He) | (_ & ->)]; [|discriminate].
    intros _. exists (mark_implicit r). split; [exact He|]. right.
    exists r. auto.
Qed.

(** A "contradicted" verdict always comes with its evidence. *)
Lemma contradicted_has_evidence c k :
  let v := verify_claim search_similar _run_nli lower percent2 show_page c k in
  status v = "contradicted" ->
  exists e, evidence v = Some e /\ result_confidence v = confidence e.
Proof.
  intros v. subst v.
  destruct (verify_claim_fields c k) as (-> & -> & _ & ->).
  set (rs := run_all c (search_similar c k)).
  destruct (aggregate_entailment_cases c rs) as [(_ & -> & _) | (_ & ->)];
    [discriminate|].
  destruct (aggregate_contradiction_cases c rs)
    as [(_ & _ & e & -> & _) | (_ & ->)]; [eauto|].
  destruct (aggregate_implicit_cases c rs)
    as [(_ & _ & r & _ & _ & ->) | (_ & ->)]; [eauto | discriminate].
Qed.

End Decision.

(** *** The extremes of the trust score *)

Section Trust.

Variable search_similar : string -> nat -> list chunk.
Variable _run_nli : string -> string -> string * Q.
Variable lower : string -> string.
Variable percent2 : Q -> string.
Variable show_page : Z -> string.

(** The score before the clamp, over a common denominator. *)
Lemma trust_score_clamped c0 cs :
  let r := (verify_document search_similar _run_nli lower percent2 show_page) (c0 :: cs) in
  let q (n : nat) : Q := inject_Z (Z.of_nat n) in
  trust_score r ==
  Qmax 0 (Qmin 1 ((q (supported (stats r)) - (5 # 10) * q (contradicted (stats r)))
                  / q (total (stats r)))).
Proof.
  intros r q. subst r.
  cbn [trust_score verify_document stats supported contradicted total].
  set (results := map _ (c0 :: cs)).
  assert (Hpos : (0 < length results)%nat).
  { subst results. rewrite length_map. simpl. lia. }
  destruct (Nat.ltb_spec 0 (length results)) as [_|]; [|lia].
  apply py_clamp_eq. subst q. cbv beta.
  assert (Hne : ~ inject_Z (Z.of_nat (length results)) == 0).
  { intros E. unfold Qeq in E. simpl in E. lia. }
  field. exact Hne.
Qed.

Lemma clamp_one_iff (y : Q) : Qmax 0 (Qmin 1 y) == 1 <-> 1 <= y.
Proof.
  destruct (Q.min_spec 1 y) as [[H1 E1] | [H1 E1]];
  destruct (Q.max_spec 0 (Qmin 1 y)) as [[H2 E2] | [H2 E2]];
    rewrite E2; rewrite ?E1; rewrite E1 in H2; split; intros H; Lqa.lra.
Qed.

Lemma clamp_zero_iff (y : Q) : Qmax 0 (Qmin 1 y) == 0 <-> y <= 0.
Proof.
  destruct (Q.min_spec 1 y) as [[H1 E1] | [H1 E1]];
  destruct (Q.max_spec 0 (Qmin 1 y)) as [[H2 E2] | [H2 E2]];
    rewrite E2; rewrite ?E1; rewrite E1 in H2; split; intros H; Lqa.lra.
Qed.

Lemma div_ge_one (x t : Q) : 0 < t -> (1 <= x / t <-> t <= x).
Proof.
  intros Ht. split; intros H.
  - assert (E : x == (x / t) * t) by (field; Lqa.lra).
    assert (H1 : 1 * t <= (x / t) * t)
      by (apply Qmult_le_compat_r; [exact H | Lqa.lra]).
    Lqa.lra.
  - apply Qle_shift_div_l; [exact Ht | Lqa.lra].
Qed.

Lemma div_le_zero (x t : Q) : 0 < t -> (x / t <= 0 <-> x <= 0).
Proof.
  intros Ht. split; intros H.
  - assert (E : x == (x / t) * t) by (field; Lqa.lra).
    assert (H1 : (x / t) * t <= 0 * t)
      by (apply Qmult_le_compat_r; [exact H | Lqa.lra]).
    Lqa.lra.
  - apply Qle_shift_div_r; [exact Ht | Lqa.lra].
Qed.

Lemma count_all (s : string) (results : list claim_result) :
  count_status s results = length results <->
  Forall (fun r => status r = s) results.
Proof.
  unfold count_status. induction results as [|r rs IH]; simpl.
  - split; [constructor | reflexivity].
  - rewrite filter_cons. pose proof (length_filter (fun r => status r = s) rs).
    destruct (decide (status r = s)) as [E|E]; simpl.
    + split.
      * intros H'. constructor; [exact E | apply IH; lia].
      * intros H'. inversion H' as [|? ? _ Hrs]; subst. f_equal. apply IH, Hrs.
    + split; [lia|]. intros H'. inversion H'; subst. contradiction.
Qed.

(** X3.  The trust score of a document is 1 exactly when there is at least
    one claim and every claim is "supported", and it is 0 exactly when there
    is no claim or the contradicted claims are at least twice as many as the
    supported ones. *)
Theorem trust_score_extremes (claim_texts : list string) :
  let r := (verify_document search_similar _run_nli lower percent2 show_page) claim_texts in
  (trust_score r == 1 <->
     claim_texts <> [] /\ Forall (fun c => status c = "supported") (claims r)) /\
  (trust_score r == 0 <->
     claim_texts = [] \/
     (2 * supported (stats r) <= contradicted (stats r))%nat).
Proof.
  intros r. destruct claim_texts as [|c0 cs].
  { split.
    - split; [intros H; discriminate H | intros [H _]; congruence].
    - split; [left; reflexivity | reflexivity]. }
  pose proof (trust_score_clamped c0 cs) as Htrust. cbv zeta in Htrust.
  fold r in Htrust. rewrite Htrust. clear Htrust.
  assert (Hpart : (supported (stats r) + contradicted (stats r)
                   + unverifiable (stats r) = total (stats r))%nat).
  { subst r. cbn [stats verify_document supported contradicted unverifiable total].
    apply count_status_partition, Forall_map, Forall_forall.
    intros c _. apply verify_claim_status. }
  assert (Htot : (0 < total (stats r))%nat).
  { subst r. simpl. lia. }
  assert (Hs : supported (stats r) = count_status "supported" (claims r))
    by reflexivity.
  assert (Hc : contradicted (stats r) = count_status "contradicted" (claims r))
    by reflexivity.
  assert (Hl : total (stats r) = length (claims r)) by reflexivity.
  set (s := supported (stats r)) in *. set (c := contradicted (stats r)) in *.
  set (u := unverifiable (stats r)) in *. set (t := total (stats r)) in *.
  assert (Hqt : 0 < inject_Z (Z.of_nat t)).
  { unfold Qlt. simpl. lia. }
  split.
  - rewrite clamp_one_iff, (div_ge_one _ _ Hqt).
    split.
    + intros H. split; [discriminate|].
      assert (Hst : s = t).
      { unfold Qle, Qminus, Qplus, Qopp, Qmult, inject_Z in H. simpl in H. lia. }
      apply count_all. rewrite <- Hs, <- Hl. exact Hst.
    + intros [_ Hall].
      assert (Hst : s = t) by (rewrite Hs, Hl; apply count_all, Hall).
      assert (Hc0 : c = 0%nat) by lia.
      rewrite Hst, Hc0. unfold Qle, Qminus, Qplus, Qopp, Qmult, inject_Z. simpl. lia.
  - rewrite clamp_zero_iff, (div_le_zero _ _ Hqt).
    split.
    + intros H. right.
      unfold Qle, Qminus, Qplus, Qopp, Qmult, inject_Z in H. simpl in H. lia.
    + intros [H | H]; [discriminate H|].
      unfold Qle, Qminus, Qplus, Qopp, Qmult, inject_Z. simpl. lia.
Qed.

End Trust.

End Verifier.

(** ** PS1: corrections for contradicted claims (correction_engine.py) *)

Module Corrections.

Local Open Scope string_scope.

(** The dictionary [suggest_correction] builds. *)
Record correction : Type := Correction {
  original_claim : string;
  suggested_correction : string;
  source : string;
  page : Z;
  explanation : string;
  confidence : Q
}.

(** The dictionary [generate_correction_report] returns. *)
Record correction_report : Type := CorrectionReport {
  total_contradictions : nat;
  corrections : list correction;
  summary : string
}.

Section Engine.

(** The two texts the engine formats: the explanation of one correction and
    the summary of all of them. *)
Variable _generate_explanation : string -> string -> string.
Variable _generate_summary : list correction -> string.

(** [suggest_correction]; the evidence is an entry of [nli_results], which
    has every key the method reads. *)
Definition suggest_correction (claim : string) (evidence : Verifier.nli_result)
    (status : string) : option correction :=
  if decide (status = "contradicted") then
    let evidence_text := Verifier.text evidence in
    Some {| original_claim := claim;
            suggested_correction := evidence_text;
            source := Verifier.source evidence;
            page := Verifier.page evidence;
            explanation := _generate_explanation claim evidence_text;
            confidence := Verifier.confidence evidence |}
  else None.

(** The corrections one verification result contributes: [result['status']
    == 'contradicted' and result.get('evidence')], then [if correction]. *)
Definition corrections_of (result : Verifier.claim_result) : list correction :=
  if decide (Verifier.status result = "contradicted") then
    match Verifier.evidence result with
    | Some ev =>
        match suggest_correction (Verifier.claim result) ev
                (Verifier.status result) with
        | Some c => [c]
        | None => []
        end
    | None => []
    end
  else [].

(** [generate_correction_report]. *)
Definition generate_correction_report
    (verification_results : list Verifier.claim_result) : correction_report :=
  let corrections := flat_map corrections_of verification_results in
  {| total_contradictions := length corrections;
     corrections := corrections;
     summary := _generate_summary corrections |}.

(** A correction answers a verification result: it quotes the claim and
    points at the result's evidence. *)
Definition corrects (c : correction) (result : Verifier.claim_result) : Prop :=
  original_claim c = Verifier.claim result /\
  exists ev, Verifier.evidence result = Some ev /\
             suggested_correction c = Verifier.text ev /\
             source c = Verifier.source ev /\ page c = Verifier.page ev /\
             confidence c = Verifier.confidence ev.

Lemma corrections_of_contradicted (results : list Verifier.claim_result) :
  Forall (fun r => Verifier.status r = "contradicted" ->
                   is_Some (Verifier.evidence r)) results ->
  Forall2 corrects (flat_map corrections_of results)
          (filter (fun r => Verifier.status r = "contradicted") results).
Proof.
  induction 1 as [|r rs Hr _ IH]; simpl; [constructor|].
  rewrite filter_cons. unfold corrections_of at 1, suggest_correction.
  destruct (decide (Verifier.status r = "contradicted")) as [E|E]; [|exact IH].
  destruct (Hr E) as [ev Hev]. rewrite Hev. simpl.
  constructor; [|exact IH].
  split; [reflexivity|]. exists ev. auto.
Qed.

End Engine.

(** X4.  Run on the output of [verify_document], the correction report has
    one correction per "contradicted" claim, in the order of the claims:
    [total_contradictions] equals the [contradicted] counter of the
    verification statistics, and each correction quotes its claim and
    suggests the text of that claim's evidence, with the evidence's source,
    page and confidence. *)
Theorem corrections_cover_contradictions
    (explain : string -> string -> string)
    (summarize : list correction -> string)
    (search_similar : string -> nat -> list Verifier.chunk)
    (run_nli : string -> string -> string * Q)
    (lower : string -> string) (percent2 : Q -> string) (show_page : Z -> string)
    (claim_texts : list string) :
  let r := Verifier.verify_document search_similar run_nli lower percent2
             show_page claim_texts in
  let report := generate_correction_report explain summarize (Verifier.claims r) in
  total_contradictions report = Verifier.contradicted (Verifier.stats r) /\
  Forall2 corrects (corrections report)
    (filter (fun c => Verifier.status c = "contradicted") (Verifier.claims r)).
Proof.
  intros r report.
  assert (H : Forall2 corrects (corrections report)
                (filter (fun c => Verifier.status c = "contradicted")
                        (Verifier.claims r))).
  { subst report. cbn [corrections generate_correction_report].
    apply corrections_of_contradicted.
    subst r. cbn [Verifier.claims Verifier.verify_document].
    apply Forall_map, Forall_forall. intros c _ Hc.
    destruct (Verifier.contradicted_has_evidence search_similar run_nli lower
                percent2 show_page c 5 Hc) as (e & -> & _).
    eexists. reflexivity. }
  split; [|exact H].
  subst report. cbn [total_contradictions generate_correction_report].
  cbn [corrections generate_correction_report] in H.
  rewrite (Forall2_length _ _ _ H). reflexivity.
Qed.

(** A run: of two claims the second is contradicted, and is corrected. *)
Example demo_correction_report :
  let r := Verifier.verify_document Verifier.demo_search Verifier.demo_nli
             (fun s => s) (fun _ => "") (fun _ => "") ["right"; "wrong"] in
  let report := generate_correction_report (fun _ _ => "") (fun _ => "")
                  (Verifier.claims r) in
  total_contradictions report = 1%nat /\
  map original_claim (corrections report) = ["wrong"] /\
  map suggested_correction (corrections report)
    = ["Metformin is first-line therapy."].
Proof. vm_compute. repeat split. Qed.

End Corrections.

(** ** The REST layers *)

(** What a FastAPI handler does: return a body, raise
    [HTTPException(status_code, detail)], or let another exception escape. *)
Inductive reply (A : Type) : Type :=
  | Return (body : A)
  | HTTPException (status_code : nat) (detail : string)
  | Uncaught (e : exn).
Arguments Return {A} body.
Arguments HTTPException {A} status_code detail.
Arguments Uncaught {A} e.

(** [s.endswith(suffix)]. *)
Definition endswith (s suffix : string) : bool :=
  String.prefix (string_of_list_ascii (rev (list_ascii_of_string suffix)))
                (string_of_list_ascii (rev (list_ascii_of_string s))).

Example endswith_pdf :
  endswith "guide.pdf" ".pdf" = true /\ endswith "guide.txt" ".pdf" = false.
Proof. split; reflexivity. Qed.

(** ** PS2: the three local signals of the hybrid engine (hybrid_ai_engine.py) *)

Module HybridSignals.

Local Open Scope Q_scope.
Local Open Scope string_scope.

(** [HybridAIEngine.ABBREVIATIONS], entry by entry. *)
Definition ABBREVIATIONS_items : list (string * string) :=
  [("cust", "customer"); ("cust_id", "customer_id"); ("cid", "customer_id");
   ("fname", "first_name"); ("lname", "last_name");
   ("mname", "middle_name"); ("dob", "date_of_birth"); ("bday", "birthday");
   ("bd", "birth_date"); ("ssn", "social_security_number"); ("ph", "phone");
   ("tel", "telephone"); ("mob", "mobile"); ("cell", "cellphone");
   ("addr", "address"); ("addr1", "address_line1");
   ("addr2", "address_line2"); ("zip", "zip_code");
   ("postal", "postal_code"); ("pcode", "postal_code"); ("ctry", "country");
   ("cntry", "country"); ("cnt", "country"); ("prov", "province");
   ("reg", "region"); ("st", "state"); ("lat", "latitude");
   ("lng", "longitude"); ("lon", "longitude"); ("ord", "order");
   ("ord_id", "order_id"); ("oid", "order_id"); ("txn", "transaction");
   ("trans", "transaction"); ("inv", "invoice");
   ("inv_no", "invoice_number"); ("qty", "quantity"); ("amt", "amount");
   ("tot", "total"); ("disc", "discount"); ("pct", "percent");
   ("prod", "product"); ("prod_id", "product_id"); ("pid", "product_id");
   ("sku", "stock_keeping_unit"); ("cat", "category");
   ("desc", "description"); ("descr", "description"); ("acct", "account");
   ("acc", "account"); ("acct_no", "account_number"); ("bal", "balance");
   ("curr", "currency"); ("ccy", "currency"); ("cr", "credit");
   ("dr", "debit"); ("pmt", "payment"); ("dt", "date"); ("tm", "time");
   ("ts", "timestamp"); ("yr", "year"); ("mo", "month"); ("dy", "day");
   ("created_dt", "created_date"); ("updated_dt", "updated_date");
   ("sts", "status"); ("stat", "status"); ("flg", "flag");
   ("actv", "active"); ("inactv", "inactive"); ("emp", "employee");
   ("emp_id", "employee_id"); ("eid", "employee_id"); ("mgr", "manager");
   ("dept", "department"); ("sal", "salary"); ("id", "identifier");
   ("pk", "primary_key"); ("fk", "foreign_key"); ("seq", "sequence");
   ("num", "number"); ("no", "number"); ("src", "source");
   ("tgt", "target"); ("dest", "destination"); ("ref", "reference");
   ("cfg", "configuration")].

Definition ABBREVIATIONS : gmap string string := list_to_map ABBREVIATIONS_items.

(** [HybridAIEngine.SEMANTIC_GROUPS]. *)
Definition SEMANTIC_GROUPS : list (string * list string) :=
  [("name", ["name"; "title"; "label"; "designation"]);
   ("identifier", ["id"; "code"; "key"; "number"; "identifier"]);
   ("description", ["description"; "desc"; "details"; "notes"; "comments"]);
   ("date", ["date"; "datetime"; "timestamp"; "time"; "when"]);
   ("amount", ["amount"; "total"; "sum"; "value"; "price"; "cost"]);
   ("status", ["status"; "state"; "condition"; "flag"]);
   ("email", ["email"; "mail"; "email_address"; "e_mail"]);
   ("phone", ["phone"; "telephone"; "mobile"; "cell"; "contact_number"]);
   ("address", ["address"; "location"; "street"; "addr"])].

(** [re.sub(r'[_\-\.]', ' ', name)]. *)
Definition replace_separators (name : string) : string :=
  string_of_list_ascii
    (map (fun c => if existsb (Ascii.eqb c) ["_"; "-"; "."]%char
                   then " "%char else c)
         (list_ascii_of_string name)).

(** [float(max(0, min(1, similarity)))]. *)
Definition clamp01 (similarity : Q) : Q :=
  Verifier.py_max 0 (Verifier.py_min 1 similarity).

Lemma jaccard_range (A B : gset string) :
  (0 < size (A ∪ B))%nat ->
  0 <= inject_Z (Z.of_nat (size (A ∩ B))) / inject_Z (Z.of_nat (size (A ∪ B))) <= 1.
Proof.
  intros Hpos.
  assert (Hle : (size (A ∩ B) <= size (A ∪ B))%nat).
  { apply subseteq_size. intros x Hx. apply elem_of_intersection in Hx as [Hx _].
    apply elem_of_union. left. exact Hx. }
  assert (Ht : 0 < inject_Z (Z.of_nat (size (A ∪ B)))).
  { unfold Qlt. simpl. lia. }
  split.
  - apply Qle_shift_div_l; [exact Ht|].
    unfold Qle. simpl. lia.
  - apply Qle_shift_div_r; [exact Ht|].
    unfold Qle. simpl. lia.
Qed.

Lemma existsb_pointwise {A : Type} (f g : A -> bool) (l : list A) :
  (forall x, f x = g x) -> existsb f l = existsb g l.
Proof.
  intros H. induction l as [|x l IH]; simpl; [reflexivity|].
  rewrite H, IH. reflexivity.
Qed.

Lemma words_comm (A B : gset string) : A ∩ B = B ∩ A /\ A ∪ B = B ∪ A.
Proof. split; [apply (comm_L (∩)) | apply (comm_L (∪))]. Qed.

Section Signals.

(** [str.lower] and [str.split()] (on whitespace). *)
Variable lower : string -> string.
Variable split : string -> list string.
(** Whether the BERT model was loaded; the cosine similarity of the
    embeddings of two normalized names; the cosine similarity of their
    TF-IDF vectors, [None] when the vectorizer raises. *)
Variable bert_model : bool.
Variable embedding_cosine : string -> string -> Q.
Variable tfidf_cosine : string -> string -> option Q.

(** [_normalize_column_name]. *)
Definition _normalize_column_name (name : string) : string :=
  let name := lower name in
  let name := replace_separators name in
  let words := split name in
  let expanded := map (fun w => default w (ABBREVIATIONS !! w)) words in
  SemanticMatch.join " " expanded.

(** [calculate_bert_similarity]. *)
Definition calculate_bert_similarity (source target : string) : Q :=
  if bert_model then
    clamp01 (embedding_cosine (_normalize_column_name source)
                              (_normalize_column_name target))
  else 0.

(** [calculate_tfidf_similarity]. *)
Definition calculate_tfidf_similarity (source target : string) : Q :=
  let source_norm := _normalize_column_name source in
  let target_norm := _normalize_column_name target in
  match tfidf_cosine source_norm target_norm with
  | Some similarity => clamp01 similarity
  | None => 0
  end.

(** [set(norm.split())]. *)
Definition words_of (norm : string) : gset string := list_to_set (split norm).

(** [calculate_domain_similarity]. *)
Definition calculate_domain_similarity (source target : string) : Q :=
  let source_norm := _normalize_column_name source in
  let target_norm := _normalize_column_name target in
  if decide (source_norm = target_norm) then 1
  else
    let source_words := words_of source_norm in
    let target_words := words_of target_norm in
    if existsb (fun group =>
                  let terms : gset string := list_to_set (snd group) in
                  bool_decide (source_words ∩ terms ≠ ∅)
                  && bool_decide (target_words ∩ terms ≠ ∅))
               SEMANTIC_GROUPS
    then 85 # 100
    else
      let overlap := size (source_words ∩ target_words) in
      let total := size (source_words ∪ target_words) in
      if (0 <? total)%nat
      then inject_Z (Z.of_nat overlap) / inject_Z (Z.of_nat total)
      else 0.

Lemma clamp01_range (x : Q) : 0 <= clamp01 x <= 1.
Proof.
  unfold clamp01.
  rewrite (Verifier.py_clamp_eq x x (Qeq_refl x)). apply Verifier.clamp_range.
Qed.

Lemma calculate_bert_similarity_range s t :
  0 <= calculate_bert_similarity s t <= 1.
Proof.
  unfold calculate_bert_similarity.
  destruct bert_model; [apply clamp01_range | Lqa.lra].
Qed.

Lemma calculate_tfidf_similarity_range s t :
  0 <= calculate_tfidf_similarity s t <= 1.
Proof.
  unfold calculate_tfidf_similarity.
  destruct (tfidf_cosine _ _); [apply clamp01_range | Lqa.lra].
Qed.

Lemma calculate_domain_similarity_range s t :
  0 <= calculate_domain_similarity s t <= 1.
Proof.
  unfold calculate_domain_similarity.
  destruct (decide _); [Lqa.lra|].
  destruct (existsb _ _); [Lqa.lra|].
  destruct (Nat.ltb_spec 0 (size (words_of (_normalize_column_name s)
                                  ∪ words_of (_normalize_column_name t))));
    [apply jaccard_range; assumption | Lqa.lra].
Qed.

(** X8.  The domain score does not depend on which name is the source and
    which the target; it lies in [0, 1]; and it is 1 when both names have
    the same normal form. *)
Theorem domain_similarity_symmetric_bounded (source target : string) :
  calculate_domain_similarity source target
  = calculate_domain_similarity target source /\
  0 <= calculate_domain_similarity source target <= 1 /\
  (_normalize_column_name source = _normalize_column_name target ->
   calculate_domain_similarity source target = 1).
Proof.
  split; [|split; [apply calculate_domain_similarity_range|]].
  - unfold calculate_domain_similarity.
    set (sn := _normalize_column_name source).
    set (tn := _normalize_column_name target).
    destruct (decide (sn = tn)) as [E|E];
      destruct (decide (tn = sn)) as [E'|E']; try congruence.
    erewrite existsb_pointwise; [|intros group; cbv zeta; apply andb_comm].
    destruct (words_comm (words_of sn) (words_of tn)) as [-> ->].
    reflexivity.
  - intros E. unfold calculate_domain_similarity.
    destruct (decide _); [reflexivity | contradiction].
Qed.

(** *** The ensemble of the three signals and Gemini *)

Variable gemini_model : bool.
Variable get_gemini_analysis :
  list string -> list string -> string -> string
  -> list HybridEngine.gemini_mapping.

(** [match_columns] run on the three signals above. *)
Definition match_columns (source_schema target_schema : HybridEngine.schema)
    (threshold : Q) : list HybridEngine.MatchResult * HybridEngine.stats_t :=
  HybridEngine.match_columns gemini_model calculate_bert_similarity
    calculate_tfidf_similarity calculate_domain_similarity get_gemini_analysis
    source_schema target_schema threshold.

(** X9.  Provided every confidence that Gemini reports lies in [0, 1], each
    of the four scores of a result of [match_columns] lies in [0, 1], and so
    does its ensemble score, which is positive. *)
Theorem ensemble_scores_in_unit_interval
    (source_schema target_schema : HybridEngine.schema) (threshold : Q)
    (r : HybridEngine.MatchResult) :
  (forall a b c d m q,
     In m (get_gemini_analysis a b c d) ->
     HybridEngine.gm_confidence m = Some q -> 0 <= q <= 1) ->
  In r (fst (match_columns source_schema target_schema threshold)) ->
  0 <= HybridEngine.bert_score r <= 1 /\
  0 <= HybridEngine.gemini_score r <= 1 /\
  0 <= HybridEngine.tfidf_score r <= 1 /\
  0 <= HybridEngine.domain_score r <= 1 /\
  0 < HybridEngine.ensemble_score r <= 1.
Proof.
  intros Hconf Hr. unfold match_columns in Hr.
  apply HybridEngine.match_columns_inv in Hr
    as (s & sc & bm & Hs & Hsc & Hbest & Hthr & Hmk).
  cbv zeta in Hbest.
  pose proof (HybridEngine.best_for_tracked gemini_model
                calculate_bert_similarity calculate_tfidf_similarity
                calculate_domain_similarity
                (HybridEngine.build_gemini_cache gemini_model get_gemini_analysis
                   source_schema target_schema)
                target_schema (fst s) (fst sc)) as [_ Htr].
  pose proof (HybridEngine.scan_tables_scored gemini_model
                calculate_bert_similarity calculate_tfidf_similarity
                calculate_domain_similarity
                (HybridEngine.build_gemini_cache gemini_model get_gemini_analysis
                   source_schema target_schema)
                (fst s) (fst sc) target_schema (None, 0) I) as Hscored.
  unfold HybridEngine.best_for in Hbest, Htr. rewrite Hbest in Htr, Hscored.
  unfold HybridEngine.scored in Hscored. simpl in Htr, Hscored.
  destruct Htr as (Hpos & t & tc & _ & _ & _ & _ & _ & Einfo & Esc).
  unfold HybridEngine.pair_scores in Esc. injection Esc as Eb Eg Ef Ed.
  assert (Hb : 0 <= HybridEngine.bm_bert bm <= 1)
    by (rewrite Eb; apply calculate_bert_similarity_range).
  assert (Hf : 0 <= HybridEngine.bm_tfidf bm <= 1)
    by (rewrite Ef; apply calculate_tfidf_similarity_range).
  assert (Hd : 0 <= HybridEngine.bm_domain bm <= 1)
    by (rewrite Ed; apply calculate_domain_similarity_range).
  assert (Hg : 0 <= HybridEngine.bm_gemini bm <= 1).
  { rewrite Eg. unfold HybridEngine.gemini_score_of.
    destruct (HybridEngine.bm_gemini_info bm) as [m|] eqn:Em; [|Lqa.lra].
    destruct (decide _); [|Lqa.lra].
    destruct (HybridEngine.gm_confidence m) as [q|] eqn:Eq; simpl; [|Lqa.lra].
    symmetry in Einfo.
    apply HybridEngine.info_for_in in Einfo as (a & b & c & d & Hm).
    exact (Hconf a b c d m q Hm Eq). }
  rewrite Hmk. simpl. repeat split; try tauto.
  rewrite Hscored. apply HybridEngine.ensemble_range; assumption.
Qed.

End Signals.

(** *** A run on ASCII names *)

(** [str.lower] and [str.split()] on ASCII text. *)
Definition ascii_lower (s : string) : string :=
  string_of_list_ascii
    (map (fun c => let n := nat_of_ascii c in
                   if (65 <=? n)%nat && (n <=? 90)%nat
                   then ascii_of_nat (n + 32) else c)
         (list_ascii_of_string s)).

Definition is_space (c : ascii) : bool :=
  let n := nat_of_ascii c in
  ((9 <=? n)%nat && (n <=? 13)%nat) || (n =? 32)%nat.

Fixpoint split_words (word : list ascii) (s : list ascii) : list string :=
  let flush := match word with
               | [] => []
               | _ => [string_of_list_ascii (rev word)]
               end in
  match s with
  | [] => flush
  | c :: rest =>
      if is_space c then (flush ++ split_words [] rest)%list
      else split_words (c :: word) rest
  end.

Definition ascii_split (s : string) : list string :=
  split_words [] (list_ascii_of_string s).

(** Abbreviations are expanded word by word; an expansion of two words
    keeps its underscore, so "fname" and "first_name" have different normal
    forms and share no word. *)
Example demo_normalize :
  _normalize_column_name ascii_lower ascii_split "Cust_ID" = "customer identifier" /\
  _normalize_column_name ascii_lower ascii_split "fname" = "first_name" /\
  _normalize_column_name ascii_lower ascii_split "first_name" = "first name" /\
  calculate_domain_similarity ascii_lower ascii_split "cust_id" "customer-id" = 1 /\
  calculate_domain_similarity ascii_lower ascii_split "fname" "first_name" == 0 /\
  calculate_domain_similarity ascii_lower ascii_split "order_dt" "order_total" == 1 # 3 /\
  calculate_domain_similarity ascii_lower ascii_split "ord_status" "state" = 85 # 100.
Proof. vm_compute. repeat split. Qed.

(** The run of [HybridEngine.demo_source] against [HybridEngine.demo_target]
    on these signals, Gemini 0.9 sure of "customer_id". *)
Definition demo_run : list HybridEngine.MatchResult :=
  fst (match_columns ascii_lower ascii_split false (fun _ _ => 0)
         (fun _ _ => None) true HybridEngine.demo_gemini
         HybridEngine.demo_source HybridEngine.demo_target (2 # 10)).

Definition demo_first : HybridEngine.MatchResult :=
  Eval vm_compute in
    match demo_run with
    | r :: _ => r
    | [] => HybridEngine.demo_result
    end.

Lemma ensemble_scores_in_unit_interval_witness :
  In demo_first demo_run /\
  0 < HybridEngine.ensemble_score demo_first <= 1 /\
  HybridEngine.target_column demo_first = "customer_id".
Proof.
  assert (Hin : In demo_first demo_run) by (vm_compute; left; reflexivity).
  assert (Hconf : forall (a b : list string) (c d : string) m q,
            In m (HybridEngine.demo_gemini a b c d) ->
            HybridEngine.gm_confidence m = Some q -> 0 <= q <= 1).
  { intros a b c d m q [<- | []] [= <-]. split; discriminate. }
  pose proof (ensemble_scores_in_unit_interval ascii_lower ascii_split false
                (fun _ _ => 0) (fun _ _ => None) true HybridEngine.demo_gemini
                HybridEngine.demo_source HybridEngine.demo_target (2 # 10)
                demo_first Hconf Hin) as (_ & _ & _ & _ & He).
  split; [exact Hin|]. split; [exact He | reflexivity].
Defined.

End HybridSignals.

(** ** PS2: the columns left unmapped (hybrid_ai_engine.py) *)

Module Unmapped.

Local Open Scope string_scope.

(** One entry of [unmapped['source']] or [unmapped['target']]. *)
Record unmapped_column : Type := UnmappedColumn {
  table : string;
  column : string;
  reason : string
}.

(** The dictionary [get_unmapped_columns] returns. *)
Record unmapped_t : Type := UnmappedColumns {
  source : list unmapped_column;
  target : list unmapped_column
}.

Section Explain.

Variable lower : string -> string.

(** [_explain_unmapped_source]. *)
Definition _explain_unmapped_source (col : string) : string :=
  let col_lower := lower col in
  if existsb (Verifier.contains col_lower)
       ["created"; "updated"; "modified"; "_at"; "_by"]
  then "This appears to be an audit/tracking column not present in target schema"
  else if existsb (Verifier.contains col_lower) ["old_"; "legacy_"; "deprecated"]
  then "This appears to be a legacy column that has been retired"
  else if existsb (Verifier.contains col_lower) ["temp_"; "tmp_"; "backup_"]
  then "This appears to be a temporary/backup column not needed in target"
  else "No sufficiently similar column found in target schema".

(** [_explain_unmapped_target]. *)
Definition _explain_unmapped_target (col : string) : string :=
  let col_lower := lower col in
  if existsb (Verifier.contains col_lower) ["created"; "updated"; "modified"; "_at"]
  then "This is likely an auto-generated audit column"
  else if Verifier.contains col_lower "id" && endswith col_lower "id"
  then "This appears to be a new identifier that will be auto-generated"
  else "This is a new column in the target schema - may need default value or manual mapping".

(** One of the two loops of [get_unmapped_columns]: the columns of a schema
    whose (table, column) pair is not in [mapped]. *)
Definition unmapped_in (sch : HybridEngine.schema) (mapped : gset (string * string))
    (explain : string -> string) : list unmapped_column :=
  flat_map (fun tbl =>
    flat_map (fun col =>
      if decide ((fst tbl, fst col) ∈ mapped) then []
      else [ {| table := fst tbl; column := fst col;
                reason := explain (fst col) |} ])
      (snd tbl))
    sch.

(** [get_unmapped_columns]. *)
Definition get_unmapped_columns (source_schema target_schema : HybridEngine.schema)
    (mappings : list HybridEngine.MatchResult) : unmapped_t :=
  let mapped_sources : gset (string * string) :=
    list_to_set (map (fun m => (HybridEngine.source_table m,
                                HybridEngine.source_column m)) mappings) in
  let mapped_targets : gset (string * string) :=
    list_to_set (map (fun m => (HybridEngine.target_table m,
                                HybridEngine.target_column m)) mappings) in
  {| source := unmapped_in source_schema mapped_sources _explain_unmapped_source;
     target := unmapped_in target_schema mapped_targets _explain_unmapped_target |}.

(** A (table, column) pair is listed among unmapped columns, is the source
    of a mapping, is the target of a mapping. *)
Definition listed (l : list unmapped_column) (t c : string) : Prop :=
  exists u, In u l /\ table u = t /\ column u = c.
Definition mapped_from (mappings : list HybridEngine.MatchResult) (t c : string)
  : Prop :=
  exists m, In m mappings /\ HybridEngine.source_table m = t
            /\ HybridEngine.source_column m = c.
Definition mapped_to (mappings : list HybridEngine.MatchResult) (t c : string)
  : Prop :=
  exists m, In m mappings /\ HybridEngine.target_table m = t
            /\ HybridEngine.target_column m = c.

Lemma in_key_set (key : HybridEngine.MatchResult -> string * string)
    (mappings : list HybridEngine.MatchResult) (k : string * string) :
  k ∈ (list_to_set (map key mappings) : gset (string * string)) <->
  exists m, In m mappings /\ key m = k.
Proof.
  rewrite elem_of_list_to_set, list_elem_of_In, in_map_iff.
  split; intros (m & H1 & H2); exists m; auto.
Qed.

Lemma unmapped_in_spec sch mapped explain u :
  In u (unmapped_in sch mapped explain) <->
  exists tbl col, In tbl sch /\ In col (snd tbl) /\
    ((fst tbl, fst col) ∉ mapped) /\
    u = UnmappedColumn (fst tbl) (fst col) (explain (fst col)).
Proof.
  unfold unmapped_in. rewrite in_flat_map. split.
  - intros (tbl & Htbl & Hu). apply in_flat_map in Hu as (col & Hcol & Hu).
    destruct (decide _) as [Hin | Hout]; [destruct Hu|].
    destruct Hu as [<- | []]. exists tbl, col. auto.
  - intros (tbl & col & Htbl & Hcol & Hout & ->).
    exists tbl. split; [exact Htbl|]. apply in_flat_map. exists col.
    split; [exact Hcol|]. destruct (decide _); [contradiction | left; reflexivity].
Qed.

(** X10.  [get_unmapped_columns] splits the columns of both schemas: a
    source column is listed under "source" exactly when no mapping has it as
    its source, a target column under "target" exactly when no mapping has
    it as its target; nothing else is listed, and each entry carries the
    reason given for its column name. *)
Theorem get_unmapped_columns_partition
    (source_schema target_schema : HybridEngine.schema)
    (mappings : list HybridEngine.MatchResult) :
  let un := get_unmapped_columns source_schema target_schema mappings in
  (forall tbl col, In tbl source_schema -> In col (snd tbl) ->
     (listed (source un) (fst tbl) (fst col)
      <-> ~ mapped_from mappings (fst tbl) (fst col))) /\
  (forall tbl col, In tbl target_schema -> In col (snd tbl) ->
     (listed (target un) (fst tbl) (fst col)
      <-> ~ mapped_to mappings (fst tbl) (fst col))) /\
  (forall u, In u (source un) ->
     reason u = _explain_unmapped_source (column u) /\
     exists tbl col, In tbl source_schema /\ In col (snd tbl) /\
                     table u = fst tbl /\ column u = fst col) /\
  (forall u, In u (target un) ->
     reason u = _explain_unmapped_target (column u) /\
     exists tbl col, In tbl target_schema /\ In col (snd tbl) /\
                     table u = fst tbl /\ column u = fst col).
Proof.
  intros un. subst un. unfold get_unmapped_columns. cbn [source target].
  assert (Hside : forall sch key explain,
    (forall tbl col, In tbl sch -> In col (snd tbl) ->
       (listed (unmapped_in sch (list_to_set (map key mappings)) explain)
               (fst tbl) (fst col)
        <-> ~ exists m, In m mappings /\ key m = (fst tbl, fst col))) /\
    (forall u, In u (unmapped_in sch (list_to_set (map key mappings)) explain) ->
       reason u = explain (column u) /\
       exists tbl col, In tbl sch /\ In col (snd tbl) /\
                       table u = fst tbl /\ column u = fst col)).
  { intros sch key explain. split.
    - intros tbl col Htbl Hcol. rewrite <- in_key_set. split.
      + intros (u & Hu & Ht & Hc).
        apply unmapped_in_spec in Hu as (tbl' & col' & _ & _ & Hout & ->).
        simpl in Ht, Hc. rewrite <- Ht, <- Hc. exact Hout.
      + intros Hout. exists (UnmappedColumn (fst tbl) (fst col) (explain (fst col))).
        split; [|split; reflexivity].
        apply unmapped_in_spec. exists tbl, col. auto.
    - intros u Hu.
      apply unmapped_in_spec in Hu as (tbl & col & Htbl & Hcol & _ & ->).
      split; [reflexivity|]. exists tbl, col. auto. }
  destruct (Hside source_schema
              (fun m => (HybridEngine.source_table m, HybridEngine.source_column m))
              _explain_unmapped_source) as [Hs1 Hs2].
  destruct (Hside target_schema
              (fun m => (HybridEngine.target_table m, HybridEngine.target_column m))
              _explain_unmapped_target) as [Ht1 Ht2].
  split; [|split; [|split; assumption]].
  - intros tbl col Htbl Hcol. rewrite (Hs1 tbl col Htbl Hcol).
    unfold mapped_from. split; intros Hn (m & Hm & H); apply Hn; exists m.
    + destruct H as [<- <-]. auto.
    + injection H as <- <-. auto.
  - intros tbl col Htbl Hcol. rewrite (Ht1 tbl col Htbl Hcol).
    unfold mapped_to. split; intros Hn (m & Hm & H); apply Hn; exists m.
    + destruct H as [<- <-]. auto.
    + injection H as <- <-. auto.
Qed.

(** *** With the engine's own mappings *)

Variable gemini_model : bool.
Variable calculate_bert_similarity : string -> string -> Q.
Variable calculate_tfidf_similarity : string -> string -> Q.
Variable calculate_domain_similarity : string -> string -> Q.
Variable get_gemini_analysis :
  list string -> list string -> string -> string
  -> list HybridEngine.gemini_mapping.

(** A schema is a dictionary of dictionaries: no table name and, within a
    table, no column name occurs twice. *)
Definition keys_unique (sch : HybridEngine.schema) : Prop :=
  NoDup (map fst sch) /\ Forall (fun tbl => NoDup (map fst (snd tbl))) sch.

Lemma same_key {A B : Type} (l : list (A * B)) (x y : A * B) :
  NoDup (map fst l) -> In x l -> In y l -> fst x = fst y -> x = y.
Proof.
  induction l as [|z l IH]; simpl; [intros _ []|].
  intros Hnd Hx Hy E. apply NoDup_cons in Hnd as [Hz Hnd].
  destruct Hx as [-> | Hx], Hy as [-> | Hy]; auto.
  - exfalso. apply Hz. rewrite E. apply list_elem_of_In, in_map, Hy.
  - exfalso. apply Hz. rewrite <- E. apply list_elem_of_In, in_map, Hx.
Qed.

Lemma length_flat_map_pair {A B C : Type} (f : A -> list B) (g : A -> list C)
    (h : A -> nat) (l : list A) :
  (forall x, In x l -> (length (f x) + length (g x) = h x)%nat) ->
  (length (flat_map f l) + length (flat_map g l)
   = fold_right (fun x n => h x + n) 0 l)%nat.
Proof.
  induction l as [|x l IH]; intros H; simpl; [reflexivity|].
  rewrite !length_app.
  specialize (IH (fun y Hy => H y (or_intror Hy))).
  specialize (H x (or_introl eq_refl)). lia.
Qed.

(** The number of columns of a schema. *)
Definition column_count (sch : HybridEngine.schema) : nat :=
  fold_right (fun tbl n => length (snd tbl) + n) 0 sch.

(** X11.  Every source column is accounted for: the mappings that
    [match_columns] returns and the unmapped source columns that
    [get_unmapped_columns] then lists add up to the number of columns of
    the source schema. *)
Theorem every_source_column_accounted_for
    (source_schema target_schema : HybridEngine.schema) (threshold : Q) :
  keys_unique source_schema ->
  let mappings :=
    fst (HybridEngine.match_columns gemini_model calculate_bert_similarity
           calculate_tfidf_similarity calculate_domain_similarity
           get_gemini_analysis source_schema target_schema threshold) in
  let un := get_unmapped_columns source_schema target_schema mappings in
  (length mappings + length (source un) = column_count source_schema)%nat.
Proof.
  intros [Hnd Hcols] mappings un.
  set (cache := HybridEngine.build_gemini_cache gemini_model get_gemini_analysis
                  source_schema target_schema).
  set (per_column := HybridEngine.match_source_column gemini_model
                       calculate_bert_similarity calculate_tfidf_similarity
                       calculate_domain_similarity cache target_schema threshold).
  assert (Hm : mappings = flat_map (fun s => flat_map (per_column (fst s)) (snd s))
                                   source_schema).
  { subst mappings. apply HybridEngine.match_columns_results. }
  subst un. unfold get_unmapped_columns. cbn [source]. unfold unmapped_in.
  set (mapped := list_to_set _ : gset (string * string)).
  rewrite Hm at 1. unfold column_count.
  apply length_flat_map_pair. intros tbl Htbl.
  replace (length (snd tbl))
    with (fold_right (fun (_ : string * string) n => 1 + n) 0 (snd tbl))%nat
    by (induction (snd tbl); simpl; auto).
  apply length_flat_map_pair. intros col Hcol.
  destruct (per_column (fst tbl) col) as [|r rest] eqn:Er.
  - (* no result for this column: it is not the source of any mapping *)
    destruct (decide ((fst tbl, fst col) ∈ mapped)) as [Hin | Hout];
      [|reflexivity].
    exfalso. subst mapped. apply in_key_set in Hin as (m & Hmin & Hkey).
    rewrite Hm in Hmin. apply in_flat_map in Hmin as (s & Hs & Hmin).
    apply in_flat_map in Hmin as (sc & Hsc & Hmin).
    subst per_column.
    apply HybridEngine.match_source_column_key in Hmin as (Hone & Ht & Hc).
    injection Hkey as Hk1 Hk2. rewrite Ht in Hk1. rewrite Hc in Hk2.
    assert (s = tbl) by (apply (same_key source_schema); auto). subst s.
    assert (sc = col).
    { apply (same_key (snd tbl)); auto.
      rewrite Forall_forall in Hcols. apply Hcols, list_elem_of_In, Htbl. }
    subst sc. rewrite Er in Hone. discriminate.
  - (* one result: the column is the source of a mapping *)
    assert (Hr : In r (per_column (fst tbl) col)) by (rewrite Er; left; reflexivity).
    subst per_column.
    pose proof (HybridEngine.match_source_column_key _ _ _ _ _ _ _ _ _ _ Hr)
      as (Hone & Ht & Hc).
    rewrite Er in Hone. injection Hone as ->.
    destruct (decide ((fst tbl, fst col) ∈ mapped)) as [Hin | Hout];
      [reflexivity|].
    exfalso. apply Hout. subst mapped. apply in_key_set. exists r.
    split; [|rewrite Ht, Hc; reflexivity].
    rewrite Hm. apply in_flat_map. exists tbl. split; [exact Htbl|].
    apply in_flat_map. exists col. split; [exact Hcol | exact Hr].
Qed.

End Explain.

(** The run of [HybridEngine.demo_source] against a target with a column
    nobody maps to. *)
Example demo_unmapped :
  let mappings :=
    fst (HybridEngine.match_columns true HybridEngine.demo_half
           HybridEngine.demo_half HybridEngine.demo_domain
           HybridEngine.demo_gemini HybridEngine.demo_source
           HybridEngine.demo_target (6 # 10)) in
  let un := get_unmapped_columns HybridSignals.ascii_lower
              HybridEngine.demo_source HybridEngine.demo_target mappings in
  source un = [] /\
  target un = [UnmappedColumn "customers" "name"
                 "This is a new column in the target schema - may need default value or manual mapping"].
Proof. vm_compute. split; reflexivity. Qed.

Lemma every_source_column_accounted_for_witness :
  let mappings :=
    fst (HybridEngine.match_columns true HybridEngine.demo_half
           HybridEngine.demo_half HybridEngine.demo_domain
           HybridEngine.demo_gemini HybridEngine.demo_source
           HybridEngine.demo_target (6 # 10)) in
  let un := get_unmapped_columns HybridSignals.ascii_lower
              HybridEngine.demo_source HybridEngine.demo_target mappings in
  (length mappings + length (source un) = 1)%nat.
Proof.
  apply (every_source_column_accounted_for HybridSignals.ascii_lower true
           HybridEngine.demo_half HybridEngine.demo_half
           HybridEngine.demo_domain HybridEngine.demo_gemini
           HybridEngine.demo_source HybridEngine.demo_target (6 # 10)).
  split.
  - repeat constructor. intros H. inversion H.
  - repeat constructor. intros H. inversion H.
Defined.

End Unmapped.

(** ** PS2: the data of the mapping diagram (api.py, /api/visualization) *)

Module Visualization.

Import HybridEngine.
Local Open Scope string_scope.
Local Open Scope list_scope.

(** A node of the Sankey diagram; ["reason"] is set on unmapped columns. *)
Record node : Type := Node {
  node_id : string;
  node_name : string;
  node_type : string;
  node_table : string;
  node_reason : option string
}.

Record link : Type := Link {
  link_source : nat;
  link_target : nat;
  link_value : Q;
  link_confidence : string;
  link_mapping_type : string;
  link_explanation : string
}.

Record column_pair : Type := ColumnPair {
  cp_source : string;
  cp_target : string;
  cp_confidence : string;
  cp_score : Q
}.

Record table_mapping : Type := TableMapping {
  tm_source_table : string;
  tm_target_table : string;
  tm_columns : list column_pair
}.

Record summary_t : Type := Summary {
  sm_total_mappings : nat;
  sm_high_confidence : nat;
  sm_medium_confidence : nat;
  sm_low_confidence : nat;
  sm_unmapped_source : nat;
  sm_unmapped_target : nat
}.

Record visualization : Type := VisualizationData {
  vz_session_id : string;
  nodes : list node;
  links : list link;
  table_mappings : list table_mapping;
  vz_summary : summary_t
}.

(** [f"source_{table}_{column}"] and [f"target_{table}_{column}"]. *)
Definition src_key (table column : string) : string :=
  "source_" ++ table ++ "_" ++ column.
Definition tgt_key (table column : string) : string :=
  "target_" ++ table ++ "_" ++ column.

(** [nodes] together with [node_map]. *)
Definition graph : Type := list node * gmap string nat.

(** [if key not in node_map: node_map[key] = len(nodes); nodes.append(n)],
    where [n["id"]] is the key. *)
Definition add_node (g : graph) (n : node) : graph :=
  match snd g !! node_id n with
  | Some _ => g
  | None => (fst g ++ [n], <[ node_id n := length (fst g) ]> (snd g))
  end.

Definition source_node (m : MatchResult) : node :=
  {| node_id := src_key (source_table m) (source_column m);
     node_name := source_table m ++ "." ++ source_column m;
     node_type := "source";
     node_table := source_table m;
     node_reason := None |}.

Definition unmapped_source_node (u : Unmapped.unmapped_column) : node :=
  {| node_id := src_key (Unmapped.table u) (Unmapped.column u);
     node_name := Unmapped.table u ++ "." ++ Unmapped.column u;
     node_type := "source_unmapped";
     node_table := Unmapped.table u;
     node_reason := Some (Unmapped.reason u) |}.

Definition target_node (m : MatchResult) : node :=
  {| node_id := tgt_key (target_table m) (target_column m);
     node_name := target_table m ++ "." ++ target_column m;
     node_type := "target";
     node_table := target_table m;
     node_reason := None |}.

Definition unmapped_target_node (u : Unmapped.unmapped_column) : node :=
  {| node_id := tgt_key (Unmapped.table u) (Unmapped.column u);
     node_name := Unmapped.table u ++ "." ++ Unmapped.column u;
     node_type := "target_unmapped";
     node_table := Unmapped.table u;
     node_reason := Some (Unmapped.reason u) |}.

(** One of the four loops that add nodes. *)
Definition add_nodes {A : Type} (mk : A -> node) (items : list A) (g : graph)
  : graph :=
  foldl (fun g a => add_node g (mk a)) g items.

(** The graph after the four loops. *)
Definition build_graph (mappings : list MatchResult)
    (unmapped : Unmapped.unmapped_t) : graph :=
  add_nodes unmapped_target_node (Unmapped.target unmapped)
    (add_nodes target_node mappings
       (add_nodes unmapped_source_node (Unmapped.source unmapped)
          (add_nodes source_node mappings ([], ∅)))).

(** One link; [node_map[key]] raises [KeyError] on an absent key. *)
Definition link_of (node_map : gmap string nat) (m : MatchResult) : option link :=
  match node_map !! src_key (source_table m) (source_column m),
        node_map !! tgt_key (target_table m) (target_column m) with
  | Some s, Some t =>
      Some {| link_source := s; link_target := t;
              link_value := ensemble_score m;
              link_confidence := confidence_level m;
              link_mapping_type := mapping_type m;
              link_explanation := why_mapped m |}
  | _, _ => None
  end.

(** The table relationship view, keyed by [f"{source_table} → {target_table}"]. *)
Definition table_key (m : MatchResult) : string :=
  source_table m ++ " → " ++ target_table m.

Definition new_table_mapping (m : MatchResult) : table_mapping :=
  {| tm_source_table := source_table m;
     tm_target_table := target_table m;
     tm_columns := [] |}.

Definition column_pair_of (m : MatchResult) : column_pair :=
  {| cp_source := source_column m; cp_target := target_column m;
     cp_confidence := confidence_level m; cp_score := ensemble_score m |}.

Definition add_column (m : MatchResult) (t : table_mapping) : table_mapping :=
  {| tm_source_table := tm_source_table t;
     tm_target_table := tm_target_table t;
     tm_columns := tm_columns t ++ [column_pair_of m] |}.

Definition table_view (mappings : list MatchResult)
  : PyDict.dict string table_mapping :=
  PyDict.group_all table_key new_table_mapping add_column mappings.

(** The body of [get_visualization_data] once the session and its mappings
    are found; [unmapped] is [session.get("unmapped", ...)].  [None] stands
    for a [KeyError] in the loop over the links. *)
Definition visualization_data (session_id : string)
    (mappings : list MatchResult) (unmapped : option Unmapped.unmapped_t)
  : option visualization :=
  let unmapped := default (Unmapped.UnmappedColumns [] []) unmapped in
  let g := build_graph mappings unmapped in
  match mapM (link_of (snd g)) mappings with
  | Some ls =>
      Some {| vz_session_id := session_id;
              nodes := fst g;
              links := ls;
              table_mappings := map snd (table_view mappings);
              vz_summary :=
                {| sm_total_mappings := length mappings;
                   sm_high_confidence := count_level "high" mappings;
                   sm_medium_confidence := count_level "medium" mappings;
                   sm_low_confidence := count_level "low" mappings;
                   sm_unmapped_source := length (Unmapped.source unmapped);
                   sm_unmapped_target := length (Unmapped.target unmapped) |} |}
  | None => None
  end.

(** *** The node map indexes the nodes *)

(** [node_map] sends the id of every node to its index, and nothing else. *)
Definition indexed (g : graph) : Prop :=
  (forall i n, fst g !! i = Some n -> snd g !! node_id n = Some i) /\
  (forall k i, snd g !! k = Some i ->
     exists n, fst g !! i = Some n /\ node_id n = k).

(** Loops only add: what was a node stays one, at its index. *)
Definition extends (g g' : graph) : Prop :=
  (forall i n, fst g !! i = Some n -> fst g' !! i = Some n) /\
  (forall k i, snd g !! k = Some i -> snd g' !! k = Some i).

Lemma extends_refl g : extends g g.
Proof. split; auto. Qed.

Lemma extends_trans g1 g2 g3 : extends g1 g2 -> extends g2 g3 -> extends g1 g3.
Proof. intros [H1 H2] [H3 H4]. split; auto. Qed.

Lemma indexed_empty : indexed ([], ∅).
Proof.
  split; simpl.
  - intros i n H. rewrite lookup_nil in H. discriminate.
  - intros k i H. rewrite lookup_empty in H. discriminate.
Qed.

Lemma add_node_spec (g : graph) (n : node) :
  indexed g ->
  indexed (add_node g n) /\ extends g (add_node g n) /\
  is_Some (snd (add_node g n) !! node_id n) /\
  (forall n', n' ∈ fst (add_node g n) -> n' ∈ fst g \/ n' = n).
Proof.
  intros [Hn Hm]. unfold add_node.
  destruct (snd g !! node_id n) as [i|] eqn:E.
  - split; [split; assumption|]. split; [apply extends_refl|].
    split; [rewrite E; eexists; reflexivity | auto].
  - unfold indexed, extends. cbn [fst snd].
    split; [split|split; [split|split]].
    + intros i n' Hi. apply lookup_app_Some in Hi as [Hi | [Hlen Hi]].
      * assert (Hne : node_id n' <> node_id n).
        { intros Heq. apply Hn in Hi. rewrite Heq in Hi. congruence. }
        rewrite lookup_insert_ne by congruence. apply Hn, Hi.
      * apply list_lookup_singleton_Some in Hi as [Hz ->].
        rewrite lookup_insert_eq. f_equal. lia.
    + intros k i Hk. destruct (decide (k = node_id n)) as [->|Hne].
      * rewrite lookup_insert_eq in Hk. injection Hk as <-.
        exists n. split; [|reflexivity].
        rewrite lookup_app_r by lia. rewrite Nat.sub_diag. reflexivity.
      * rewrite lookup_insert_ne in Hk by congruence.
        destruct (Hm k i Hk) as (n' & Hi & Hid).
        exists n'. split; [|exact Hid].
        apply lookup_app_l_Some, Hi.
    + intros i n' Hi. apply lookup_app_l_Some, Hi.
    + intros k i Hk. rewrite lookup_insert_ne; [exact Hk|]. congruence.
    + rewrite lookup_insert_eq. eexists; reflexivity.
    + intros n' Hin. apply elem_of_app in Hin as [Hin | Hin]; [left; exact Hin|].
      apply list_elem_of_singleton in Hin. right. exact Hin.
Qed.

Lemma add_nodes_spec {A : Type} (mk : A -> node) (items : list A) (g : graph) :
  indexed g ->
  indexed (add_nodes mk items g) /\ extends g (add_nodes mk items g) /\
  (forall a, a ∈ items -> is_Some (snd (add_nodes mk items g) !! node_id (mk a))) /\
  (forall n, n ∈ fst (add_nodes mk items g) ->
     n ∈ fst g \/ exists a, a ∈ items /\ n = mk a).
Proof.
  unfold add_nodes. revert g.
  induction items as [|a items IH]; intros g Hg; simpl.
  - split; [exact Hg|]. split; [apply extends_refl|].
    split; [|auto]. intros a Ha. apply elem_of_nil in Ha. destruct Ha.
  - destruct (add_node_spec g (mk a) Hg) as (Hg1 & He1 & [i Hk1] & Hn1).
    destruct (IH _ Hg1) as (Hg2 & He2 & Hk2 & Hn2).
    split; [exact Hg2|]. split; [eapply extends_trans; eassumption|].
    split.
    + intros a' Ha'. apply elem_of_cons in Ha' as [-> | Ha'].
      * exists i. apply He2, Hk1.
      * apply Hk2, Ha'.
    + intros n Hin. destruct (Hn2 n Hin) as [Hin' | (a' & Ha' & ->)].
      * destruct (Hn1 n Hin') as [H0 | ->]; [left; exact H0|].
        right. exists a. split; [apply list_elem_of_here | reflexivity].
      * right. exists a'. split; [apply list_elem_of_further, Ha' | reflexivity].
Qed.

Lemma indexed_nodup (g : graph) : indexed g -> NoDup (map node_id (fst g)).
Proof.
  intros [Hn _]. apply NoDup_alt. intros i j k Hi Hj.
  rewrite list_lookup_fmap in Hi, Hj.
  destruct (fst g !! i) as [n|] eqn:Ei; [|discriminate].
  destruct (fst g !! j) as [n'|] eqn:Ej; [|discriminate].
  simpl in Hi, Hj. injection Hi as <-. injection Hj as Hid.
  apply Hn in Ei, Ej. rewrite Hid in Ej. congruence.
Qed.

Lemma keys_differ (t c t' c' : string) : src_key t c <> tgt_key t' c'.
Proof. unfold src_key, tgt_key. simpl. discriminate. Qed.

(** What the four loops achieve. *)
Lemma build_graph_spec (mappings : list MatchResult) (unmapped : Unmapped.unmapped_t) :
  let g := build_graph mappings unmapped in
  indexed g /\
  (forall m, m ∈ mappings ->
     exists i j s t,
       snd g !! src_key (source_table m) (source_column m) = Some i /\
       snd g !! tgt_key (target_table m) (target_column m) = Some j /\
       fst g !! i = Some s /\ fst g !! j = Some t /\
       node_id s = src_key (source_table m) (source_column m) /\
       node_type s = "source" /\
       node_id t = tgt_key (target_table m) (target_column m) /\
       node_type t = "target") /\
  (forall n, n ∈ fst g ->
     (exists m, m ∈ mappings /\ (n = source_node m \/ n = target_node m)) \/
     (exists u, u ∈ Unmapped.source unmapped /\ n = unmapped_source_node u) \/
     (exists u, u ∈ Unmapped.target unmapped /\ n = unmapped_target_node u)) /\
  (forall u, u ∈ Unmapped.source unmapped ->
     is_Some (snd g !! src_key (Unmapped.table u) (Unmapped.column u))) /\
  (forall u, u ∈ Unmapped.target unmapped ->
     is_Some (snd g !! tgt_key (Unmapped.table u) (Unmapped.column u))).
Proof.
  unfold build_graph.
  destruct (add_nodes_spec source_node mappings ([], ∅) indexed_empty)
    as (Hg1 & He1 & Hk1 & Hn1).
  set (g1 := add_nodes source_node mappings ([], ∅)) in *.
  destruct (add_nodes_spec unmapped_source_node (Unmapped.source unmapped) g1 Hg1)
    as (Hg2 & He2 & Hk2 & Hn2).
  set (g2 := add_nodes unmapped_source_node _ g1) in *.
  destruct (add_nodes_spec target_node mappings g2 Hg2)
    as (Hg3 & He3 & Hk3 & Hn3).
  set (g3 := add_nodes target_node mappings g2) in *.
  destruct (add_nodes_spec unmapped_target_node (Unmapped.target unmapped) g3 Hg3)
    as (Hg4 & He4 & Hk4 & Hn4).
  set (g4 := add_nodes unmapped_target_node _ g3) in *.
  assert (He14 : extends g1 g4)
    by (eapply extends_trans; [exact He2|]; eapply extends_trans; eassumption).
  assert (He24 : extends g2 g4) by (eapply extends_trans; eassumption).
  cbv zeta. split; [exact Hg4|]. split; [|split; [|split]].
  - intros m Hm.
    destruct (Hk1 m Hm) as [i Hi]. destruct (Hk3 m Hm) as [j Hj].
    cbn [node_id source_node] in Hi. cbn [node_id target_node] in Hj.
    destruct (proj2 Hg1 _ _ Hi) as (s & Hs & Hsid).
    destruct (proj2 Hg3 _ _ Hj) as (t & Ht & Htid).
    exists i, j, s, t.
    split; [apply (proj2 He14), Hi|]. split; [apply (proj2 He4), Hj|].
    split; [apply (proj1 He14), Hs|]. split; [apply (proj1 He4), Ht|].
    split; [exact Hsid|]. split; [|split; [exact Htid|]].
    + apply list_elem_of_lookup_2 in Hs.
      destruct (Hn1 s Hs) as [H0 | (m' & _ & ->)]; [|reflexivity].
      apply elem_of_nil in H0. destruct H0.
    + apply list_elem_of_lookup_2 in Ht.
      destruct (Hn3 t Ht) as [H2 | (m' & _ & ->)]; [|reflexivity].
      exfalso.
      destruct (Hn2 t H2) as [H1 | (u & _ & ->)].
      * destruct (Hn1 t H1) as [H0 | (m' & _ & ->)].
        -- apply elem_of_nil in H0. destruct H0.
        -- exact (keys_differ _ _ _ _ Htid).
      * exact (keys_differ _ _ _ _ Htid).
  - intros n Hin.
    destruct (Hn4 n Hin) as [H3 | (u & Hu & ->)]; [|right; right; eauto].
    destruct (Hn3 n H3) as [H2 | (m & Hm & ->)]; [|left; eauto].
    destruct (Hn2 n H2) as [H1 | (u & Hu & ->)]; [|right; left; eauto].
    destruct (Hn1 n H1) as [H0 | (m & Hm & ->)]; [|left; eauto].
    apply elem_of_nil in H0. destruct H0.
  - intros u Hu. destruct (Hk2 u Hu) as [i Hi]. exists i.
    apply (proj2 He24), Hi.
  - intros u Hu. apply (Hk4 u Hu).
Qed.

(** X21.  The Sankey data of /api/visualization is a well-formed graph.
    The loop over the links never raises [KeyError].  The node ids are
    pairwise distinct, and every node stands for the source or target column
    of a mapping or for an unmapped column.  There is one link per mapping,
    in order; its [source] is the index of a node of type "source" whose id
    is the mapping's source key, its [target] the index of a node of type
    "target" whose id is the mapping's target key, and it carries the
    mapping's ensemble score and confidence level.  Every unmapped column
    has a node with its key. *)
Theorem sankey_is_well_formed (session_id : string)
    (mappings : list MatchResult) (unmapped : option Unmapped.unmapped_t) :
  let un := default (Unmapped.UnmappedColumns [] []) unmapped in
  exists v,
    visualization_data session_id mappings unmapped = Some v /\
    NoDup (map node_id (nodes v)) /\
    (forall n, n ∈ nodes v ->
       (exists m, m ∈ mappings /\ (n = source_node m \/ n = target_node m)) \/
       (exists u, u ∈ Unmapped.source un /\ n = unmapped_source_node u) \/
       (exists u, u ∈ Unmapped.target un /\ n = unmapped_target_node u)) /\
    Forall2 (fun m l =>
      (exists s, nodes v !! link_source l = Some s /\
                 node_id s = src_key (source_table m) (source_column m) /\
                 node_type s = "source") /\
      (exists t, nodes v !! link_target l = Some t /\
                 node_id t = tgt_key (target_table m) (target_column m) /\
                 node_type t = "target") /\
      link_value l = ensemble_score m /\
      link_confidence l = confidence_level m) mappings (links v) /\
    (forall u, u ∈ Unmapped.source un ->
       exists n, n ∈ nodes v /\
                 node_id n = src_key (Unmapped.table u) (Unmapped.column u)) /\
    (forall u, u ∈ Unmapped.target un ->
       exists n, n ∈ nodes v /\
                 node_id n = tgt_key (Unmapped.table u) (Unmapped.column u)).
Proof.
  intros un. unfold visualization_data. fold un.
  destruct (build_graph_spec mappings un) as (Hg & Hm & Hn & Hus & Hut).
  cbv zeta in Hg, Hm, Hn, Hus, Hut.
  set (g := build_graph mappings un) in *.
  assert (Hlinks : exists ls,
    mapM (link_of (snd g)) mappings = Some ls /\
    Forall2 (fun m l => link_of (snd g) m = Some l) mappings ls).
  { destruct (mapM (link_of (snd g)) mappings) as [ls|] eqn:E.
    - exists ls. split; [reflexivity|]. apply mapM_Some_1, E.
    - exfalso. apply mapM_None_1, Exists_exists in E as (m & Hin & Hnone).
      destruct (Hm m Hin) as (i & j & s & t & Hi & Hj & _).
      unfold link_of in Hnone. rewrite Hi, Hj in Hnone. discriminate. }
  destruct Hlinks as (ls & Els & Hls). rewrite Els.
  eexists. split; [reflexivity|]. cbn [nodes links].
  split; [apply indexed_nodup, Hg|]. split; [exact Hn|].
  split; [|split].
  - match goal with
    | |- Forall2 ?R _ _ =>
        assert (Hgen : forall ms0 ls0,
          Forall2 (fun m l => link_of (snd g) m = Some l) ms0 ls0 ->
          (forall m, m ∈ ms0 -> m ∈ mappings) -> Forall2 R ms0 ls0)
    end; [|apply Hgen; auto].
    induction 1 as [|m l ms0 ls0 Hl _ IH]; intros Hin; [constructor|].
    constructor;
      [|apply IH; intros m' Hm'; apply Hin, list_elem_of_further, Hm'].
    destruct (Hm m (Hin m (list_elem_of_here _ _)))
      as (i & j & s & t & Hi & Hj & Hs & Ht & Hsid & Hsty & Htid & Htty).
    unfold link_of in Hl. rewrite Hi, Hj in Hl. injection Hl as <-.
    cbn [link_source link_target link_value link_confidence].
    split; [exists s; auto|]. split; [exists t; auto|]. auto.
  - intros u Hu. destruct (Hus u Hu) as [i Hi].
    destruct (proj2 Hg _ _ Hi) as (n & Hni & Hid).
    exists n. split; [eapply list_elem_of_lookup_2, Hni | exact Hid].
  - intros u Hu. destruct (Hut u Hu) as [i Hi].
    destruct (proj2 Hg _ _ Hi) as (n & Hni & Hid).
    exists n. split; [eapply list_elem_of_lookup_2, Hni | exact Hid].
Qed.

(** X22.  The table view of /api/visualization groups the mappings by
    their pair of tables, read as the text "source → target": its entries
    have pairwise distinct keys, each key is the key of some mapping and
    every mapping's key has an entry; an entry names the tables of the first
    mapping with its key and lists, in order, exactly the column pairs of
    the mappings with that key, at least one.  All entries together list as
    many column pairs as there are mappings. *)
Theorem table_view_groups_the_mappings (mappings : list MatchResult) :
  let view := table_view mappings in
  NoDup (map fst view) /\
  (forall k, k ∈ map fst view <-> exists m, m ∈ mappings /\ table_key m = k) /\
  (forall k t, (k, t) ∈ view ->
     exists m0 rest,
       filter (fun m => table_key m = k) mappings = m0 :: rest /\
       tm_source_table t = source_table m0 /\
       tm_target_table t = target_table m0 /\
       tm_columns t = map column_pair_of (m0 :: rest)) /\
  sum_list (map (fun t => length (tm_columns t)) (map snd view))
    = length mappings.
Proof.
  intros view. subst view. unfold table_view.
  split; [apply PyDict.group_all_keys_nodup|].
  split; [apply PyDict.group_all_keys|]. split.
  - intros k t Hin. apply PyDict.group_all_entry in Hin as (m0 & rest & Hf & ->).
    exists m0, rest. split; [exact Hf|].
    assert (Hfold : forall l t0,
      let t' := foldl (fun v m => add_column m v) t0 l in
      tm_source_table t' = tm_source_table t0 /\
      tm_target_table t' = tm_target_table t0 /\
      tm_columns t' = tm_columns t0 ++ map column_pair_of l).
    { induction l as [|m l IH]; intros t0; simpl.
      - rewrite app_nil_r. auto.
      - destruct (IH (add_column m t0)) as (H1 & H2 & H3).
        rewrite H1, H2, H3. simpl. rewrite <- app_assoc. auto. }
    destruct (Hfold (m0 :: rest) (new_table_mapping m0)) as (H1 & H2 & H3).
    rewrite H1, H2, H3. auto.
  - rewrite map_map.
    apply (PyDict.group_all_total table_key new_table_mapping add_column
             (fun t => length (tm_columns t))).
    + reflexivity.
    + intros m t. simpl. rewrite length_app. simpl. lia.
Qed.

(** A run on two mappings of one table pair and one unmapped column. *)
Definition demo_mapping (s t : string) : MatchResult :=
  {| source_column := s; target_column := t;
     source_table := "cust"; target_table := "customers";
     bert_score := 1; gemini_score := 0; tfidf_score := 1; domain_score := 1;
     ensemble_score := 9 # 10; confidence_level := "high";
     mapping_type := "1:1"; transformation := "none"; explanation := "";
     why_mapped := ""; why_not_others := "";
     data_type_source := "TEXT"; data_type_target := "TEXT" |}.

Example demo_visualization :
  option_map (fun v => (map node_id (nodes v),
                        map (fun l => (link_source l, link_target l)) (links v),
                        map (fun t => length (tm_columns t)) (table_mappings v)))
    (visualization_data "s1"
       [demo_mapping "nm" "name"; demo_mapping "id" "customer_id"]
       (Some (Unmapped.UnmappedColumns
                [Unmapped.UnmappedColumn "cust" "legacy" "no match"] [])))
  = Some (["source_cust_nm"; "source_cust_id"; "source_cust_legacy";
           "target_customers_name"; "target_customers_customer_id"],
          [(0, 3); (1, 4)], [2]).
Proof. vm_compute. reflexivity. Qed.

End Visualization.

(** ** PS1: the fact-checking API (core/api.py) *)

Module FactApi.

Local Open Scope string_scope.

Section Api.

(** The values the pipeline stages hand on; their content is the business
    of the stages. *)
Variables verification claim_list annotated corrections html : Type.

(** The response dictionary of a completed verification. *)
Record verify_response : Type := VerifyResponse {
  resp_job_id : string;
  resp_status : string;
  resp_verification : verification;
  resp_annotated_html : html;
  resp_citations : annotated;
  resp_corrections : corrections
}.

(** An entry of the [jobs] dictionary. *)
Record job : Type := Job {
  job_status : string;
  created_at : string;
  llm_text : string;
  job_error : option string;
  job_response : option verify_response
}.

(** The stages called inside the [try]: each returns or raises. *)
Variable atomize_claims : string -> exn + claim_list.
Variable verify_document : claim_list -> exn + verification.
Variable annotate_text_with_citations : string -> verification -> exn + annotated.
Variable generate_correction_report : verification -> exn + corrections.
Variable generate_html_annotated_text : annotated -> exn + html.
(** [embedding_engine.ingest_pdf(temp_path, doc_id)]: the number of chunks. *)
Variable ingest_pdf : string -> string -> exn + nat.

(** The body of the [try] block of [verify_text]. *)
Definition verify_pipeline (job_id text : string) : exn + verify_response :=
  match atomize_claims text with
  | inl e => inl e
  | inr claims =>
  match verify_document claims with
  | inl e => inl e
  | inr verification_results =>
  match annotate_text_with_citations text verification_results with
  | inl e => inl e
  | inr annotated_data =>
  match generate_correction_report verification_results with
  | inl e => inl e
  | inr correction_report =>
  match generate_html_annotated_text annotated_data with
  | inl e => inl e
  | inr annotated_html =>
      inr {| resp_job_id := job_id;
             resp_status := "completed";
             resp_verification := verification_results;
             resp_annotated_html := annotated_html;
             resp_citations := annotated_data;
             resp_corrections := correction_report |}
  end end end end end.

(** [POST /verify].  [job_id] is the fresh identifier drawn from
    [uuid.uuid4()], [now] the timestamp. *)
Definition verify_text (job_id now text : string) (jobs : gmap string job)
  : reply verify_response * gmap string job :=
  let processing :=
    {| job_status := "processing"; created_at := now; llm_text := text;
       job_error := None; job_response := None |} in
  let jobs := <[ job_id := processing ]> jobs in
  match verify_pipeline job_id text with
  | inr response =>
      (Return response,
       <[ job_id := {| job_status := "completed"; created_at := now;
                       llm_text := text; job_error := None;
                       job_response := Some response |} ]> jobs)
  | inl e =>
      (HTTPException 500 ("Verification failed: " ++ exn_msg e),
       alter (fun j => {| job_status := "failed"; created_at := created_at j;
                          llm_text := llm_text j;
                          job_error := Some (exn_msg e);
                          job_response := job_response j |}) job_id jobs)
  end.

(** The success dictionary of [/upload-source]. *)
Record upload_response : Type := UploadResponse {
  up_status : string;
  up_filename : string;
  up_doc_id : string;
  up_chunks_ingested : nat
}.

(** [POST /upload-source].  [files] is the set of paths that exist; the
    upload is written to a temporary file that the [finally] removes. *)
Definition upload_source_document (filename : string) (files : gset string)
  : reply upload_response * gset string :=
  if negb (endswith filename ".pdf") then
    (HTTPException 400 "Only PDF files are supported", files)
  else
    let temp_path := "temp_" ++ filename in
    let files := {[ temp_path ]} ∪ files in
    let outcome :=
      match ingest_pdf temp_path filename with
      | inr num_chunks =>
          Return {| up_status := "success"; up_filename := filename;
                    up_doc_id := filename; up_chunks_ingested := num_chunks |}
      | inl e => HTTPException 500 ("Failed to ingest document: " ++ exn_msg e)
      end in
    (outcome, files ∖ {[ temp_path ]}).

(** One of the stages of [/verify] raised [e]. *)
Definition stage_raises (text : string) (e : exn) : Prop :=
  atomize_claims text = inl e \/
  (exists claims, atomize_claims text = inr claims /\
     (verify_document claims = inl e \/
      exists v, verify_document claims = inr v /\
        (annotate_text_with_citations text v = inl e \/
         exists a, annotate_text_with_citations text v = inr a /\
           (generate_correction_report v = inl e \/
            exists c, generate_correction_report v = inr c /\
              generate_html_annotated_text a = inl e)))).

Lemma stage_raises_pipeline job_id text e :
  stage_raises text e -> verify_pipeline job_id text = inl e.
Proof.
  unfold stage_raises, verify_pipeline.
  intros [-> | (c & -> & [-> | (v & -> & [-> | (a & -> & [-> | (r & -> & ->)])])])];
    reflexivity.
Qed.

(** C4.  When a stage of [/verify] (atomization, verification, citation
    linking and its HTML rendering, correction generation) raises, the
    handler records the failure in the stored job, whose status becomes
    "failed" and whose error is the exception's text, leaves every other job
    alone, and raises HTTPException 500; when the ingestion of
    [/upload-source] raises, that handler raises HTTPException 500 as well. *)
Theorem api_errors_become_500
    (job_id now text filename : string) (e : exn)
    (jobs : gmap string job) (files : gset string) :
  (stage_raises text e ->
   exists jobs' j,
     verify_text job_id now text jobs
     = (HTTPException 500 ("Verification failed: " ++ exn_msg e), jobs') /\
     jobs' !! job_id = Some j /\
     job_status j = "failed" /\ job_error j = Some (exn_msg e) /\
     llm_text j = text /\
     forall other, other <> job_id -> jobs' !! other = jobs !! other) /\
  (endswith filename ".pdf" = true ->
   ingest_pdf ("temp_" ++ filename) filename = inl e ->
   fst (upload_source_document filename files)
   = HTTPException 500 ("Failed to ingest document: " ++ exn_msg e)).
Proof.
  split.
  - intros Hraise. unfold verify_text.
    rewrite (stage_raises_pipeline job_id text e Hraise).
    eexists _, _. split; [reflexivity|]. split.
    + rewrite lookup_alter_eq, lookup_insert_eq. reflexivity.
    + repeat split. intros other Hne.
      rewrite lookup_alter_ne, lookup_insert_ne by congruence. reflexivity.
  - intros Hpdf Hing. unfold upload_source_document.
    rewrite Hpdf, Hing. reflexivity.
Qed.

(** *** Reading a job back *)

(** What [verify_document] calls a claim result, the list of them in a
    verification, and the dictionary [/evidence] builds from one. *)
Variables claim_result evidence_body : Type.
Variable claims_of : verification -> list claim_result.
Variable evidence_view : claim_result -> evidence_body.

(** [GET /results/{job_id}]. *)
Definition get_results (job_id : string) (jobs : gmap string job) : reply job :=
  match jobs !! job_id with
  | None => HTTPException 404 "Job not found"
  | Some j => Return j
  end.

(** [l[i]] on a Python list: a negative index counts from the end. *)
Definition py_index {A : Type} (l : list A) (i : Z) : option A :=
  if (0 <=? i)%Z then l !! Z.to_nat i
  else if (- Z.of_nat (length l) <=? i)%Z
       then l !! Z.to_nat (Z.of_nat (length l) + i)
       else None.

(** [job.get('claims')]: present once the verification has completed. *)
Definition job_claims (j : job) : option (list claim_result) :=
  match job_response j with
  | Some r => Some (claims_of (resp_verification r))
  | None => None
  end.

(** [GET /evidence/{claim_index}?job_id=...]. *)
Definition get_evidence (claim_index : Z) (job_id : string)
    (jobs : gmap string job) : reply evidence_body :=
  match jobs !! job_id with
  | None => HTTPException 404 "Job not found"
  | Some j =>
      if (Z.of_nat (length (default [] (job_claims j))) <=? claim_index)%Z
      then HTTPException 404 "Claim not found"
      else
        match job_claims j with
        | None => Uncaught (Exn "KeyError" "'claims'")
        | Some claims =>
            match py_index claims claim_index with
            | Some c => Return (evidence_view c)
            | None => Uncaught (Exn "IndexError" "list index out of range")
            end
        end
  end.

Lemma get_evidence_claims i job_id jobs j claims :
  jobs !! job_id = Some j -> job_claims j = Some claims ->
  get_evidence i job_id jobs
  = if (Z.of_nat (length claims) <=? i)%Z
    then HTTPException 404 "Claim not found"
    else match py_index claims i with
         | Some c => Return (evidence_view c)
         | None => Uncaught (Exn "IndexError" "list index out of range")
         end.
Proof. intros Hj Hc. unfold get_evidence. rewrite Hj, Hc. reflexivity. Qed.

Lemma get_evidence_no_claims i job_id jobs j :
  jobs !! job_id = Some j -> job_claims j = None ->
  get_evidence i job_id jobs
  = if (0 <=? i)%Z then HTTPException 404 "Claim not found"
    else Uncaught (Exn "KeyError" "'claims'").
Proof. intros Hj Hc. unfold get_evidence. rewrite Hj, Hc. reflexivity. Qed.

(** X12.  A verification can be read back.  When [/verify] returns a
    response, [/results] on its job id returns the stored job, whose status
    is "completed" and which holds that response and the submitted text,
    and [/evidence] returns the i-th claim of the response for every index
    from 0 below the number of claims and 404 "Claim not found" from that
    number on; the jobs of other ids are untouched. *)
Theorem verify_then_read_back
    (job_id now text : string) (jobs : gmap string job)
    (response : verify_response) :
  fst (verify_text job_id now text jobs) = Return response ->
  let jobs' := snd (verify_text job_id now text jobs) in
  let claims := claims_of (resp_verification response) in
  (exists j, get_results job_id jobs' = Return j /\
             job_status j = "completed" /\ job_response j = Some response /\
             llm_text j = text /\ job_error j = None) /\
  (forall (i : nat) c, claims !! i = Some c ->
     get_evidence (Z.of_nat i) job_id jobs' = Return (evidence_view c)) /\
  (forall i : Z, (Z.of_nat (length claims) <= i)%Z ->
     get_evidence i job_id jobs' = HTTPException 404 "Claim not found") /\
  (forall other, other <> job_id -> jobs' !! other = jobs !! other).
Proof.
  unfold verify_text. destruct (verify_pipeline job_id text) as [e|resp];
    cbn [fst snd]; [discriminate|].
  intros [= ->]. split; [|split; [|split]].
  - unfold get_results. rewrite lookup_insert_eq. eexists. repeat split.
  - intros i c Hi.
    erewrite get_evidence_claims;
      [|apply lookup_insert_eq | unfold job_claims; reflexivity].
    pose proof (lookup_lt_Some _ _ _ Hi) as Hlt.
    destruct (Z.leb_spec (Z.of_nat (length (claims_of (resp_verification response))))
                         (Z.of_nat i)) as [Hle|_]; [lia|].
    unfold py_index. destruct (Z.leb_spec 0 (Z.of_nat i)) as [_|Hneg]; [|lia].
    rewrite Nat2Z.id, Hi. reflexivity.
  - intros i Hi.
    erewrite get_evidence_claims;
      [|apply lookup_insert_eq | unfold job_claims; reflexivity].
    destruct (Z.leb_spec (Z.of_nat (length (claims_of (resp_verification response))))
                         i) as [_|Hlt]; [reflexivity | lia].
  - intros other Hne. rewrite !lookup_insert_ne by congruence. reflexivity.
Qed.

(** X13.  How [/evidence] treats its index.  On a job that holds claims,
    an index from 0 below their number selects that claim, an index from
    their number on is answered 404 "Claim not found", a negative index
    down to minus their number selects a claim counted from the end, and a
    smaller one escapes as an IndexError.  On a job without claims (still
    processing, or failed) every index from 0 on is answered 404 and every
    negative index escapes as a KeyError.  An unknown job id is answered
    404 "Job not found" by [/evidence] and [/results] alike. *)
Theorem get_evidence_index (job_id : string) (jobs : gmap string job) :
  (forall j claims, jobs !! job_id = Some j -> job_claims j = Some claims ->
     let n := Z.of_nat (length claims) in
     (forall i c, claims !! i = Some c ->
        get_evidence (Z.of_nat i) job_id jobs = Return (evidence_view c)) /\
     (forall i, (n <= i)%Z ->
        get_evidence i job_id jobs = HTTPException 404 "Claim not found") /\
     (forall i c, (- n <= i < 0)%Z -> claims !! Z.to_nat (n + i) = Some c ->
        get_evidence i job_id jobs = Return (evidence_view c)) /\
     (forall i, (i < - n)%Z ->
        get_evidence i job_id jobs
        = Uncaught (Exn "IndexError" "list index out of range"))) /\
  (forall j, jobs !! job_id = Some j -> job_claims j = None ->
     (forall i, (0 <= i)%Z ->
        get_evidence i job_id jobs = HTTPException 404 "Claim not found") /\
     (forall i, (i < 0)%Z ->
        get_evidence i job_id jobs = Uncaught (Exn "KeyError" "'claims'"))) /\
  (jobs !! job_id = None ->
     (forall i, get_evidence i job_id jobs = HTTPException 404 "Job not found") /\
     get_results job_id jobs = HTTPException 404 "Job not found").
Proof.
  split; [|split].
  - intros j claims Hj Hc n. subst n. unfold py_index. repeat split.
    + intros i c Hi. rewrite (get_evidence_claims _ _ _ _ _ Hj Hc).
      unfold py_index. pose proof (lookup_lt_Some _ _ _ Hi) as Hlt.
      destruct (Z.leb_spec (Z.of_nat (length claims)) (Z.of_nat i)); [lia|].
      destruct (Z.leb_spec 0 (Z.of_nat i)); [|lia].
      rewrite Nat2Z.id, Hi. reflexivity.
    + intros i Hi. rewrite (get_evidence_claims _ _ _ _ _ Hj Hc).
      destruct (Z.leb_spec (Z.of_nat (length claims)) i); [reflexivity | lia].
    + intros i c Hi Hc'. rewrite (get_evidence_claims _ _ _ _ _ Hj Hc).
      unfold py_index.
      destruct (Z.leb_spec (Z.of_nat (length claims)) i); [lia|].
      destruct (Z.leb_spec 0 i); [lia|].
      destruct (Z.leb_spec (- Z.of_nat (length claims)) i); [|lia].
      rewrite Hc'. reflexivity.
    + intros i Hi. rewrite (get_evidence_claims _ _ _ _ _ Hj Hc).
      unfold py_index.
      destruct (Z.leb_spec (Z.of_nat (length claims)) i); [lia|].
      destruct (Z.leb_spec 0 i); [lia|].
      destruct (Z.leb_spec (- Z.of_nat (length claims)) i); [lia | reflexivity].
  - intros j Hj Hc.
    split; intros i Hi; rewrite (get_evidence_no_claims _ _ _ _ Hj Hc).
    + destruct (Z.leb_spec 0 i); [reflexivity | lia].
    + destruct (Z.leb_spec 0 i); [lia | reflexivity].
  - intros Hj. unfold get_evidence, get_results. rewrite Hj. auto.
Qed.


End Api.

Definition demo_exn : exn := Exn "ValueError" "no sentences".

Lemma api_errors_become_500_witness :
  (exists jobs' j,
     verify_text unit unit unit unit unit
       (fun _ => inl demo_exn) (fun _ => inr ()) (fun _ _ => inr ())
       (fun _ => inr ()) (fun _ => inr ())
       "1f0c9a2e" "2024-03-01T10:00:00" "Metformin is safe." ∅
     = (HTTPException 500 "Verification failed: no sentences", jobs') /\
     jobs' !! "1f0c9a2e" = Some j /\
     job_status _ _ _ _ j = "failed" /\
     job_error _ _ _ _ j = Some "no sentences") /\
  fst (upload_source_document (fun _ _ => inl demo_exn) "guide.pdf" ∅)
  = HTTPException 500 "Failed to ingest document: no sentences".
Proof.
  destruct (api_errors_become_500 unit unit unit unit unit
              (fun _ => inl demo_exn) (fun _ => inr ()) (fun _ _ => inr ())
              (fun _ => inr ()) (fun _ => inr ()) (fun _ _ => inl demo_exn)
              "1f0c9a2e" "2024-03-01T10:00:00" "Metformin is safe." "guide.pdf"
              demo_exn ∅ ∅) as [Hverify Hupload].
  split.
  - destruct Hverify as (jobs' & j & H1 & H2 & H3 & H4 & _).
    { left. reflexivity. }
    exists jobs', j. auto.
  - apply Hupload; reflexivity.
Defined.

(** A verification of two claims, read back. *)
Definition demo_claims (_ : unit) : list string := ["claim one"; "claim two"].

Lemma verify_then_read_back_witness :
  let run := verify_text unit unit unit unit unit
               (fun _ => inr ()) (fun _ => inr ()) (fun _ _ => inr ())
               (fun _ => inr ()) (fun _ => inr ())
               "1f0c9a2e" "2024-03-01T10:00:00" "Two claims." ∅ in
  (exists response, fst run = Return response) /\
  get_evidence unit unit unit unit string string demo_claims (fun c => c)
    1 "1f0c9a2e" (snd run) = Return "claim two" /\
  get_evidence unit unit unit unit string string demo_claims (fun c => c)
    2 "1f0c9a2e" (snd run) = HTTPException 404 "Claim not found".
Proof.
  intros run.
  set (response := VerifyResponse unit unit unit unit "1f0c9a2e" "completed"
                     () () () ()).
  assert (H : fst run = Return response) by reflexivity.
  pose proof (verify_then_read_back unit unit unit unit unit
                (fun _ => inr ()) (fun _ => inr ()) (fun _ _ => inr ())
                (fun _ => inr ()) (fun _ => inr ())
                string string demo_claims (fun c => c)
                "1f0c9a2e" "2024-03-01T10:00:00" "Two claims." ∅ response H)
    as (_ & Hget & H404 & _).
  split; [exists response; exact H|]. split.
  - exact (Hget 1%nat "claim two" eq_refl).
  - apply (H404 2%Z). simpl. lia.
Defined.

End FactApi.

(** ** PS2: the session endpoints (api.py) *)

Module ForgeApi.

Local Open Scope string_scope.

Section Api.

(** Schemas, column mappings, statistics and unmapped-column entries as the
    engine produces them, validation results and migration counters, and
    the report bodies the read-only endpoints build. *)
Variables schema mapping stats_t unmapped_col validation_t migration_t report : Type.

Record unmapped_t : Type := Unmapped {
  unmapped_source : list unmapped_col;
  unmapped_target : list unmapped_col
}.

(** An entry of the [sessions] dictionary; the keys that [/api/upload] does
    not set are optional. *)
Record session : Type := Session {
  source_path : string;
  target_path : string;
  source_schema : schema;
  target_schema : schema;
  mappings : option (list mapping);
  validation : option validation_t;
  created_at : string;
  stats : option stats_t;
  unmapped : option unmapped_t;
  migration_result : option migration_t
}.

(** The body [/api/analyze] returns. *)
Record analysis : Type := Analysis {
  an_session_id : string;
  an_total_mappings : nat;
  an_statistics : stats_t;
  an_unmapped_source : nat;
  an_unmapped_target : nat;
  an_gemini_used : bool
}.

(** The engine: [match_columns] followed by [get_unmapped_columns]. *)
Variable run_matching : schema -> schema -> Q -> list mapping * stats_t * unmapped_t.
Variable gemini_used : bool.
(** The row copy and validation of [/api/migrate]; the SQLite calls in it
    can raise. *)
Variable migrate_and_validate : session -> exn + (validation_t * migration_t * report).
(** The bodies assembled by the read-only endpoints. *)
Variable mapping_report : string -> session -> list mapping -> report.
Variable validation_report : string -> session -> validation_t -> report.
Variable visualization_data : string -> session -> list mapping -> report.
Variable explainability_report : string -> session -> list mapping -> report.

(** [POST /api/analyze]. *)
Definition analyze_schemas (session_id : string) (threshold : Q)
    (sessions : gmap string session) : reply analysis * gmap string session :=
  match sessions !! session_id with
  | None => (HTTPException 404 "Session not found", sessions)
  | Some s =>
      let '(ms, st, un) := run_matching (source_schema s) (target_schema s) threshold in
      let s' := {| source_path := source_path s; target_path := target_path s;
                   source_schema := source_schema s;
                   target_schema := target_schema s;
                   mappings := Some ms; validation := validation s;
                   created_at := created_at s; stats := Some st;
                   unmapped := Some un;
                   migration_result := migration_result s |} in
      (Return {| an_session_id := session_id;
                 an_total_mappings := length ms;
                 an_statistics := st;
                 an_unmapped_source := length (unmapped_source un);
                 an_unmapped_target := length (unmapped_target un);
                 an_gemini_used := gemini_used |},
       <[ session_id := s' ]> sessions)
  end.

(** The shape shared by the endpoints that need the analysis: 404 without
    the session, 400 before the analysis has run, else the body. *)
Definition with_mappings (session_id : string) (sessions : gmap string session)
    (body : session -> list mapping -> report) : reply report * gmap string session :=
  match sessions !! session_id with
  | None => (HTTPException 404 "Session not found", sessions)
  | Some s =>
      match mappings s with
      | None => (HTTPException 400 "Analysis not run yet", sessions)
      | Some ms => (Return (body s ms), sessions)
      end
  end.

(** [GET /api/mapping-report/{session_id}]. *)
Definition get_mapping_report (session_id : string) (sessions : gmap string session)
  : reply report * gmap string session :=
  with_mappings session_id sessions (mapping_report session_id).

(** [POST /api/migrate]. *)
Definition execute_migration (session_id : string) (sessions : gmap string session)
  : reply report * gmap string session :=
  match sessions !! session_id with
  | None => (HTTPException 404 "Session not found", sessions)
  | Some s =>
      match mappings s with
      | None => (HTTPException 400 "Analysis not run yet", sessions)
      | Some _ =>
          match migrate_and_validate s with
          | inl e => (Uncaught e, sessions)
          | inr (v, m, body) =>
              let s' := {| source_path := source_path s;
                           target_path := target_path s;
                           source_schema := source_schema s;
                           target_schema := target_schema s;
                           mappings := mappings s; validation := Some v;
                           created_at := created_at s; stats := stats s;
                           unmapped := unmapped s;
                           migration_result := Some m |} in
              (Return body, <[ session_id := s' ]> sessions)
          end
      end
  end.

(** [GET /api/validation-report/{session_id}]. *)
Definition get_validation_report (session_id : string) (sessions : gmap string session)
  : reply report * gmap string session :=
  match sessions !! session_id with
  | None => (HTTPException 404 "Session not found", sessions)
  | Some s =>
      match validation s with
      | None => (HTTPException 400 "Migration not executed yet", sessions)
      | Some v => (Return (validation_report session_id s v), sessions)
      end
  end.

(** [GET /api/visualization/{session_id}]. *)
Definition get_visualization_data (session_id : string) (sessions : gmap string session)
  : reply report * gmap string session :=
  with_mappings session_id sessions (visualization_data session_id).

(** [GET /api/explain/{session_id}]. *)
Definition get_explainability_report (session_id : string)
    (sessions : gmap string session) : reply report * gmap string session :=
  with_mappings session_id sessions (explainability_report session_id).

(** C6.  For a session id that is not a key of [sessions], each of
    /api/analyze, /api/mapping-report, /api/migrate, /api/validation-report,
    /api/visualization and /api/explain raises HTTPException 404 with detail
    "Session not found" and leaves [sessions] as it was. *)
Theorem unknown_session_is_404 (session_id : string) (threshold : Q)
    (sessions : gmap string session) :
  sessions !! session_id = None ->
  analyze_schemas session_id threshold sessions
    = (HTTPException 404 "Session not found", sessions) /\
  get_mapping_report session_id sessions
    = (HTTPException 404 "Session not found", sessions) /\
  execute_migration session_id sessions
    = (HTTPException 404 "Session not found", sessions) /\
  get_validation_report session_id sessions
    = (HTTPException 404 "Session not found", sessions) /\
  get_visualization_data session_id sessions
    = (HTTPException 404 "Session not found", sessions) /\
  get_explainability_report session_id sessions
    = (HTTPException 404 "Session not found", sessions).
Proof.
  intros Hnone.
  unfold analyze_schemas, get_mapping_report, execute_migration,
    get_validation_report, get_visualization_data, get_explainability_report,
    with_mappings.
  rewrite Hnone. repeat split.
Qed.

(** *** The order of the requests *)

(** X15.  The reports wait for their step.  On a session that has not been
    analyzed, /api/mapping-report, /api/migrate, /api/visualization and
    /api/explain answer 400 "Analysis not run yet", and on a session that
    has not been migrated /api/validation-report answers 400 "Migration
    not executed yet", each leaving [sessions] as it was.  Once
    /api/analyze has run on the session, the session holds the mappings,
    statistics and unmapped columns of that run, keeps its paths, schemas
    and validation, and the three reports are served from it; no other
    session changes. *)
Theorem reports_wait_for_their_step (session_id : string) (threshold : Q)
    (sessions : gmap string session) (s : session) :
  sessions !! session_id = Some s ->
  (mappings s = None ->
   get_mapping_report session_id sessions
     = (HTTPException 400 "Analysis not run yet", sessions) /\
   execute_migration session_id sessions
     = (HTTPException 400 "Analysis not run yet", sessions) /\
   get_visualization_data session_id sessions
     = (HTTPException 400 "Analysis not run yet", sessions) /\
   get_explainability_report session_id sessions
     = (HTTPException 400 "Analysis not run yet", sessions)) /\
  (validation s = None ->
   get_validation_report session_id sessions
     = (HTTPException 400 "Migration not executed yet", sessions)) /\
  (let sessions' := snd (analyze_schemas session_id threshold sessions) in
   let '(ms, st, un) := run_matching (source_schema s) (target_schema s) threshold in
   exists s',
     sessions' !! session_id = Some s' /\
     mappings s' = Some ms /\ stats s' = Some st /\ unmapped s' = Some un /\
     source_path s' = source_path s /\ target_path s' = target_path s /\
     source_schema s' = source_schema s /\ target_schema s' = target_schema s /\
     validation s' = validation s /\
     get_mapping_report session_id sessions'
       = (Return (mapping_report session_id s' ms), sessions') /\
     get_visualization_data session_id sessions'
       = (Return (visualization_data session_id s' ms), sessions') /\
     get_explainability_report session_id sessions'
       = (Return (explainability_report session_id s' ms), sessions') /\
     forall other, other <> session_id -> sessions' !! other = sessions !! other).
Proof.
  intros Hs. split; [|split].
  - intros Hm. unfold get_mapping_report, execute_migration,
      get_visualization_data, get_explainability_report, with_mappings.
    rewrite Hs, Hm. auto.
  - intros Hv. unfold get_validation_report. rewrite Hs, Hv. reflexivity.
  - unfold analyze_schemas. rewrite Hs.
    destruct (run_matching _ _ _) as [[ms st] un]. cbn [snd].
    eexists. split; [apply lookup_insert_eq|].
    unfold get_mapping_report, get_visualization_data,
      get_explainability_report, with_mappings.
    rewrite lookup_insert_eq. cbn [mappings].
    repeat (split; [reflexivity|]).
    intros other Hne. apply lookup_insert_ne. congruence.
Qed.

End Api.

(** A store holding one session, asked for another. *)
Definition demo_sessions : gmap string (session unit unit unit unit unit unit) :=
  {[ "20240301_101500" :=
       {| source_path := "/tmp/dataforge/20240301_101500/source.db";
          target_path := "/tmp/dataforge/20240301_101500/target.db";
          source_schema := (); target_schema := ();
          mappings := None; validation := None;
          created_at := "2024-03-01T10:15:00"; stats := None;
          unmapped := None; migration_result := None |} ]}.

Definition demo_matching (_ _ : unit) (_ : Q)
  : list unit * unit * unmapped_t unit :=
  ([], (), Unmapped unit [] []).
Definition demo_migration (_ : session unit unit unit unit unit unit)
  : exn + (unit * unit * unit) := inr ((), (), ()).
Definition demo_report {A B : Type} (_ : string) (_ : A) (_ : B) : unit := ().

Definition not_found {A : Type} : reply A :=
  HTTPException 404 "Session not found".

Lemma unknown_session_is_404_witness :
  demo_sessions !! "20240301_999999" = None /\
  analyze_schemas unit unit unit unit unit unit demo_matching true
    "20240301_999999" (6 # 10) demo_sessions = (not_found, demo_sessions) /\
  get_mapping_report unit unit unit unit unit unit unit demo_report
    "20240301_999999" demo_sessions = (not_found, demo_sessions) /\
  execute_migration unit unit unit unit unit unit unit demo_migration
    "20240301_999999" demo_sessions = (not_found, demo_sessions) /\
  get_validation_report unit unit unit unit unit unit unit demo_report
    "20240301_999999" demo_sessions = (not_found, demo_sessions) /\
  get_visualization_data unit unit unit unit unit unit unit demo_report
    "20240301_999999" demo_sessions = (not_found, demo_sessions) /\
  get_explainability_report unit unit unit unit unit unit unit demo_report
    "20240301_999999" demo_sessions = (not_found, demo_sessions).
Proof.
  assert (Hnone : demo_sessions !! "20240301_999999" = None)
    by (vm_compute; reflexivity).
  split; [exact Hnone|].
  exact (unknown_session_is_404 unit unit unit unit unit unit unit
           demo_matching true demo_migration demo_report demo_report
           demo_report demo_report
           "20240301_999999" (6 # 10) demo_sessions Hnone).
Defined.

Lemma reports_wait_for_their_step_witness :
  get_mapping_report unit unit unit unit unit unit unit demo_report
    "20240301_101500" demo_sessions
    = (HTTPException 400 "Analysis not run yet", demo_sessions) /\
  get_validation_report unit unit unit unit unit unit unit demo_report
    "20240301_101500" demo_sessions
    = (HTTPException 400 "Migration not executed yet", demo_sessions).
Proof.
  assert (Hs : exists s, demo_sessions !! "20240301_101500" = Some s /\
                         mappings _ _ _ _ _ _ s = None /\
                         validation _ _ _ _ _ _ s = None).
  { eexists. split; [vm_compute; reflexivity|]. split; reflexivity. }
  destruct Hs as (s & Hs & Hm & Hv).
  destruct (reports_wait_for_their_step unit unit unit unit unit unit unit
              demo_matching true demo_migration demo_report demo_report
              demo_report demo_report
              "20240301_101500" (6 # 10) demo_sessions s Hs)
    as (H400 & Hval & _).
  split; [exact (proj1 (H400 Hm)) | exact (Hval Hv)].
Defined.

End ForgeApi.

(** ** PS2: uploading the two databases (api.py, /api/upload) *)

Module ForgeUpload.

Local Open Scope string_scope.
Local Open Scope list_scope.

(** [{"name": col.name, "type": col.data_type}]. *)
Record column_entry : Type := ColumnEntry {
  ce_name : string;
  ce_type : string
}.

(** [{"columns": [...]}]: a dictionary with that one key. *)
Definition table_entry : Type := gmap string (list column_entry).

(** The schema format of the API: table name to table entry. *)
Definition api_schema : Type := PyDict.dict string table_entry.

Definition entry_of (t : SemanticMatch.TableInfo) : table_entry :=
  {[ "columns" :=
       map (fun c => ColumnEntry (SemanticMatch.name c) (SemanticMatch.data_type c))
           (SemanticMatch.columns t) ]}.

(** [for table in schema_obj.tables: schema[table.name] = {...}]. *)
Definition to_api_schema (tables : list SemanticMatch.TableInfo) : api_schema :=
  foldl (fun d t => PyDict.set (SemanticMatch.table_name t) (entry_of t) d)
        [] tables.

(** [sum(len(cols) for cols in schema.values())]. *)
Definition count_columns (s : api_schema) : nat :=
  sum_list (map (fun kv => size (snd kv)) s).

Record upload_response : Type := UploadResponse {
  up_session_id : string;
  source_tables : list string;
  target_tables : list string;
  source_columns : nat;
  target_columns : nat
}.

Section Upload.

Variables mapping stats_t unmapped_col validation_t migration_t : Type.

(** The content of an uploaded file. *)
Variable bytes : Type.
(** [SchemaExtractor(path).extract_schema().tables] on a file with the given
    content; SQLite can raise. *)
Variable extract_schema : bytes -> exn + list SemanticMatch.TableInfo.
(** [tempfile.gettempdir()]. *)
Variable gettempdir : string.

Definition session : Type :=
  ForgeApi.session api_schema mapping stats_t unmapped_col validation_t migration_t.

(** The files on disk and the [sessions] dictionary. *)
Definition world : Type := gmap string bytes * gmap string session.

Definition read_schema (files : gmap string bytes) (path : string)
  : exn + list SemanticMatch.TableInfo :=
  match files !! path with
  | Some content => extract_schema content
  | None => inl (Exn "OperationalError" "unable to open database file")
  end.

(** [POST /api/upload].  [now_id] is
    [datetime.now().strftime("%Y%m%d_%H%M%S")] at the start of the call,
    [now_iso] the [isoformat()] of the clock when the session is stored. *)
Definition upload_databases (now_id now_iso : string) (source_db target_db : bytes)
    (w : world) : reply upload_response * world :=
  let session_id := now_id in
  let temp_dir := (gettempdir ++ "/dataforge/" ++ session_id)%string in
  let source_path := (temp_dir ++ "/source.db")%string in
  let target_path := (temp_dir ++ "/target.db")%string in
  let files := <[ target_path := target_db ]> (<[ source_path := source_db ]> (fst w)) in
  match read_schema files source_path with
  | inl e => (Uncaught e, (files, snd w))
  | inr source_tbls =>
      match read_schema files target_path with
      | inl e => (Uncaught e, (files, snd w))
      | inr target_tbls =>
          let source_schema := to_api_schema source_tbls in
          let target_schema := to_api_schema target_tbls in
          let s : session :=
            {| ForgeApi.source_path := source_path;
               ForgeApi.target_path := target_path;
               ForgeApi.source_schema := source_schema;
               ForgeApi.target_schema := target_schema;
               ForgeApi.mappings := None;
               ForgeApi.validation := None;
               ForgeApi.created_at := now_iso;
               ForgeApi.stats := None;
               ForgeApi.unmapped := None;
               ForgeApi.migration_result := None |} in
          (Return {| up_session_id := session_id;
                     source_tables := map fst source_schema;
                     target_tables := map fst target_schema;
                     source_columns := count_columns source_schema;
                     target_columns := count_columns target_schema |},
           (files, <[ session_id := s ]> (snd w)))
      end
  end.

Lemma append_inv_head (s a b : string) : (s ++ a = s ++ b)%string -> a = b.
Proof.
  induction s as [|c s IH]; simpl; [auto|]. intros [= H]. apply IH, H.
Qed.

Lemma to_api_schema_group (tables : list SemanticMatch.TableInfo) :
  to_api_schema tables
  = PyDict.group_all SemanticMatch.table_name entry_of (fun t _ => entry_of t)
      tables.
Proof.
  unfold to_api_schema, PyDict.group_all.
  generalize (@nil (string * table_entry)).
  induction tables as [|t tables IH]; intros d; simpl; [reflexivity|].
  rewrite IH. f_equal. unfold PyDict.group_step, PyDict.setdefault_update.
  destruct (PyDict.get _ d); reflexivity.
Qed.

Lemma set_singletons k (v : table_entry) (d : api_schema) :
  size v = 1 -> Forall (fun kv => size (snd kv) = 1) d ->
  Forall (fun kv => size (snd kv) = 1) (PyDict.set k v d).
Proof.
  intros Hv. induction 1 as [|[k' v'] d Hk Hd IH]; simpl.
  - repeat constructor. exact Hv.
  - destruct (decide (k = k')); constructor; auto.
Qed.

Lemma to_api_schema_singletons (tables : list SemanticMatch.TableInfo) :
  Forall (fun kv => size (snd kv) = 1) (to_api_schema tables).
Proof.
  unfold to_api_schema.
  assert (Hgen : forall d : api_schema,
    Forall (fun kv => size (snd kv) = 1) d ->
    Forall (fun kv => size (snd kv) = 1)
      (foldl (fun d t => PyDict.set (SemanticMatch.table_name t) (entry_of t) d)
             d tables)).
  { induction tables as [|t tables IH]; intros d Hd; simpl; [exact Hd|].
    apply IH, set_singletons; [apply map_size_singleton | exact Hd]. }
  apply Hgen. constructor.
Qed.

Lemma count_columns_tables (tables : list SemanticMatch.TableInfo) :
  count_columns (to_api_schema tables) = length (to_api_schema tables).
Proof.
  unfold count_columns.
  induction (to_api_schema_singletons tables) as [|kv d Hkv _ IH];
    [reflexivity|].
  simpl. rewrite Hkv, IH. reflexivity.
Qed.

(** X23.  /api/upload writes both uploads under
    [<tmp>/dataforge/<session_id>/], also when it then fails.  When both
    schemas can be extracted it stores, under a session id made of the clock
    alone, a session with these paths and no mappings or validation, leaves
    the other sessions alone, and answers with the table names of each
    database, each once.  The [source_columns] and [target_columns] of the
    answer are the numbers of tables, not of columns: each schema entry is a
    dictionary with the one key "columns".  When an extraction raises, the
    exception escapes and no session is stored. *)
Theorem upload_stores_a_fresh_session (now_id now_iso : string)
    (source_db target_db : bytes) (w : world) :
  let run := upload_databases now_id now_iso source_db target_db w in
  let dir := (gettempdir ++ "/dataforge/" ++ now_id)%string in
  fst (snd run) !! (dir ++ "/source.db")%string = Some source_db /\
  fst (snd run) !! (dir ++ "/target.db")%string = Some target_db /\
  match fst run with
  | Return body =>
      exists src tgt s,
        extract_schema source_db = inr src /\
        extract_schema target_db = inr tgt /\
        up_session_id body = now_id /\
        NoDup (source_tables body) /\ NoDup (target_tables body) /\
        (forall n, n ∈ source_tables body
                   <-> exists t, t ∈ src /\ SemanticMatch.table_name t = n) /\
        (forall n, n ∈ target_tables body
                   <-> exists t, t ∈ tgt /\ SemanticMatch.table_name t = n) /\
        source_columns body = length (source_tables body) /\
        target_columns body = length (target_tables body) /\
        snd (snd run) !! now_id = Some s /\
        ForgeApi.source_path _ _ _ _ _ _ s = (dir ++ "/source.db")%string /\
        ForgeApi.target_path _ _ _ _ _ _ s = (dir ++ "/target.db")%string /\
        ForgeApi.mappings _ _ _ _ _ _ s = None /\
        ForgeApi.validation _ _ _ _ _ _ s = None /\
        (forall other, other <> now_id ->
           snd (snd run) !! other = snd w !! other)
  | HTTPException _ _ => False
  | Uncaught e =>
      snd (snd run) = snd w /\
      (extract_schema source_db = inl e \/ extract_schema target_db = inl e)
  end.
Proof.
  intros run dir. subst run. unfold upload_databases. fold dir.
  set (sp := (dir ++ "/source.db")%string).
  set (tp := (dir ++ "/target.db")%string).
  assert (Hne : sp <> tp).
  { subst sp tp. intros Heq. apply append_inv_head in Heq. discriminate Heq. }
  set (files := <[ tp := target_db ]> (<[ sp := source_db ]> (fst w))).
  assert (Hs : files !! sp = Some source_db).
  { subst files. rewrite lookup_insert_ne by congruence. apply lookup_insert_eq. }
  assert (Ht : files !! tp = Some target_db) by apply lookup_insert_eq.
  unfold read_schema. rewrite Hs, Ht.
  destruct (extract_schema source_db) as [e|src] eqn:Es.
  { cbn [fst snd]. split; [exact Hs|]. split; [exact Ht|]. auto. }
  destruct (extract_schema target_db) as [e|tgt] eqn:Et.
  { cbn [fst snd]. split; [exact Hs|]. split; [exact Ht|]. auto. }
  cbn [fst snd]. split; [exact Hs|]. split; [exact Ht|].
  eexists src, tgt, _. cbn [up_session_id source_tables target_tables
                            source_columns target_columns].
  split; [reflexivity|]. split; [reflexivity|]. split; [reflexivity|].
  rewrite !to_api_schema_group.
  split; [apply PyDict.group_all_keys_nodup|].
  split; [apply PyDict.group_all_keys_nodup|].
  split; [apply PyDict.group_all_keys|].
  split; [apply PyDict.group_all_keys|].
  rewrite <- !to_api_schema_group, !length_map.
  split; [apply count_columns_tables|].
  split; [apply count_columns_tables|].
  split; [apply lookup_insert_eq|].
  repeat (split; [reflexivity|]).
  intros other Hother. apply lookup_insert_ne. congruence.
Qed.

End Upload.

(** An upload of a database with one table of two columns. *)
Example demo_upload :
  let extract (_ : unit) : exn + list SemanticMatch.TableInfo :=
    inr [SemanticMatch.demo_source] in
  option_map (fun body => (source_tables body, source_columns body))
    (match fst (upload_databases unit unit unit unit unit unit extract "/tmp"
                  "20240301_101500" "2024-03-01T10:15:00" () () (∅, ∅)) with
     | Return body => Some body
     | _ => None
     end)
  = Some (["cust"], 1).
Proof. vm_compute. reflexivity. Qed.

End ForgeUpload.

(** ** PS2: the migration executor (migration_executor.py) *)

Module Migration.

Local Open Scope string_scope.
Local Open Scope list_scope.

Inductive MigrationStatus : Type :=
  PENDING | IN_PROGRESS | COMPLETED | FAILED | ROLLED_BACK | PARTIAL.

(** A value stored in a SQLite column, as the [sqlite3] module hands it to
    Python. *)
Inductive value : Type :=
  | Null
  | Integer (z : Z)
  | Real (q : Q)
  | Text (s : string)
  | Blob (b : string).

(** A fetched row: [row[0]] is the rowid, the rest are the selected
    columns. *)
Definition row : Type := Z * list value.

Record FailedRecord : Type := mkFailedRecord {
  fr_source_table : string;
  record_id : Z;
  record_data : gmap string value;
  error_message : string;
  error_type : string
}.

Record TransformationRule : Type := mkTransformationRule {
  source_column : string;
  target_column : string;
  transformation_type : string;
  transformation_func : option (value -> exn + value);
  sql_expression : option string;
  description : string
}.

(** [MigrationResult], without its three timing fields. *)
Record MigrationResult : Type := mkMigrationResult {
  source_table : string;
  target_table : string;
  status : MigrationStatus;
  records_attempted : nat;
  records_migrated : nat;
  records_failed : nat;
  failed_records : list FailedRecord;
  result_error : option string;
  transformations_applied : list string
}.

(** An entry of [column_mappings]; an absent key is [None]. *)
Record column_mapping : Type := ColumnMapping {
  cm_source_column : option string;
  cm_source : option string;
  cm_target_column : option string;
  cm_target : option string
}.

(** ** A small state-and-exception monad

    A Python statement either completes, raises, or (a loop) never ends.
    The state it ran in survives an exception. *)

Inductive outcome (A : Type) : Type :=
  | Done (a : A)
  | Raised (e : exn)
  | Diverged.
Arguments Done {A} a.
Arguments Raised {A} e.
Arguments Diverged {A}.

Definition St (S A : Type) : Type := S -> outcome A * S.

Definition ret {S A : Type} (a : A) : St S A := fun s => (Done a, s).

Definition bind {S A B : Type} (c : St S A) (k : A -> St S B) : St S B :=
  fun s =>
    match c s with
    | (Done a, s') => k a s'
    | (Raised e, s') => (Raised e, s')
    | (Diverged, s') => (Diverged, s')
    end.

Definition raise {S A : Type} (e : exn) : St S A := fun s => (Raised e, s).

Definition diverge {S A : Type} : St S A := fun s => (Diverged, s).

Definition modify {S : Type} (f : S -> S) : St S unit := fun s => (Done tt, f s).

Definition gets {S A : Type} (f : S -> A) : St S A := fun s => (Done (f s), s).

(** [try: c except Exception as e: h e]. *)
Definition try_except {S A : Type} (c : St S A) (h : exn -> St S A) : St S A :=
  fun s =>
    match c s with
    | (Raised e, s') => h e s'
    | other => other
    end.

(** [try: c finally: f]: [f] runs after [c] however [c] ended; an exception
    of [f] replaces the outcome of [c]. *)
Definition try_finally {S A : Type} (c : St S A) (f : St S unit) : St S A :=
  fun s =>
    match c s with
    | (Diverged, s') => (Diverged, s')
    | (o, s') =>
        match f s' with
        | (Done _, s'') => (o, s'')
        | (Raised e, s'') => (Raised e, s'')
        | (Diverged, s'') => (Diverged, s'')
        end
    end.

(** Run a computation on the second component of a paired state. *)
Definition lift {R S A : Type} (c : St S A) : St (R * S) A :=
  fun rs =>
    match c (snd rs) with
    | (o, s') => (o, (fst rs, s'))
    end.

Notation "'let*' x ':=' c 'in' k" := (bind c (fun x => k))
  (at level 10, x name, c at level 100, k at level 200).
Notation "c ';;' k" := (bind c (fun _ => k))
  (at level 100, k at level 200, right associativity).

(** [for x in xs: body x]. *)
Fixpoint for_each {S A : Type} (body : A -> St S unit) (xs : list A) : St S unit :=
  match xs with
  | [] => ret tt
  | x :: rest => body x ;; for_each body rest
  end.

Section Executor.

(** The content of a database file, and the SQL statements the executor
    issues, as the SQLite engine answers them. *)
Variable db : Type.
(** [SELECT COUNT( * ) FROM {table}]. *)
Variable sql_count : db -> string -> exn + nat.
(** [SELECT rowid, {cols} FROM "{table}" LIMIT {limit} OFFSET {offset}]. *)
Variable sql_select : db -> string -> list string -> Z -> Z -> exn + list row.
(** [INSERT INTO "{table}" ({cols}) VALUES (...)]. *)
Variable sql_insert : db -> string -> list string -> list value -> exn + db.
(** [DELETE FROM "{table}"]. *)
Variable sql_delete_all : db -> string -> exn + db.
(** [SELECT "{col}" FROM "{table}" WHERE "{col}" IS NOT NULL LIMIT 100]. *)
Variable sql_samples : db -> string -> string -> exn + list value.
(** The built-in conversions of [_apply_transformation] ("cast_int",
    "cast_float", "cast_str", "uppercase", "lowercase", "trim"). *)
Variable convert : string -> value -> exn + value.

(** A [sqlite3.Connection] object: the file it was opened on, whether it is
    still open, and the content it sees while it has uncommitted changes. *)
Record conn : Type := Conn {
  conn_path : string;
  conn_open : bool;
  conn_txn : option db
}.

(** What the executor does to SQLite, in order.  [EvInsert] and
    [EvTransformError] name the source row being migrated. *)
Inductive event : Type :=
  | EvConnect (h : nat)
  | EvFetch (h : nat) (rows : list row)
  | EvTransformError (r : row) (e : exn)
  | EvInsert (h : nat) (r : row) (vals : list value) (err : option exn)
  | EvDelete (h : nat)
  | EvCommit (h : nat)
  | EvRollback (h : nat)
  | EvClose (h : nat).

(** The databases on disk, every connection object created so far (a
    connection is named by its position), the log of events, and the
    mutable attributes of the executor. *)
Record state : Type := mkState {
  files : gmap string db;
  conns : list conn;
  trace : list event;
  source_conn : option nat;
  target_conn : option nat;
  results : list MigrationResult;
  is_dry_run : bool
}.

(** [self.source_db_path] and [self.target_db_path]. *)
Variable source_db_path target_db_path : string.

Definition set_files (f : gmap string db) (st : state) : state :=
  mkState f (conns st) (trace st) (source_conn st) (target_conn st)
          (results st) (is_dry_run st).
Definition set_conns (c : list conn) (st : state) : state :=
  mkState (files st) c (trace st) (source_conn st) (target_conn st)
          (results st) (is_dry_run st).
Definition set_trace (t : list event) (st : state) : state :=
  mkState (files st) (conns st) t (source_conn st) (target_conn st)
          (results st) (is_dry_run st).
Definition set_source_conn (h : option nat) (st : state) : state :=
  mkState (files st) (conns st) (trace st) h (target_conn st)
          (results st) (is_dry_run st).
Definition set_target_conn (h : option nat) (st : state) : state :=
  mkState (files st) (conns st) (trace st) (source_conn st) h
          (results st) (is_dry_run st).
Definition set_results (r : list MigrationResult) (st : state) : state :=
  mkState (files st) (conns st) (trace st) (source_conn st) (target_conn st)
          r (is_dry_run st).
Definition set_is_dry_run (b : bool) (st : state) : state :=
  mkState (files st) (conns st) (trace st) (source_conn st) (target_conn st)
          (results st) b.

Definition log (ev : event) (st : state) : state :=
  set_trace (trace st ++ [ev]) st.

(** *** The sqlite3 module *)

Definition closed_database : exn :=
  Exn "ProgrammingError" "Cannot operate on a closed database.".

(** [sqlite3.connect(path)]. *)
Definition sqlite3_connect (path : string) : St state nat :=
  fun st =>
    match files st !! path with
    | Some _ =>
        let h := length (conns st) in
        (Done h, log (EvConnect h) (set_conns (conns st ++ [Conn path true None]) st))
    | None =>
        (Raised (Exn "OperationalError" "unable to open database file"), st)
    end.

(** The content an open connection reads. *)
Definition conn_view (st : state) (h : nat) : option db :=
  match conns st !! h with
  | Some c =>
      if conn_open c then
        match conn_txn c with
        | Some d => Some d
        | None => files st !! conn_path c
        end
      else None
  | None => None
  end.

Definition set_txn (h : nat) (t : option db) (st : state) : state :=
  set_conns (alter (fun c => Conn (conn_path c) (conn_open c) t) h (conns st)) st.

Definition conn_count (h : nat) (table : string) : St state nat :=
  fun st =>
    match conn_view st h with
    | None => (Raised closed_database, st)
    | Some d =>
        match sql_count d table with
        | inl e => (Raised e, st)
        | inr n => (Done n, st)
        end
    end.

Definition conn_select (h : nat) (table : string) (cols : list string)
    (limit offset : Z) : St state (list row) :=
  fun st =>
    match conn_view st h with
    | None => (Raised closed_database, st)
    | Some d =>
        match sql_select d table cols limit offset with
        | inl e => (Raised e, st)
        | inr rows => (Done rows, log (EvFetch h rows) st)
        end
    end.

Definition conn_samples (h : nat) (table col : string) : St state (list value) :=
  fun st =>
    match conn_view st h with
    | None => (Raised closed_database, st)
    | Some d =>
        match sql_samples d table col with
        | inl e => (Raised e, st)
        | inr vs => (Done vs, st)
        end
    end.

(** An INSERT through connection [h]; a statement that fails leaves the
    pending changes as they were. *)
Definition conn_insert (h : nat) (src : row) (table : string)
    (cols : list string) (vals : list value) : St state unit :=
  fun st =>
    match conn_view st h with
    | None =>
        (Raised closed_database, log (EvInsert h src vals (Some closed_database)) st)
    | Some d =>
        match sql_insert d table cols vals with
        | inl e => (Raised e, log (EvInsert h src vals (Some e)) st)
        | inr d' => (Done tt, log (EvInsert h src vals None) (set_txn h (Some d') st))
        end
    end.

Definition conn_delete_all (h : nat) (table : string) : St state unit :=
  fun st =>
    match conn_view st h with
    | None => (Raised closed_database, st)
    | Some d =>
        match sql_delete_all d table with
        | inl e => (Raised e, st)
        | inr d' => (Done tt, log (EvDelete h) (set_txn h (Some d') st))
        end
    end.

(** [conn.commit()]: pending changes reach the file. *)
Definition conn_commit (h : nat) : St state unit :=
  fun st =>
    match conns st !! h with
    | Some c =>
        if conn_open c then
          let st' :=
            match conn_txn c with
            | Some d => set_files (<[ conn_path c := d ]> (files st)) st
            | None => st
            end in
          (Done tt, log (EvCommit h) (set_txn h None st'))
        else (Raised closed_database, st)
    | None => (Raised closed_database, st)
    end.

(** [conn.rollback()]: pending changes are dropped. *)
Definition conn_rollback (h : nat) : St state unit :=
  fun st =>
    match conns st !! h with
    | Some c =>
        if conn_open c
        then (Done tt, log (EvRollback h) (set_txn h None st))
        else (Raised closed_database, st)
    | None => (Raised closed_database, st)
    end.

(** [conn.close()]: pending changes are dropped; closing twice is allowed. *)
Definition conn_close (h : nat) : St state unit :=
  fun st =>
    (Done tt,
     log (EvClose h)
         (set_conns (alter (fun c => Conn (conn_path c) false None) h (conns st)) st)).

(** *** MigrationExecutor *)

Definition attribute_error : exn :=
  Exn "AttributeError" "'NoneType' object has no attribute 'cursor'".

Definition index_error : exn := Exn "IndexError" "No item with that key".

(** Using [self.source_conn] or [self.target_conn] as a connection. *)
Definition the_conn {S : Type} (attr : S -> option nat) : St S nat :=
  fun s =>
    match attr s with
    | Some h => (Done h, s)
    | None => (Raised attribute_error, s)
    end.

(** [MigrationExecutor.connect]. *)
Definition connect : St state unit :=
  let* hs := sqlite3_connect source_db_path in
  modify (set_source_conn (Some hs)) ;;
  let* ht := sqlite3_connect target_db_path in
  modify (set_target_conn (Some ht)).

(** [MigrationExecutor.disconnect]. *)
Definition disconnect : St state unit :=
  (let* sc := gets source_conn in
   match sc with Some h => conn_close h | None => ret tt end) ;;
  (let* tc := gets target_conn in
   match tc with Some h => conn_close h | None => ret tt end).

(** [s.split('.')[-1]]. *)
Fixpoint last_segment (s : string) : string :=
  match s with
  | EmptyString => EmptyString
  | String c rest =>
      if existsb (Ascii.eqb "."%char) (list_ascii_of_string rest)
      then last_segment rest
      else if Ascii.eqb "."%char c then rest
      else s
  end.

Example last_segment_examples :
  last_segment "old_users.name" = "name" /\ last_segment "name" = "name" /\
  last_segment "a.b.c" = "c" /\ last_segment "a." = "" /\ last_segment "" = "".
Proof. repeat split. Qed.

Definition source_column_of (m : column_mapping) : string :=
  default (last_segment (default "" (cm_source m))) (cm_source_column m).
Definition target_column_of (m : column_mapping) : string :=
  default (last_segment (default "" (cm_target m))) (cm_target_column m).

(** [_apply_transformation]. *)
Definition _apply_transformation (v : value) (t : TransformationRule) : exn + value :=
  match transformation_func t with
  | Some f => f v
  | None =>
      let ty := transformation_type t in
      if decide (ty = "direct") then inr v
      else if decide (ty ∈ ["cast_int"; "cast_float"; "cast_str";
                             "uppercase"; "lowercase"; "trim"])
      then match v with Null => inr Null | _ => convert ty v end
      else if decide (ty = "null_to_default")
      then inr match v with
               | Null => match sql_expression t with
                         | Some s => Text s
                         | None => Null
                         end
               | _ => v
               end
      else inr v
  end.

(** The migration in progress: the [result] object and the rest. *)
Definition mstate : Type := MigrationResult * state.

Definition set_status (x : MigrationStatus) (r : MigrationResult) : MigrationResult :=
  mkMigrationResult (source_table r) (target_table r) x (records_attempted r)
    (records_migrated r) (records_failed r) (failed_records r)
    (result_error r) (transformations_applied r).
Definition set_attempted (n : nat) (r : MigrationResult) : MigrationResult :=
  mkMigrationResult (source_table r) (target_table r) (status r) n
    (records_migrated r) (records_failed r) (failed_records r)
    (result_error r) (transformations_applied r).
Definition set_migrated (n : nat) (r : MigrationResult) : MigrationResult :=
  mkMigrationResult (source_table r) (target_table r) (status r)
    (records_attempted r) n (records_failed r) (failed_records r)
    (result_error r) (transformations_applied r).
Definition add_failed (f : FailedRecord) (r : MigrationResult) : MigrationResult :=
  mkMigrationResult (source_table r) (target_table r) (status r)
    (records_attempted r) (records_migrated r) (S (records_failed r))
    (failed_records r ++ [f]) (result_error r) (transformations_applied r).
Definition set_error (m : string) (r : MigrationResult) : MigrationResult :=
  mkMigrationResult (source_table r) (target_table r) (status r)
    (records_attempted r) (records_migrated r) (records_failed r)
    (failed_records r) (Some m) (transformations_applied r).
Definition add_description (d : string) (r : MigrationResult) : MigrationResult :=
  mkMigrationResult (source_table r) (target_table r) (status r)
    (records_attempted r) (records_migrated r) (records_failed r)
    (failed_records r) (result_error r) (transformations_applied r ++ [d]).

Definition on_result (f : MigrationResult -> MigrationResult) : St mstate unit :=
  modify (fun rs => (f (fst rs), snd rs)).

(** [{t.source_column: t for t in transformations}]. *)
Definition transform_map_of (transformations : list TransformationRule)
  : gmap string TransformationRule :=
  foldl (fun m t => <[ source_column t := t ]> m) ∅ transformations.

(** The bookkeeping after a transformation was applied. *)
Definition note_description (t : TransformationRule) : St mstate unit :=
  on_result (fun r =>
    if negb (String.eqb (description t) "")
       && negb (bool_decide (description t ∈ transformations_applied r))
    then add_description (description t) r else r).

(** The inner loop [for i, src_col in enumerate(source_columns)], from
    index [i] on: the values to insert. *)
Fixpoint build_values (transform_map : gmap string TransformationRule)
    (r : row) (i : nat) (cols : list string) : St mstate (list value) :=
  match cols with
  | [] => ret []
  | src_col :: rest =>
      match snd r !! i with
      | None => raise index_error
      | Some v =>
          let* v' :=
            match transform_map !! src_col with
            | Some transform =>
                match _apply_transformation v transform with
                | inl e => lift (modify (log (EvTransformError r e))) ;; raise e
                | inr v' => note_description transform ;; ret v'
                end
            | None => ret v
            end in
          let* vs := build_values transform_map r (S i) rest in
          ret (v' :: vs)
      end
  end.

(** [{source_columns[i]: row[i+1] for i in range(len(source_columns))}]. *)
Fixpoint build_record_data (cols : list string) (vals : list value)
    (acc : gmap string value) : exn + gmap string value :=
  match cols with
  | [] => inr acc
  | c :: cols' =>
      match vals with
      | v :: vals' => build_record_data cols' vals' (<[ c := v ]> acc)
      | [] => inl index_error
      end
  end.

(** The [FailedRecord] the handler builds for a row and its exception. *)
Definition failure_record (src_table : string) (data : gmap string value)
    (r : row) (e : exn) : FailedRecord :=
  {| fr_source_table := src_table; record_id := fst r; record_data := data;
     error_message := exn_msg e; error_type := exn_type e |}.

(** The [except Exception as e] block of the row loop. *)
Definition row_handler (src_table : string) (source_columns : list string)
    (r : row) (e : exn) : St mstate unit :=
  match build_record_data source_columns (snd r) ∅ with
  | inl e' => raise e'
  | inr data => on_result (add_failed (failure_record src_table data r e))
  end.

(** The body of [for row in rows] in [_migrate_batch]. *)
Definition process_row (ht : nat) (src_table tgt_table : string)
    (source_columns target_columns : list string)
    (transform_map : gmap string TransformationRule) (r : row) : St mstate unit :=
  try_except
    (let* values := build_values transform_map r 0 source_columns in
     lift (conn_insert ht r tgt_table target_columns values) ;;
     on_result (fun res => set_migrated (S (records_migrated res)) res))
    (row_handler src_table source_columns r).

(** [_migrate_batch]. *)
Definition _migrate_batch (src_table tgt_table : string)
    (source_columns target_columns : list string)
    (transformations : list TransformationRule)
    (batch_size offset : Z) : St mstate bool :=
  let transform_map := transform_map_of transformations in
  let* hs := the_conn (fun rs => source_conn (snd rs)) in
  let* rows := lift (conn_select hs src_table source_columns batch_size offset) in
  let* ht := the_conn (fun rs => target_conn (snd rs)) in
  for_each (process_row ht src_table tgt_table source_columns target_columns
              transform_map) rows ;;
  ret true.

(** [while offset < total_records: ...; offset += batch_size], for at most
    [fuel] rounds. *)
Fixpoint batch_loop (fuel : nat) (src_table tgt_table : string)
    (source_columns target_columns : list string)
    (transformations : list TransformationRule)
    (batch_size : Z) (total_records : nat) (offset : Z) : St mstate unit :=
  if (offset <? Z.of_nat total_records)%Z then
    match fuel with
    | O => diverge
    | S fuel' =>
        _migrate_batch src_table tgt_table source_columns target_columns
          transformations batch_size offset ;;
        batch_loop fuel' src_table tgt_table source_columns target_columns
          transformations batch_size total_records (offset + batch_size)%Z
    end
  else ret tt.

(** The [try] block of [migrate_table]. *)
Definition migrate_body (fuel : nat) (src_table tgt_table : string)
    (column_mappings : list column_mapping)
    (transformations : list TransformationRule)
    (batch_size : Z) (dry_run : bool) : St mstate unit :=
  lift connect ;;
  let source_columns := map source_column_of column_mappings in
  let target_columns := map target_column_of column_mappings in
  let* hs := the_conn (fun rs => source_conn (snd rs)) in
  let* total_records := lift (conn_count hs src_table) in
  on_result (set_attempted total_records) ;;
  if dry_run then
    on_result (set_status COMPLETED) ;;
    on_result (set_migrated total_records)
  else
    batch_loop fuel src_table tgt_table source_columns target_columns
      transformations batch_size total_records 0 ;;
    let* ht := the_conn (fun rs => target_conn (snd rs)) in
    lift (conn_commit ht) ;;
    let* failed := gets (fun rs => records_failed (fst rs)) in
    on_result (set_status (if Nat.eqb failed 0 then COMPLETED else PARTIAL)).

(** The [except Exception as e] block of [migrate_table]. *)
Definition migrate_handler (e : exn) : St mstate unit :=
  on_result (set_status FAILED) ;;
  on_result (set_error (exn_msg e)) ;;
  let* tc := gets (fun rs => target_conn (snd rs)) in
  match tc with
  | Some h => lift (conn_rollback h)
  | None => ret tt
  end.

(** The [finally] block of [migrate_table]. *)
Definition migrate_finally : St mstate unit :=
  lift disconnect ;;
  modify (fun rs => (fst rs, set_results (results (snd rs) ++ [fst rs]) (snd rs))).

(** [MigrationExecutor.migrate_table]. *)
Definition migrate_table (fuel : nat) (src_table tgt_table : string)
    (column_mappings : list column_mapping)
    (transformations : list TransformationRule)
    (batch_size : Z) (dry_run : bool) : St state MigrationResult :=
  fun st =>
    let result :=
      {| source_table := src_table; target_table := tgt_table;
         status := IN_PROGRESS; records_attempted := 0; records_migrated := 0;
         records_failed := 0; failed_records := []; result_error := None;
         transformations_applied := [] |} in
    match
      try_finally
        (try_except
           (migrate_body fuel src_table tgt_table column_mappings
              transformations batch_size dry_run)
           migrate_handler)
        migrate_finally
        (result, set_is_dry_run dry_run st)
    with
    | (Done _, (r, st')) => (Done r, st')
    | (Raised e, (_, st')) => (Raised e, st')
    | (Diverged, (_, st')) => (Diverged, st')
    end.

(** [MigrationExecutor.rollback_migration]; the handler prints and returns
    False. *)
Definition rollback_migration (tgt_table : string) : St state bool :=
  try_finally
    (try_except
       (connect ;;
        let* ht := the_conn target_conn in
        conn_delete_all ht tgt_table ;;
        conn_commit ht ;;
        ret true)
       (fun _ => ret false))
    disconnect.

(** What [detect_split_candidates] reports, and its analysis of the sampled
    values (delimiter counts and average number of parts). *)
Variable split_report : Type.
Variable analyse_samples : string -> list value -> option split_report.

(** [AdvancedMigrationExecutor.detect_split_candidates]. *)
Definition detect_split_candidates (src_table column : string)
  : St state (option split_report) :=
  connect ;;
  try_finally
    (let* hs := the_conn source_conn in
     let* samples := conn_samples hs src_table column in
     match samples with
     | [] => ret None
     | _ => ret (analyse_samples column samples)
     end)
    disconnect.

(** *** Reading the log *)

Definition is_insert (ev : event) : bool :=
  match ev with EvInsert _ _ _ _ => true | _ => false end.

(** The number of INSERT statements issued. *)
Definition inserts (tr : list event) : nat := length (List.filter is_insert tr).

(** The connections committed, in order, and those rolled back. *)
Definition committed (tr : list event) : list nat :=
  flat_map (fun ev => match ev with EvCommit h => [h] | _ => [] end) tr.
Definition rolled_back (tr : list event) : list nat :=
  flat_map (fun ev => match ev with EvRollback h => [h] | _ => [] end) tr.

Definition commits (tr : list event) : nat := length (committed tr).
Definition rollbacks (tr : list event) : nat := length (rolled_back tr).

(** The rows fetched from the source, in order. *)
Definition fetched_rows (tr : list event) : list row :=
  flat_map (fun ev => match ev with EvFetch _ rows => rows | _ => [] end) tr.

(** How the migration of each row ended, in order: an INSERT that went
    through ([None]), or the exception of the INSERT or of a transformation. *)
Definition row_outcomes (tr : list event) : list (row * option exn) :=
  flat_map (fun ev =>
              match ev with
              | EvInsert _ r _ err => [(r, err)]
              | EvTransformError r e => [(r, Some e)]
              | _ => []
              end) tr.

Definition row_failures (tr : list event) : list (row * exn) :=
  flat_map (fun ro => match snd ro with Some e => [(fst ro, e)] | None => [] end)
           (row_outcomes tr).

Definition ok_inserts (tr : list event) : nat :=
  length (List.filter (fun ro => match snd ro with None => true | Some _ => false end)
                      (row_outcomes tr)).

(** The events of a batch: fetches, INSERTs and failed transformations. *)
Definition is_batch_event (ev : event) : bool :=
  match ev with
  | EvFetch _ _ | EvInsert _ _ _ _ | EvTransformError _ _ => true
  | _ => false
  end.

(** The [record_data] of a row (empty when the row is too short to have
    one). *)
Definition data_of (cols : list string) (r : row) : gmap string value :=
  match build_record_data cols (snd r) ∅ with
  | inr data => data
  | inl _ => ∅
  end.

Definition failure_of (src_table : string) (cols : list string)
    (f : row * exn) : FailedRecord :=
  failure_record src_table (data_of cols (fst f)) (fst f) (snd f).

(** *** Steps that neither open, close, commit nor roll back *)

Definition conn_shape (c : conn) : string * bool := (conn_path c, conn_open c).

(** [quiet st st' tr]: from [st] to [st'] only batch events [tr] happened;
    the files, the executor's attributes and the open connections are the
    same (only uncommitted content may differ). *)
Record quiet (st st' : state) (tr : list event) : Prop := Quiet {
  q_trace : trace st' = trace st ++ tr;
  q_files : files st' = files st;
  q_source : source_conn st' = source_conn st;
  q_target : target_conn st' = target_conn st;
  q_results : results st' = results st;
  q_dry : is_dry_run st' = is_dry_run st;
  q_conns : map conn_shape (conns st') = map conn_shape (conns st);
  q_events : forallb is_batch_event tr = true
}.

Lemma quiet_refl st : quiet st st [].
Proof. constructor; try reflexivity. simpl. rewrite app_nil_r. reflexivity. Qed.

Lemma quiet_trans st1 st2 st3 tr1 tr2 :
  quiet st1 st2 tr1 -> quiet st2 st3 tr2 -> quiet st1 st3 (tr1 ++ tr2).
Proof.
  intros [] []. constructor; try congruence.
  - rewrite app_assoc. congruence.
  - rewrite forallb_app. apply andb_true_iff. auto.
Qed.

Lemma alter_shape (f : conn -> conn) h (l : list conn) :
  (forall c, conn_shape (f c) = conn_shape c) ->
  map conn_shape (alter f h l) = map conn_shape l.
Proof.
  intros Hf. revert h. induction l as [|c l IH]; intros [|h]; simpl;
    try reflexivity.
  - rewrite Hf. reflexivity.
  - f_equal. apply IH.
Qed.

Lemma quiet_log ev st :
  is_batch_event ev = true -> quiet st (log ev st) [ev].
Proof.
  intros Hev. constructor; try reflexivity. simpl. rewrite Hev. reflexivity.
Qed.

Lemma quiet_set_txn h t st : quiet st (set_txn h t st) [].
Proof.
  constructor; try reflexivity.
  - simpl. rewrite app_nil_r. reflexivity.
  - simpl. apply alter_shape. reflexivity.
Qed.

Lemma quiet_insert_ok h t ev st :
  is_batch_event ev = true -> quiet st (log ev (set_txn h t st)) [ev].
Proof.
  intros Hev. change [ev] with ([] ++ [ev]).
  eapply quiet_trans; [apply quiet_set_txn | apply quiet_log, Hev].
Qed.

(** The counters of the result that the row loop maintains. *)
Record acct (src_table : string) (cols : list string)
    (res res' : MigrationResult) (tr : list event) : Prop := Acct {
  a_records : failed_records res'
              = failed_records res
                ++ map (failure_of src_table cols) (row_failures tr);
  a_failed : records_failed res' = records_failed res + length (row_failures tr);
  a_migrated : records_migrated res' = records_migrated res + ok_inserts tr;
  a_attempted : records_attempted res' = records_attempted res
}.

Lemma row_outcomes_app tr1 tr2 :
  row_outcomes (tr1 ++ tr2) = row_outcomes tr1 ++ row_outcomes tr2.
Proof. apply flat_map_app. Qed.

Lemma row_failures_app tr1 tr2 :
  row_failures (tr1 ++ tr2) = row_failures tr1 ++ row_failures tr2.
Proof. unfold row_failures. rewrite row_outcomes_app. apply flat_map_app. Qed.

Lemma ok_inserts_app tr1 tr2 :
  ok_inserts (tr1 ++ tr2) = ok_inserts tr1 + ok_inserts tr2.
Proof.
  unfold ok_inserts. rewrite row_outcomes_app, List.filter_app, length_app.
  reflexivity.
Qed.

Lemma fetched_rows_app tr1 tr2 :
  fetched_rows (tr1 ++ tr2) = fetched_rows tr1 ++ fetched_rows tr2.
Proof. apply flat_map_app. Qed.

Lemma acct_refl src_table cols res : acct src_table cols res res [].
Proof. constructor; simpl; rewrite ?app_nil_r; auto. Qed.

Lemma acct_trans src_table cols r1 r2 r3 tr1 tr2 :
  acct src_table cols r1 r2 tr1 -> acct src_table cols r2 r3 tr2 ->
  acct src_table cols r1 r3 (tr1 ++ tr2).
Proof.
  intros [] []. constructor.
  - rewrite row_failures_app, map_app, app_assoc. congruence.
  - rewrite row_failures_app, length_app. lia.
  - rewrite ok_inserts_app. lia.
  - congruence.
Qed.

(** Fields of the result that [note_description] leaves alone. *)
Definition same_counts (res res' : MigrationResult) : Prop :=
  failed_records res' = failed_records res /\
  records_failed res' = records_failed res /\
  records_migrated res' = records_migrated res /\
  records_attempted res' = records_attempted res.

Lemma build_record_data_short cols vals acc :
  length vals < length cols -> exists e, build_record_data cols vals acc = inl e.
Proof.
  revert vals acc. induction cols as [|c cols IH]; intros vals acc Hlen; simpl in *.
  - lia.
  - destruct vals as [|v vals]; [eauto|]. apply IH. simpl in Hlen. lia.
Qed.

(** [build_values] either yields the values without touching SQLite, or
    raises: the exception of a transformation, logged, or an IndexError on
    a row that is too short. *)
Lemma same_counts_refl res : same_counts res res.
Proof. repeat split. Qed.

Lemma same_counts_trans r1 r2 r3 :
  same_counts r1 r2 -> same_counts r2 r3 -> same_counts r1 r3.
Proof. intros (? & ? & ? & ?) (? & ? & ? & ?). repeat split; congruence. Qed.

Lemma build_values_spec tm r cols : forall i res st,
  exists out res' st' tr,
    build_values tm r i cols (res, st) = (out, (res', st')) /\
    quiet st st' tr /\ same_counts res res' /\
    match out with
    | Done _ => tr = []
    | Raised e =>
        tr = [EvTransformError r e] \/
        (tr = [] /\ length (snd r) < i + length cols)
    | Diverged => False
    end.
Proof.
  induction cols as [|c cols IH]; intros i res st; simpl.
  - exists (Done []), res, st, [].
    split; [reflexivity|]. split; [apply quiet_refl|].
    split; [apply same_counts_refl | reflexivity].
  - destruct (snd r !! i) as [v|] eqn:Ev.
    + assert (Hi : i < length (snd r)) by (eapply lookup_lt_Some; eauto).
      unfold bind at 1.
      destruct (tm !! c) as [t|].
      * destruct (_apply_transformation v t) as [e|v'].
        -- unfold bind, lift, modify, raise; simpl.
           exists (Raised e), res, (log (EvTransformError r e) st),
             [EvTransformError r e].
           split; [reflexivity|]. split; [apply quiet_log; reflexivity|].
           split; [apply same_counts_refl | left; reflexivity].
        -- unfold bind at 1, note_description, on_result, modify, ret; simpl.
           set (res1 := if _ && _ then add_description (description t) res else res).
           assert (Hsame : same_counts res res1).
           { subst res1. destruct (_ && _); repeat split. }
           destruct (IH (S i) res1 st) as (out & res' & st' & tr & E & Hq & Hc & Hout).
           unfold bind. rewrite E.
           destruct out as [vs|e|]; [| |destruct Hout].
           ++ exists (Done (v' :: vs)), res', st', tr.
              split; [reflexivity|]. split; [exact Hq|].
              split; [eapply same_counts_trans; eassumption | exact Hout].
           ++ exists (Raised e), res', st', tr.
              split; [reflexivity|]. split; [exact Hq|].
              split; [eapply same_counts_trans; eassumption|].
              destruct Hout as [? | [? ?]];
                [left; assumption | right; split; [assumption | lia]].
      * unfold ret at 1.
        destruct (IH (S i) res st) as (out & res' & st' & tr & E & Hq & Hc & Hout).
        unfold bind. rewrite E.
        destruct out as [vs|e|]; [| |destruct Hout].
        -- exists (Done (v :: vs)), res', st', tr. auto.
        -- exists (Raised e), res', st', tr.
           split; [reflexivity|]. split; [exact Hq|]. split; [exact Hc|].
           destruct Hout as [? | [? ?]];
             [left; assumption | right; split; [assumption | lia]].
    + exists (Raised index_error), res, st, []. unfold raise.
      split; [reflexivity|]. split; [apply quiet_refl|].
      split; [apply same_counts_refl|].
      right. split; [reflexivity|]. apply lookup_ge_None in Ev. lia.
Qed.

Lemma row_handler_spec src_table cols r e res st :
  exists out res',
    row_handler src_table cols r e (res, st) = (out, (res', st)) /\
    match out with
    | Done _ =>
        res' = add_failed (failure_of src_table cols (r, e)) res /\
        length cols <= length (snd r)
    | Raised _ => res' = res
    | Diverged => False
    end.
Proof.
  unfold row_handler, failure_of, data_of. simpl.
  destruct (build_record_data cols (snd r) ∅) as [e'|data] eqn:E.
  - exists (Raised e'), res. split; reflexivity.
  - exists (Done tt), (add_failed (failure_record src_table data r e) res).
    split; [reflexivity|]. split; [reflexivity|].
    destruct (Nat.le_gt_cases (length cols) (length (snd r))) as [|Hlt]; [assumption|].
    destruct (build_record_data_short cols (snd r) ∅ Hlt) as [e' E'].
    congruence.
Qed.

Lemma acct_failure src_table cols res res1 tr r e :
  row_outcomes tr = [(r, Some e)] -> same_counts res res1 ->
  acct src_table cols res (add_failed (failure_of src_table cols (r, e)) res1) tr.
Proof.
  intros Htr (H1 & H2 & H3 & H4).
  constructor; unfold row_failures, ok_inserts; rewrite ?Htr; simpl;
    rewrite ?H1, ?H2, ?H3, ?H4; try reflexivity; lia.
Qed.

Lemma acct_success src_table cols res res1 tr r :
  row_outcomes tr = [(r, None)] -> same_counts res res1 ->
  acct src_table cols res (set_migrated (S (records_migrated res1)) res1) tr.
Proof.
  intros Htr (H1 & H2 & H3 & H4).
  constructor; unfold row_failures, ok_inserts; rewrite ?Htr; simpl;
    rewrite ?H1, ?H2, ?H3, ?H4, ?app_nil_r; try reflexivity; lia.
Qed.

(** One row: either it is accounted for (migrated, or recorded as failed),
    with one INSERT attempt or one failed transformation in the log, or the
    handler itself raised. *)
Lemma process_row_spec ht src_table tgt_table scols tcols tm r res st :
  exists out res' st' tr,
    process_row ht src_table tgt_table scols tcols tm r (res, st)
      = (out, (res', st')) /\
    quiet st st' tr /\ fetched_rows tr = [] /\
    match out with
    | Done _ => map fst (row_outcomes tr) = [r] /\ acct src_table scols res res' tr
    | Raised _ => True
    | Diverged => False
    end.
Proof.
  unfold process_row, try_except.
  destruct (build_values_spec tm r scols 0 res st)
    as (out & res1 & st1 & tr1 & E & Hq & Hc & Hout).
  unfold bind at 1. rewrite E.
  destruct out as [values|e|]; [| |destruct Hout].
  - subst tr1. unfold bind, lift, conn_insert, on_result, modify. simpl.
    destruct (conn_view st1 ht) as [d|].
    + destruct (sql_insert d tgt_table tcols values) as [e|d'].
      * destruct (row_handler_spec src_table scols r e res1
                    (log (EvInsert ht r values (Some e)) st1))
          as (out & res' & -> & Hh).
        exists out, res', (log (EvInsert ht r values (Some e)) st1),
          ([] ++ [EvInsert ht r values (Some e)]).
        split; [reflexivity|].
        split; [eapply quiet_trans; [exact Hq | apply quiet_log; reflexivity]|].
        split; [reflexivity|].
        destruct out; [|exact I|exact Hh]. destruct Hh as [-> _].
        split; [reflexivity|].
        apply (acct_failure _ _ _ _ _ r e); [reflexivity | exact Hc].
      * eexists (Done tt), _, _, ([] ++ [EvInsert ht r values None]).
        split; [reflexivity|].
        split; [eapply quiet_trans; [exact Hq | apply quiet_insert_ok; reflexivity]|].
        split; [reflexivity|]. split; [reflexivity|].
        apply (acct_success _ _ _ _ _ r); [reflexivity | exact Hc].
    + destruct (row_handler_spec src_table scols r closed_database res1
                  (log (EvInsert ht r values (Some closed_database)) st1))
        as (out & res' & -> & Hh).
      exists out, res', (log (EvInsert ht r values (Some closed_database)) st1),
        ([] ++ [EvInsert ht r values (Some closed_database)]).
      split; [reflexivity|].
      split; [eapply quiet_trans; [exact Hq | apply quiet_log; reflexivity]|].
      split; [reflexivity|].
      destruct out; [|exact I|exact Hh]. destruct Hh as [-> _].
      split; [reflexivity|].
      apply (acct_failure _ _ _ _ _ r closed_database); [reflexivity | exact Hc].
  - destruct (row_handler_spec src_table scols r e res1 st1)
      as (out & res' & -> & Hh).
    exists out, res', st1, tr1.
    split; [reflexivity|]. split; [exact Hq|].
    destruct Hout as [-> | [-> Hshort]].
    + split; [reflexivity|].
      destruct out; [|exact I|exact Hh]. destruct Hh as [-> _].
      split; [reflexivity|].
      apply (acct_failure _ _ _ _ _ r e); [reflexivity | exact Hc].
    + split; [reflexivity|].
      destruct out; [|exact I|exact Hh]. destruct Hh as [_ Hlen]. simpl in Hshort. lia.
Qed.

(** The row loop of a batch. *)
Lemma process_rows_spec ht src_table tgt_table scols tcols tm rows : forall res st,
  exists out res' st' tr,
    for_each (process_row ht src_table tgt_table scols tcols tm) rows (res, st)
      = (out, (res', st')) /\
    quiet st st' tr /\ fetched_rows tr = [] /\
    match out with
    | Done _ => map fst (row_outcomes tr) = rows /\ acct src_table scols res res' tr
    | Raised _ => True
    | Diverged => False
    end.
Proof.
  induction rows as [|r rows IH]; intros res st; simpl.
  - exists (Done tt), res, st, [].
    split; [reflexivity|]. split; [apply quiet_refl|]. split; [reflexivity|].
    split; [reflexivity | apply acct_refl].
  - destruct (process_row_spec ht src_table tgt_table scols tcols tm r res st)
      as (out1 & res1 & st1 & tr1 & E1 & Hq1 & Hf1 & Hout1).
    unfold bind. rewrite E1.
    destruct out1 as [[]|e|]; [| |destruct Hout1].
    + destruct (IH res1 st1) as (out2 & res2 & st2 & tr2 & E2 & Hq2 & Hf2 & Hout2).
      rewrite E2. exists out2, res2, st2, (tr1 ++ tr2).
      split; [reflexivity|]. split; [eapply quiet_trans; eassumption|].
      split; [rewrite fetched_rows_app, Hf1, Hf2; reflexivity|].
      destruct out2; [|exact I|exact Hout2].
      destruct Hout1 as [Hr1 Ha1]. destruct Hout2 as [Hr2 Ha2]. split.
      * rewrite row_outcomes_app, map_app, Hr1, Hr2. reflexivity.
      * eapply acct_trans; eassumption.
    + exists (Raised e), res1, st1, tr1. auto.
Qed.

Lemma acct_fetch src_table cols res h rows :
  acct src_table cols res res [EvFetch h rows].
Proof. constructor; simpl; rewrite ?app_nil_r; auto. Qed.

(** One batch: every fetched row is accounted for, in order, unless an
    exception escapes. *)
Lemma migrate_batch_spec src_table tgt_table scols tcols ts batch_size offset res st :
  exists out res' st' tr,
    _migrate_batch src_table tgt_table scols tcols ts batch_size offset (res, st)
      = (out, (res', st')) /\
    quiet st st' tr /\
    match out with
    | Done _ =>
        map fst (row_outcomes tr) = fetched_rows tr /\
        acct src_table scols res res' tr
    | Raised _ => True
    | Diverged => False
    end.
Proof.
  unfold _migrate_batch, the_conn, bind at 1. simpl.
  destruct (source_conn st) as [hs|].
  2: { exists (Raised attribute_error), res, st, [].
       split; [reflexivity|]. split; [apply quiet_refl | exact I]. }
  unfold bind at 1, lift, conn_select. simpl.
  destruct (conn_view st hs) as [d|].
  2: { exists (Raised closed_database), res, st, [].
       split; [reflexivity|]. split; [apply quiet_refl | exact I]. }
  destruct (sql_select d src_table scols batch_size offset) as [e|rows].
  { exists (Raised e), res, st, [].
    split; [reflexivity|]. split; [apply quiet_refl | exact I]. }
  unfold bind at 1. simpl.
  destruct (target_conn st) as [ht|].
  2: { exists (Raised attribute_error), res, (log (EvFetch hs rows) st),
         [EvFetch hs rows].
       split; [reflexivity|]. split; [apply quiet_log; reflexivity | exact I]. }
  destruct (process_rows_spec ht src_table tgt_table scols tcols
              (transform_map_of ts) rows res (log (EvFetch hs rows) st))
    as (out & res' & st' & tr & E & Hq & Hf & Hout).
  unfold bind. rewrite E.
  destruct out as [[]|e|]; [| |destruct Hout].
  - exists (Done true), res', st', ([EvFetch hs rows] ++ tr).
    split; [reflexivity|].
    split; [eapply quiet_trans; [apply quiet_log; reflexivity | exact Hq]|].
    destruct Hout as [Hr Ha]. split.
    + rewrite row_outcomes_app, fetched_rows_app, Hf. simpl.
      rewrite !app_nil_r. exact Hr.
    + eapply acct_trans; [apply acct_fetch | exact Ha].
  - exists (Raised e), res', st', ([EvFetch hs rows] ++ tr).
    split; [reflexivity|].
    split; [eapply quiet_trans; [apply quiet_log; reflexivity | exact Hq] | exact I].
Qed.

(** The batch loop.  With a positive batch size it ends within as many
    rounds as there are records left. *)
Lemma batch_loop_spec src_table tgt_table scols tcols ts batch_size total fuel :
  forall offset res st,
  exists out res' st' tr,
    batch_loop fuel src_table tgt_table scols tcols ts batch_size total offset
      (res, st) = (out, (res', st')) /\
    quiet st st' tr /\
    match out with
    | Done _ =>
        map fst (row_outcomes tr) = fetched_rows tr /\
        acct src_table scols res res' tr
    | Raised _ => True
    | Diverged =>
        (0 < batch_size)%Z -> (Z.of_nat total - offset <= Z.of_nat fuel)%Z -> False
    end.
Proof.
  induction fuel as [|fuel IH]; intros offset res st; simpl.
  - destruct (Z.ltb_spec offset (Z.of_nat total)).
    + exists Diverged, res, st, []. split; [reflexivity|].
      split; [apply quiet_refl|]. lia.
    + exists (Done tt), res, st, []. split; [reflexivity|].
      split; [apply quiet_refl|]. split; [reflexivity | apply acct_refl].
  - destruct (Z.ltb_spec offset (Z.of_nat total)).
    + destruct (migrate_batch_spec src_table tgt_table scols tcols ts
                  batch_size offset res st)
        as (out1 & res1 & st1 & tr1 & E1 & Hq1 & Hout1).
      unfold bind. rewrite E1.
      destruct out1 as [b|e|]; [| |destruct Hout1].
      * destruct (IH (offset + batch_size)%Z res1 st1)
          as (out2 & res2 & st2 & tr2 & E2 & Hq2 & Hout2).
        rewrite E2. exists out2, res2, st2, (tr1 ++ tr2).
        split; [reflexivity|]. split; [eapply quiet_trans; eassumption|].
        destruct out2 as [[]|e|].
        -- destruct Hout1 as [Hr1 Ha1]. destruct Hout2 as [Hr2 Ha2]. split.
           ++ rewrite row_outcomes_app, fetched_rows_app, map_app, Hr1, Hr2.
              reflexivity.
           ++ eapply acct_trans; eassumption.
        -- exact I.
        -- intros Hb Hfuel. apply Hout2; lia.
      * exists (Raised e), res1, st1, tr1. auto.
    + exists (Done tt), res, st, []. split; [reflexivity|].
      split; [apply quiet_refl|]. split; [reflexivity | apply acct_refl].
Qed.

(** *** Connections: opening, committing, rolling back, closing *)

Definition open_failed : exn :=
  Exn "OperationalError" "unable to open database file".

(** [connect] opens the source, then the target; it stops at the first file
    that cannot be opened. *)
Lemma connect_spec st :
  let hs := length (conns st) in
  (files st !! source_db_path = None /\
   connect st = (Raised open_failed, st)) \/
  (is_Some (files st !! source_db_path) /\
   files st !! target_db_path = None /\
   exists st',
     connect st = (Raised open_failed, st') /\
     files st' = files st /\
     conns st' = conns st ++ [Conn source_db_path true None] /\
     trace st' = trace st ++ [EvConnect hs] /\
     source_conn st' = Some hs /\ target_conn st' = target_conn st /\
     results st' = results st /\ is_dry_run st' = is_dry_run st) \/
  (is_Some (files st !! source_db_path) /\
   is_Some (files st !! target_db_path) /\
   exists st',
     connect st = (Done tt, st') /\
     files st' = files st /\
     conns st' = conns st ++ [Conn source_db_path true None;
                              Conn target_db_path true None] /\
     trace st' = trace st ++ [EvConnect hs; EvConnect (S hs)] /\
     source_conn st' = Some hs /\ target_conn st' = Some (S hs) /\
     results st' = results st /\ is_dry_run st' = is_dry_run st).
Proof.
  intros hs. unfold connect, bind, sqlite3_connect, modify. simpl.
  destruct (files st !! source_db_path) as [ds|] eqn:Es.
  2: { left. split; reflexivity. }
  right. simpl.
  destruct (files st !! target_db_path) as [dt|] eqn:Et.
  - right. split; [eauto|]. split; [eauto|]. eexists. split; [reflexivity|].
    simpl. rewrite length_app, <- !app_assoc. simpl.
    replace (length (conns st) + 1) with (S (length (conns st))) by lia.
    repeat split; reflexivity.
  - left. split; [eauto|]. split; [reflexivity|]. eexists.
    split; [reflexivity|]. simpl. repeat split; reflexivity.
Qed.

Lemma shape_lookup (l : list conn) h p b :
  map conn_shape l !! h = Some (p, b) ->
  exists c, l !! h = Some c /\ conn_path c = p /\ conn_open c = b.
Proof.
  rewrite list_lookup_fmap. destruct (l !! h) as [c|]; simpl; [|discriminate].
  intros [= <- <-]. eauto.
Qed.

(** A step that keeps the executor's attributes and which connections are
    open, and adds [tr] to the log. *)
Record calm (st st' : state) (tr : list event) : Prop := Calm {
  c_trace : trace st' = trace st ++ tr;
  c_source : source_conn st' = source_conn st;
  c_target : target_conn st' = target_conn st;
  c_results : results st' = results st;
  c_dry : is_dry_run st' = is_dry_run st;
  c_conns : map conn_shape (conns st') = map conn_shape (conns st)
}.

Lemma quiet_calm st st' tr : quiet st st' tr -> calm st st' tr.
Proof. intros []. constructor; assumption. Qed.

Lemma calm_refl st : calm st st [].
Proof. apply quiet_calm, quiet_refl. Qed.

Lemma calm_trans st1 st2 st3 tr1 tr2 :
  calm st1 st2 tr1 -> calm st2 st3 tr2 -> calm st1 st3 (tr1 ++ tr2).
Proof.
  intros [] []. constructor; try congruence. rewrite app_assoc. congruence.
Qed.

Lemma conn_rollback_open st h p :
  map conn_shape (conns st) !! h = Some (p, true) ->
  exists st', conn_rollback h st = (Done tt, st') /\
              calm st st' [EvRollback h] /\ files st' = files st.
Proof.
  intros Hh. apply shape_lookup in Hh as (c & Hc & _ & Hopen).
  unfold conn_rollback. rewrite Hc, Hopen. eexists. split; [reflexivity|].
  split; [|reflexivity]. constructor; try reflexivity.
  simpl. apply alter_shape. reflexivity.
Qed.

Lemma conn_rollback_any st h :
  exists out st' tr,
    conn_rollback h st = (out, st') /\ calm st st' tr /\ files st' = files st /\
    out <> Diverged /\ (tr = [] \/ tr = [EvRollback h]).
Proof.
  unfold conn_rollback. destruct (conns st !! h) as [c|].
  - destruct (conn_open c).
    + eexists _, _, [EvRollback h]. split; [reflexivity|].
      split; [|auto]. constructor; try reflexivity.
      simpl. apply alter_shape. reflexivity.
    + eexists _, _, []. split; [reflexivity|].
      split; [apply calm_refl|]. auto.
  - eexists _, _, []. split; [reflexivity|]. split; [apply calm_refl|]. auto.
Qed.

Lemma conn_commit_open st h p :
  map conn_shape (conns st) !! h = Some (p, true) ->
  exists st', conn_commit h st = (Done tt, st') /\ calm st st' [EvCommit h].
Proof.
  intros Hh. apply shape_lookup in Hh as (c & Hc & _ & Hopen).
  unfold conn_commit. rewrite Hc, Hopen. eexists. split; [reflexivity|].
  constructor; try (destruct (conn_txn c); reflexivity).
  simpl. rewrite alter_shape by reflexivity. destruct (conn_txn c); reflexivity.
Qed.

(** [disconnect] closes the two connections the executor holds. *)
Definition close_at (h : option nat) (l : list conn) : list conn :=
  match h with
  | Some h => alter (fun c => Conn (conn_path c) false None) h l
  | None => l
  end.

Definition close_events (h : option nat) : list event :=
  match h with Some h => [EvClose h] | None => [] end.

Lemma disconnect_spec st :
  exists st',
    disconnect st = (Done tt, st') /\
    files st' = files st /\
    conns st' = close_at (target_conn st) (close_at (source_conn st) (conns st)) /\
    trace st' = trace st ++ close_events (source_conn st)
                         ++ close_events (target_conn st) /\
    source_conn st' = source_conn st /\ target_conn st' = target_conn st /\
    results st' = results st /\ is_dry_run st' = is_dry_run st.
Proof.
  unfold disconnect, bind, gets, conn_close, ret. simpl.
  destruct (source_conn st) as [hs|] eqn:Es; simpl;
    rewrite ?Es; destruct (target_conn st) as [ht|] eqn:Et; simpl;
    eexists; (split; [reflexivity|]); simpl;
    rewrite ?app_nil_r, <- ?app_assoc; repeat split;
    rewrite ?Es, ?Et; reflexivity.
Qed.

(** *** The [try]/[except] of [migrate_table], case by case *)

(** The [except] block: FAILED, the message, and a rollback of whatever
    [self.target_conn] holds. *)
Lemma migrate_handler_spec e r st :
  exists out st' tr,
    migrate_handler e (r, st)
      = (out, (set_error (exn_msg e) (set_status FAILED r), st')) /\
    calm st st' tr /\ files st' = files st /\ out <> Diverged /\
    match target_conn st with
    | None => out = Done tt /\ tr = []
    | Some h =>
        (tr = [] \/ tr = [EvRollback h]) /\
        (forall p, map conn_shape (conns st) !! h = Some (p, true) ->
                   out = Done tt /\ tr = [EvRollback h])
    end.
Proof.
  unfold migrate_handler, bind, on_result, modify, gets, lift. cbn [fst snd].
  destruct (target_conn st) as [h|] eqn:Et; cbn [fst snd].
  - destruct (conn_rollback_any st h) as (out & st' & tr & E & Hc & Hf & Hd & Htr).
    rewrite E. exists out, st', tr.
    split; [reflexivity|]. split; [exact Hc|]. split; [exact Hf|].
    split; [exact Hd|]. split; [exact Htr|]. intros p Hp.
    destruct (conn_rollback_open st h p Hp) as (st'' & E' & Hc' & _).
    rewrite E' in E. injection E as <- <-. split; [reflexivity|].
    destruct Hc as [Ht _ _ _ _ _], Hc' as [Ht' _ _ _ _ _].
    rewrite Ht' in Ht. apply app_inv_head in Ht. congruence.
  - exists (Done tt), st, []. split; [reflexivity|].
    split; [apply calm_refl|]. repeat split; discriminate.
Qed.

(** [connected st st1]: since [st], [connect] has opened the source and the
    target, the executor holds both, and both are still open in [st1]. *)
Record connected (st st1 : state) : Prop := Connected {
  cn_conns : map conn_shape (conns st1)
             = map conn_shape (conns st)
               ++ [(source_db_path, true); (target_db_path, true)];
  cn_source : source_conn st1 = Some (length (conns st));
  cn_target : target_conn st1 = Some (S (length (conns st)))
}.

(** Nothing was migrated and nothing failed. *)
Definition zero_counts (r : MigrationResult) : Prop :=
  failed_records r = [] /\ records_failed r = 0 /\ records_migrated r = 0.

(** How one attempt (the [try] with its [except]) of [migrate_table] on
    state [st] can end: with which outcome, result, state and new events. *)
Inductive attempt (st : state) (src_table : string) (scols : list string)
    (batch_size : Z) (fuel : nat) (dry_run : bool)
  : outcome unit -> MigrationResult -> state -> list event -> Prop :=
  | AttemptNoConnect out r st1 tr_c tr_h :
      (files st !! source_db_path = None \/ files st !! target_db_path = None) ->
      ((tr_c = [] /\
        map conn_shape (conns st1) = map conn_shape (conns st) /\
        source_conn st1 = source_conn st) \/
       (tr_c = [EvConnect (length (conns st))] /\
        map conn_shape (conns st1)
          = map conn_shape (conns st) ++ [(source_db_path, true)] /\
        source_conn st1 = Some (length (conns st)))) ->
      target_conn st1 = target_conn st ->
      files st1 = files st ->
      status r = FAILED ->
      zero_counts r ->
      out <> Diverged ->
      match target_conn st with
      | None => out = Done tt /\ tr_h = []
      | Some h => tr_h = [] \/ tr_h = [EvRollback h]
      end ->
      attempt st src_table scols batch_size fuel dry_run out r st1 (tr_c ++ tr_h)
  | AttemptFailed ds r st1 tr_b :
      files st !! source_db_path = Some ds ->
      is_Some (files st !! target_db_path) ->
      connected st st1 ->
      forallb is_batch_event tr_b = true ->
      (dry_run = true -> exists e, sql_count ds src_table = inl e) ->
      ((exists e, sql_count ds src_table = inl e) -> tr_b = [] /\ zero_counts r) ->
      files st1 = files st ->
      status r = FAILED ->
      attempt st src_table scols batch_size fuel dry_run (Done tt) r st1
        ([EvConnect (length (conns st)); EvConnect (S (length (conns st)))]
           ++ tr_b ++ [EvRollback (S (length (conns st)))])
  | AttemptDry ds n r st1 :
      files st !! source_db_path = Some ds ->
      is_Some (files st !! target_db_path) ->
      connected st st1 ->
      dry_run = true ->
      sql_count ds src_table = inr n ->
      files st1 = files st ->
      status r = COMPLETED -> records_attempted r = n ->
      records_migrated r = n -> records_failed r = 0 -> failed_records r = [] ->
      attempt st src_table scols batch_size fuel dry_run (Done tt) r st1
        [EvConnect (length (conns st)); EvConnect (S (length (conns st)))]
  | AttemptDone ds n r st1 tr_b :
      files st !! source_db_path = Some ds ->
      is_Some (files st !! target_db_path) ->
      connected st st1 ->
      dry_run = false ->
      sql_count ds src_table = inr n ->
      forallb is_batch_event tr_b = true ->
      map fst (row_outcomes tr_b) = fetched_rows tr_b ->
      failed_records r = map (failure_of src_table scols) (row_failures tr_b) ->
      records_failed r = length (row_failures tr_b) ->
      records_migrated r = ok_inserts tr_b ->
      records_attempted r = n ->
      status r = (if Nat.eqb (records_failed r) 0 then COMPLETED else PARTIAL) ->
      attempt st src_table scols batch_size fuel dry_run (Done tt) r st1
        ([EvConnect (length (conns st)); EvConnect (S (length (conns st)))]
           ++ tr_b ++ [EvCommit (S (length (conns st)))])
  | AttemptDiverged ds n r st1 tr :
      files st !! source_db_path = Some ds ->
      dry_run = false ->
      sql_count ds src_table = inr n ->
      ((0 < batch_size)%Z -> n <= fuel -> False) ->
      attempt st src_table scols batch_size fuel dry_run Diverged r st1 tr.

(** The result object [migrate_table] starts from. *)
Definition fresh_result (src_table tgt_table : string) : MigrationResult :=
  {| source_table := src_table; target_table := tgt_table;
     status := IN_PROGRESS; records_attempted := 0; records_migrated := 0;
     records_failed := 0; failed_records := []; result_error := None;
     transformations_applied := [] |}.

Lemma lookup_shape_source (l : list (string * bool)) x y :
  (l ++ [x; y]) !! length l = Some x.
Proof. rewrite lookup_app_r, Nat.sub_diag by lia. reflexivity. Qed.

Lemma lookup_shape_target (l : list (string * bool)) x y :
  (l ++ [x; y]) !! S (length l) = Some y.
Proof.
  rewrite lookup_app_r by lia.
  replace (S (length l) - length l) with 1 by lia. reflexivity.
Qed.

Lemma calm_connected st st1 st2 tr :
  connected st st1 -> calm st1 st2 tr -> connected st st2.
Proof. intros [] []. constructor; congruence. Qed.

Lemma connected_target_open st st1 :
  connected st st1 ->
  map conn_shape (conns st1) !! S (length (conns st)) = Some (target_db_path, true).
Proof.
  intros []. rewrite cn_conns0.
  rewrite <- (length_map conn_shape (conns st)). apply lookup_shape_target.
Qed.

Lemma attempt_spec fuel src_table tgt_table cms ts batch_size dry_run st :
  exists out r1 st1 tr,
    try_except
      (migrate_body fuel src_table tgt_table cms ts batch_size dry_run)
      migrate_handler
      (fresh_result src_table tgt_table, set_is_dry_run dry_run st)
      = (out, (r1, st1)) /\
    trace st1 = trace st ++ tr /\ results st1 = results st /\
    attempt st src_table (map source_column_of cms) batch_size fuel dry_run
            out r1 st1 tr.
Proof.
  set (r0 := fresh_result src_table tgt_table).
  set (st0 := set_is_dry_run dry_run st).
  unfold try_except, migrate_body. unfold bind at 1, lift at 1. cbn [fst snd].
  destruct (connect_spec st0)
    as [[Hs E] | [(Hs & Ht & st' & E & Hf & Hcs & Htr & Hsc & Htc & Hrs & _)
                 | (Hs & Ht & st' & E & Hf & Hcs & Htr & Hsc & Htc & Hrs & _)]];
    rewrite E; clear E; subst st0;
    cbn [set_is_dry_run files conns trace source_conn target_conn results] in *.
  - (* the source cannot be opened *)
    destruct (migrate_handler_spec open_failed r0 (set_is_dry_run dry_run st))
      as (out & st1 & tr & Eh & Hc & Hfh & Hd & Hm).
    rewrite Eh. exists out, (set_error (exn_msg open_failed) (set_status FAILED r0)),
      st1, ([] ++ tr).
    destruct Hc as [Hc1 Hc2 Hc3 Hc4 Hc5 Hc6].
    split; [reflexivity|]. split; [exact Hc1|]. split; [exact Hc4|].
    apply AttemptNoConnect.
    + left. exact Hs.
    + left. auto.
    + exact Hc3.
    + exact Hfh.
    + reflexivity.
    + repeat split.
    + exact Hd.
    + cbn [set_is_dry_run target_conn] in Hm.
      destruct (target_conn st); [apply Hm | exact Hm].
  - (* the target cannot be opened *)
    destruct (migrate_handler_spec open_failed r0 st')
      as (out & st1 & tr & Eh & Hc & Hfh & Hd & Hm).
    rewrite Eh. exists out, (set_error (exn_msg open_failed) (set_status FAILED r0)),
      st1, ([EvConnect (length (conns st))] ++ tr).
    destruct Hc as [Hc1 Hc2 Hc3 Hc4 Hc5 Hc6].
    split; [reflexivity|].
    split; [rewrite Hc1, Htr, <- app_assoc; reflexivity|].
    split; [congruence|].
    apply AttemptNoConnect.
    + right. exact Ht.
    + right. split; [reflexivity|]. split; [|congruence].
      rewrite Hc6, Hcs, map_app. reflexivity.
    + congruence.
    + congruence.
    + reflexivity.
    + repeat split.
    + exact Hd.
    + rewrite Htc in Hm.
      destruct (target_conn st); [apply Hm | exact Hm].
  - (* both are open *)
    destruct Hs as [ds Hds].
    assert (Hcon : connected st st').
    { constructor; [rewrite Hcs, map_app; reflexivity | exact Hsc | exact Htc]. }
    unfold bind at 1, the_conn at 1. cbn [fst snd]. rewrite Hsc.
    unfold bind at 1, lift at 1, conn_count, conn_view. cbn [fst snd].
    rewrite Hcs.
    rewrite lookup_app_r, Nat.sub_diag by lia. cbn [lookup list_lookup conn_open conn_txn conn_path].
    rewrite Hf. rewrite Hds.
    destruct (sql_count ds src_table) as [e|n] eqn:Ecount.
    + (* the count fails *)
      destruct (migrate_handler_spec e r0 st')
        as (out & st1 & tr & Eh & Hc & Hfh & Hd & Hm).
      rewrite Eh. rewrite Htc in Hm.
      destruct (proj2 Hm _ (connected_target_open _ _ Hcon)) as [-> ->].
      eexists (Done tt), _, st1, _. destruct Hc as [Hc1 Hc2 Hc3 Hc4 Hc5 Hc6].
      split; [reflexivity|].
      split; [rewrite Hc1, Htr, <- app_assoc; reflexivity|].
      split; [congruence|].
      apply (AttemptFailed _ _ _ _ _ _ ds _ _ []); eauto.
      * eapply calm_connected; [exact Hcon|]. constructor; eassumption.
      * intros _. split; [reflexivity | repeat split].
      * congruence.
    + unfold bind at 1, on_result at 1, modify at 1.
      destruct dry_run eqn:Edry.
      * (* dry run *)
        unfold bind, on_result, modify. cbn [fst snd].
        eexists (Done tt), _, st', _.
        split; [reflexivity|]. split; [exact Htr|]. split; [exact Hrs|].
        eapply AttemptDry; eauto.
      * (* the batches *)
        destruct (batch_loop_spec src_table tgt_table (map source_column_of cms)
                    (map target_column_of cms) ts batch_size n fuel 0%Z
                    (set_attempted n r0) st')
          as (out & r2 & st2 & tr_b & Eb & Hq & Hout).
        cbn [fst snd]. unfold bind at 1. rewrite Eb.
        pose proof (quiet_calm _ _ _ Hq) as Hcalm.
        pose proof (calm_connected _ _ _ _ Hcon Hcalm) as Hcon2.
        destruct Hq as [Hq1 Hq2 Hq3 Hq4 Hq5 Hq6 Hq7 Hq8].
        destruct out as [[]|e|].
        -- (* the loop completed: commit *)
           unfold bind at 1, the_conn at 1. cbn [fst snd].
           rewrite (cn_target _ _ Hcon2).
           unfold bind at 1, lift at 1. cbn [fst snd].
           destruct (conn_commit_open st2 _ _ (connected_target_open _ _ Hcon2))
             as (st3 & Ec & Hc).
           rewrite Ec. unfold bind, gets, on_result, modify. cbn [fst snd].
           destruct Hout as [Hrows [Ha1 Ha2 Ha3 Ha4]].
           eexists (Done tt), _, st3, _. destruct Hc as [Hc1 Hc2 Hc3 Hc4 Hc5 Hc6].
           split; [reflexivity|].
           split; [rewrite Hc1, Hq1, Htr, <- !app_assoc; reflexivity|].
           split; [congruence|].
           eapply (AttemptDone _ _ _ _ _ _ ds n); eauto.
           eapply calm_connected; [exact Hcon2|]. constructor; eassumption.
        -- (* an exception escaped the loop: roll back *)
           destruct (migrate_handler_spec e r2 st2)
             as (out & st3 & tr & Eh & Hc & Hfh & Hd & Hm).
           rewrite Eh. rewrite (cn_target _ _ Hcon2) in Hm.
           destruct (proj2 Hm _ (connected_target_open _ _ Hcon2)) as [-> ->].
           eexists (Done tt), _, st3, _. destruct Hc as [Hc1 Hc2 Hc3 Hc4 Hc5 Hc6].
           split; [reflexivity|].
           split; [rewrite Hc1, Hq1, Htr, <- !app_assoc; reflexivity|].
           split; [congruence|].
           apply (AttemptFailed _ _ _ _ _ _ ds _ _ tr_b); auto.
           ++ eapply calm_connected; [exact Hcon2|]. constructor; eassumption.
           ++ discriminate.
           ++ intros [e' He']. congruence.
           ++ congruence.
        -- (* the loop does not end *)
           eexists Diverged, _, st2, _.
           split; [reflexivity|].
           split; [rewrite Hq1, Htr, <- !app_assoc; reflexivity|].
           split; [congruence|].
           apply (AttemptDiverged _ _ _ _ _ _ ds n); auto.
           intros Hb Hn. apply Hout; [exact Hb | lia].
Qed.

(** *** The [finally] block and the whole call *)

Lemma migrate_finally_spec r st :
  exists st',
    migrate_finally (r, st) = (Done tt, (r, st')) /\
    files st' = files st /\
    conns st' = close_at (target_conn st) (close_at (source_conn st) (conns st)) /\
    trace st' = trace st ++ close_events (source_conn st)
                         ++ close_events (target_conn st) /\
    results st' = results st ++ [r] /\
    target_conn st' = target_conn st.
Proof.
  unfold migrate_finally, bind, lift, modify. cbn [fst snd].
  destruct (disconnect_spec st) as (st' & E & Hf & Hc & Ht & _ & Htc & Hr & _).
  rewrite E. eexists. split; [reflexivity|]. simpl.
  rewrite Hr. auto.
Qed.

(** The outcome of the call, from the outcome of the attempt. *)
Definition final_outcome (out : outcome unit) (r : MigrationResult)
  : outcome MigrationResult :=
  match out with
  | Done _ => Done r
  | Raised e => Raised e
  | Diverged => Diverged
  end.

(** [migrate_table] is its attempt followed, unless the attempt never
    ends, by closing both connections and recording the result. *)
Lemma migrate_table_spec fuel src_table tgt_table cms ts batch_size dry_run st :
  exists out r st1 tr st2,
    attempt st src_table (map source_column_of cms) batch_size fuel dry_run
            out r st1 tr /\
    trace st1 = trace st ++ tr /\
    results st1 = results st /\
    migrate_table fuel src_table tgt_table cms ts batch_size dry_run st
      = (final_outcome out r, st2) /\
    (out <> Diverged ->
     files st2 = files st1 /\
     conns st2 = close_at (target_conn st1) (close_at (source_conn st1) (conns st1)) /\
     trace st2 = trace st ++ tr ++ close_events (source_conn st1)
                            ++ close_events (target_conn st1) /\
     results st2 = results st ++ [r] /\
     target_conn st2 = target_conn st1) /\
    (out = Diverged -> st2 = st1).
Proof.
  destruct (attempt_spec fuel src_table tgt_table cms ts batch_size dry_run st)
    as (out & r & st1 & tr & E & Htr & Hrs & Hatt).
  unfold migrate_table, try_finally. fold (fresh_result src_table tgt_table).
  rewrite E.
  destruct (migrate_finally_spec r st1) as (st2 & Ef & Hf & Hc & Ht & Hr & Htc).
  destruct out as [[]|e|].
  - rewrite Ef. exists (Done tt), r, st1, tr, st2.
    split; [exact Hatt|]. split; [exact Htr|]. split; [exact Hrs|].
    split; [reflexivity|]. split; [|discriminate]. intros _.
    rewrite Ht, Htr, Hr, Hrs, <- !app_assoc. auto.
  - rewrite Ef. exists (Raised e), r, st1, tr, st2.
    split; [exact Hatt|]. split; [exact Htr|]. split; [exact Hrs|].
    split; [reflexivity|]. split; [|discriminate]. intros _.
    rewrite Ht, Htr, Hr, Hrs, <- !app_assoc. auto.
  - exists Diverged, r, st1, tr, st1.
    split; [exact Hatt|]. split; [exact Htr|]. split; [exact Hrs|].
    split; [reflexivity|]. split; [|reflexivity]. intros H. contradiction.
Qed.

(** *** Counting over the shapes of log an attempt produces *)

Lemma committed_app tr1 tr2 :
  committed (tr1 ++ tr2) = committed tr1 ++ committed tr2.
Proof. apply flat_map_app. Qed.

Lemma commits_app tr1 tr2 : commits (tr1 ++ tr2) = commits tr1 + commits tr2.
Proof. unfold commits. rewrite committed_app, length_app. reflexivity. Qed.

Lemma inserts_app tr1 tr2 : inserts (tr1 ++ tr2) = inserts tr1 + inserts tr2.
Proof. unfold inserts. rewrite List.filter_app, length_app. reflexivity. Qed.

Lemma rolled_back_app tr1 tr2 :
  rolled_back (tr1 ++ tr2) = rolled_back tr1 ++ rolled_back tr2.
Proof. apply flat_map_app. Qed.

Lemma batch_events_commits tr :
  forallb is_batch_event tr = true -> commits tr = 0 /\ rolled_back tr = [].
Proof.
  induction tr as [|ev tr IH]; [auto|]. simpl. intros H.
  apply andb_true_iff in H as [Hev Htr]. destruct (IH Htr) as [IH1 IH2].
  unfold commits, committed in *. destruct ev; try discriminate; simpl; auto.
Qed.

Lemma close_events_quiet h :
  commits (close_events h) = 0 /\ rolled_back (close_events h) = [] /\
  inserts (close_events h) = 0 /\ row_outcomes (close_events h) = [] /\
  fetched_rows (close_events h) = [].
Proof. destruct h; repeat split. Qed.

Lemma outcomes_count tr :
  ok_inserts tr + length (row_failures tr) = length (row_outcomes tr).
Proof.
  unfold ok_inserts, row_failures.
  induction (row_outcomes tr) as [|[r [e|]] l IH]; simpl in *; lia.
Qed.

Lemma row_failures_cons ev tr :
  row_failures (ev :: tr) = row_failures [ev] ++ row_failures tr.
Proof. apply (row_failures_app [ev] tr). Qed.

Lemma insert_failure_in h r vals e tr :
  In (EvInsert h r vals (Some e)) tr -> In (r, e) (row_failures tr).
Proof.
  induction tr as [|ev tr IH]; [intros []|]. intros [-> | Hin].
  - rewrite row_failures_cons. apply in_or_app. left. left. reflexivity.
  - rewrite row_failures_cons. apply in_or_app. right. apply IH, Hin.
Qed.

(** What the log of a completed (committed) call holds. *)
Lemma committed_log a b c x y tr_b :
  let tr := [EvConnect a; EvConnect b] ++ tr_b ++ [EvCommit c] in
  let full := tr ++ close_events x ++ close_events y in
  forallb is_batch_event tr_b = true ->
  row_outcomes full = row_outcomes tr_b /\
  fetched_rows full = fetched_rows tr_b /\
  committed full = [c] /\ rolled_back full = [].
Proof.
  intros tr full Hb. subst tr full.
  destruct (batch_events_commits tr_b Hb) as [Hc Hr].
  apply length_zero_iff_nil in Hc.
  destruct (close_events_quiet x) as (Hx1 & Hx2 & _ & Hx4 & Hx5).
  destruct (close_events_quiet y) as (Hy1 & Hy2 & _ & Hy4 & Hy5).
  apply length_zero_iff_nil in Hx1, Hy1.
  repeat split.
  - rewrite !row_outcomes_app, Hx4, Hy4. simpl. rewrite !app_nil_r. reflexivity.
  - rewrite !fetched_rows_app, Hx5, Hy5. simpl. rewrite !app_nil_r. reflexivity.
  - rewrite !committed_app, Hx1, Hy1, Hc. reflexivity.
  - rewrite !rolled_back_app, Hx2, Hy2, Hr. reflexivity.
Qed.

(** The rounds the batch loop needs at most: the number of records, when
    the source can be opened and counted. *)
Definition rounds_needed (src_table : string) (st : state) : nat :=
  match files st !! source_db_path with
  | Some ds => match sql_count ds src_table with inr n => n | inl _ => 0 end
  | None => 0
  end.

Lemma attempt_diverged_inv st src_table scols batch_size fuel dry_run r st1 tr :
  attempt st src_table scols batch_size fuel dry_run Diverged r st1 tr ->
  (0 < batch_size)%Z -> rounds_needed src_table st <= fuel -> False.
Proof.
  unfold rounds_needed. inversion 1; subst; try contradiction.
  intros Hb Hfuel.
  match goal with
  | Hd : files st !! source_db_path = Some _, Hn : sql_count _ _ = inr _ |- _ =>
      rewrite Hd, Hn in Hfuel
  end.
  eauto.
Qed.

Lemma attempt_done_inv st src_table scols batch_size fuel r st1 tr :
  attempt st src_table scols batch_size fuel false (Done tt) r st1 tr ->
  status r <> FAILED ->
  exists tr_b,
    tr = [EvConnect (length (conns st)); EvConnect (S (length (conns st)))]
           ++ tr_b ++ [EvCommit (S (length (conns st)))] /\
    forallb is_batch_event tr_b = true /\
    map fst (row_outcomes tr_b) = fetched_rows tr_b /\
    failed_records r = map (failure_of src_table scols) (row_failures tr_b) /\
    records_failed r = length (row_failures tr_b) /\
    records_migrated r = ok_inserts tr_b /\
    status r = (if Nat.eqb (records_failed r) 0 then COMPLETED else PARTIAL).
Proof.
  inversion 1; subst; intros Hst; try congruence.
  eexists. repeat split; eauto.
Qed.

(** An attempt that failed before its batch loop fetched from the source
    only nothing, and counted nothing. *)
Lemma attempt_failed_early_inv st src_table scols batch_size fuel dry_run
    out r st1 tr :
  attempt st src_table scols batch_size fuel dry_run out r st1 tr ->
  out = Done tt -> status r = FAILED ->
  (files st !! source_db_path = None \/ files st !! target_db_path = None \/
   exists ds e, files st !! source_db_path = Some ds /\
                sql_count ds src_table = inl e) ->
  fetched_rows tr = [] /\ zero_counts r.
Proof.
  destruct 1 as [out r st1 tr_c tr_h Hno Hc Htc Hf Hst Hz Hd Hh
                | ds r st1 tr_b Hds Htgt Hcon Hb Hdry Hcnt Hf Hst
                | ds n r st1 Hds Htgt Hcon Hdry Hn Hf Hst Ha Hm Hfl Hfr
                | ds n r st1 tr_b Hds Htgt Hcon Hdry Hn Hb Hrows Hrec Hfl Hm Ha Hst
                | ds n r st1 tr Hds Hdry Hn Hdiv];
    intros Hout Hfailed Hearly.
  - split; [|exact Hz].
    assert (Hc' : tr_c = [] \/ tr_c = [EvConnect (length (conns st))])
      by (destruct Hc as [[? _] | [? _]]; auto).
    destruct Hc' as [-> | ->]; destruct (target_conn st);
      try destruct Hh as [-> | ->]; try destruct Hh as [_ ->]; reflexivity.
  - assert (Hex : exists e, sql_count ds src_table = inl e).
    { destruct Hearly as [Hn | [Hn | (ds' & e & Hds' & He)]].
      - congruence.
      - destruct Htgt. congruence.
      - exists e. congruence. }
    destruct (Hcnt Hex) as [-> Hz]. split; [reflexivity | exact Hz].
  - congruence.
  - rewrite Hst in Hfailed. destruct (Nat.eqb _ _); discriminate.
  - discriminate.
Qed.

(** C2.  A call of [migrate_table] that is not a dry run ends when the
    batch size is positive.  When no exception escaped the batch loop
    (the result is not FAILED), the rows migrated are the rows fetched,
    each once and in order: every fetched row got one INSERT attempt or
    failed in a transformation; [failed_records] holds one record per failed
    row, in order, with the row id, the column data, the message and the
    type of the exception, so every INSERT that raised is in it; nothing is
    retried; and [records_migrated + records_failed] is the number of rows
    fetched.  (A call that failed before its loop, in [connect] or in the
    count query, fetched no row and counts none.) *)
Theorem migrate_table_accounts_for_rows
    (src_table tgt_table : string) (cms : list column_mapping)
    (ts : list TransformationRule) (batch_size : Z) (st : state) :
  let scols := map source_column_of cms in
  ((0 < batch_size)%Z ->
   forall fuel, rounds_needed src_table st <= fuel ->
     fst (migrate_table fuel src_table tgt_table cms ts batch_size false st)
     <> Diverged) /\
  (forall fuel r st',
     migrate_table fuel src_table tgt_table cms ts batch_size false st
       = (Done r, st') ->
     status r <> FAILED ->
     exists tr,
       trace st' = trace st ++ tr /\
       map fst (row_outcomes tr) = fetched_rows tr /\
       failed_records r = map (failure_of src_table scols) (row_failures tr) /\
       (forall h row vals e,
          In (EvInsert h row vals (Some e)) tr ->
          In {| fr_source_table := src_table; record_id := fst row;
                record_data := data_of scols row;
                error_message := exn_msg e; error_type := exn_type e |}
             (failed_records r)) /\
       records_failed r = length (failed_records r) /\
       records_migrated r = ok_inserts tr /\
       records_migrated r + records_failed r = length (fetched_rows tr)) /\
  (forall fuel r st',
     migrate_table fuel src_table tgt_table cms ts batch_size false st
       = (Done r, st') ->
     status r = FAILED ->
     (files st !! source_db_path = None \/ files st !! target_db_path = None \/
      exists ds e, files st !! source_db_path = Some ds /\
                   sql_count ds src_table = inl e) ->
     exists tr,
       trace st' = trace st ++ tr /\ fetched_rows tr = [] /\
       failed_records r = [] /\
       records_migrated r + records_failed r = length (fetched_rows tr)).
Proof.
  intros scols. split; [|split].
  - intros Hb fuel Hfuel.
    destruct (migrate_table_spec fuel src_table tgt_table cms ts batch_size false st)
      as (out & r & st1 & tr & st2 & Hatt & _ & _ & E & _ & _).
    rewrite E. simpl. destruct out; simpl; try discriminate.
    intros _. eapply attempt_diverged_inv; eassumption.
  - intros fuel r st' Erun Hstatus.
    destruct (migrate_table_spec fuel src_table tgt_table cms ts batch_size false st)
      as (out & r1 & st1 & tr & st2 & Hatt & _ & _ & E & Hfin & _).
    rewrite Erun in E.
    destruct out as [[]|e|]; simpl in E; try discriminate.
    injection E as <- <-.
    destruct (Hfin ltac:(discriminate)) as (_ & _ & Htr & _).
    destruct (attempt_done_inv _ _ _ _ _ _ _ _ Hatt Hstatus)
      as (tr_b & -> & Hb & Hrows & Hrec & Hfail & Hmig & _).
    destruct (committed_log (length (conns st)) (S (length (conns st)))
                (S (length (conns st))) (source_conn st1) (target_conn st1)
                tr_b Hb) as (Hro & Hfr & _ & _).
    cbv zeta in Hro, Hfr.
    eexists. split; [exact Htr|].
    set (full := _ ++ close_events (source_conn st1)
                   ++ close_events (target_conn st1)) in *.
    assert (Hrf : row_failures full = row_failures tr_b).
    { unfold row_failures. rewrite Hro. reflexivity. }
    assert (Hok : ok_inserts full = ok_inserts tr_b).
    { unfold ok_inserts. rewrite Hro. reflexivity. }
    rewrite Hro, Hfr, Hrf, Hok.
    split; [exact Hrows|]. split; [exact Hrec|]. split; [|split; [|split]].
    + intros h row vals e Hin. apply insert_failure_in in Hin.
      rewrite Hrf in Hin. rewrite Hrec.
      apply (in_map (failure_of src_table scols)) in Hin. exact Hin.
    + rewrite Hrec, length_map. exact Hfail.
    + exact Hmig.
    + rewrite Hmig, Hfail, outcomes_count, <- Hrows, length_map. reflexivity.
  - intros fuel r st' Erun Hstatus Hearly.
    destruct (migrate_table_spec fuel src_table tgt_table cms ts batch_size false st)
      as (out & r1 & st1 & tr & st2 & Hatt & _ & _ & E & Hfin & _).
    rewrite Erun in E.
    destruct out as [[]|e|]; simpl in E; try discriminate.
    injection E as <- <-.
    destruct (Hfin ltac:(discriminate)) as (_ & _ & Htr & _).
    destruct (attempt_failed_early_inv _ _ _ _ _ _ _ _ _ _ Hatt eq_refl Hstatus Hearly)
      as (Hf & Hz1 & Hz2 & Hz3).
    destruct (close_events_quiet (source_conn st1)) as (_ & _ & _ & _ & Hs5).
    destruct (close_events_quiet (target_conn st1)) as (_ & _ & _ & _ & Ht5).
    eexists. split; [exact Htr|].
    rewrite !fetched_rows_app, Hf, Hs5, Ht5, Hz1, Hz2, Hz3. auto.
Qed.

(** What the log of a failed attempt holds. *)
Lemma no_connect_log (tr_c tr_h : list event) (a : nat) (h : option nat) :
  tr_c = [] \/ tr_c = [EvConnect a] ->
  match h with
  | None => tr_h = []
  | Some h => tr_h = [] \/ tr_h = [EvRollback h]
  end ->
  commits (tr_c ++ tr_h) = 0 /\ inserts (tr_c ++ tr_h) = 0 /\
  (h = None -> rolled_back (tr_c ++ tr_h) = []).
Proof.
  intros [-> | ->] Hh; destruct h as [h|]; try destruct Hh as [-> | ->]; subst;
    repeat split; try reflexivity; discriminate.
Qed.

Lemma rolled_back_log a b c tr_b :
  forallb is_batch_event tr_b = true ->
  let tr := [EvConnect a; EvConnect b] ++ tr_b ++ [EvRollback c] in
  commits tr = 0 /\ rolled_back tr = [c] /\ In (EvConnect b) tr.
Proof.
  intros Hb tr. subst tr. destruct (batch_events_commits tr_b Hb) as [Hc Hr].
  rewrite !commits_app, !rolled_back_app, Hc, Hr. repeat split.
  right. left. reflexivity.
Qed.

(** The four ways an attempt that ends can have gone. *)
Lemma attempt_inv st src_table scols batch_size fuel dry_run out r st1 tr :
  attempt st src_table scols batch_size fuel dry_run out r st1 tr ->
  out = Diverged \/
  (status r = FAILED /\ files st1 = files st /\ commits tr = 0 /\
   (dry_run = true -> inserts tr = 0) /\
   (((files st !! source_db_path = None \/ files st !! target_db_path = None) /\
     (target_conn st = None -> out = Done tt /\ rolled_back tr = []))
    \/
    (is_Some (files st !! source_db_path) /\
     is_Some (files st !! target_db_path) /\
     (dry_run = true ->
      exists ds e, files st !! source_db_path = Some ds /\
                   sql_count ds src_table = inl e) /\
     out = Done tt /\
     exists ht, target_conn st1 = Some ht /\ In (EvConnect ht) tr /\
                rolled_back tr = [ht]))) \/
  (out = Done tt /\ dry_run = true /\ status r = COMPLETED /\
   files st1 = files st /\ commits tr = 0 /\ rolled_back tr = [] /\
   inserts tr = 0 /\ records_failed r = 0 /\ failed_records r = [] /\
   exists ds, files st !! source_db_path = Some ds /\
              sql_count ds src_table = inr (records_attempted r) /\
              records_migrated r = records_attempted r) \/
  (out = Done tt /\ dry_run = false /\
   status r = (if Nat.eqb (records_failed r) 0 then COMPLETED else PARTIAL) /\
   rolled_back tr = [] /\
   exists ht, target_conn st1 = Some ht /\ In (EvConnect ht) tr /\
              committed tr = [ht]).
Proof.
  destruct 1 as [out r st1 tr_c tr_h Hno Hc Htc Hf Hst Hz Hd Hh
                | ds r st1 tr_b Hds Htgt Hcon Hb Hdry Hcnt Hf Hst
                | ds n r st1 Hds Htgt Hcon Hdry Hn Hf Hst Ha Hm Hfl Hfr
                | ds n r st1 tr_b Hds Htgt Hcon Hdry Hn Hb Hrows Hrec Hfl Hm Ha Hst
                | ds n r st1 tr Hds Hdry Hn Hdiv].
  - right. left.
    assert (Hc' : tr_c = [] \/ tr_c = [EvConnect (length (conns st))])
      by (destruct Hc as [[? _] | [? _]]; auto).
    assert (Hh' : match target_conn st with
                  | None => tr_h = []
                  | Some h => tr_h = [] \/ tr_h = [EvRollback h]
                  end)
      by (destruct (target_conn st); [exact Hh | apply Hh]).
    destruct (no_connect_log tr_c tr_h _ _ Hc' Hh') as (H1 & H2 & H3).
    repeat (split; [assumption || auto|]).
    left. split; [exact Hno|]. intros Hnone. rewrite Hnone in Hh.
    split; [apply Hh | apply H3, Hnone].
  - right. left.
    destruct (rolled_back_log (length (conns st)) (S (length (conns st)))
                (S (length (conns st))) tr_b Hb) as (H1 & H2 & H3).
    split; [exact Hst|]. split; [exact Hf|]. split; [exact H1|].
    split.
    { intros Hd. destruct (Hcnt (Hdry Hd)) as [-> _]. reflexivity. }
    right. split; [eauto|]. split; [exact Htgt|].
    split.
    { intros Hd. destruct (Hdry Hd) as [e He]. eauto. }
    split; [reflexivity|].
    exists (S (length (conns st))). split; [apply Hcon|]. auto.
  - right. right. left. subst n. repeat (split; [assumption || reflexivity|]).
    exists ds. rewrite Hm. auto.
  - right. right. right.
    destruct (committed_log (length (conns st)) (S (length (conns st)))
                (S (length (conns st))) None None tr_b Hb) as (_ & _ & H1 & H2).
    cbv zeta in H1, H2. simpl close_events in H1, H2.
    rewrite !app_nil_r in H1, H2.
    repeat (split; [assumption || reflexivity|]).
    exists (S (length (conns st))). split; [apply Hcon|].
    split; [right; left; reflexivity | exact H1].
  - left. reflexivity.
Qed.

(** C3 (as amended).  [migrate_table] treats the batches of a table as one
    unit.  When the batch loop completes it commits the target connection
    once and rolls nothing back, reporting COMPLETED if no record failed and
    PARTIAL otherwise (a dry run reports COMPLETED and commits nothing).
    When an exception escapes after [connect] succeeded, it reports FAILED
    and rolls back, once, the target connection it opened; when [connect]
    itself fails on an executor that holds no target connection, it reports
    FAILED and there is nothing to roll back.  A FAILED run commits nothing
    and leaves every database file as it was. *)
Theorem migrate_table_commit_or_rollback
    (fuel : nat) (src_table tgt_table : string) (cms : list column_mapping)
    (ts : list TransformationRule) (batch_size : Z) (dry_run : bool)
    (st st' : state) (out : outcome MigrationResult) :
  migrate_table fuel src_table tgt_table cms ts batch_size dry_run st = (out, st') ->
  exists tr,
    trace st' = trace st ++ tr /\
    match out with
    | Done r =>
        (status r = COMPLETED \/ status r = PARTIAL \/ status r = FAILED) /\
        (status r <> FAILED ->
         rolled_back tr = [] /\
         (status r = COMPLETED <-> records_failed r = 0) /\
         if dry_run then committed tr = []
         else exists ht, target_conn st' = Some ht /\ In (EvConnect ht) tr /\
                         committed tr = [ht]) /\
        (status r = FAILED ->
         committed tr = [] /\ files st' = files st /\
         (is_Some (files st !! source_db_path) ->
          is_Some (files st !! target_db_path) ->
          exists ht, target_conn st' = Some ht /\ In (EvConnect ht) tr /\
                     rolled_back tr = [ht]) /\
         (files st !! source_db_path = None \/ files st !! target_db_path = None ->
          target_conn st = None -> rolled_back tr = []))
    | Raised _ => committed tr = [] /\ files st' = files st
    | Diverged => True
    end.
Proof.
  intros Erun.
  destruct (migrate_table_spec fuel src_table tgt_table cms ts batch_size dry_run st)
    as (out1 & r & st1 & tr & st2 & Hatt & Htr1 & _ & E & Hfin & Hdiv).
  rewrite Erun in E. injection E as -> ->.
  destruct (close_events_quiet (source_conn st1)) as (Hs1 & Hs2 & _).
  destruct (close_events_quiet (target_conn st1)) as (Ht1 & Ht2 & _).
  apply length_zero_iff_nil in Hs1, Ht1.
  destruct out1 as [[]|e|]; simpl.
  2: { (* the handler itself raised *)
    destruct (Hfin ltac:(discriminate)) as (Hf & _ & Htr & _).
    eexists. split; [exact Htr|].
    rewrite !committed_app, Hs1, Ht1, Hf, !app_nil_r.
    destruct (attempt_inv _ _ _ _ _ _ _ _ _ _ Hatt)
      as [? | [(_ & Hfiles & Hc & _) | [(? & _) | (? & _)]]]; try discriminate.
    split; [apply length_zero_iff_nil, Hc | exact Hfiles]. }
  2: { exists tr. rewrite (Hdiv eq_refl). split; [exact Htr1 | exact I]. }
  destruct (Hfin ltac:(discriminate)) as (Hf & _ & Htr & _ & Htc).
  eexists. split; [exact Htr|].
  rewrite !committed_app, !rolled_back_app, Hs1, Hs2, Ht1, Ht2, !app_nil_r,
    Hf, Htc.
  destruct (attempt_inv _ _ _ _ _ _ _ _ _ _ Hatt)
    as [? | [(Hst & Hfiles & Hc & _ & Hcase)
            | [(_ & -> & Hst & Hfiles & Hc & Hrb & _ & Hfl & _)
              | (_ & -> & Hst & Hrb & ht & Hht & Hin & Hcm)]]]; try discriminate.
  - (* FAILED *)
    apply length_zero_iff_nil in Hc.
    split; [auto|]. split; [congruence|]. intros _.
    split; [exact Hc|]. split; [exact Hfiles|]. split.
    + intros [ds Hds] [dt Hdt].
      destruct Hcase as [([Hn | Hn] & _) | (_ & _ & _ & _ & ht & H1 & H2 & H3)];
        try congruence.
      exists ht. split; [exact H1|]. split; [|exact H3].
      apply in_or_app. left. exact H2.
    + intros Hno Hnone.
      destruct Hcase as [(_ & Hrb) | ([ds Hds] & [dt Hdt] & _)].
      * apply Hrb, Hnone.
      * destruct Hno; congruence.
  - (* a dry run *)
    apply length_zero_iff_nil in Hc.
    split; [auto|]. split; [|congruence]. intros _.
    split; [exact Hrb|]. split; [|exact Hc]. split; auto.
  - (* committed *)
    split.
    { rewrite Hst. destruct (Nat.eqb _ _); auto. }
    split.
    + intros _. split; [exact Hrb|]. split.
      * rewrite Hst. destruct (Nat.eqb_spec (records_failed r) 0); split;
          congruence.
      * exists ht. split; [exact Hht|]. split; [|exact Hcm].
        apply in_or_app. left. exact Hin.
    + rewrite Hst. destruct (Nat.eqb _ _); discriminate.
Qed.

(** C10.  A dry run never INSERTs and never commits: every database file
    is the same after the call as before.  When the source and the target
    can be opened and the count query answers [n], the call returns a
    result with status COMPLETED, [records_attempted] and
    [records_migrated] equal to [n], and no failed record. *)
Theorem dry_run_leaves_target_untouched
    (fuel : nat) (src_table tgt_table : string) (cms : list column_mapping)
    (ts : list TransformationRule) (batch_size : Z) (st : state) :
  let run := migrate_table fuel src_table tgt_table cms ts batch_size true st in
  files (snd run) = files st /\
  (exists tr, trace (snd run) = trace st ++ tr /\ inserts tr = 0 /\ commits tr = 0) /\
  (forall ds n,
     files st !! source_db_path = Some ds ->
     is_Some (files st !! target_db_path) ->
     sql_count ds src_table = inr n ->
     exists r,
       fst run = Done r /\ status r = COMPLETED /\
       records_attempted r = n /\ records_migrated r = n /\
       records_failed r = 0 /\ failed_records r = []).
Proof.
  intros run. subst run.
  destruct (migrate_table_spec fuel src_table tgt_table cms ts batch_size true st)
    as (out1 & r & st1 & tr & st2 & Hatt & Htr1 & _ & E & Hfin & Hdiv).
  rewrite E. simpl.
  destruct (attempt_inv _ _ _ _ _ _ _ _ _ _ Hatt)
    as [-> | [(Hst & Hfiles & Hc & Hins & Hcase)
             | [(-> & _ & Hst & Hfiles & Hc & Hrb & Hins & Hfl & Hfr & ds' & Hds' & Hn' & Hm)
               | (_ & Hd & _)]]]; try discriminate.
  - (* a dry run has no loop *)
    exfalso. inversion Hatt; subst; try contradiction; discriminate.
  - destruct (Hfin ltac:(destruct Hcase as [(_ & _) | (_ & _ & _ & -> & _)];
                         [inversion Hatt; subst; assumption || discriminate
                         | discriminate]))
      as (Hf & _ & Htr & _).
    split; [congruence|]. split.
    + eexists. split; [exact Htr|].
      destruct (close_events_quiet (source_conn st1)) as (Hs1 & _ & Hs3 & _).
      destruct (close_events_quiet (target_conn st1)) as (Ht1 & _ & Ht3 & _).
      rewrite !inserts_app, !commits_app, Hs1, Hs3, Ht1, Ht3, Hc, (Hins eq_refl).
      auto.
    + intros ds n Hds Htgt Hn.
      destruct Hcase as [([Hno | Hno] & _) | (_ & _ & Hcount & _)].
      * congruence.
      * destruct Htgt. congruence.
      * destruct (Hcount eq_refl) as (ds0 & e & Hds0 & He). congruence.
  - destruct (Hfin ltac:(discriminate)) as (Hf & _ & Htr & _).
    split; [congruence|]. split.
    + eexists. split; [exact Htr|].
      destruct (close_events_quiet (source_conn st1)) as (Hs1 & _ & Hs3 & _).
      destruct (close_events_quiet (target_conn st1)) as (Ht1 & _ & Ht3 & _).
      rewrite !inserts_app, !commits_app, Hs1, Hs3, Ht1, Ht3, Hc, Hins. auto.
    + intros ds n Hds Htgt Hn. exists r. simpl.
      assert (records_attempted r = n) by congruence.
      repeat split; congruence.
Qed.

(** *** Connections are closed again *)

(** No connection object is open. *)
Definition all_closed (st : state) : Prop :=
  Forall (fun c => conn_open c = false) (conns st).

(** Which connections exist and are open once [connect] has run (whether
    it failed on the source, failed on the target, or succeeded). *)
Definition after_connect (st st1 : state) : Prop :=
  map conn_shape (conns st1) = map conn_shape (conns st) \/
  (map conn_shape (conns st1)
     = map conn_shape (conns st) ++ [(source_db_path, true)] /\
   source_conn st1 = Some (length (conns st))) \/
  connected st st1.

Lemma close_at_lookup h (l : list conn) i c :
  close_at h l !! i = Some c ->
  conn_open c = false \/ (h <> Some i /\ l !! i = Some c).
Proof.
  destruct h as [h|]; simpl; [|intros; right; split; [discriminate | assumption]].
  destruct (decide (h = i)) as [-> | Hne].
  - rewrite list_lookup_alter_eq. destruct (l !! i); simpl; [|discriminate].
    intros [= <-]. left. reflexivity.
  - rewrite list_lookup_alter_ne by exact Hne. intros Hl. right.
    split; [congruence | exact Hl].
Qed.

Lemma old_conn_closed st i c :
  all_closed st ->
  map conn_shape (conns st) !! i = Some (conn_shape c) ->
  conn_open c = false.
Proof.
  intros Hall Hi. apply shape_lookup in Hi as (c0 & Hc0 & _ & Hopen).
  unfold all_closed in Hall. rewrite Forall_lookup in Hall.
  rewrite <- Hopen. eapply Hall, Hc0.
Qed.

(** Closing what the executor holds after [connect] closes everything that
    is open, provided nothing was open before. *)
Lemma disconnect_closes_all st st1 :
  all_closed st -> after_connect st st1 ->
  Forall (fun c => conn_open c = false)
         (close_at (target_conn st1) (close_at (source_conn st1) (conns st1))).
Proof.
  intros Hall Hshape. apply Forall_lookup. intros i c Hi.
  apply close_at_lookup in Hi as [? | [Hnt Hi]]; [assumption|].
  apply close_at_lookup in Hi as [? | [Hns Hi]]; [assumption|].
  assert (Hs : map conn_shape (conns st1) !! i = Some (conn_shape c)).
  { rewrite list_lookup_fmap, Hi. reflexivity. }
  destruct Hshape as [Heq | [[Heq Hsrc] | [Heq Hsrc Htgt]]]; rewrite Heq in Hs.
  - eapply old_conn_closed; eauto.
  - apply lookup_app_Some in Hs as [Hs | [Hlen Hs]].
    + eapply old_conn_closed; eauto.
    + rewrite length_map in Hlen, Hs.
      destruct (i - length (conns st)) as [|k] eqn:Ek; [|destruct k; discriminate].
      exfalso. apply Hns. rewrite Hsrc. f_equal. lia.
  - apply lookup_app_Some in Hs as [Hs | [Hlen Hs]].
    + eapply old_conn_closed; eauto.
    + rewrite length_map in Hlen, Hs.
      destruct (i - length (conns st)) as [|[|k]] eqn:Ek;
        [| |destruct k; discriminate].
      * exfalso. apply Hns. rewrite Hsrc. f_equal. lia.
      * exfalso. apply Hnt. rewrite Htgt. f_equal. lia.
Qed.

Lemma attempt_after_connect st src_table scols batch_size fuel dry_run out r st1 tr :
  attempt st src_table scols batch_size fuel dry_run out r st1 tr ->
  out <> Diverged -> after_connect st st1.
Proof.
  destruct 1 as [? ? ? ? ? _ Hc| | | |]; intros Hd; unfold after_connect;
    try (right; right; assumption); try contradiction.
  destruct Hc as [(_ & ? & _) | (_ & ? & ?)]; auto.
Qed.

(** [migrate_table] leaves no connection open. *)
Lemma migrate_table_closes fuel src_table tgt_table cms ts batch_size dry_run st :
  all_closed st ->
  let run := migrate_table fuel src_table tgt_table cms ts batch_size dry_run st in
  fst run <> Diverged -> all_closed (snd run).
Proof.
  intros Hall run. subst run.
  destruct (migrate_table_spec fuel src_table tgt_table cms ts batch_size dry_run st)
    as (out & r & st1 & tr & st2 & Hatt & _ & _ & E & Hfin & _).
  rewrite E. simpl. intros Hd.
  assert (Hout : out <> Diverged) by (intros ->; apply Hd; reflexivity).
  destruct (Hfin Hout) as (_ & Hc & _). unfold all_closed. rewrite Hc.
  apply (disconnect_closes_all st); [exact Hall|].
  eapply attempt_after_connect; eassumption.
Qed.

Lemma conn_delete_all_calm h table st :
  exists out st' tr,
    conn_delete_all h table st = (out, st') /\ calm st st' tr /\ out <> Diverged.
Proof.
  unfold conn_delete_all. destruct (conn_view st h) as [d|].
  - destruct (sql_delete_all d table) as [e|d'].
    + eexists _, _, []. split; [reflexivity|]. split; [apply calm_refl | discriminate].
    + eexists _, _, [EvDelete h]. split; [reflexivity|].
      split; [|discriminate]. constructor; try reflexivity.
      simpl. apply alter_shape. reflexivity.
  - eexists _, _, []. split; [reflexivity|]. split; [apply calm_refl | discriminate].
Qed.

Lemma conn_commit_calm h st :
  exists out st' tr,
    conn_commit h st = (out, st') /\ calm st st' tr /\ out <> Diverged.
Proof.
  unfold conn_commit. destruct (conns st !! h) as [c|].
  - destruct (conn_open c).
    + eexists _, _, [EvCommit h]. split; [reflexivity|]. split; [|discriminate].
      constructor; try (destruct (conn_txn c); reflexivity).
      simpl. rewrite alter_shape by reflexivity. destruct (conn_txn c); reflexivity.
    + eexists _, _, []. split; [reflexivity|]. split; [apply calm_refl | discriminate].
  - eexists _, _, []. split; [reflexivity|]. split; [apply calm_refl | discriminate].
Qed.

Lemma calm_after_connect st st1 st2 tr :
  after_connect st st1 -> calm st1 st2 tr -> after_connect st st2.
Proof.
  intros [H | [[H1 H2] | H]] Hc.
  - left. destruct Hc. congruence.
  - right. left. destruct Hc. split; congruence.
  - right. right. eapply calm_connected; eassumption.
Qed.

(** The [finally: self.disconnect()] of an operation that ran [connect]. *)
Lemma finally_disconnect_closes {A : Type} (c : St state A) o st st0 st1 :
  all_closed st -> c st0 = (o, st1) -> after_connect st st1 -> o <> Diverged ->
  let run := try_finally c disconnect st0 in
  fst run <> Diverged /\ all_closed (snd run).
Proof.
  intros Hall Ec Hafter Ho run. subst run. unfold try_finally. rewrite Ec.
  destruct (disconnect_spec st1) as (st2 & E & _ & Hc & _).
  rewrite E.
  assert (Hcl : all_closed st2).
  { unfold all_closed. rewrite Hc. apply (disconnect_closes_all st); assumption. }
  destruct o; try contradiction; simpl; split; auto; discriminate.
Qed.

(** [rollback_migration] leaves no connection open either. *)
Lemma rollback_migration_closes tgt_table st :
  all_closed st ->
  let run := rollback_migration tgt_table st in
  fst run <> Diverged /\ all_closed (snd run).
Proof.
  intros Hall run. subst run.
  assert (Hbody : exists o st1,
             try_except
               (connect ;;
                let* ht := the_conn target_conn in
                conn_delete_all ht tgt_table ;; conn_commit ht ;; ret true)
               (fun _ => ret false) st = (o, st1) /\
             o <> Diverged /\ after_connect st st1).
  { unfold try_except. unfold bind at 1.
    destruct (connect_spec st)
      as [[Hs E] | [(Hs & Ht & st' & E & Hf & Hcs & Htr & Hsc & Htc & _)
                   | (Hs & Ht & st' & E & Hf & Hcs & Htr & Hsc & Htc & _)]];
      rewrite E.
    - eexists _, _. split; [reflexivity|]. split; [discriminate|]. left. reflexivity.
    - eexists _, _. split; [reflexivity|]. split; [discriminate|].
      right. left. split; [rewrite Hcs, map_app; reflexivity | exact Hsc].
    - assert (Hcon : after_connect st st').
      { right. right.
        constructor; [rewrite Hcs, map_app; reflexivity | exact Hsc | exact Htc]. }
      unfold bind at 1, the_conn at 1. rewrite Htc. unfold bind at 1.
      destruct (conn_delete_all_calm (S (length (conns st))) tgt_table st')
        as (o1 & st1 & tr1 & E1 & Hc1 & Hd1).
      rewrite E1.
      pose proof (calm_after_connect _ _ _ _ Hcon Hc1) as Hcon1.
      destruct o1 as [[]|e|]; [| |contradiction].
      + unfold bind at 1.
        destruct (conn_commit_calm (S (length (conns st))) st1)
          as (o2 & st2 & tr2 & E2 & Hc2 & Hd2).
        rewrite E2.
        pose proof (calm_after_connect _ _ _ _ Hcon1 Hc2) as Hcon2.
        destruct o2 as [[]|e|]; [| |contradiction].
        * eexists _, _. split; [reflexivity|]. split; [discriminate | exact Hcon2].
        * eexists _, _. split; [reflexivity|]. split; [discriminate | exact Hcon2].
      + eexists _, _. split; [reflexivity|]. split; [discriminate | exact Hcon1]. }
  destruct Hbody as (o & st1 & E & Ho & Hafter).
  exact (finally_disconnect_closes _ o st st st1 Hall E Hafter Ho).
Qed.

(** [detect_split_candidates] closes both connections when [connect]
    succeeded: its [finally] covers everything after [connect]. *)
Lemma detect_split_candidates_closes_when_connected src_table column st :
  all_closed st ->
  is_Some (files st !! source_db_path) ->
  is_Some (files st !! target_db_path) ->
  let run := detect_split_candidates src_table column st in
  fst run <> Diverged /\ all_closed (snd run).
Proof.
  intros Hall [ds Hds] [dt Hdt].
  unfold detect_split_candidates.
  destruct (connect_spec st)
    as [[Hs E] | [(Hs & Ht & _)
                 | (Hs & Ht & st' & E & Hf & Hcs & Htr & Hsc & Htc & _)]];
    try congruence.
  assert (Hcon : after_connect st st').
  { right. right.
    constructor; [rewrite Hcs, map_app; reflexivity | exact Hsc | exact Htc]. }
  assert (Hbody : exists o,
             (let* hs := the_conn source_conn in
              let* samples := conn_samples hs src_table column in
              match samples with
              | [] => ret None
              | _ => ret (analyse_samples column samples)
              end) st' = (o, st') /\ o <> Diverged).
  { unfold bind at 1, the_conn. rewrite Hsc.
    unfold bind, conn_samples.
    destruct (conn_view st' (length (conns st))) as [d|];
      [|eexists; split; [reflexivity | discriminate]].
    destruct (sql_samples d src_table column) as [e|[|v vs]];
      eexists; (split; [reflexivity | discriminate]). }
  destruct Hbody as (o & Eb & Ho).
  pose proof (finally_disconnect_closes _ o st st' st' Hall Eb Hcon Ho) as Hfin.
  cbv zeta in *. unfold bind at 1 4. rewrite E. exact Hfin.
Qed.

(** *** What the operations leave behind *)

(** X16.  Connection hygiene.  On an executor with no connection open,
    [migrate_table] and [rollback_migration] leave no connection open,
    however they end, and so does [detect_split_candidates] when both
    database files can be opened; [rollback_migration] always returns. *)
Theorem operations_close_their_connections (st : state) :
  all_closed st ->
  (forall fuel src_table tgt_table cms ts batch_size dry_run,
     let run := migrate_table fuel src_table tgt_table cms ts batch_size dry_run st in
     fst run <> Diverged -> all_closed (snd run)) /\
  (forall tgt_table,
     let run := rollback_migration tgt_table st in
     fst run <> Diverged /\ all_closed (snd run)) /\
  (forall src_table column,
     is_Some (files st !! source_db_path) ->
     is_Some (files st !! target_db_path) ->
     let run := detect_split_candidates src_table column st in
     fst run <> Diverged /\ all_closed (snd run)).
Proof.
  intros Hall. split; [|split].
  - intros fuel src_table tgt_table cms ts batch_size dry_run.
    apply migrate_table_closes, Hall.
  - intros tgt_table. apply rollback_migration_closes, Hall.
  - intros src_table column Hs Ht.
    apply detect_split_candidates_closes_when_connected; assumption.
Qed.

Lemma lookup_second_new {A : Type} (l : list A) (a b : A) :
  (l ++ [a; b]) !! S (length l) = Some b.
Proof. induction l as [|x l IH]; simpl; [reflexivity | exact IH]. Qed.

Lemma rollback_migration_spec (tgt_table : string) (st : state) :
  exists b st',
    rollback_migration tgt_table st = (Done b, st') /\
    results st' = results st /\
    match files st !! source_db_path, files st !! target_db_path with
    | Some _, Some dt =>
        match sql_delete_all dt tgt_table with
        | inr dt' => b = true /\ files st' = <[ target_db_path := dt' ]> (files st)
        | inl _ => b = false /\ files st' = files st
        end
    | _, _ => b = false /\ files st' = files st
    end.
Proof.
  unfold rollback_migration, try_finally, try_except.
  unfold bind at 1.
  destruct (connect_spec st)
    as [[Hs E] | [(Hs & Ht & st1 & E & Hf & _ & _ & _ & _ & Hr & _)
                 | ([ds Hs] & [dt Ht] & st1 & E & Hf & Hc & _ & _ & Htc & Hr & _)]];
    rewrite E; cbv beta iota.
  - unfold ret at 1.
    destruct (disconnect_spec st) as (st2 & -> & Hf2 & _ & _ & _ & _ & Hr2 & _).
    rewrite Hs. eexists _, _. split; [reflexivity|]. auto.
  - unfold ret at 1.
    destruct (disconnect_spec st1) as (st2 & -> & Hf2 & _ & _ & _ & _ & Hr2 & _).
    destruct Hs as [ds ->]. rewrite Ht. eexists _, _. split; [reflexivity|].
    split; [congruence|]. split; [reflexivity | congruence].
  - rewrite Hs, Ht. unfold bind at 1, the_conn. rewrite Htc. cbv beta iota.
    unfold bind at 1, conn_delete_all, conn_view.
    rewrite Hc, lookup_second_new. cbn [conn_open conn_txn conn_path].
    rewrite Hf, Ht.
    destruct (sql_delete_all dt tgt_table) as [e|dt']; cbv beta iota.
    + unfold ret at 1.
      destruct (disconnect_spec st1) as (st2 & -> & Hf2 & _ & _ & _ & _ & Hr2 & _).
      eexists _, _. split; [reflexivity|].
      split; [congruence|]. split; [reflexivity | congruence].
    + unfold bind at 1, conn_commit. cbn [conns log set_trace set_txn set_conns].
      rewrite Hc, list_lookup_alter_eq, lookup_second_new.
      cbn [fmap option_fmap option_map conn_open conn_txn conn_path].
      cbv beta iota. unfold ret at 1.
      match goal with
      | |- context [disconnect ?s] =>
          destruct (disconnect_spec s) as (st2 & -> & Hf2 & _ & _ & _ & _ & Hr2 & _)
      end.
      simpl in Hf2, Hr2. eexists _, _. split; [reflexivity|].
      split; [congruence|]. split; [reflexivity|]. rewrite Hf2, Hf. reflexivity.
Qed.

(** X17.  What [rollback_migration] does.  It never raises.  When both
    database files can be opened and the DELETE succeeds, it returns True
    and the target file holds the content the DELETE produced, every other
    file being as before; in every other case (a file cannot be opened, or
    the DELETE raises) it returns False and no file changes.  The list of
    results is not touched. *)
Theorem rollback_migration_result (tgt_table : string) (st : state) :
  let run := rollback_migration tgt_table st in
  (fst run = Done true \/ fst run = Done false) /\
  results (snd run) = results st /\
  match files st !! source_db_path, files st !! target_db_path with
  | Some _, Some dt =>
      match sql_delete_all dt tgt_table with
      | inr dt' =>
          fst run = Done true /\
          files (snd run) = <[ target_db_path := dt' ]> (files st)
      | inl _ => fst run = Done false /\ files (snd run) = files st
      end
  | _, _ => fst run = Done false /\ files (snd run) = files st
  end.
Proof.
  intros run. subst run.
  destruct (rollback_migration_spec tgt_table st) as (b & st' & -> & Hr & H).
  cbn [fst snd]. split; [destruct b; auto|]. split; [exact Hr|].
  destruct (files st !! source_db_path) as [ds|];
    [|destruct H as [-> ->]; auto].
  destruct (files st !! target_db_path) as [dt|];
    [|destruct H as [-> ->]; auto].
  destruct (sql_delete_all dt tgt_table); destruct H as [-> ->]; auto.
Qed.

(** X18.  Every call of [migrate_table] that ends, however it ends, adds
    exactly one result to [self.results], after those already there: the
    result it returns, or, when an exception escapes, a result with status
    FAILED. *)
Theorem migrate_table_records_its_result
    (fuel : nat) (src_table tgt_table : string) (cms : list column_mapping)
    (ts : list TransformationRule) (batch_size : Z) (dry_run : bool)
    (st : state) :
  let run := migrate_table fuel src_table tgt_table cms ts batch_size dry_run st in
  fst run <> Diverged ->
  exists r, results (snd run) = results st ++ [r] /\
            match fst run with
            | Done r' => r' = r
            | Raised _ => status r = FAILED
            | Diverged => False
            end.
Proof.
  intros run. subst run.
  destruct (migrate_table_spec fuel src_table tgt_table cms ts batch_size dry_run st)
    as (out & r & st1 & tr & st2 & Hatt & _ & _ & E & Hfin & _).
  rewrite E. cbn [fst snd]. intros Hd.
  assert (Hout : out <> Diverged) by (intros ->; apply Hd; reflexivity).
  destruct (Hfin Hout) as (_ & _ & _ & Hr & _).
  exists r. split; [exact Hr|].
  destruct out as [[]|e|]; [reflexivity | | contradiction].
  simpl. inversion Hatt; subst; assumption.
Qed.

(** *** The migration report *)

(** [str(record_id)] and the [:.1f] rendering of a rate. *)
Variable show_id : Z -> string.
Variable format_rate : Q -> string.

(** [MigrationStatus.value]. *)
Definition status_value (s : MigrationStatus) : string :=
  match s with
  | PENDING => "pending"
  | IN_PROGRESS => "in_progress"
  | COMPLETED => "completed"
  | FAILED => "failed"
  | ROLLED_BACK => "rolled_back"
  | PARTIAL => "partial"
  end.

(** [FailedRecord.to_dict], without the timestamp. *)
Record failed_dict : Type := FailedDict {
  fd_source_table : string;
  fd_record_id : string;
  fd_record_data : gmap string value;
  fd_error_message : string;
  fd_error_type : string
}.

Definition failed_to_dict (fr : FailedRecord) : failed_dict :=
  {| fd_source_table := fr_source_table fr;
     fd_record_id := show_id (record_id fr);
     fd_record_data := record_data fr;
     fd_error_message := error_message fr;
     fd_error_type := error_type fr |}.

(** The [success_rate] and [overall_success_rate] strings. *)
Definition success_rate (migrated attempted : nat) : string :=
  if (0 <? attempted)%nat
  then format_rate (inject_Z (Z.of_nat migrated) / inject_Z (Z.of_nat attempted)
                    * 100)%Q ++ "%"
  else "N/A".

(** [MigrationResult.to_dict] (without the timing fields). *)
Record result_dict : Type := ResultDict {
  rd_source_table : string;
  rd_target_table : string;
  rd_status : string;
  rd_records_attempted : nat;
  rd_records_migrated : nat;
  rd_records_failed : nat;
  rd_failed_records : list failed_dict;
  rd_error_message : option string;
  rd_transformations_applied : list string;
  rd_success_rate : string
}.

Definition result_to_dict (r : MigrationResult) : result_dict :=
  {| rd_source_table := source_table r;
     rd_target_table := target_table r;
     rd_status := status_value (status r);
     rd_records_attempted := records_attempted r;
     rd_records_migrated := records_migrated r;
     rd_records_failed := records_failed r;
     rd_failed_records := map failed_to_dict (take 100 (failed_records r));
     rd_error_message := result_error r;
     rd_transformations_applied := transformations_applied r;
     rd_success_rate := success_rate (records_migrated r) (records_attempted r) |}.

Record report_summary : Type := ReportSummary {
  total_tables : nat;
  total_records_attempted : nat;
  total_records_migrated : nat;
  total_records_failed : nat;
  overall_success_rate : string;
  report_status : string
}.

Record migration_report : Type := MigrationReport {
  summary : report_summary;
  table_results : list result_dict;
  all_failed_records : list failed_dict
}.

(** [sum(f(r) for r in self.results)]. *)
Definition sum_over (f : MigrationResult -> nat) (rs : list MigrationResult) : nat :=
  foldl (fun acc r => acc + f r) 0 rs.

(** [generate_migration_report], reading [self.results]. *)
Definition generate_migration_report (st : state) : migration_report :=
  let total_attempted := sum_over records_attempted (results st) in
  let total_migrated := sum_over records_migrated (results st) in
  let total_failed := sum_over records_failed (results st) in
  {| summary :=
       {| total_tables := length (results st);
          total_records_attempted := total_attempted;
          total_records_migrated := total_migrated;
          total_records_failed := total_failed;
          overall_success_rate := success_rate total_migrated total_attempted;
          report_status :=
            if Nat.eqb total_failed 0 then "SUCCESS"
            else if (0 <? total_migrated)%nat then "PARTIAL" else "FAILED" |};
     table_results := map result_to_dict (results st);
     all_failed_records :=
       take 500 (flat_map (fun r => map failed_to_dict (failed_records r))
                          (results st)) |}.

Lemma sum_over_from (f : MigrationResult -> nat) (rs : list MigrationResult) :
  forall acc, foldl (fun acc r => acc + f r) acc rs = acc + sum_over f rs.
Proof.
  unfold sum_over. induction rs as [|r rs IH]; intros acc; simpl; [lia|].
  rewrite (IH (acc + f r)), (IH (f r)). lia.
Qed.

Lemma sum_over_zero (f : MigrationResult -> nat) (rs : list MigrationResult) :
  sum_over f rs = 0 <-> Forall (fun r => f r = 0) rs.
Proof.
  induction rs as [|r rs IH].
  - split; [constructor | reflexivity].
  - unfold sum_over. simpl. rewrite sum_over_from. split.
    + intros H. constructor; [lia | apply IH; lia].
    + intros H. inversion H as [|? ? H0 Hrs]; subst.
      apply IH in Hrs. lia.
Qed.

(** X19.  The migration report.  Its totals are the sums of the counters of
    the recorded results.  Its status is read off two of them alone:
    "SUCCESS" exactly when no result counts a failed record, "FAILED" exactly
    when some result does and none counts a migrated record, "PARTIAL"
    exactly when some result counts a failed and some a migrated record.
    The success rate is "N/A" when nothing was attempted.  There is one
    table entry per result, in order, with the status of the result and at
    most 100 failed records; [all_failed_records] holds at most 500. *)
Theorem migration_report_reads_the_counters (st : state) :
  let report := generate_migration_report st in
  let s := summary report in
  total_tables s = length (results st) /\
  total_records_attempted s = sum_over records_attempted (results st) /\
  total_records_migrated s = sum_over records_migrated (results st) /\
  total_records_failed s = sum_over records_failed (results st) /\
  (report_status s = "SUCCESS" <->
     Forall (fun r => records_failed r = 0) (results st)) /\
  (report_status s = "FAILED" <->
     ~ Forall (fun r => records_failed r = 0) (results st) /\
     Forall (fun r => records_migrated r = 0) (results st)) /\
  (report_status s = "PARTIAL" <->
     ~ Forall (fun r => records_failed r = 0) (results st) /\
     ~ Forall (fun r => records_migrated r = 0) (results st)) /\
  (total_records_attempted s = 0 -> overall_success_rate s = "N/A") /\
  map rd_status (table_results report)
    = map (fun r => status_value (status r)) (results st) /\
  Forall (fun d => length (rd_failed_records d) <= 100) (table_results report) /\
  length (all_failed_records report) <= 500.
Proof.
  intros report s. subst s report.
  cbn [summary generate_migration_report total_tables total_records_attempted
       total_records_migrated total_records_failed report_status
       overall_success_rate table_results all_failed_records].
  pose proof (sum_over_zero records_failed (results st)) as Hf.
  pose proof (sum_over_zero records_migrated (results st)) as Hm.
  repeat (split; [reflexivity|]).
  assert (Hrest :
    (sum_over records_attempted (results st) = 0 ->
     success_rate (sum_over records_migrated (results st))
                  (sum_over records_attempted (results st)) = "N/A") /\
    map rd_status (map result_to_dict (results st))
      = map (fun r => status_value (status r)) (results st) /\
    Forall (fun d => length (rd_failed_records d) <= 100)
           (map result_to_dict (results st)) /\
    length (take 500 (flat_map (fun r => map failed_to_dict (failed_records r))
                               (results st))) <= 500).
  { split; [intros ->; reflexivity|].
    split; [rewrite map_map; reflexivity|].
    split; [|rewrite length_take; lia].
    apply Forall_map, Forall_forall. intros r _. simpl.
    rewrite length_map, length_take. lia. }
  destruct (Nat.eqb_spec (sum_over records_failed (results st)) 0) as [E|E].
  { assert (Hall : Forall (fun r => records_failed r = 0) (results st))
      by (apply Hf, E).
    split; [split; [intros _; exact Hall | reflexivity]|].
    split; [split; [discriminate | intros [Hn _]; contradiction]|].
    split; [split; [discriminate | intros [Hn _]; contradiction]|].
    exact Hrest. }
  assert (Hnf : ~ Forall (fun r => records_failed r = 0) (results st))
    by (intros H; apply E, Hf, H).
  destruct (Nat.ltb_spec 0 (sum_over records_migrated (results st))) as [Hpos|Hz].
  - assert (Hnm : ~ Forall (fun r => records_migrated r = 0) (results st))
      by (intros H; apply Hm in H; lia).
    split; [split; [discriminate | intros H; contradiction]|].
    split; [split; [discriminate | intros [_ H]; contradiction]|].
    split; [split; [intros _; split; assumption | reflexivity]|].
    exact Hrest.
  - assert (Hall : Forall (fun r => records_migrated r = 0) (results st))
      by (apply Hm; lia).
    split; [split; [discriminate | intros H; contradiction]|].
    split; [split; [intros _; split; assumption | reflexivity]|].
    split; [split; [discriminate | intros [_ H]; contradiction]|].
    exact Hrest.
Qed.

(** [migrate_table] on an executor one of whose files cannot be opened. *)
Lemma migrate_table_without_files fuel src_table tgt_table cms ts batch_size
    dry_run st :
  files st !! source_db_path = None \/ files st !! target_db_path = None ->
  exists out st',
    migrate_table fuel src_table tgt_table cms ts batch_size dry_run st
      = (out, st') /\
    out <> Diverged /\
    results st' = results st
      ++ [set_error (exn_msg open_failed)
            (set_status FAILED (fresh_result src_table tgt_table))] /\
    files st' = files st.
Proof.
  intros Hmiss.
  assert (Hatt : exists out st1,
    try_except
      (migrate_body fuel src_table tgt_table cms ts batch_size dry_run)
      migrate_handler
      (fresh_result src_table tgt_table, set_is_dry_run dry_run st)
    = (out, (set_error (exn_msg open_failed)
               (set_status FAILED (fresh_result src_table tgt_table)), st1)) /\
    out <> Diverged /\ results st1 = results st /\ files st1 = files st).
  { unfold try_except, migrate_body. unfold bind at 1, lift at 1. cbn [fst snd].
    destruct (connect_spec (set_is_dry_run dry_run st))
      as [[Hs E] | [(Hs & Ht & st' & E & Hf & _ & _ & _ & _ & Hrs & _)
                   | ([ds Hs] & [dt Ht] & _)]].
    - rewrite E.
      destruct (migrate_handler_spec open_failed (fresh_result src_table tgt_table)
                  (set_is_dry_run dry_run st))
        as (out & st1 & tr & Eh & Hc & Hfh & Hd & _).
      rewrite Eh. exists out, st1. destruct Hc as [_ _ _ Hr _ _].
      split; [reflexivity|]. split; [exact Hd|]. split; [exact Hr | exact Hfh].
    - rewrite E.
      destruct (migrate_handler_spec open_failed (fresh_result src_table tgt_table) st')
        as (out & st1 & tr & Eh & Hc & Hfh & Hd & _).
      rewrite Eh. exists out, st1. destruct Hc as [_ _ _ Hr _ _].
      split; [reflexivity|]. split; [exact Hd|].
      split; [rewrite Hr; exact Hrs | rewrite Hfh; exact Hf].
    - simpl in Hs, Ht. destruct Hmiss; congruence. }
  destruct Hatt as (out & st1 & E & Hd & Hr & Hf).
  unfold migrate_table, try_finally. fold (fresh_result src_table tgt_table).
  rewrite E.
  destruct (migrate_finally_spec
              (set_error (exn_msg open_failed)
                 (set_status FAILED (fresh_result src_table tgt_table))) st1)
    as (st2 & Ef & Hf2 & _ & _ & Hr2 & _).
  destruct out as [[]|e|]; [| |contradiction]; rewrite Ef;
    eexists _, _; (split; [reflexivity|]);
    (split; [discriminate|]); split; congruence.
Qed.

(** X20.  The report does not look at the status of a result.  When a
    database file cannot be opened, [migrate_table] ends, records a result
    with status FAILED and no failed record, and changes no file; on an
    executor with no earlier result the report made afterwards lists that
    table as "failed" while its summary status is "SUCCESS". *)
Theorem failed_connection_reports_success
    (fuel : nat) (src_table tgt_table : string) (cms : list column_mapping)
    (ts : list TransformationRule) (batch_size : Z) (dry_run : bool)
    (st : state) :
  files st !! source_db_path = None \/ files st !! target_db_path = None ->
  results st = [] ->
  let run := migrate_table fuel src_table tgt_table cms ts batch_size dry_run st in
  let report := generate_migration_report (snd run) in
  fst run <> Diverged /\ files (snd run) = files st /\
  map status (results (snd run)) = [FAILED] /\
  map rd_status (table_results report) = ["failed"] /\
  total_tables (summary report) = 1 /\
  total_records_failed (summary report) = 0 /\
  report_status (summary report) = "SUCCESS".
Proof.
  intros Hmiss Hnil run report. subst report run.
  destruct (migrate_table_without_files fuel src_table tgt_table cms ts
              batch_size dry_run st Hmiss) as (out & st' & -> & Hd & Hr & Hf).
  cbn [fst snd]. rewrite Hnil in Hr. simpl in Hr.
  unfold generate_migration_report. rewrite Hr. simpl.
  repeat split; assumption.
Qed.

End Executor.

Arguments files {db} _.
Arguments conns {db} _.
Arguments trace {db} _.
Arguments source_conn {db} _.
Arguments target_conn {db} _.
Arguments results {db} _.
Arguments is_dry_run {db} _.
Arguments Conn {db} _ _ _.
Arguments all_closed {db} _.

(** *** A small SQL engine to run the executor on

    A database is one table of rows.  An INSERT whose first value is NULL
    violates a NOT NULL constraint; a SELECT with LIMIT and OFFSET takes a
    slice. *)

Definition demo_db : Type := list row.

Definition demo_count (d : demo_db) (_ : string) : exn + nat := inr (length d).

Definition demo_select (d : demo_db) (_ : string) (_ : list string)
    (limit offset : Z) : exn + list row :=
  inr (take (Z.to_nat limit) (drop (Z.to_nat offset) d)).

Definition demo_insert (d : demo_db) (_ : string) (_ : list string)
    (vals : list value) : exn + demo_db :=
  match vals with
  | Null :: _ =>
      inl (Exn "IntegrityError" "NOT NULL constraint failed: users.name")
  | _ => inr (d ++ [(Z.of_nat (S (length d)), vals)])
  end.

Definition demo_delete (_ : demo_db) (_ : string) : exn + demo_db := inr [].

Definition demo_samples (d : demo_db) (_ _ : string) : exn + list value :=
  inr (flat_map snd d).

Definition demo_convert (_ : string) (v : value) : exn + value := inr v.

Definition demo_rows : demo_db :=
  [(1%Z, [Text "ann"]); (2%Z, [Null]); (3%Z, [Text "bob"])].

(** A fresh executor over a source of three rows and an empty target. *)
Definition demo_state : state demo_db :=
  {| files := <[ "source.db" := demo_rows ]> (<[ "target.db" := [] ]> ∅);
     conns := []; trace := []; source_conn := None; target_conn := None;
     results := []; is_dry_run := false |}.

(** A fresh executor whose target file cannot be opened. *)
Definition demo_no_target : state demo_db :=
  {| files := <[ "source.db" := demo_rows ]> ∅;
     conns := []; trace := []; source_conn := None; target_conn := None;
     results := []; is_dry_run := false |}.

Definition demo_mappings : list column_mapping :=
  [ColumnMapping (Some "name") None (Some "name") None].

Definition demo_migrate (fuel : nat) (batch_size : Z) (dry_run : bool)
  : St (state demo_db) MigrationResult :=
  migrate_table demo_db demo_count demo_select demo_insert demo_convert
    "source.db" "target.db" fuel "old_users" "users" demo_mappings []
    batch_size dry_run.

Definition result_of (o : outcome MigrationResult) : MigrationResult :=
  match o with
  | Done r => r
  | _ => fresh_result "" ""
  end.

Example demo_migrate_partial :
  let run := demo_migrate 3 2 false demo_state in
  status (result_of (fst run)) = PARTIAL /\
  records_migrated (result_of (fst run)) = 2 /\
  records_failed (result_of (fst run)) = 1 /\
  files (snd run) !! "target.db"
    = Some [(1%Z, [Text "ann"]); (2%Z, [Text "bob"])] /\
  rolled_back (trace (snd run)) = [] /\ commits (trace (snd run)) = 1.
Proof. vm_compute. repeat split. Qed.

Lemma migrate_table_accounts_for_rows_witness :
  let run := demo_migrate 3 2 false demo_state in
  let r := result_of (fst run) in
  (run = (Done r, snd run) /\ status r <> FAILED) /\
  exists tr,
    trace (snd run) = trace demo_state ++ tr /\
    failed_records r = map (failure_of "old_users" ["name"]) (row_failures tr) /\
    records_migrated r + records_failed r = length (fetched_rows tr).
Proof.
  intros run r.
  assert (E : run = (Done r, snd run)) by (vm_compute; reflexivity).
  assert (Hs : status r <> FAILED) by (vm_compute; discriminate).
  split; [split; assumption|].
  destruct (proj1 (proj2 (migrate_table_accounts_for_rows demo_db demo_count
                     demo_select demo_insert demo_convert "source.db" "target.db"
                     "old_users" "users" demo_mappings [] 2%Z demo_state))
                  3 r (snd run) E Hs)
    as (tr & Htr & _ & Hrec & _ & _ & _ & Hsum).
  exists tr. auto.
Defined.

Lemma migrate_table_commit_or_rollback_witness :
  let run := demo_migrate 3 2 false demo_state in
  exists tr ht,
    trace (snd run) = trace demo_state ++ tr /\
    target_conn (snd run) = Some ht /\
    committed tr = [ht] /\ rolled_back tr = [].
Proof.
  intros run.
  assert (E : run = (Done (result_of (fst run)), snd run))
    by (vm_compute; reflexivity).
  destruct (migrate_table_commit_or_rollback demo_db demo_count demo_select
              demo_insert demo_convert "source.db" "target.db" 3
              "old_users" "users" demo_mappings [] 2%Z false
              demo_state (snd run) (Done (result_of (fst run))) E)
    as (tr & Htr & _ & Hok & _).
  destruct Hok as (Hr & _ & ht & Hht & _ & Hc); [vm_compute; discriminate|].
  exists tr, ht. auto.
Defined.

(** C3 as first stated does not hold: with a target file that cannot be
    opened, a fresh executor reports FAILED although it rolled nothing
    back, since [self.target_conn] is still [None] in the handler. *)
Lemma migrate_table_failed_without_rollback :
  let run := demo_migrate 3 2 false demo_no_target in
  status (result_of (fst run)) = FAILED /\
  fst run = Done (result_of (fst run)) /\
  rollbacks (trace (snd run)) = 0 /\
  rolled_back (trace (snd run)) = [].
Proof. vm_compute. repeat split. Qed.

Lemma dry_run_leaves_target_untouched_witness :
  let run := demo_migrate 0 2 true demo_state in
  files (snd run) = files demo_state /\
  exists r,
    fst run = Done r /\ status r = COMPLETED /\
    records_attempted r = 3 /\ records_migrated r = 3 /\ records_failed r = 0.
Proof.
  intros run.
  destruct (dry_run_leaves_target_untouched demo_db demo_count demo_select
              demo_insert demo_convert "source.db" "target.db" 0
              "old_users" "users" demo_mappings [] 2%Z demo_state)
    as (Hfiles & _ & Hres).
  split; [exact Hfiles|].
  destruct (Hres demo_rows 3) as (r & Hr & Hst & Ha & Hm & Hf & _).
  - vm_compute. reflexivity.
  - eexists. vm_compute. reflexivity.
  - reflexivity.
  - exists r. auto.
Defined.

(** C5 fails on [detect_split_candidates]: it calls [connect] before its
    [try], so when the target cannot be opened the source connection that
    [connect] had already opened is never closed.  [migrate_table], whose
    [connect] is inside the [try], closes it on the same input. *)
Theorem detect_split_candidates_leaks_source :
  let run := detect_split_candidates demo_db demo_samples
               "source.db" "target.db" unit (fun _ _ => None)
               "old_users" "name" demo_no_target in
  all_closed demo_no_target /\
  fst run = Raised open_failed /\
  conns (snd run) = [Conn "source.db" true None] /\
  ~ all_closed (snd run) /\
  all_closed (snd (demo_migrate 3 2 false demo_no_target)).
Proof.
  vm_compute. repeat split.
  - constructor.
  - intros H. inversion H as [|? ? Hopen _]. discriminate Hopen.
  - repeat constructor.
Qed.

Definition demo_rollback : St (state demo_db) bool :=
  rollback_migration demo_db demo_delete "source.db" "target.db" "users".

(** Migrating and then rolling back empties the target again; the result of
    the migration stays recorded. *)
Example demo_migrate_then_rollback :
  let st1 := snd (demo_migrate 3 2 false demo_state) in
  let run := demo_rollback st1 in
  fst run = Done true /\
  files st1 !! "target.db" = Some [(1%Z, [Text "ann"]); (2%Z, [Text "bob"])] /\
  files (snd run) !! "target.db" = Some [] /\
  map status (results (snd run)) = [PARTIAL].
Proof. vm_compute. repeat split. Qed.

Lemma operations_close_their_connections_witness :
  all_closed (snd (demo_migrate 3 2 false demo_state)) /\
  all_closed (snd (demo_rollback demo_state)) /\
  all_closed (snd (detect_split_candidates demo_db demo_samples
                     "source.db" "target.db" unit (fun _ _ => None)
                     "old_users" "name" demo_state)).
Proof.
  destruct (operations_close_their_connections demo_db demo_count demo_select
              demo_insert demo_delete demo_samples demo_convert
              "source.db" "target.db" unit (fun _ _ => None) demo_state)
    as (Hm & Hr & Hs).
  - constructor.
  - split; [|split].
    + apply (Hm 3 "old_users" "users" demo_mappings [] 2%Z false).
      vm_compute. discriminate.
    + apply (Hr "users").
    + apply (Hs "old_users" "name"); eexists; vm_compute; reflexivity.
Defined.

Lemma migrate_table_records_its_result_witness :
  let run := demo_migrate 3 2 false demo_state in
  fst run <> Diverged /\
  exists r,
    results (snd run) = results demo_state ++ [r] /\
    match fst run with
    | Done r' => r' = r
    | Raised _ => status r = FAILED
    | Diverged => False
    end.
Proof.
  intros run.
  assert (Hd : fst run <> Diverged) by (vm_compute; discriminate).
  split; [exact Hd|].
  exact (migrate_table_records_its_result demo_db demo_count demo_select
           demo_insert demo_convert "source.db" "target.db" 3
           "old_users" "users" demo_mappings [] 2%Z false demo_state Hd).
Defined.

Lemma failed_connection_reports_success_witness :
  let run := demo_migrate 3 2 false demo_no_target in
  let report :=
    generate_migration_report demo_db (fun _ => "") (fun _ => "") (snd run) in
  map rd_status (table_results report) = ["failed"] /\
  report_status (summary report) = "SUCCESS".
Proof.
  intros run report.
  destruct (failed_connection_reports_success demo_db demo_count demo_select
              demo_insert demo_convert "source.db" "target.db"
              (fun _ => "") (fun _ => "") 3 "old_users" "users"
              demo_mappings [] 2%Z false demo_no_target)
    as (_ & _ & _ & Ht & _ & _ & Hs).
  - right. vm_compute. reflexivity.
  - reflexivity.
  - split; assumption.
Defined.

End Migration.

(** ** PS2: copying the rows (api.py, /api/migrate) *)

Module ForgeMigrate.

Import HybridEngine.
Local Open Scope string_scope.
Local Open Scope list_scope.

(** An entry of [failed_records]. *)
Record failed_row : Type := FailedRow {
  fr_source_table : string;
  fr_target_table : string;
  fr_data : gmap string Migration.value;
  fr_error : string;
  fr_reason : string
}.

(** [session["migration_result"]]. *)
Record migration_result : Type := MigrationCounts {
  mr_rows_migrated : nat;
  mr_rows_failed : nat;
  mr_failed_records : list failed_row
}.

(** The body of the answer, without its timestamp. *)
Record migrate_response : Type := MigrateResponse {
  success : bool;
  rows_migrated : nat;
  rows_failed : nat;
  failed_records : list failed_row;
  validation_summary : string
}.

(** [dict(zip(cols, row))]: a later pair of the same column wins. *)
Definition zip_dict (cols : list string) (row : list Migration.value)
  : gmap string Migration.value :=
  foldl (fun d kv => <[ fst kv := snd kv ]> d) ∅ (zip cols row).

Section Migrate.

Variables schema stats_t unmapped_col validation_t : Type.

(** The content of a database file. *)
Variable db : Type.
(** [SELECT cols FROM table] and [INSERT INTO table (cols) VALUES (...)];
    an INSERT that raises changes nothing. *)
Variable sql_select : db -> string -> list string -> exn + list (list Migration.value).
Variable sql_insert : db -> string -> list string -> list Migration.value -> exn + db.
(** [validate_migration(session_id, source_path, target_path, mappings)],
    which reads both files through connections of its own, and the
    ["summary"] of what it returns. *)
Variable validate_migration :
  gmap string db -> string -> string -> string -> list MatchResult -> exn + validation_t.
Variable summary_of : validation_t -> string.

Definition session : Type :=
  ForgeApi.session schema MatchResult stats_t unmapped_col validation_t
                   migration_result.

(** The database files, the number of connections that are open, and the
    [sessions] dictionary. *)
Record world : Type := World {
  files : gmap string db;
  open_connections : nat;
  sessions : gmap string session
}.

Definition open_failed : exn :=
  Exn "OperationalError" "unable to open database file".

(** [sqlite3.connect(path)]: the content the connection starts from. *)
Definition sqlite3_connect (path : string) (w : world) : (exn + db) * world :=
  match files w !! path with
  | Some d =>
      (inr d, {| files := files w;
                 open_connections := S (open_connections w);
                 sessions := sessions w |})
  | None => (inl open_failed, w)
  end.

(** [conn.close()]. *)
Definition close (w : world) : world :=
  {| files := files w;
     open_connections := pred (open_connections w);
     sessions := sessions w |}.

(** [target_conn.commit()]. *)
Definition commit (path : string) (d : db) (w : world) : world :=
  {| files := <[ path := d ]> (files w);
     open_connections := open_connections w;
     sessions := sessions w |}.

(** The locals of the copy: what the target connection sees, and
    [rows_migrated], [rows_failed], [failed_records]. *)
Record progress : Type := Progress {
  txn : db;
  migrated : nat;
  failed : nat;
  failures : list failed_row
}.

(** The body of [for row in rows]. *)
Definition copy_row (src_table tgt_table : string)
    (source_cols target_cols : list string) (p : progress)
    (row : list Migration.value) : progress :=
  match sql_insert (txn p) tgt_table target_cols row with
  | inr d =>
      {| txn := d; migrated := S (migrated p); failed := failed p;
         failures := failures p |}
  | inl e =>
      {| txn := txn p; migrated := migrated p; failed := S (failed p);
         failures := failures p ++
           [ {| fr_source_table := src_table;
                fr_target_table := tgt_table;
                fr_data := zip_dict source_cols row;
                fr_error := exn_msg e;
                fr_reason := "Database constraint violation or type mismatch" |} ] |}
  end.

(** [table_mappings]: the mappings grouped by their pair of tables. *)
Definition table_pairs (mappings : list MatchResult)
  : PyDict.dict (string * string) (list MatchResult) :=
  PyDict.group_all (fun m => (source_table m, target_table m))
                   (fun _ => []) (fun m cols => cols ++ [m]) mappings.

(** The body of [for (src_table, tgt_table), cols in table_mappings.items()];
    the SELECT can raise. *)
Definition copy_pair (src : db) (p : progress)
    (entry : (string * string) * list MatchResult) : exn + progress :=
  let '((src_table, tgt_table), cols) := entry in
  let source_cols := map source_column cols in
  let target_cols := map target_column cols in
  match sql_select src src_table source_cols with
  | inl e => inl e
  | inr rows =>
      inr (foldl (copy_row src_table tgt_table source_cols target_cols) p rows)
  end.

Fixpoint copy_pairs (src : db) (p : progress)
    (entries : list ((string * string) * list MatchResult)) : exn + progress :=
  match entries with
  | [] => inr p
  | entry :: rest =>
      match copy_pair src p entry with
      | inl e => inl e
      | inr p' => copy_pairs src p' rest
      end
  end.

(** [POST /api/migrate]. *)
Definition execute_migration (session_id : string) (w : world)
  : reply migrate_response * world :=
  match sessions w !! session_id with
  | None => (HTTPException 404 "Session not found", w)
  | Some s =>
      match ForgeApi.mappings _ _ _ _ _ _ s with
      | None => (HTTPException 400 "Analysis not run yet", w)
      | Some mappings =>
          let source_path := ForgeApi.source_path _ _ _ _ _ _ s in
          let target_path := ForgeApi.target_path _ _ _ _ _ _ s in
          match sqlite3_connect source_path w with
          | (inl e, w1) => (Uncaught e, w1)
          | (inr src, w1) =>
              match sqlite3_connect target_path w1 with
              | (inl e, w2) => (Uncaught e, w2)
              | (inr tgt, w2) =>
                  let start := {| txn := tgt; migrated := 0; failed := 0;
                                  failures := [] |} in
                  match copy_pairs src start (table_pairs mappings) with
                  | inl e => (Uncaught e, close (close w2))
                  | inr p =>
                      let w3 := close (close (commit target_path (txn p) w2)) in
                      match validate_migration (files w3) session_id
                              source_path target_path mappings with
                      | inl e => (Uncaught e, w3)
                      | inr validation =>
                          let s' : session :=
                            {| ForgeApi.source_path := source_path;
                               ForgeApi.target_path := target_path;
                               ForgeApi.source_schema :=
                                 ForgeApi.source_schema _ _ _ _ _ _ s;
                               ForgeApi.target_schema :=
                                 ForgeApi.target_schema _ _ _ _ _ _ s;
                               ForgeApi.mappings := Some mappings;
                               ForgeApi.validation := Some validation;
                               ForgeApi.created_at :=
                                 ForgeApi.created_at _ _ _ _ _ _ s;
                               ForgeApi.stats := ForgeApi.stats _ _ _ _ _ _ s;
                               ForgeApi.unmapped :=
                                 ForgeApi.unmapped _ _ _ _ _ _ s;
                               ForgeApi.migration_result :=
                                 Some {| mr_rows_migrated := migrated p;
                                         mr_rows_failed := failed p;
                                         mr_failed_records := failures p |} |} in
                          (Return {| success := Nat.eqb (failed p) 0;
                                     rows_migrated := migrated p;
                                     rows_failed := failed p;
                                     failed_records := take 10 (failures p);
                                     validation_summary := summary_of validation |},
                           {| files := files w3;
                              open_connections := open_connections w3;
                              sessions := <[ session_id := s' ]> (sessions w3) |})
                      end
                  end
              end
          end
      end
  end.

(** *** Every row read is counted once *)

(** The rows the SELECTs of a run return, pair by pair. *)
Definition rows_read (src : db) (mappings : list MatchResult)
  : list (list Migration.value) :=
  flat_map (fun entry : (string * string) * list MatchResult =>
              match sql_select src (fst (fst entry))
                               (map source_column (snd entry)) with
              | inr rows => rows
              | inl _ => []
              end)
           (table_pairs mappings).

Lemma copy_row_counted st tt sc tc (row : list Migration.value) p :
  let p' := copy_row st tt sc tc p row in
  migrated p' + failed p' = S (migrated p + failed p) /\
  length (failures p') + failed p = length (failures p) + failed p' /\
  failed p <= failed p' /\ migrated p <= migrated p'.
Proof.
  unfold copy_row. destruct (sql_insert (txn p) tt tc row) as [e|d];
    cbn [migrated failed failures]; [rewrite length_app; simpl|]; lia.
Qed.

Lemma copy_rows_counted st tt sc tc (rows : list (list Migration.value)) p :
  let p' := foldl (copy_row st tt sc tc) p rows in
  migrated p' + failed p' = migrated p + failed p + length rows /\
  length (failures p') + failed p = length (failures p) + failed p' /\
  failed p <= failed p' /\ migrated p <= migrated p'.
Proof.
  revert p. induction rows as [|row rows IH]; intros p; simpl; [lia|].
  specialize (IH (copy_row st tt sc tc p row)). cbv zeta in IH.
  pose proof (copy_row_counted st tt sc tc row p) as Hrow. cbv zeta in Hrow.
  lia.
Qed.

Lemma copy_pairs_counted src entries p p' :
  copy_pairs src p entries = inr p' ->
  migrated p' + failed p' = migrated p + failed p
    + length (flat_map (fun entry : (string * string) * list MatchResult =>
                match sql_select src (fst (fst entry))
                                 (map source_column (snd entry)) with
                | inr rows => rows
                | inl _ => []
                end) entries) /\
  length (failures p') + failed p = length (failures p) + failed p' /\
  failed p <= failed p' /\ migrated p <= migrated p'.
Proof.
  revert p. induction entries as [|[[st tt] cols] entries IH]; intros p; simpl.
  - intros [= ->]. simpl. lia.
  - destruct (sql_select src st (map source_column cols)) as [e|rows];
      [discriminate|].
    intros Hrest. apply IH in Hrest.
    pose proof (copy_rows_counted st tt (map source_column cols)
                  (map target_column cols) rows p) as Hrows.
    cbv zeta in Hrows. rewrite length_app. lia.
Qed.

(** X24.  /api/migrate counts every row it reads exactly once.  When the
    call returns, [rows_migrated + rows_failed] is the number of rows the
    SELECTs returned, one SELECT per pair of tables of the mappings;
    [success] holds exactly when no row failed; the session keeps one
    failed record per failed row, of which the answer shows the first ten;
    the session also keeps the validation, whose summary the answer
    carries, and its paths, schemas and mappings; no other session
    changes. *)
Theorem migrate_counts_every_row (session_id : string) (w : world)
    (body : migrate_response) :
  let run := execute_migration session_id w in
  fst run = Return body ->
  exists s mappings src s' counts validation,
    sessions w !! session_id = Some s /\
    ForgeApi.mappings _ _ _ _ _ _ s = Some mappings /\
    files w !! ForgeApi.source_path _ _ _ _ _ _ s = Some src /\
    NoDup (map fst (table_pairs mappings)) /\
    rows_migrated body + rows_failed body = length (rows_read src mappings) /\
    (success body = true <-> rows_failed body = 0) /\
    sessions (snd run) !! session_id = Some s' /\
    ForgeApi.migration_result _ _ _ _ _ _ s' = Some counts /\
    mr_rows_migrated counts = rows_migrated body /\
    mr_rows_failed counts = rows_failed body /\
    length (mr_failed_records counts) = rows_failed body /\
    failed_records body = take 10 (mr_failed_records counts) /\
    ForgeApi.validation _ _ _ _ _ _ s' = Some validation /\
    validation_summary body = summary_of validation /\
    ForgeApi.mappings _ _ _ _ _ _ s' = Some mappings /\
    ForgeApi.source_path _ _ _ _ _ _ s' = ForgeApi.source_path _ _ _ _ _ _ s /\
    ForgeApi.target_path _ _ _ _ _ _ s' = ForgeApi.target_path _ _ _ _ _ _ s /\
    (forall other, other <> session_id ->
       sessions (snd run) !! other = sessions w !! other).
Proof.
  intros run. subst run. unfold execute_migration.
  destruct (sessions w !! session_id) as [s|] eqn:Es; [|discriminate].
  destruct (ForgeApi.mappings _ _ _ _ _ _ s) as [mappings|] eqn:Em;
    [|discriminate].
  unfold sqlite3_connect.
  destruct (files w !! ForgeApi.source_path _ _ _ _ _ _ s) as [src|] eqn:Esrc;
    [|discriminate].
  cbn beta iota delta [files].
  destruct (files w !! ForgeApi.target_path _ _ _ _ _ _ s) as [tgt|] eqn:Etgt;
    [|discriminate].
  cbn beta iota.
  destruct (copy_pairs src _ (table_pairs mappings)) as [e|p] eqn:Ec;
    [discriminate|].
  destruct (validate_migration _ _ _ _ _) as [e|validation]; [discriminate|].
  cbn [fst snd]. intros [= <-].
  apply copy_pairs_counted in Ec. cbn [migrated failed failures] in Ec.
  destruct Ec as (Hsum & Hlen & _ & _). simpl in Hsum, Hlen.
  eexists s, mappings, src, _, _, validation.
  cbn [success rows_migrated rows_failed failed_records validation_summary
       sessions].
  split; [reflexivity|]. split; [exact Em|]. split; [exact Esrc|].
  split; [apply PyDict.group_all_keys_nodup|].
  split; [exact Hsum|].
  split; [apply Nat.eqb_eq|].
  split; [apply lookup_insert_eq|].
  cbn [ForgeApi.migration_result ForgeApi.validation ForgeApi.mappings
       ForgeApi.source_path ForgeApi.target_path].
  split; [reflexivity|].
  cbn [mr_rows_migrated mr_rows_failed mr_failed_records].
  split; [reflexivity|]. split; [reflexivity|]. split; [lia|].
  repeat (split; [reflexivity|]).
  intros other Hother. apply lookup_insert_ne. congruence.
Qed.

(** X25.  How /api/migrate ends, and what it leaves behind.  It commits
    once, after the last pair of tables, and validates after that.  So when
    a SELECT raises, nothing is committed: every file, the session and the
    count of open connections are as before, whatever rows had been
    inserted.  When the validation raises, the copy is already committed to
    the target file while the session records neither validation nor
    counts.  A session without mappings, or none at all, changes nothing.
    The two connections are opened before the [try]: when the source file
    opens and the target file does not, the source connection stays open;
    in every other case as many connections are open afterwards as
    before. *)
Theorem migrate_commits_last (session_id : string) (w : world) :
  let run := execute_migration session_id w in
  let w' := snd run in
  ((forall body, fst run <> Return body) -> sessions w' = sessions w) /\
  match sessions w !! session_id with
  | None => fst run = HTTPException 404 "Session not found" /\ w' = w
  | Some s =>
      match ForgeApi.mappings _ _ _ _ _ _ s with
      | None => fst run = HTTPException 400 "Analysis not run yet" /\ w' = w
      | Some mappings =>
          let source_path := ForgeApi.source_path _ _ _ _ _ _ s in
          let target_path := ForgeApi.target_path _ _ _ _ _ _ s in
          match files w !! source_path, files w !! target_path with
          | None, _ => fst run = Uncaught open_failed /\ w' = w
          | Some _, None =>
              fst run = Uncaught open_failed /\ files w' = files w /\
              open_connections w' = S (open_connections w)
          | Some src, Some tgt =>
              open_connections w' = open_connections w /\
              match copy_pairs src (Progress tgt 0 0 []) (table_pairs mappings) with
              | inl e => fst run = Uncaught e /\ files w' = files w
              | inr p =>
                  files w' = <[ target_path := txn p ]> (files w) /\
                  match validate_migration (files w') session_id
                          source_path target_path mappings with
                  | inl e => fst run = Uncaught e
                  | inr validation => exists body, fst run = Return body
                  end
              end
          end
      end
  end.
Proof.
  intros run w'. subst w' run. unfold execute_migration.
  destruct (sessions w !! session_id) as [s|] eqn:Es;
    [|split; [reflexivity | split; reflexivity]].
  destruct (ForgeApi.mappings _ _ _ _ _ _ s) as [mappings|] eqn:Em;
    [|split; [reflexivity | split; reflexivity]].
  unfold sqlite3_connect.
  destruct (files w !! ForgeApi.source_path _ _ _ _ _ _ s) as [src|] eqn:Esrc;
    [|split; [reflexivity | split; reflexivity]].
  cbn beta iota delta [files].
  destruct (files w !! ForgeApi.target_path _ _ _ _ _ _ s) as [tgt|] eqn:Etgt;
    [|split; [reflexivity | split; [reflexivity | split; reflexivity]]].
  cbn beta iota zeta.
  destruct (copy_pairs src _ (table_pairs mappings)) as [e|p] eqn:Ec.
  { split; [reflexivity|]. split; [reflexivity|]. split; reflexivity. }
  unfold close, commit. cbn [files open_connections sessions Nat.pred].
  destruct (validate_migration _ _ _ _ _) as [e|validation] eqn:Ev;
    cbn [fst snd files open_connections sessions].
  - rewrite Ev. split; [reflexivity|]. split; [reflexivity|].
    split; reflexivity.
  - rewrite Ev.
    split; [intros Hne; exfalso; eapply Hne; reflexivity|].
    split; [reflexivity|]. split; [reflexivity|].
    eexists. reflexivity.
Qed.

End Migrate.

(** A run on a source of two rows, the second of which the target refuses. *)
Definition demo_db : Type := list (list Migration.value).

Definition demo_select (d : demo_db) (_ : string) (_ : list string)
  : exn + list (list Migration.value) := inr d.

Definition demo_insert (d : demo_db) (_ : string) (_ : list string)
    (row : list Migration.value) : exn + demo_db :=
  match row with
  | Migration.Null :: _ =>
      inl (Exn "IntegrityError" "NOT NULL constraint failed: customers.name")
  | _ => inr (d ++ [row])
  end.

Definition demo_validate (_ : gmap string demo_db) (_ _ _ : string)
    (_ : list MatchResult) : exn + string := inr "checked".

Definition demo_world : world unit unit unit string demo_db :=
  {| files :=
       <[ "source.db" := [[Migration.Text "ann"; Migration.Integer 1];
                          [Migration.Null; Migration.Integer 2]] ]>
         (<[ "target.db" := [] ]> ∅);
     open_connections := 0;
     sessions :=
       {[ "20240301_101500" :=
            {| ForgeApi.source_path := "source.db";
               ForgeApi.target_path := "target.db";
               ForgeApi.source_schema := ();
               ForgeApi.target_schema := ();
               ForgeApi.mappings :=
                 Some [Visualization.demo_mapping "nm" "name";
                       Visualization.demo_mapping "id" "customer_id"];
               ForgeApi.validation := None;
               ForgeApi.created_at := "2024-03-01T10:15:00";
               ForgeApi.stats := None;
               ForgeApi.unmapped := None;
               ForgeApi.migration_result := None |} ]} |}.

Definition demo_run
  : reply migrate_response * world unit unit unit string demo_db :=
  execute_migration unit unit unit string demo_db demo_select demo_insert
    demo_validate (fun v => v) "20240301_101500" demo_world.

Definition demo_body : migrate_response :=
  match fst demo_run with
  | Return body => body
  | _ => MigrateResponse false 0 0 [] ""
  end.

Example demo_execute_migration :
  (success demo_body, rows_migrated demo_body, rows_failed demo_body,
   map fr_error (failed_records demo_body), validation_summary demo_body)
  = (false, 1, 1, ["NOT NULL constraint failed: customers.name"], "checked") /\
  files _ _ _ _ _ (snd demo_run) !! "target.db"
  = Some [[Migration.Text "ann"; Migration.Integer 1]].
Proof. vm_compute. split; reflexivity. Qed.

Lemma migrate_counts_every_row_witness :
  fst demo_run = Return demo_body /\
  (success demo_body = true <-> rows_failed demo_body = 0).
Proof.
  assert (Hrun : fst demo_run = Return demo_body) by (vm_compute; reflexivity).
  split; [exact Hrun|].
  destruct (migrate_counts_every_row unit unit unit string demo_db demo_select
              demo_insert demo_validate (fun v => v) "20240301_101500" demo_world
              demo_body Hrun)
    as (s & ms & src & s' & counts & v & _ & _ & _ & _ & _ & Hsuccess & _).
  exact Hsuccess.
Defined.

End ForgeMigrate.

(** ** PS2: split and merge candidates (migration_executor.py) *)

Module SplitMerge.

Local Open Scope string_scope.
Local Open Scope list_scope.

(** [delim in s] and [s.split(delim)] for a delimiter of one character. *)
Definition contains_char (d : ascii) (s : string) : bool :=
  existsb (Ascii.eqb d) (list_ascii_of_string s).

Fixpoint split_on (d : ascii) (s : string) : list string :=
  match s with
  | EmptyString => [EmptyString]
  | String c rest =>
      if Ascii.eqb c d then EmptyString :: split_on d rest
      else match split_on d rest with
           | p :: ps => String c p :: ps
           | [] => [String c EmptyString]
           end
  end.

(** The dictionary returned by [detect_split_candidates]. *)
Record split_report : Type := SplitReport {
  sr_column : string;
  recommended_delimiter : ascii;
  average_parts : Q;
  sample : list string
}.

(** [delimiters = [' ', ',', ';', '|', '-', '_']]. *)
Definition delimiters : list ascii :=
  [" "; ","; ";"; "|"; "-"; "_"]%char.

(** [max(delimiter_counts, key=delimiter_counts.get)]: the first key, in
    insertion order, with the largest count. *)
Fixpoint max_by_count (best : ascii * nat) (l : list (ascii * nat)) : ascii * nat :=
  match l with
  | [] => best
  | x :: l' => max_by_count (if (snd best <? snd x)%nat then x else best) l'
  end.

Section Split.

(** [str(v)] for a value read from SQLite, and [round(x, 1)]. *)
Variable py_str : Migration.value -> string.
Variable round1 : Q -> Q.

(** [sum(1 for s in samples if delim in str(s))]. *)
Definition count_with (d : ascii) (samples : list Migration.value) : nat :=
  length (List.filter (fun s => contains_char d (py_str s)) samples).

(** [count > len(samples) * 0.5]. *)
Definition frequent (count : nat) (samples : list Migration.value) : bool :=
  Qlt_bool (inject_Z (Z.of_nat (length samples)) * (5 # 10))
           (inject_Z (Z.of_nat count)).

(** The loop that fills [delimiter_counts]. *)
Definition delimiter_counts (samples : list Migration.value) : list (ascii * nat) :=
  flat_map (fun d =>
              let count := count_with d samples in
              if frequent count samples then [(d, count)] else [])
           delimiters.

(** [sum(len(str(s).split(best_delim)) for s in samples) / len(samples)]. *)
Definition avg_parts (d : ascii) (samples : list Migration.value) : Q :=
  inject_Z (Z.of_nat (sum_list (map (fun s => length (split_on d (py_str s)))
                                    samples)))
  / inject_Z (Z.of_nat (length samples)).

(** The analysis [detect_split_candidates] makes of its samples, once it
    knows there are some. *)
Definition analyse_samples (column : string) (samples : list Migration.value)
  : option split_report :=
  match delimiter_counts samples with
  | [] => None
  | first :: others =>
      let best_delim := fst (max_by_count first others) in
      Some {| sr_column := column;
              recommended_delimiter := best_delim;
              average_parts := round1 (avg_parts best_delim samples);
              sample := match samples with
                        | s0 :: _ => split_on best_delim (py_str s0)
                        | [] => []
                        end |}
  end.

End Split.

(** *** Splitting and joining *)

Lemma split_on_nonempty (d : ascii) (s : string) : split_on d s <> [].
Proof.
  destruct s as [|c rest]; simpl; [discriminate|].
  destruct (Ascii.eqb c d); [discriminate|].
  destruct (split_on d rest); discriminate.
Qed.

Lemma join_cons (sep p : string) (rest : list string) :
  rest <> [] ->
  SemanticMatch.join sep (p :: rest)
  = (p ++ sep ++ SemanticMatch.join sep rest)%string.
Proof. destruct rest; [contradiction | reflexivity]. Qed.

Lemma join_split_on (d : ascii) (s : string) :
  SemanticMatch.join (String d EmptyString) (split_on d s) = s.
Proof.
  induction s as [|c rest IH]; simpl; [reflexivity|].
  pose proof (split_on_nonempty d rest) as Hn.
  destruct (Ascii.eqb_spec c d) as [->|Hne].
  - rewrite join_cons by exact Hn. rewrite IH. reflexivity.
  - destruct (split_on d rest) as [|p ps]; [contradiction|].
    destruct ps as [|q qs].
    + simpl in IH |- *. rewrite IH. reflexivity.
    + rewrite join_cons by discriminate.
      rewrite join_cons in IH by discriminate.
      rewrite <- IH. reflexivity.
Qed.

Lemma split_on_parts (d : ascii) (s : string) :
  (1 <= length (split_on d s))%nat /\
  (contains_char d s = true <-> (2 <= length (split_on d s))%nat).
Proof.
  unfold contains_char. induction s as [|c rest [IH1 IH2]]; simpl.
  - split; [lia|]. split; [discriminate | lia].
  - rewrite (Ascii.eqb_sym d c). destruct (Ascii.eqb c d); simpl.
    + split; [lia|]. split; [lia | reflexivity].
    + destruct (split_on d rest) as [|p ps]; simpl in *; [lia|].
      split; [lia|]. exact IH2.
Qed.

Lemma max_by_count_spec (l : list (ascii * nat)) (best : ascii * nat) :
  let m := max_by_count best l in
  (m = best \/ In m l) /\ (snd best <= snd m)%nat /\
  Forall (fun x => (snd x <= snd m)%nat) l.
Proof.
  revert best. induction l as [|x l IH]; intros best; simpl.
  - split; [left; reflexivity|]. split; [lia | constructor].
  - specialize (IH (if (snd best <? snd x)%nat then x else best)).
    cbv zeta in IH. destruct IH as (Hin & Hge & Hall).
    destruct (Nat.ltb_spec (snd best) (snd x)) as [Hlt|Hle].
    + split; [destruct Hin as [-> | Hin]; auto|].
      split; [lia|]. constructor; [exact Hge | exact Hall].
    + split; [destruct Hin as [-> | Hin]; auto|].
      split; [exact Hge|]. constructor; [lia | exact Hall].
Qed.

Section SplitFacts.

Variable py_str : Migration.value -> string.
Variable round1 : Q -> Q.

Lemma frequent_iff (count : nat) (samples : list Migration.value) :
  frequent count samples = true <-> (length samples < 2 * count)%nat.
Proof.
  unfold frequent. rewrite Qlt_bool_iff.
  unfold Qlt, Qmult, inject_Z; simpl. lia.
Qed.

Lemma delimiter_counts_in (samples : list Migration.value) (d : ascii) (n : nat) :
  In (d, n) (delimiter_counts py_str samples) <->
  In d delimiters /\ n = count_with py_str d samples /\
  (length samples < 2 * n)%nat.
Proof.
  unfold delimiter_counts. rewrite in_flat_map. split.
  - intros (d' & Hd' & Hin). cbv zeta in Hin.
    destruct (frequent _ samples) eqn:Ef; [|destruct Hin].
    destruct Hin as [[= <- <-] | []].
    apply frequent_iff in Ef. auto.
  - intros (Hd & -> & Hn). exists d. split; [exact Hd|]. cbv zeta.
    apply frequent_iff in Hn. rewrite Hn. left. reflexivity.
Qed.

Lemma sum_parts_ge (d : ascii) (samples : list Migration.value) :
  (length samples + count_with py_str d samples
   <= sum_list (map (fun s => length (split_on d (py_str s))) samples))%nat.
Proof.
  unfold count_with. induction samples as [|s samples IH]; simpl; [lia|].
  destruct (split_on_parts d (py_str s)) as [H1 H2].
  destruct (contains_char d (py_str s)); simpl.
  - assert (2 <= length (split_on d (py_str s)))%nat by (apply H2; reflexivity).
    lia.
  - lia.
Qed.

(** X26.  The split analysis of [detect_split_candidates], for a column
    with at least one sample.  It reports nothing exactly when none of the
    six delimiters occurs in more than half of the samples.  Otherwise the
    recommended delimiter is one of the six, occurs in more than half of
    the samples, and in at least as many samples as each other delimiter;
    the sample it shows is the first value split at that delimiter, so
    joining the parts with the delimiter gives the value back; and the
    average number of parts it rounds is greater than 1.5. *)
Theorem split_analysis_picks_the_most_frequent (column : string)
    (s0 : Migration.value) (rest : list Migration.value) :
  let samples := s0 :: rest in
  let occurs d := count_with py_str d samples in
  match analyse_samples py_str round1 column samples with
  | None => forall d, In d delimiters -> (2 * occurs d <= length samples)%nat
  | Some r =>
      let d := recommended_delimiter r in
      sr_column r = column /\
      In d delimiters /\
      (length samples < 2 * occurs d)%nat /\
      (forall d', In d' delimiters -> (occurs d' <= occurs d)%nat) /\
      sample r = split_on d (py_str s0) /\
      SemanticMatch.join (String d EmptyString) (sample r) = py_str s0 /\
      average_parts r = round1 (avg_parts py_str d samples) /\
      (3 # 2 < avg_parts py_str d samples)%Q
  end.
Proof.
  intros samples occurs. unfold analyse_samples.
  destruct (delimiter_counts py_str samples) as [|first others] eqn:Ec.
  - intros d Hd.
    destruct (Nat.le_gt_cases (2 * occurs d) (length samples)) as [Hle|Hgt];
      [exact Hle|].
    exfalso.
    assert (Hin : In (d, occurs d) (delimiter_counts py_str samples))
      by (apply delimiter_counts_in; auto).
    rewrite Ec in Hin. destruct Hin.
  - cbv zeta. cbn [sr_column recommended_delimiter average_parts sample].
    destruct (max_by_count_spec others first) as (Hin & _ & Hall).
    cbv zeta in Hin, Hall.
    set (m := max_by_count first others) in *.
    assert (Hm : In m (delimiter_counts py_str samples)).
    { rewrite Ec. destruct Hin as [-> | Hin]; [left; reflexivity | right; exact Hin]. }
    assert (Hfirst : (snd first <= snd m)%nat).
    { destruct (max_by_count_spec others first) as (_ & Hge & _). exact Hge. }
    destruct m as [d n] eqn:Em. cbn [fst snd] in *.
    apply delimiter_counts_in in Hm as (Hd & Hn & Hfreq).
    fold (occurs d) in Hn. subst n.
    split; [reflexivity|]. split; [exact Hd|]. split; [exact Hfreq|].
    split; [|split; [reflexivity|]; split; [apply join_split_on|];
             split; [reflexivity|]].
    + intros d' Hd'.
      destruct (Nat.le_gt_cases (2 * occurs d') (length samples)) as [Hle|Hgt];
        [lia|].
      assert (Hin' : In (d', occurs d') (delimiter_counts py_str samples))
        by (apply delimiter_counts_in; auto).
      rewrite Ec in Hin'. destruct Hin' as [E | Hin'].
      * rewrite E in Hfirst. exact Hfirst.
      * rewrite Forall_forall in Hall.
        apply (Hall (d', occurs d')), list_elem_of_In, Hin'.
    + pose proof (sum_parts_ge d samples) as Hsum. fold (occurs d) in Hsum.
      unfold avg_parts.
      set (total := sum_list _) in *.
      assert (Hlen : (0 < length samples)%nat) by (simpl; lia).
      apply Qlt_shift_div_l.
      * unfold Qlt, inject_Z; cbn [Qnum Qden]. lia.
      * unfold Qlt, Qmult, inject_Z; cbn [Qnum Qden]. lia.
Qed.

End SplitFacts.

(** A column of names: the space wins, and the first name splits in two. *)
Definition demo_str (v : Migration.value) : string :=
  match v with
  | Migration.Text s => s
  | _ => ""
  end.

Example demo_analyse_samples :
  option_map (fun r => (recommended_delimiter r, sample r))
    (analyse_samples demo_str (fun q => q) "full_name"
       [Migration.Text "Ann Lee"; Migration.Text "Bob-Ray Fox";
        Migration.Text "Cy"])
  = Some (" "%char, ["Ann"; "Lee"]).
Proof. vm_compute. reflexivity. Qed.

(** *** Merge candidates *)

(** [merge_patterns]: the columns of a pattern, the suggested target and
    the template. *)
Definition merge_patterns : list (list string * string * string) :=
  [ (["first_name"; "last_name"], "full_name", "{0} {1}");
    (["fname"; "lname"], "name", "{0} {1}");
    (["street"; "city"; "state"; "zip"], "address", "{0}, {1}, {2} {3}");
    (["addr"; "city"; "state"; "zip"], "full_address", "{0}, {1}, {2} {3}");
    (["day"; "month"; "year"], "date", "{2}-{1}-{0}");
    (["area_code"; "phone"], "phone_number", "({0}) {1}") ].

(** [s.replace("_", "")]. *)
Definition remove_underscores (s : string) : string :=
  string_of_list_ascii
    (List.filter (fun c => negb (Ascii.eqb c "_")) (list_ascii_of_string s)).

(** [l.index(p)]: the first position of [p]; [None] for its [ValueError]. *)
Fixpoint index_of (p : string) (l : list string) : option nat :=
  match l with
  | [] => None
  | x :: l' => if decide (p = x) then Some 0 else S <$> index_of p l'
  end.

(** The dictionary returned by [detect_merge_candidates]. *)
Record merge_report : Type := MergeReport {
  source_columns : list string;
  suggested_target : string;
  merge_template : string
}.

Section Merge.

Variable lower : string -> string.

(** [[c.lower().replace("_", "") for c in columns]]. *)
Definition normalized (columns : list string) : list string :=
  map (fun c => remove_underscores (lower c)) columns.

(** [[columns[normalized_cols.index(p)] for p in pattern_normalized
     if p in normalized_cols]]; [None] if a lookup raised. *)
Definition source_columns_for (columns normalized_cols pattern_normalized : list string)
  : option (list string) :=
  mapM (fun p => match index_of p normalized_cols with
                 | Some i => columns !! i
                 | None => None
                 end)
       (List.filter (fun p => bool_decide (p ∈ normalized_cols))
                    pattern_normalized).

(** [all(p in normalized_cols for p in pattern_normalized)]. *)
Definition covered (normalized_cols : list string) (pattern_cols : list string)
  : bool :=
  forallb (fun p => bool_decide (p ∈ normalized_cols))
          (map remove_underscores pattern_cols).

(** The loop over the patterns: the first covered pattern is returned.  The
    outer [None] stands for an exception. *)
Fixpoint first_covered (columns normalized_cols : list string)
    (patterns : list (list string * string * string))
  : option (option merge_report) :=
  match patterns with
  | [] => Some None
  | (pattern_cols, target, template) :: rest =>
      if covered normalized_cols pattern_cols
      then match source_columns_for columns normalized_cols
                   (map remove_underscores pattern_cols) with
           | Some cs =>
               Some (Some {| source_columns := cs;
                             suggested_target := target;
                             merge_template := template |})
           | None => None
           end
      else first_covered columns normalized_cols rest
  end.

(** [AdvancedMigrationExecutor.detect_merge_candidates]; it reads neither
    its [source_table] argument nor a database. *)
Definition detect_merge_candidates (columns : list string)
  : option (option merge_report) :=
  first_covered columns (normalized columns) merge_patterns.

Lemma index_of_spec (p : string) (l : list string) :
  p ∈ l -> exists i, index_of p l = Some i /\ l !! i = Some p.
Proof.
  induction l as [|x l IH]; intros Hin.
  - apply elem_of_nil in Hin. destruct Hin.
  - simpl. destruct (decide (p = x)) as [->|Hne].
    + exists 0. split; reflexivity.
    + apply elem_of_cons in Hin as [Heq | Hin]; [contradiction|].
      destruct (IH Hin) as (i & Hi & Hl). exists (S i).
      rewrite Hi. split; [reflexivity | exact Hl].
Qed.

Lemma source_columns_for_spec (columns pattern : list string) :
  Forall (fun p => p ∈ normalized columns) pattern ->
  exists cs,
    source_columns_for columns (normalized columns) pattern = Some cs /\
    Forall2 (fun p c => c ∈ columns /\ remove_underscores (lower c) = p)
            pattern cs.
Proof.
  unfold source_columns_for. induction 1 as [|p pattern Hp _ IH].
  - exists []. split; [reflexivity | constructor].
  - destruct IH as (cs & Hcs & Hall).
    simpl. rewrite bool_decide_eq_true_2 by exact Hp.
    destruct (index_of_spec p _ Hp) as (i & Hi & Hl).
    unfold normalized in Hl. rewrite list_lookup_fmap in Hl.
    destruct (columns !! i) as [c|] eqn:Ec; [|discriminate].
    simpl in Hl. injection Hl as Hc.
    exists (c :: cs). split.
    + apply mapM_Some_2. constructor; [rewrite Hi; exact Ec|].
      apply mapM_Some_1, Hcs.
    + constructor; [|exact Hall].
      split; [eapply list_elem_of_lookup_2, Ec | exact Hc].
Qed.

Lemma covered_iff (normalized_cols pattern_cols : list string) :
  covered normalized_cols pattern_cols = true <->
  Forall (fun p => p ∈ normalized_cols) (map remove_underscores pattern_cols).
Proof.
  unfold covered. rewrite forallb_forall, Forall_forall. split.
  - intros H p Hp. apply list_elem_of_In, H in Hp.
    apply bool_decide_eq_true in Hp. exact Hp.
  - intros H p Hp. apply bool_decide_eq_true, H, list_elem_of_In, Hp.
Qed.

Lemma first_covered_spec (columns : list string)
    (patterns : list (list string * string * string)) :
  exists result,
    first_covered columns (normalized columns) patterns = Some result /\
    match result with
    | None =>
        Forall (fun pat => covered (normalized columns) (fst (fst pat)) = false)
               patterns
    | Some r =>
        exists earlier pattern_cols later,
          patterns = earlier
                     ++ (pattern_cols, suggested_target r, merge_template r)
                     :: later /\
          Forall (fun pat => covered (normalized columns) (fst (fst pat)) = false)
                 earlier /\
          Forall2 (fun p c => c ∈ columns /\
                     remove_underscores (lower c) = remove_underscores p)
                  pattern_cols (source_columns r)
    end.
Proof.
  induction patterns as [|[[pattern_cols target] template] patterns IH]; simpl.
  - exists None. split; [reflexivity | constructor].
  - destruct (covered (normalized columns) pattern_cols) eqn:Ecov.
    + apply covered_iff in Ecov.
      destruct (source_columns_for_spec columns _ Ecov) as (cs & -> & Hall).
      eexists. split; [reflexivity|].
      exists [], pattern_cols, patterns.
      cbn [suggested_target merge_template source_columns].
      split; [reflexivity|]. split; [constructor|].
      apply Forall2_fmap_l in Hall. exact Hall.
    + destruct IH as ([r|] & -> & Hr).
      * eexists. split; [reflexivity|].
        destruct Hr as (earlier & pc & later & -> & Hearlier & Hall).
        exists ((pattern_cols, target, template) :: earlier), pc, later.
        split; [reflexivity|]. split; [|exact Hall].
        constructor; [exact Ecov | exact Hearlier].
      * exists None. split; [reflexivity|].
        constructor; [exact Ecov | exact Hr].
Qed.

(** X27.  [detect_merge_candidates] never raises, and what it suggests is
    made of the columns it was given.  It answers with the first of the six
    merge patterns all of whose columns occur among the given columns,
    compared in lower case and without underscores, and with nothing when
    there is no such pattern.  The source columns of the answer are given
    columns, one per column of the pattern and in the order of the pattern,
    each equal to its pattern column up to case and underscores; the target
    and the template are those of the pattern. *)
Theorem merge_candidates_are_given_columns (columns : list string) :
  exists result,
    detect_merge_candidates columns = Some result /\
    match result with
    | None =>
        forall pattern_cols target template,
          In (pattern_cols, target, template) merge_patterns ->
          exists p, In p pattern_cols /\
                    remove_underscores p ∉ normalized columns
    | Some r =>
        exists earlier pattern_cols later,
          merge_patterns
            = earlier ++ (pattern_cols, suggested_target r, merge_template r)
                      :: later /\
          (forall pat, In pat earlier ->
             exists p, In p (fst (fst pat)) /\
                       remove_underscores p ∉ normalized columns) /\
          Forall2 (fun p c => c ∈ columns /\
                     remove_underscores (lower c) = remove_underscores p)
                  pattern_cols (source_columns r)
    end.
Proof.
  assert (Hmiss : forall pattern_cols,
    covered (normalized columns) pattern_cols = false ->
    exists p, In p pattern_cols /\ remove_underscores p ∉ normalized columns).
  { intros pattern_cols Hc. unfold covered in Hc.
    induction pattern_cols as [|p pattern_cols IH]; simpl in Hc; [discriminate|].
    apply andb_false_iff in Hc as [Hc | Hc].
    - apply bool_decide_eq_false in Hc. exists p. split; [left; reflexivity | exact Hc].
    - destruct (IH Hc) as (q & Hq & Hn). exists q. split; [right; exact Hq | exact Hn]. }
  unfold detect_merge_candidates.
  destruct (first_covered_spec columns merge_patterns) as ([r|] & -> & Hr).
  - eexists. split; [reflexivity|].
    destruct Hr as (earlier & pc & later & E & Hearlier & Hall).
    exists earlier, pc, later. split; [exact E|]. split; [|exact Hall].
    intros pat Hpat. apply Hmiss.
    rewrite Forall_forall in Hearlier. apply Hearlier, list_elem_of_In, Hpat.
  - exists None. split; [reflexivity|].
    intros pattern_cols target template Hin. apply Hmiss.
    rewrite Forall_forall in Hr.
    apply (Hr (pattern_cols, target, template)), list_elem_of_In, Hin.
Qed.

End Merge.

Example demo_detect_merge_candidates :
  detect_merge_candidates HybridSignals.ascii_lower
    ["ID"; "Last_Name"; "FirstName"; "city"]
  = Some (Some {| source_columns := ["FirstName"; "Last_Name"];
                  suggested_target := "full_name";
                  merge_template := "{0} {1}" |}).
Proof. vm_compute. reflexivity. Qed.

End SplitMerge.
